(** * Yjs core: struct store, delete set and transaction cleanup

    A shallow embedding of [src/utils/StructStore.js],
    [src/utils/DeleteSet.js], [src/utils/Transaction.js] and of the
    [ItemString] struct, together with the properties stated about them.
    Code that these sources call but that is not among them is modelled
    from the specification; the definitions concerned say so.

    Conventions.
    - JavaScript numbers that hold clocks, lengths and array indices are
      integers; they are modelled by [Z] (indices can reach [-1]).
    - A JavaScript array is a [list]; reading outside its bounds yields
      [undefined], modelled by [None]; using [undefined] as an object
      raises a [TypeError].
    - [Map<number, _>] objects that are only read by key are [gmap]s; maps
      whose iteration order is observable are association lists in
      insertion order.
    - A reference to a struct object is modelled by the [ID] of the struct
      it points to, a reference to a shared type by a [TypeRef].
    - Loops whose termination is not structural take a [fuel] argument and
      return [OutOfFuel] when it is exhausted. *)

From stdpp Require Import gmap strings list fin_maps.
From Stdlib Require Import ZArith Lia Sorted.

Local Open Scope Z_scope.

(** ** Outcomes of a JavaScript call *)

Inductive Error : Type :=
| unexpectedCase   (* error.unexpectedCase() of lib0 *)
| TypeError        (* property access on undefined *)
| DecodeError.     (* reading past the end of a decoder *)

Inductive Result (A : Type) : Type :=
| Ret (a : A)
| Throw (e : Error)
| OutOfFuel.

Arguments Ret {A} a.
Arguments Throw {A} e.
Arguments OutOfFuel {A}.

#[global] Instance Result_bind : MBind Result := fun A B k r =>
  match r with
  | Ret a => k a
  | Throw e => Throw e
  | OutOfFuel => OutOfFuel
  end.

(** [o] is a value that may be [undefined]; using it as an object throws. *)
Definition defined {A : Type} (o : option A) : Result A :=
  match o with
  | Some a => Ret a
  | None => Throw TypeError
  end.

(** ** JavaScript arrays and strings *)

(** [arr[i]] *)
Definition js_get {A : Type} (arr : list A) (i : Z) : option A :=
  if i <? 0 then None else arr !! Z.to_nat i.

(** The start position [Array.prototype.splice] computes from its first
    argument: negative values count from the end, everything is clamped
    to the array. *)
Definition js_start {A : Type} (arr : list A) (start : Z) : nat :=
  let n := Z.of_nat (length arr) in
  Z.to_nat (if start <? 0 then Z.max (n + start) 0 else Z.min start n).

(** [arr.splice(start, 0, x)] *)
Definition js_splice_insert {A : Type} (arr : list A) (start : Z) (x : A) : list A :=
  take (js_start arr start) arr ++ x :: drop (js_start arr start) arr.

(** [arr.splice(start, 1)] *)
Definition js_splice_remove {A : Type} (arr : list A) (start : Z) : list A :=
  take (js_start arr start) arr ++ drop (S (js_start arr start)) arr.

Fixpoint str_take (n : nat) (s : string) : string :=
  match n, s with
  | S n', String c s' => String c (str_take n' s')
  | _, _ => EmptyString
  end.

Fixpoint str_drop (n : nat) (s : string) : string :=
  match n, s with
  | S n', String _ s' => str_drop n' s'
  | _, _ => s
  end.

Definition str_length (s : string) : Z := Z.of_nat (String.length s).

(** The index [String.prototype.slice] computes from an argument. *)
Definition str_index (s : string) (i : Z) : nat :=
  Z.to_nat (if i <? 0 then Z.max (str_length s + i) 0 else Z.min i (str_length s)).

(** [s.slice(from)] *)
Definition js_slice_from (s : string) (from : Z) : string :=
  str_drop (str_index s from) s.

(** [s.slice(0, to)] *)
Definition js_slice_to (s : string) (to : Z) : string :=
  str_take (str_index s to) s.

(** ** Identifiers and structs *)

Module ID.

Record t : Type := mk { client : Z; clock : Z }.

#[global] Instance t_eq_dec : EqDecision t.
Proof. solve_decision. Defined.

End ID.

Abbreviation ID := ID.t.

Definition createID (client clock : Z) : ID := ID.mk client clock.

(** A reference to a shared type object ([AbstractType]). *)
Definition TypeRef : Type := nat.

Module AbstractItem.

(** The fields of [AbstractItem] that the sources read or write.  [left]
    and [right] are references to the neighbouring items. *)
Record t : Type := mk {
  id : ID;
  left : option ID;
  origin : option ID;
  right : option ID;
  rightOrigin : option ID;
  parent : TypeRef;
  parentSub : option string;
  deleted : bool
}.

#[global] Instance t_eq_dec : EqDecision t.
Proof. solve_decision. Defined.

End AbstractItem.

(** The concrete struct classes: [GC] and [ItemString]. *)
Inductive AbstractStruct : Type :=
| GC (id : ID) (length : Z)
| ItemString (item : AbstractItem.t) (string : string).

#[global] Instance AbstractStruct_eq_dec : EqDecision AbstractStruct.
Proof. solve_decision. Defined.

(** [struct.constructor] *)
Inductive Constructor : Type := CGC | CItemString.

#[global] Instance Constructor_eq_dec : EqDecision Constructor.
Proof. solve_decision. Defined.

Module Struct.

Definition constructor (s : AbstractStruct) : Constructor :=
  match s with
  | GC _ _ => CGC
  | ItemString _ _ => CItemString
  end.

Definition id (s : AbstractStruct) : ID :=
  match s with
  | GC i _ => i
  | ItemString it _ => AbstractItem.id it
  end.

(** [get length ()]: a field of [GC], [this.string.length] for
    [ItemString]. *)
Definition length (s : AbstractStruct) : Z :=
  match s with
  | GC _ n => n
  | ItemString _ str => str_length str
  end.

(** Modelled from the spec: class [GC] is not among the sources; a GC
    "has only id and length" and counts as deleted ([readDeleteSet]
    skips "GC and Delete structs" through their [deleted] flag). *)
Definition deleted (s : AbstractStruct) : bool :=
  match s with
  | GC _ _ => true
  | ItemString it _ => AbstractItem.deleted it
  end.

Definition clock (s : AbstractStruct) : Z := ID.clock (id s).

(** The clock just after the struct: [id.clock + length]. *)
Definition endClock (s : AbstractStruct) : Z := clock s + length s.

End Struct.

(** ** StructStore.js *)

(** A decoder of lib0 is modelled by the variable-length unsigned
    integers that remain to be read from it. *)
Definition Decoder : Type := list Z.

Record StructStore : Type := mkStore {
  clients : gmap Z (list AbstractStruct);
  pendingDeleteReaders : list Decoder
}.

Definition setClients (store : StructStore) (c : gmap Z (list AbstractStruct)) : StructStore :=
  {| clients := c; pendingDeleteReaders := pendingDeleteReaders store |}.

(** [structs[structs.length - 1]] *)
Definition lastStruct (structs : list AbstractStruct) : option AbstractStruct :=
  js_get structs (Z.of_nat (length structs) - 1).

Definition getState (store : StructStore) (client : Z) : Result Z :=
  match clients store !! client with
  | None => Ret 0
  | Some structs =>
      lastStruct ← defined (lastStruct structs);
      Ret (Struct.clock lastStruct + Struct.length lastStruct)
  end.

(** The loop of [integretyCheck] over one array, from index [i] on with
    [l = structs[i - 1]]. *)
Fixpoint integretyCheck_from (l : AbstractStruct) (rest : list AbstractStruct) : Result unit :=
  match rest with
  | [] => Ret tt
  | r :: rest' =>
      if decide (Struct.clock l + Struct.length l = Struct.clock r)
      then integretyCheck_from r rest'
      else Throw unexpectedCase
  end.

Definition integretyCheck_array (structs : list AbstractStruct) : Result unit :=
  match structs with
  | [] => Ret tt
  | l :: rest => integretyCheck_from l rest
  end.

Definition addStruct (store : StructStore) (struct : AbstractStruct) : Result StructStore :=
  let c := ID.client (Struct.id struct) in
  match clients store !! c with
  | None =>
      Ret (setClients store (<[c := [] ++ [struct]]> (clients store)))
  | Some structs =>
      lastStruct ← defined (lastStruct structs);
      if decide (Struct.clock lastStruct + Struct.length lastStruct = Struct.clock struct)
      then Ret (setClients store (<[c := structs ++ [struct]]> (clients store)))
      else Throw unexpectedCase
  end.

(** The [while (left <= right)] loop of [findIndexSS]. *)
Fixpoint findIndexSS_loop (fuel : nat) (structs : list AbstractStruct) (clock left right : Z)
  : Result Z :=
  match fuel with
  | O => OutOfFuel
  | S fuel' =>
      if left <=? right then
        let midindex := (left + right) / 2 in
        mid ← defined (js_get structs midindex);
        let midclock := Struct.clock mid in
        if midclock <=? clock then
          if clock <? midclock + Struct.length mid then Ret midindex
          else findIndexSS_loop fuel' structs clock (midindex + 1) right
        else findIndexSS_loop fuel' structs clock left (midindex - 1)
      else Throw unexpectedCase
  end.

Definition findIndexSS (structs : list AbstractStruct) (clock : Z) : Result Z :=
  findIndexSS_loop (S (length structs)) structs clock 0 (Z.of_nat (length structs) - 1).

Definition find (store : StructStore) (id : ID) : Result AbstractStruct :=
  structs ← defined (clients store !! ID.client id);
  i ← findIndexSS structs (ID.clock id);
  defined (js_get structs i).

(** The per-client invariant of the store, as [integretyCheck] tests it:
    [structs[i - 1].id.clock + structs[i - 1].length = structs[i].id.clock]. *)
Definition contiguous (structs : list AbstractStruct) : Prop :=
  integretyCheck_array structs = Ret tt.

(** Lengths count units of content: none is negative. *)
Definition nonneg_lengths (structs : list AbstractStruct) : Prop :=
  Forall (fun s => 0 <= Struct.length s) structs.

(** Clock [c] lies in the half-open interval of struct [s]. *)
Definition covers (s : AbstractStruct) (c : Z) : Prop :=
  Struct.clock s <= c < Struct.endClock s.

(** Clock [c] lies in the known interval of the array: from the clock of
    the first struct up to the end of the last one. *)
Definition known (structs : list AbstractStruct) (c : Z) : Prop :=
  exists first last, head structs = Some first /\ lastStruct structs = Some last /\
    Struct.clock first <= c < Struct.endClock last.

(** ** DeleteSet.js *)

Module DeleteItem.

Record t : Type := mk { clock : Z; len : Z }.

#[global] Instance t_eq_dec : EqDecision t.
Proof. solve_decision. Defined.

(** The clock just after the range. *)
Definition endClock (d : t) : Z := clock d + len d.

End DeleteItem.

Abbreviation DeleteItem := DeleteItem.t.

Module DeleteSet.

(** [clients] is a [Map<number, Array<DeleteItem>>] that [writeDeleteSet]
    and [sortAndMergeDeleteSet] traverse with [forEach]: an association
    list in insertion order, one entry per client. *)
Record t : Type := mk { clients : list (Z * list DeleteItem) }.

End DeleteSet.

Abbreviation DeleteSet := DeleteSet.t.

(** [new DeleteSet()] *)
Definition newDeleteSet : DeleteSet := DeleteSet.mk [].

(** [map.setIfUndefined(m, key, () => []).push(x)] on an association
    list. *)
Fixpoint setIfUndefined_push {A : Type} (m : list (Z * list A)) (key : Z) (x : A)
  : list (Z * list A) :=
  match m with
  | [] => [(key, [] ++ [x])]
  | (k, arr) :: m' =>
      if decide (k = key) then (k, arr ++ [x]) :: m'
      else (k, arr) :: setIfUndefined_push m' key x
  end.

(** The same for a map whose keys need not be numbers. *)
Fixpoint setIfUndefined_push' {K A : Type} `{EqDecision K} (m : list (K * list A))
    (key : K) (x : A) : list (K * list A) :=
  match m with
  | [] => [(key, [] ++ [x])]
  | (k, arr) :: m' =>
      if decide (k = key) then (k, arr ++ [x]) :: m'
      else (k, arr) :: setIfUndefined_push' m' key x
  end.

Definition addToDeleteSet (ds : DeleteSet) (id : ID) (length : Z) : DeleteSet :=
  DeleteSet.mk
    (setIfUndefined_push (DeleteSet.clients ds) (ID.client id)
       (DeleteItem.mk (ID.clock id) length)).

(** [dels.sort((a, b) => a.clock - b.clock)]: a stable sort by clock.
    [sort_insert d sorted] puts [d], which precedes the elements of
    [sorted] in the array, in front of the first element that does not
    compare smaller. *)
Fixpoint sort_insert (d : DeleteItem) (sorted : list DeleteItem) : list DeleteItem :=
  match sorted with
  | [] => [d]
  | x :: sorted' =>
      if DeleteItem.clock x - DeleteItem.clock d <? 0
      then x :: sort_insert d sorted'
      else d :: x :: sorted'
  end.

Fixpoint sort_by_clock (dels : list DeleteItem) : list DeleteItem :=
  match dels with
  | [] => []
  | d :: dels' => sort_insert d (sort_by_clock dels')
  end.

(** The [for (i = 1, j = 1; i < dels.length; i++)] loop of
    [sortAndMergeDeleteSet]; [n] counts the iterations that remain.  Both
    writes fall inside the array ([j - 1 < j <= i < dels.length]).  The
    object that [left.len += right.len] changes may also be reachable at
    an index between [j] and [i]; those slots are never read again. *)
Fixpoint sortAndMerge_loop (n : nat) (dels : list DeleteItem) (i j : Z)
  : Result (list DeleteItem * Z) :=
  match n with
  | O => Ret (dels, j)
  | S n' =>
      left ← defined (js_get dels (j - 1));
      right ← defined (js_get dels i);
      if decide (DeleteItem.clock left + DeleteItem.len left = DeleteItem.clock right) then
        let left' := DeleteItem.mk (DeleteItem.clock left)
                       (DeleteItem.len left + DeleteItem.len right) in
        sortAndMerge_loop n' (<[Z.to_nat (j - 1) := left']> dels) (i + 1) j
      else
        let dels' := if j <? i then <[Z.to_nat j := right]> dels else dels in
        sortAndMerge_loop n' dels' (i + 1) (j + 1)
  end.

(** The body of the [forEach] of [sortAndMergeDeleteSet] for one array.
    On a non-empty array [1 <= j <= dels.length] when the loop ends, and
    [dels.length = j] truncates the array.  On an empty array the loop
    does not run and [dels.length = 1] leaves an array with one empty
    slot.  A list has no empty slots: the array stays the empty list
    here, which holds the same ranges (none) but is not what the code
    leaves for a later read of the slots ([findIndexDS], [writeDeleteSet]
    and [iterateDeletedStructs] throw a [TypeError] on the empty slot).
    Neither [addToDeleteSet] nor [createDeleteSetFromStructStore] stores
    an empty array; what is stated below about reading an array after
    [sortAndMergeDeleteSet] is stated for arrays that are not empty. *)
Definition sortAndMerge_array (dels : list DeleteItem) : Result (list DeleteItem) :=
  let sorted := sort_by_clock dels in
  '(merged, j) ← sortAndMerge_loop (Z.to_nat (Z.of_nat (length sorted) - 1)) sorted 1 1;
  Ret (take (Z.to_nat j) merged).

Fixpoint sortAndMerge_clients (cs : list (Z * list DeleteItem))
  : Result (list (Z * list DeleteItem)) :=
  match cs with
  | [] => Ret []
  | (client, dels) :: cs' =>
      dels' ← sortAndMerge_array dels;
      cs'' ← sortAndMerge_clients cs';
      Ret ((client, dels') :: cs'')
  end.

Definition sortAndMergeDeleteSet (ds : DeleteSet) : Result DeleteSet :=
  cs ← sortAndMerge_clients (DeleteSet.clients ds);
  Ret (DeleteSet.mk cs).

(** What the merging loop computes, on the list of ranges: [l] is the
    last range kept so far, [kept] the ranges before it. *)
Fixpoint merge_ranges (kept : list DeleteItem) (l : DeleteItem) (rest : list DeleteItem)
  : list DeleteItem :=
  match rest with
  | [] => kept ++ [l]
  | r :: rest' =>
      if decide (DeleteItem.clock l + DeleteItem.len l = DeleteItem.clock r)
      then merge_ranges kept
             (DeleteItem.mk (DeleteItem.clock l) (DeleteItem.len l + DeleteItem.len r)) rest'
      else merge_ranges (kept ++ [l]) r rest'
  end.

(** Properties of an array of ranges. *)

(** [P] holds of every two consecutive ranges [dels[i]], [dels[i + 1]]. *)
Definition consecutive (P : DeleteItem -> DeleteItem -> Prop) (dels : list DeleteItem) : Prop :=
  forall (i : nat) l r, dels !! i = Some l -> dels !! S i = Some r -> P l r.

Definition sorted_by_clock : list DeleteItem -> Prop :=
  consecutive (fun l r => DeleteItem.clock l <= DeleteItem.clock r).

(** Consecutive ranges do not touch: [left.clock + left.len != right.clock]. *)
Definition not_adjacent : list DeleteItem -> Prop :=
  consecutive (fun l r => DeleteItem.clock l + DeleteItem.len l <> DeleteItem.clock r).

(** Consecutive ranges neither overlap nor touch:
    [left.clock + left.len < right.clock]. *)
Definition separated : list DeleteItem -> Prop :=
  consecutive (fun l r => DeleteItem.clock l + DeleteItem.len l < DeleteItem.clock r).

Definition clock_le (a b : DeleteItem) : Prop := DeleteItem.clock a <= DeleteItem.clock b.

Definition end_le_clock (a b : DeleteItem) : Prop :=
  DeleteItem.endClock a <= DeleteItem.clock b.

Definition disjoint_ranges (a b : DeleteItem) : Prop :=
  DeleteItem.endClock a <= DeleteItem.clock b \/ DeleteItem.endClock b <= DeleteItem.clock a.

(** No two ranges of the array share a clock. *)
Fixpoint pairwise_disjoint (dels : list DeleteItem) : Prop :=
  match dels with
  | [] => True
  | d :: dels' => Forall (disjoint_ranges d) dels' /\ pairwise_disjoint dels'
  end.

Definition positive_lens (dels : list DeleteItem) : Prop :=
  Forall (fun d => 0 < DeleteItem.len d) dels.

(** ** Transaction.js: the transaction object *)

(** An event on a shared type: [target] is the changed type,
    [currentTarget] the type whose handlers receive it. *)
Record YEvent : Type := mkYEvent { target : TypeRef; currentTarget : TypeRef }.

Module Transaction.

(** [changed] and [changedParentTypes] are maps that [transact]
    traverses with [forEach]: association lists in insertion order.
    [beforeState] and [afterState] are state vectors.  The [doc] and
    [origin] fields are not modelled. *)
Record t : Type := mk {
  deleteSet : DeleteSet;
  beforeState : gmap Z Z;
  afterState : gmap Z Z;
  changed : list (TypeRef * list (option string));
  changedParentTypes : list (TypeRef * list YEvent);
  _mergeStructs : list ID
}.

Definition setDeleteSet (tr : t) (ds : DeleteSet) : t :=
  mk ds (beforeState tr) (afterState tr) (changed tr) (changedParentTypes tr)
     (_mergeStructs tr).

Definition setChanged (tr : t) (c : list (TypeRef * list (option string))) : t :=
  mk (deleteSet tr) (beforeState tr) (afterState tr) c (changedParentTypes tr)
     (_mergeStructs tr).

End Transaction.

Abbreviation Transaction := Transaction.t.

(** [map.setIfUndefined(m, key, set.create).add(x)] on an association
    list whose values are sets, kept as duplicate-free lists. *)
Fixpoint setIfUndefined_add {K A : Type} `{EqDecision K, EqDecision A}
    (m : list (K * list A)) (key : K) (x : A) : list (K * list A) :=
  match m with
  | [] => [(key, [x])]
  | (k, set) :: m' =>
      if decide (k = key)
      then (k, if decide (x ∈ set) then set else set ++ [x]) :: m'
      else (k, set) :: setIfUndefined_add m' key x
  end.

(** ** The struct classes *)

(** Modelled from the spec: [splitItem] is not among the sources.  The
    right half gets the ID [(client, clock + diff)], carries the same
    parent and parentSub and is linked so that [this.right = right] and
    [right.left = this].  The fields the spec leaves open are the ones
    under which the halves can merge again ([mergeItemWith] below): the
    origin of the right half is the last unit of the left half, it takes
    over the right neighbour and right origin of the item, and it is
    deleted when the item is.  Returns the item after the call and the
    new right item. *)
Definition splitItem (transaction : Transaction) (leftItem : AbstractItem.t) (diff : Z)
  : AbstractItem.t * AbstractItem.t :=
  let id := AbstractItem.id leftItem in
  let rightId := createID (ID.client id) (ID.clock id + diff) in
  let rightItem :=
    {| AbstractItem.id := rightId;
       AbstractItem.left := Some id;
       AbstractItem.origin := Some (createID (ID.client id) (ID.clock id + diff - 1));
       AbstractItem.right := AbstractItem.right leftItem;
       AbstractItem.rightOrigin := AbstractItem.rightOrigin leftItem;
       AbstractItem.parent := AbstractItem.parent leftItem;
       AbstractItem.parentSub := AbstractItem.parentSub leftItem;
       AbstractItem.deleted := AbstractItem.deleted leftItem |} in
  let leftItem' :=
    {| AbstractItem.id := id;
       AbstractItem.left := AbstractItem.left leftItem;
       AbstractItem.origin := AbstractItem.origin leftItem;
       AbstractItem.right := Some rightId;
       AbstractItem.rightOrigin := AbstractItem.rightOrigin leftItem;
       AbstractItem.parent := AbstractItem.parent leftItem;
       AbstractItem.parentSub := AbstractItem.parentSub leftItem;
       AbstractItem.deleted := AbstractItem.deleted leftItem |} in
  (leftItem', rightItem).

(** Modelled from the spec: [mergeItemWith] is not among the sources.  It
    "succeeds iff same client, [this.clock + this.length == right.clock],
    same [deleted], same concrete variant, same parent/parentSub, and
    [right.origin == this.lastId] and [right.left == this]"; it "adopts
    [right.right], [right.rightOrigin]".  [Some] carries the left item
    after a successful call; [None] stands for [false]. *)
Definition mergeItemWith (l r : AbstractStruct) : option AbstractItem.t :=
  match l, r with
  | ItemString li _, ItemString ri _ =>
      let lid := AbstractItem.id li in
      let rid := AbstractItem.id ri in
      if decide (ID.client lid = ID.client rid
                 /\ ID.clock lid + Struct.length l = ID.clock rid
                 /\ AbstractItem.deleted li = AbstractItem.deleted ri
                 /\ AbstractItem.parent li = AbstractItem.parent ri
                 /\ AbstractItem.parentSub li = AbstractItem.parentSub ri
                 /\ AbstractItem.origin ri
                    = Some (createID (ID.client lid) (ID.clock lid + Struct.length l - 1))
                 /\ AbstractItem.left ri = Some lid)
      then Some
             {| AbstractItem.id := lid;
                AbstractItem.left := AbstractItem.left li;
                AbstractItem.origin := AbstractItem.origin li;
                AbstractItem.right := AbstractItem.right ri;
                AbstractItem.rightOrigin := AbstractItem.rightOrigin ri;
                AbstractItem.parent := AbstractItem.parent li;
                AbstractItem.parentSub := AbstractItem.parentSub li;
                AbstractItem.deleted := AbstractItem.deleted li |}
      else None
  | _, _ => None
  end.

(** [struct.splitAt(transaction, diff)]: the struct after the call and
    the right half that the call returns.

    [ItemString.splitAt] is in the sources.  Modelled from the spec: for a
    [GC], whose class is not among the sources, "splitAt is purely
    arithmetic": the right half is a GC at [(client, clock + diff)] of
    length [length - diff], and the length of the struct becomes [diff]. *)
Definition splitAt (transaction : Transaction) (this : AbstractStruct) (diff : Z)
  : AbstractStruct * AbstractStruct :=
  match this with
  | ItemString item str =>
      let '(item', rightItem) := splitItem transaction item diff in
      (ItemString item' (js_slice_to str diff), ItemString rightItem (js_slice_from str diff))
  | GC id length =>
      (GC id diff, GC (createID (ID.client id) (ID.clock id + diff)) (length - diff))
  end.

(** [left.mergeWith(right)]: [Some] carries the struct after a call that
    returned [true]; [None] stands for [false], which leaves the struct
    as it was.

    [ItemString.mergeWith] is in the sources.  Modelled from the spec: for
    a [GC], "mergeWith succeeds iff contiguous GC", and the surviving
    struct grows by the length of the other. *)
Definition mergeWith (this right : AbstractStruct) : option AbstractStruct :=
  match this with
  | ItemString _ str =>
      match mergeItemWith this right with
      | Some item' =>
          match right with
          | ItemString _ rstr => Some (ItemString item' (str +:+ rstr))
          | GC _ _ => None
          end
      | None => None
      end
  | GC id length =>
      match right with
      | GC rid rlength =>
          if decide (ID.client id = ID.client rid /\ ID.clock id + length = ID.clock rid)
          then Some (GC id (length + rlength))
          else None
      | ItemString _ _ => None
      end
  end.

(** Modelled from the spec: [delete] is not among the sources.  It "marks
    [deleted=true], adds to [tx.deleteSet], adds the Item's parent (with
    its parentSub) to [tx.changed]".  (The walk over the ancestor types
    that the spec also mentions needs the event objects of the shared
    types and is left out.)  A [GC] has nothing to delete. *)
Definition delete (this : AbstractStruct) (transaction : Transaction)
  : AbstractStruct * Transaction :=
  match this with
  | ItemString item str =>
      let item' :=
        {| AbstractItem.id := AbstractItem.id item;
           AbstractItem.left := AbstractItem.left item;
           AbstractItem.origin := AbstractItem.origin item;
           AbstractItem.right := AbstractItem.right item;
           AbstractItem.rightOrigin := AbstractItem.rightOrigin item;
           AbstractItem.parent := AbstractItem.parent item;
           AbstractItem.parentSub := AbstractItem.parentSub item;
           AbstractItem.deleted := true |} in
      let ds := addToDeleteSet (Transaction.deleteSet transaction)
                  (AbstractItem.id item) (Struct.length this) in
      let changed := setIfUndefined_add (Transaction.changed transaction)
                       (AbstractItem.parent item) (AbstractItem.parentSub item) in
      (ItemString item' str,
       Transaction.setChanged (Transaction.setDeleteSet transaction ds) changed)
  | GC _ _ => (this, transaction)
  end.

(** ** StructStore.js: clean starts and ends *)

(** [structs[i] = x] for an index [i] that [findIndexSS] returned, which
    lies inside the array. *)
Definition js_set {A : Type} (arr : list A) (i : Z) (x : A) : list A :=
  <[Z.to_nat i := x]> arr.

Definition getItemCleanStart (transaction : Transaction) (store : StructStore) (id : ID)
  : Result (StructStore * AbstractStruct) :=
  structs ← defined (clients store !! ID.client id);
  index ← findIndexSS structs (ID.clock id);
  struct ← defined (js_get structs index);
  if (Struct.clock struct <? ID.clock id)
     && negb (bool_decide (Struct.constructor struct = CGC))
  then
    let '(struct', rightHalf) := splitAt transaction struct (ID.clock id - Struct.clock struct) in
    let structs' := js_splice_insert (js_set structs index struct') (index + 1) rightHalf in
    Ret (setClients store (<[ID.client id := structs']> (clients store)), rightHalf)
  else Ret (store, struct).

Definition getItemCleanEnd (transaction : Transaction) (store : StructStore) (id : ID)
  : Result (StructStore * AbstractStruct) :=
  structs ← defined (clients store !! ID.client id);
  index ← findIndexSS structs (ID.clock id);
  struct ← defined (js_get structs index);
  if negb (bool_decide (ID.clock id = Struct.clock struct + Struct.length struct - 1))
     && negb (bool_decide (Struct.constructor struct = CGC))
  then
    let '(struct', rightHalf) :=
      splitAt transaction struct (ID.clock id - Struct.clock struct + 1) in
    let structs' := js_splice_insert (js_set structs index struct') (index + 1) rightHalf in
    Ret (setClients store (<[ID.client id := structs']> (clients store)), struct')
  else Ret (store, struct).

(** ** Transaction.js: [tryToMergeWithLeft] *)

(** The [_map] of every shared type: from a key to the item that is the
    current entry for it.  A type without an entry has an empty map. *)
Definition TypeMaps : Type := gmap TypeRef (gmap string ID).

(** [type._map] *)
Definition typeMap (maps : TypeMaps) (type : TypeRef) : gmap string ID :=
  default ∅ (maps !! type).

(** [type._map.set(key, item)] *)
Definition typeMap_set (maps : TypeMaps) (type : TypeRef) (key : string) (item : ID)
  : TypeMaps :=
  <[type := <[key := item]> (typeMap maps type)]> maps.

(** The closure [tryToMergeWithLeft] of [transact]. *)
Definition tryToMergeWithLeft (maps : TypeMaps) (structs : list AbstractStruct) (pos : Z)
  : Result (TypeMaps * list AbstractStruct) :=
  l ← defined (js_get structs (pos - 1));
  r ← defined (js_get structs pos);
  if bool_decide (Struct.deleted l = Struct.deleted r)
     && bool_decide (Struct.constructor l = Struct.constructor r)
  then
    match mergeWith l r with
    | Some l' =>
        let structs' := js_splice_remove (js_set structs (pos - 1) l') pos in
        match r with
        | ItemString ritem _ =>
            match AbstractItem.parentSub ritem with
            | Some parentSub =>
                if decide (typeMap maps (AbstractItem.parent ritem) !! parentSub
                           = Some (AbstractItem.id ritem))
                then Ret (typeMap_set maps (AbstractItem.parent ritem) parentSub (Struct.id l),
                          structs')
                else Ret (maps, structs')
            | None => Ret (maps, structs')
            end
        | GC _ _ => Ret (maps, structs')
        end
    | None => Ret (maps, structs)
    end
  else Ret (maps, structs).

(** ** DeleteSet.js: writing and reading delete sets *)

(** lib0's [decoding.readVarUint]: the next unsigned integer of the
    decoder; reading past the end fails. *)
Definition readVarUint (decoder : Decoder) : Result (Z * Decoder) :=
  match decoder with
  | [] => Throw DecodeError
  | n :: decoder' => Ret (n, decoder')
  end.

(** An encoder of lib0 is modelled by the unsigned integers written so
    far; [decoding.createDecoder(encoding.toUint8Array(encoder))] reads
    them back in the same order. *)
Definition Encoder : Type := list Z.

Definition createEncoder : Encoder := [].

Definition writeVarUint (encoder : Encoder) (n : Z) : Encoder := encoder ++ [n].

Definition createDecoder (encoder : Encoder) : Decoder := encoder.

Definition writeDeleteItems (encoder : Encoder) (dsitems : list DeleteItem) : Encoder :=
  foldl (fun enc item =>
           writeVarUint (writeVarUint enc (DeleteItem.clock item)) (DeleteItem.len item))
        encoder dsitems.

Definition writeDeleteSet (encoder : Encoder) (ds : DeleteSet) : Encoder :=
  foldl (fun enc '(client, dsitems) =>
           writeDeleteItems
             (writeVarUint (writeVarUint enc client) (Z.of_nat (length dsitems)))
             dsitems)
        (writeVarUint encoder (Z.of_nat (length (DeleteSet.clients ds))))
        (DeleteSet.clients ds).

(** The [while (index < structs.length)] loop of [readDeleteSet].  The
    struct read at [index] stays at [index - 1] after [index++]; both
    [splitAt] and [delete] change it in place. *)
Fixpoint readDeleteSet_while (fuel : nat) (transaction : Transaction)
    (structs : list AbstractStruct) (index clock len : Z)
  : Result (Transaction * list AbstractStruct) :=
  match fuel with
  | O => OutOfFuel
  | S fuel' =>
      if index <? Z.of_nat (length structs) then
        struct ← defined (js_get structs index);
        let index := index + 1 in
        if Struct.clock struct <? clock + len then
          if negb (Struct.deleted struct) then
            let '(struct, structs) :=
              if clock + len <? Struct.clock struct + Struct.length struct then
                let '(struct', rightHalf) :=
                  splitAt transaction struct (clock + len - Struct.clock struct) in
                (struct', js_splice_insert (js_set structs (index - 1) struct') index rightHalf)
              else (struct, structs) in
            let '(struct, transaction) := delete struct transaction in
            readDeleteSet_while fuel' transaction (js_set structs (index - 1) struct)
              index clock len
          else readDeleteSet_while fuel' transaction structs index clock len
        else Ret (transaction, structs)
      else Ret (transaction, structs)
  end.

(** The body of the inner [for] loop of [readDeleteSet]: one range
    [(clock, len)] of [client], whose structs are [structs] and whose
    state is [state]. *)
Definition readDeleteSet_range (transaction : Transaction) (structs : list AbstractStruct)
    (state : Z) (unappliedDS : DeleteSet) (client clock len : Z)
  : Result (Transaction * list AbstractStruct * DeleteSet) :=
  if clock <? state then
    let unappliedDS :=
      if state <? clock + len
      then addToDeleteSet unappliedDS (createID client state) (clock + len - state)
      else unappliedDS in
    index ← findIndexSS structs clock;
    struct ← defined (js_get structs index);
    let '(structs, index) :=
      if negb (Struct.deleted struct) && (Struct.clock struct <? clock) then
        let '(struct', rightHalf) :=
          splitAt transaction struct (clock - Struct.clock struct) in
        (js_splice_insert (js_set structs index struct') (index + 1) rightHalf, index + 1)
      else (structs, index) in
    '(transaction, structs) ←
      readDeleteSet_while (S (length structs)) transaction structs index clock len;
    Ret (transaction, structs, unappliedDS)
  else
    Ret (transaction, structs, addToDeleteSet unappliedDS (createID client clock) len).

(** The inner [for (let i = 0; i < numberOfDeletes; i++)] loop; [n]
    counts the iterations that remain. *)
Fixpoint readDeleteSet_ranges (n : nat) (decoder : Decoder) (transaction : Transaction)
    (structs : list AbstractStruct) (state : Z) (unappliedDS : DeleteSet) (client : Z)
  : Result (Decoder * Transaction * list AbstractStruct * DeleteSet) :=
  match n with
  | O => Ret (decoder, transaction, structs, unappliedDS)
  | S n' =>
      '(clock, decoder) ← readVarUint decoder;
      '(len, decoder) ← readVarUint decoder;
      '(transaction, structs, unappliedDS) ←
        readDeleteSet_range transaction structs state unappliedDS client clock len;
      readDeleteSet_ranges n' decoder transaction structs state unappliedDS client
  end.

(** The outer [for (let i = 0; i < numClients; i++)] loop.  [structs] is
    the array of the store, changed in place, or a fresh empty array when
    the client has none; that one is dropped when the iteration ends. *)
Fixpoint readDeleteSet_clients (n : nat) (decoder : Decoder) (transaction : Transaction)
    (store : StructStore) (unappliedDS : DeleteSet)
  : Result (Decoder * Transaction * StructStore * DeleteSet) :=
  match n with
  | O => Ret (decoder, transaction, store, unappliedDS)
  | S n' =>
      '(client, decoder) ← readVarUint decoder;
      '(numberOfDeletes, decoder) ← readVarUint decoder;
      let structs := default [] (clients store !! client) in
      state ← getState store client;
      '(decoder, transaction, structs, unappliedDS) ←
        readDeleteSet_ranges (Z.to_nat numberOfDeletes) decoder transaction structs state
          unappliedDS client;
      let store :=
        match clients store !! client with
        | Some _ => setClients store (<[client := structs]> (clients store))
        | None => store
        end in
      readDeleteSet_clients n' decoder transaction store unappliedDS
  end.

(** Returns what is left of the decoder, the transaction and the store. *)
Definition readDeleteSet (decoder : Decoder) (transaction : Transaction) (store : StructStore)
  : Result (Decoder * Transaction * StructStore) :=
  let unappliedDS := newDeleteSet in
  '(numClients, decoder) ← readVarUint decoder;
  '(decoder, transaction, store, unappliedDS) ←
    readDeleteSet_clients (Z.to_nat numClients) decoder transaction store unappliedDS;
  if 0 <? Z.of_nat (length (DeleteSet.clients unappliedDS)) then
    let unappliedDSEncoder := writeDeleteSet createEncoder unappliedDS in
    Ret (decoder, transaction,
         {| clients := clients store;
            pendingDeleteReaders :=
              pendingDeleteReaders store ++ [createDecoder unappliedDSEncoder] |})
  else Ret (decoder, transaction, store).

(** *** Units of a client's log *)

Definition coversb (s : AbstractStruct) (c : Z) : bool :=
  (Struct.clock s <=? c) && (c <? Struct.clock s + Struct.length s).

(** The struct of the array that holds clock [c]. *)
Fixpoint structAt (structs : list AbstractStruct) (c : Z) : option AbstractStruct :=
  match structs with
  | [] => None
  | s :: structs' => if coversb s c then Some s else structAt structs' c
  end.

(** Whether the unit at clock [c] is deleted; [None] when the array does
    not hold the clock. *)
Definition deletedAt (structs : list AbstractStruct) (c : Z) : option bool :=
  Struct.deleted <$> structAt structs c.

(** Clock [c] lies in the range [(clock, len)]. *)
Definition inRange (clock len c : Z) : bool := (clock <=? c) && (c <? clock + len).

(** Clock [c] of [client] lies in one of the ranges of the delete set. *)
Definition inDeleteSet (ds : DeleteSet) (client c : Z) : Prop :=
  exists dels d, (client, dels) ∈ DeleteSet.clients ds /\ d ∈ dels /\
    inRange (DeleteItem.clock d) (DeleteItem.len d) c = true.

(** All structs of the array belong to [client]. *)
Definition owned_by (client : Z) (structs : list AbstractStruct) : Prop :=
  Forall (fun s => ID.client (Struct.id s) = client) structs.

(** What the [while] loop of [readDeleteSet] does to the structs from
    [index] on, as a function on that part of the array; [hi] is
    [clock + len]. *)
Fixpoint deleteFrom (transaction : Transaction) (rest : list AbstractStruct) (hi : Z)
  : Transaction * list AbstractStruct :=
  match rest with
  | [] => (transaction, [])
  | s :: rest' =>
      if Struct.clock s <? hi then
        if negb (Struct.deleted s) then
          if hi <? Struct.clock s + Struct.length s then
            let '(l, r) := splitAt transaction s (hi - Struct.clock s) in
            let '(l', transaction') := delete l transaction in
            (transaction', l' :: r :: rest')
          else
            let '(s', transaction') := delete s transaction in
            let '(transaction'', rest'') := deleteFrom transaction' rest' hi in
            (transaction'', s' :: rest'')
        else
          let '(transaction'', rest'') := deleteFrom transaction rest' hi in
          (transaction'', s :: rest'')
      else (transaction, rest)
  end.

(** The array of a client in a store that was filled from clock 0 on:
    contiguous, of structs of that client with lengths that are not
    negative, and ending at [state]. *)
Definition client_log (client : Z) (structs : list AbstractStruct) (state : Z) : Prop :=
  contiguous structs /\ nonneg_lengths structs /\ owned_by client structs /\
  (exists first, head structs = Some first /\ Struct.clock first = 0) /\
  (exists last, lastStruct structs = Some last /\ Struct.endClock last = state).

(** [structs] is a contiguous run of structs from clock [a] up to clock
    [b]. *)
Fixpoint spans (a : Z) (structs : list AbstractStruct) (b : Z) : Prop :=
  match structs with
  | [] => a = b
  | s :: structs' => Struct.clock s = a /\ spans (Struct.endClock s) structs' b
  end.

(** Clock [c] lies in [[lo, hi)]. *)
Definition between (lo hi c : Z) : bool := (lo <=? c) && (c <? hi).

(** ** Transaction.js: [transact] *)

(** [getStateVector(store)]: the clock after the last struct of every
    client.  An empty array has no last struct. *)
Definition getStateVector (store : StructStore) : Result (gmap Z Z) :=
  if decide (map_Forall (fun _ structs => lastStruct structs <> None) (clients store))
  then Ret (omap (fun structs => Struct.endClock <$> lastStruct structs) (clients store))
  else Throw TypeError.

(** [new Transaction(doc, origin)], given [getStateVector(doc.store)]. *)
Definition newTransaction (beforeState : gmap Z Z) : Transaction :=
  Transaction.mk newDeleteSet beforeState ∅ [] [] [].

(** Whether [computeUpdateMessageFromTransaction] returns [null]: the
    delete set has no client and no client of [afterState] has a clock
    that differs from its clock in [beforeState]. *)
Definition updateMessageIsNull (transaction : Transaction) : bool :=
  bool_decide (length (DeleteSet.clients (Transaction.deleteSet transaction)) = 0%nat)
  && bool_decide (map_Forall
                    (fun client clock =>
                       Transaction.beforeState transaction !! client = Some clock)
                    (Transaction.afterState transaction)).

(** *** User code

    What the function [f] given to [transact] does with its transaction,
    and what the handlers registered on types and on the document do, is
    JavaScript of the caller.  It is modelled by scripts: a body is a
    sequence of actions on the transaction it received, a handler a
    sequence of calls of [transact]. *)

#[warnings="-register-all"]
Inductive Action : Type :=
| Change (type : TypeRef) (parentSub : option string)
    (* a change of [type] through the transaction, as
       [typeListInsertGenerics(transaction, type, ...)] in [YArray.insert] *)
| Nested (f : list Action).
    (* [transact(doc, f)] *)

Definition Body : Type := list Action.

Definition Handler : Type := list Body.

(** The events of the document that [transact] emits. *)
Inductive DocEvent : Type :=
| beforeTransaction | beforeObserverCalls | afterTransaction
| afterTransactionCleanup | update.

(** The parts of a document that [transact] reads and does not change,
    and the code it calls that is not among the sources. *)
Record Env : Type := mkEnv {
  (** [type._eH]: the handlers that [type.observe] registered. *)
  _eH : TypeRef -> list Handler;
  (** [type._dEH]: the handlers that [type.observeDeep] registered. *)
  _dEH : TypeRef -> list Handler;
  (** [doc._observers]: the handlers that [doc.on(name, _)] registered. *)
  _observers : DocEvent -> list Handler;
  (** The chain [type], [type._item.parent], ... up to a root type. *)
  ancestors : TypeRef -> list TypeRef;
  (** What a change of a type does to the transaction and the store
      besides entering the type in [transaction.changed]. *)
  applyChange : TypeRef -> option string -> Transaction -> StructStore
                -> Result (Transaction * StructStore);
  (** The replacement of deleted items and the three merge passes of
      [transact], which call no handler and do not touch
      [doc._transaction]. *)
  cleanupStructs : Transaction -> StructStore -> Result StructStore
}.

(** The fields of [Doc] that [transact] uses.  A transaction object is
    referred to by its index in [_transactionCleanups], where [transact]
    puts every transaction it creates. *)
Record Doc : Type := mkDoc {
  store : StructStore;
  _transaction : option nat;
  _transactionCleanups : list Transaction
}.

Inductive ObserverKind : Type := Shallow | Deep.

(** A call of a handler of a type: [delivered] is the transaction whose
    changes are delivered, [active] the value of [doc._transaction] at
    the moment of the call. *)
Record ObserverCall : Type := mkObserverCall {
  kind : ObserverKind;
  observed : TypeRef;
  delivered : nat;
  active : option nat
}.

(** The state of a run: the document and the handler calls so far. *)
Record Run : Type := mkRun { doc : Doc; calls : list ObserverCall }.

(** A computation on a run.  The run at the point of an exception or of
    the exhaustion of the fuel is kept. *)
Definition M (A : Type) : Type := Run -> Result A * Run.

#[global] Instance M_ret : MRet M := fun A a run => (Ret a, run).

#[global] Instance M_bind : MBind M := fun A B k m run =>
  match m run with
  | (Ret a, run') => k a run'
  | (Throw e, run') => (Throw e, run')
  | (OutOfFuel, run') => (OutOfFuel, run')
  end.

(** The result of a computation that does not touch the run. *)
Definition lift {A : Type} (r : Result A) : M A := fun run => (r, run).

Definition getDoc : M Doc := fun run => (Ret (doc run), run).

(** An assignment to fields of the document. *)
Definition modifyDoc (g : Doc -> Doc) : M unit :=
  fun run => (Ret tt, mkRun (g (doc run)) (calls run)).

(** [doc.store = store'] (the store object is changed in place). *)
Definition setStore (store' : StructStore) : M unit :=
  modifyDoc (fun d => mkDoc store' (_transaction d) (_transactionCleanups d)).

(** The transaction object with index [i]. *)
Definition getTransaction (i : nat) : M Transaction :=
  d ← getDoc; lift (defined (_transactionCleanups d !! i)).

(** A change of the fields of the transaction object with index [i]. *)
Definition setTransaction (i : nat) (transaction : Transaction) : M unit :=
  modifyDoc (fun d => mkDoc (store d) (_transaction d)
                        (<[i := transaction]> (_transactionCleanups d))).

(** A handler of type [type] is called while the transaction with index
    [i] is delivered: the call is entered in the run with the value of
    [doc._transaction] at that moment. *)
Definition logCall (k : ObserverKind) (type : TypeRef) (i : nat) : M unit :=
  fun run =>
    (Ret tt,
     mkRun (doc run) (calls run ++ [mkObserverCall k type i (_transaction (doc run))])).

(** [try { body } finally { final }] *)
Definition try_finally (body final : M unit) : M unit := fun run =>
  match body run with
  | (Ret _, run') => final run'
  | (Throw e, run') =>
      match final run' with
      | (Ret _, run'') => (Throw e, run'')
      | other => other
      end
  | (OutOfFuel, run') => (OutOfFuel, run')
  end.

Fixpoint forEach {A : Type} (f : A -> M unit) (l : list A) : M unit :=
  match l with
  | [] => mret tt
  | x :: l' => f x ≫= fun _ => forEach f l'
  end.

Section Transact.

Context (env : Env).

(** How user code calls [transact]. *)
Context (call : Body -> M unit).

(** A handler runs: it makes its calls of [transact] in turn. *)
Definition runHandler (h : Handler) : M unit := forEach call h.

(** [doc.emit(name, args)] *)
Definition emit (name : DocEvent) : M unit := forEach runHandler (_observers env name).

(** Modelled from the spec: [callEventHandlerListeners] is not among
    the sources; it calls the handlers in turn. *)
Definition callEventHandlerListeners (k : ObserverKind) (type : TypeRef) (i : nat)
    (handlers : list Handler) : M unit :=
  forEach (fun h => logCall k type i ≫= fun _ => runHandler h) handlers.

(** One action of [f(transaction)], for the transaction with index
    [i]. *)
Definition runAction (i : nat) (a : Action) : M unit :=
  match a with
  | Change type parentSub =>
      transaction ← getTransaction i;
      let transaction :=
        Transaction.setChanged transaction
          (setIfUndefined_add (Transaction.changed transaction) type parentSub) in
      d ← getDoc;
      '(transaction, store') ← lift (applyChange env type parentSub transaction (store d));
      setStore store' ≫= fun _ =>
      setTransaction i transaction
  | Nested g => call g
  end.

(** [f(transaction)]: the actions of the body in turn. *)
Definition runBody (i : nat) (f : Body) : M unit := forEach (runAction i) f.

(** [itemtype._callObserver(transaction, subs)], as [YArray] defines
    it.  Modelled from the spec: [callTypeObservers] is not among the
    sources; the event is entered in [changedParentTypes] for the type
    and each of its ancestors, then the handlers of the type are
    called. *)
Definition _callObserver (i : nat) (type : TypeRef) : M unit :=
  transaction ← getTransaction i;
  let event := mkYEvent type type in
  let changedParentTypes :=
    foldl (fun m t => setIfUndefined_push' m t event)
          (Transaction.changedParentTypes transaction) (ancestors env type) in
  setTransaction i
    (Transaction.mk (Transaction.deleteSet transaction) (Transaction.beforeState transaction)
       (Transaction.afterState transaction) (Transaction.changed transaction)
       changedParentTypes (Transaction._mergeStructs transaction)) ≫= fun _ =>
  callEventHandlerListeners Shallow type i (_eH env type).

(** [transaction.changed.forEach(...)] from entry [k] on.  [forEach]
    of a [Map] visits the entries that are added while it runs. *)
Fixpoint changed_forEach (fuel : nat) (i k : nat) : M unit :=
  match fuel with
  | O => lift OutOfFuel
  | S fuel' =>
      transaction ← getTransaction i;
      match Transaction.changed transaction !! k with
      | None => mret tt
      | Some (itemtype, subs) =>
          _callObserver i itemtype ≫= fun _ => changed_forEach fuel' i (S k)
      end
  end.

(** [transaction.changedParentTypes.forEach(...)] from entry [k] on.
    (The events that pass the filter, with their new [currentTarget],
    are the argument of the handlers; no handler of the model reads
    them.) *)
Fixpoint changedParentTypes_forEach (fuel : nat) (i k : nat) : M unit :=
  match fuel with
  | O => lift OutOfFuel
  | S fuel' =>
      transaction ← getTransaction i;
      match Transaction.changedParentTypes transaction !! k with
      | None => mret tt
      | Some (type, events) =>
          callEventHandlerListeners Deep type i (_dEH env type) ≫= fun _ =>
          changedParentTypes_forEach fuel' i (S k)
      end
  end.

(** The part of [transact] that emits the update message. *)
Definition emitUpdate (i : nat) : M unit :=
  match _observers env update with
  | [] => mret tt
  | _ :: _ =>
      transaction ← getTransaction i;
      if updateMessageIsNull transaction then mret tt
      else
        ds ← lift (sortAndMergeDeleteSet (Transaction.deleteSet transaction));
        setTransaction i (Transaction.setDeleteSet transaction ds) ≫= fun _ =>
        emit update
  end.

(** One iteration of the [for] loop of [transact], for the transaction
    object [transaction] found at index [i]. *)
Definition cleanup (fuel : nat) (i : nat) (transaction : Transaction) : M unit :=
  ds ← lift (sortAndMergeDeleteSet (Transaction.deleteSet transaction));
  d ← getDoc;
  afterState ← lift (getStateVector (store d));
  setTransaction i
    (Transaction.mk ds (Transaction.beforeState transaction) afterState
       (Transaction.changed transaction) (Transaction.changedParentTypes transaction)
       (Transaction._mergeStructs transaction)) ≫= fun _ =>
  modifyDoc (fun d => mkDoc (store d) None (_transactionCleanups d)) ≫= fun _ =>
  emit beforeObserverCalls ≫= fun _ =>
  changed_forEach fuel i 0 ≫= fun _ =>
  changedParentTypes_forEach fuel i 0 ≫= fun _ =>
  emit afterTransaction ≫= fun _ =>
  transaction ← getTransaction i;
  d ← getDoc;
  store' ← lift (cleanupStructs env transaction (store d));
  setStore store' ≫= fun _ =>
  emit afterTransactionCleanup ≫= fun _ =>
  emitUpdate i.

(** The [for (let i = 0; i < transactionCleanups.length; i++)] loop of
    [transact], from [i] on. *)
Fixpoint cleanups_for (fuel : nat) (i : nat) : M unit :=
  match fuel with
  | O => lift OutOfFuel
  | S fuel' =>
      d ← getDoc;
      match _transactionCleanups d !! i with
      | None => mret tt
      | Some transaction =>
          cleanup fuel' i transaction ≫= fun _ => cleanups_for fuel' (S i)
      end
  end.

(** The [finally] block of [transact]. *)
Definition transact_finally (fuel : nat) (initialCall : bool) : M unit :=
  d ← getDoc;
  if initialCall && bool_decide (_transaction d = Some 0%nat)
  then
    cleanups_for fuel 0 ≫= fun _ =>
    modifyDoc (fun d => mkDoc (store d) (_transaction d) [])
  else mret tt.

(** The body of [transact]; [fuel] bounds the loops of the cleanup. *)
Definition transact_body (fuel : nat) (f : Body) : M unit :=
  d ← getDoc;
  let initialCall := bool_decide (_transaction d = None) in
  (if initialCall then
     beforeState ← lift (getStateVector (store d));
     modifyDoc (fun d => mkDoc (store d) (Some (length (_transactionCleanups d)))
                           (_transactionCleanups d ++ [newTransaction beforeState]))
     ≫= fun _ => emit beforeTransaction
   else mret tt) ≫= fun _ =>
  try_finally
    (d ← getDoc;
     i ← lift (defined (_transaction d));
     runBody i f)
    (transact_finally fuel initialCall).

End Transact.

(** [transact(doc, f)].  The calls of [transact] that user code makes
    run with the fuel that is left. *)
Fixpoint transact (fuel : nat) (env : Env) (f : Body) : M unit :=
  match fuel with
  | O => lift OutOfFuel
  | S fuel' => transact_body env (transact fuel' env) fuel' f
  end.

(** *** Relations between the runs before and after a computation *)

(** Every run that [m] can end in, whatever the outcome, is related to
    the run it started from. *)
Definition sat {A : Type} (R : Run -> Run -> Prop) (m : M A) : Prop :=
  forall run res run', m run = (res, run') -> R run run'.

(** The active transaction, if any, is in the queue. *)
Definition doc_ok (d : Doc) : Prop :=
  forall k, _transaction d = Some k -> (k < length (_transactionCleanups d))%nat.

(** Nothing of what [transact] looks at changed. *)
Definition same_queue (run run' : Run) : Prop :=
  calls run' = calls run /\
  _transaction (doc run') = _transaction (doc run) /\
  length (_transactionCleanups (doc run')) = length (_transactionCleanups (doc run)).

(** What a call of [transact] does while the queue of transactions is
    not empty: no handler of a type is called, the queue does not shrink,
    and the active transaction stays, or, when there was none, a new one
    at the end of the queue may have been opened. *)
Definition nest (run run' : Run) : Prop :=
  doc_ok (doc run) -> _transactionCleanups (doc run) <> [] ->
  calls run' = calls run /\
  doc_ok (doc run') /\
  (length (_transactionCleanups (doc run)) <= length (_transactionCleanups (doc run')))%nat /\
  (_transaction (doc run') = _transaction (doc run) \/
   (_transaction (doc run) = None /\
    exists k, _transaction (doc run') = Some k /\
              (length (_transactionCleanups (doc run)) <= k)%nat)).

(** The document while the transaction with index [i] is delivered:
    [act i] is what is known of [doc._transaction]. *)
Definition delivering (act : nat -> option nat -> Prop) (i : nat) (run : Run) : Prop :=
  doc_ok (doc run) /\
  (i < length (_transactionCleanups (doc run)))%nat /\
  act i (_transaction (doc run)).

(** The handler calls [new] were added to the run, and each of them saw
    a [doc._transaction] that [act] allows. *)
Definition added_calls (act : nat -> option nat -> Prop) (run run' : Run) : Prop :=
  exists new, calls run' = calls run ++ new /\
    Forall (fun c => act (delivered c) (active c)) new.

Definition deliv (act : nat -> option nat -> Prop) (i : nat) (run run' : Run) : Prop :=
  delivering act i run -> delivering act i run' /\ added_calls act run run'.

(** [doc._transaction] is [null] or a transaction that was queued after
    the one that is delivered. *)
Definition null_or_later (i : nat) (a : option nat) : Prop :=
  a = None \/ exists k, a = Some k /\ (i < k)%nat.

Definition is_null (i : nat) (a : option nat) : Prop := a = None.

(** No handler of the document or of a type calls [transact]. *)
Definition quiet (env : Env) : Prop :=
  (forall type, Forall (fun h => h = []) (_eH env type)) /\
  (forall type, Forall (fun h => h = []) (_dEH env type)) /\
  (forall name, Forall (fun h => h = []) (_observers env name)).

(** [h] is a handler registered on a type or on the document. *)
Definition registered (env : Env) (h : Handler) : Prop :=
  (exists type, h ∈ _eH env type) \/ (exists type, h ∈ _dEH env type) \/
  (exists name, h ∈ _observers env name).

(** *** What a second reading of a delete set finds *)

(** Struct [x] is [s] itself, or a part of [s] that a split or a
    deletion left; deleted structs are left alone. *)
Definition piece_of (x s : AbstractStruct) : Prop :=
  Struct.clock s <= Struct.clock x /\ Struct.endClock x <= Struct.endClock s /\
  (Struct.deleted s = true -> x = s).

(** Every struct of [structs'] is a piece of a struct of [structs]. *)
Definition refines (structs structs' : list AbstractStruct) : Prop :=
  forall x, x ∈ structs' -> exists s, s ∈ structs /\ piece_of x s.

(** The range [[clock, hi)] was applied to the array: the struct that
    holds [clock] is deleted (or begins at [clock], when the range is
    empty), and so are the structs that begin inside the range. *)
Definition range_done (clock hi : Z) (structs : list AbstractStruct) : Prop :=
  (forall s, s ∈ structs -> covers s clock ->
     Struct.deleted s = true \/ (Struct.clock s = clock /\ hi <= clock)) /\
  (forall s, s ∈ structs -> clock < Struct.clock s -> Struct.clock s < hi ->
     Struct.deleted s = true).

(** Every array of the store is the log of its client. *)
Definition store_ok (store : StructStore) : Prop :=
  forall client structs, clients store !! client = Some structs ->
    exists state, client_log client structs state.

(** The arrays of [store'] refine the arrays of [store], client by
    client, and end at the same states. *)
Definition store_refines (store store' : StructStore) : Prop :=
  forall client,
    match clients store !! client, clients store' !! client with
    | Some structs, Some structs' =>
        refines structs structs' /\
        forall state, client_log client structs state -> client_log client structs' state
    | None, None => True
    | _, _ => False
    end.

(** ** Applying an update *)

Module ItemStringRef.

(** [ItemStringRef]: a string item as it is read from an update, before
    it becomes a struct; [id], [left], [right], [parent], [parentYKey]
    and [parentSub] are the fields that [toStruct] reads. *)
Record t : Type := mk {
  id : ID;
  left : option ID;
  right : option ID;
  parent : option ID;
  parentYKey : option string;
  parentSub : option string;
  string : string
}.

(** [get length () { return this.string.length }] *)
Definition length (ref : t) : Z := str_length (string ref).

(** Modelled from the spec: [changeItemRefOffset] is not among the
    sources.  It trims the reference "so the ref starts at the current
    state": the ID moves up by [offset], and the origin becomes the unit
    before the new ID, as for the right half of a split item. *)
Definition changeItemRefOffset (ref : t) (offset : Z) : t :=
  let client := ID.client (id ref) in
  let clock := ID.clock (id ref) + offset in
  mk (createID client clock) (Some (createID client (clock - 1))) (right ref) (parent ref)
     (parentYKey ref) (parentSub ref) (string ref).

Section ToStruct.

(** [computeItemParams], which resolves the neighbours and the parent of
    a reference, is not among the sources: it is an argument.  A parent
    that is [null] stands for a parent that was deleted. *)
Context (computeItemParams :
           Transaction -> StructStore -> option ID -> option ID -> option ID ->
           option String.string -> option String.string ->
           option ID * option ID * option TypeRef * option String.string).

(** [toStruct(transaction, store, offset)] *)
Definition toStruct (this : t) (transaction : Transaction) (store : StructStore)
    (offset : Z) : AbstractStruct :=
  let this :=
    if 0 <? offset then
      let this := changeItemRefOffset this offset in
      mk (id this) (left this) (right this) (parent this) (parentYKey this) (parentSub this)
         (js_slice_from (string this) offset)
    else this in
  let '(left', right', parent', parentSub') :=
    computeItemParams transaction store (left this) (right this) (parent this)
      (parentSub this) (parentYKey this) in
  match parent' with
  | None => GC (id this) (length this)
  | Some parent' =>
      ItemString
        {| AbstractItem.id := id this;
           AbstractItem.left := left';
           AbstractItem.origin := left this;
           AbstractItem.right := right';
           AbstractItem.rightOrigin := right this;
           AbstractItem.parent := parent';
           AbstractItem.parentSub := parentSub';
           AbstractItem.deleted := false |}
        (string this)
  end.

End ToStruct.

End ItemStringRef.

(** Modelled from the spec: an update message (section 4.6), with the
    struct section already decoded into struct references and the
    delete-set section as the decoder that [readDeleteSet] reads.  The
    code that decodes the struct section is not among the sources. *)
Record Update : Type := mkUpdate {
  structRefs : list ItemStringRef.t;
  deleteSetSection : Decoder
}.

(** What integration finds for a reference. *)
Inductive Readiness : Type :=
| Skipped                (* all its clocks lie below the local state *)
| Ready (offset : Z)     (* it can be integrated, trimmed by [offset] *)
| Waiting.               (* a struct before it or a dependency is missing *)

(** Modelled from the spec: the dependencies of a reference are its
    "origin, rightOrigin, parent". *)
Definition dependencies (ref : ItemStringRef.t) : list ID :=
  omap id [ItemStringRef.left ref; ItemStringRef.right ref; ItemStringRef.parent ref].

(** Modelled from the spec: a dependency "must already be in the store":
    its clock lies below the state of its client. *)
Fixpoint inStore (store : StructStore) (ids : list ID) : Result bool :=
  match ids with
  | [] => Ret true
  | id :: ids' =>
      state ← getState store (ID.client id);
      if ID.clock id <? state then inStore store ids' else Ret false
  end.

(** Modelled from the spec: "structs whose clock is below the local state
    are skipped at integration"; for any other reference,
    [tryResumePendingStructRefs] checks "that [ref.id.clock <=
    getState(store, client)]", trims the reference "so the ref starts at
    the current state" and resolves its dependencies, and a reference
    with a missing dependency waits. *)
Definition readiness (store : StructStore) (ref : ItemStringRef.t) : Result Readiness :=
  let id := ItemStringRef.id ref in
  state ← getState store (ID.client id);
  if ID.clock id + ItemStringRef.length ref <=? state then Ret Skipped
  else if state <? ID.clock id then Ret Waiting
  else
    resolved ← inStore store (dependencies ref);
    Ret (if resolved : bool then Ready (state - ID.clock id) else Waiting).

(** The first reference of the queue that does not wait, with what
    integration finds for it and the queue without it. *)
Fixpoint takeNext (store : StructStore) (queue : list ItemStringRef.t)
  : Result (option (ItemStringRef.t * Readiness * list ItemStringRef.t)) :=
  match queue with
  | [] => Ret None
  | ref :: queue' =>
      r ← readiness store ref;
      match r with
      | Waiting =>
          next ← takeNext store queue';
          Ret (match next with
               | Some (x, r', rest) => Some (x, r', ref :: rest)
               | None => None
               end)
      | _ => Ret (Some (ref, r, queue'))
      end
  end.

Section Integration.

Context (computeItemParams :
           Transaction -> StructStore -> option ID -> option ID -> option ID ->
           option string -> option string ->
           option ID * option ID * option TypeRef * option string).

(** Modelled from the spec: [tryResumePendingStructRefs] is not among
    the sources.  [queue] holds the pending references
    ([store.pendingClientsStructRefs] and [store.pendingStack], kept
    beside the store here).  References are consumed as long as one of
    them does not wait: a reference below the local state is skipped, a
    ready one is converted by [toStruct] and added to the store; the
    references that wait stay pending ("the struct reference is parked").
    The order in which the stack of the original switches between the
    clients is not modelled, and of the integration of an item only the
    entry in the store is: the YATA walk that sets the pointers of the
    neighbouring items needs the shared types. *)
Fixpoint tryResumePendingStructRefs (fuel : nat) (transaction : Transaction)
    (store : StructStore) (queue : list ItemStringRef.t)
  : Result (Transaction * StructStore * list ItemStringRef.t) :=
  match fuel with
  | O => OutOfFuel
  | S fuel' =>
      next ← takeNext store queue;
      match next with
      | None => Ret (transaction, store, queue)
      | Some (ref, Ready offset, rest) =>
          store' ← addStruct store
                     (ItemStringRef.toStruct computeItemParams ref transaction store offset);
          tryResumePendingStructRefs fuel' transaction store' rest
      | Some (_, _, rest) => tryResumePendingStructRefs fuel' transaction store rest
      end
  end.

(** Modelled from the spec: "Read all struct references into
    [pendingClientsStructRefs]", then resume.  Every step consumes a
    reference, so the fuel suffices. *)
Definition readStructs (transaction : Transaction) (store : StructStore)
    (pending refs : list ItemStringRef.t)
  : Result (Transaction * StructStore * list ItemStringRef.t) :=
  tryResumePendingStructRefs (S (length (pending ++ refs))) transaction store
    (pending ++ refs).

(** Modelled from the spec: "After struct integration, the delete-set
    portion is applied by [readDeleteSet]".  Returns what is left of the
    decoder, the transaction, the store and the pending references. *)
Definition applyUpdate (transaction : Transaction) (store : StructStore)
    (pending : list ItemStringRef.t) (update : Update)
  : Result (Decoder * Transaction * StructStore * list ItemStringRef.t) :=
  '(transaction, store, pending) ← readStructs transaction store pending (structRefs update);
  '(decoder, transaction, store) ← readDeleteSet (deleteSetSection update) transaction store;
  Ret (decoder, transaction, store, pending).

End Integration.

(** ** StructStore.js: the remaining functions *)

(** [integretyCheck(store)]: the check of every array of the store.  All
    failures throw the same error, so the order in which [forEach] visits
    the clients does not show. *)
Definition integretyCheck (store : StructStore) : Result unit :=
  foldr (fun '(_, structs) rest => _ ← integretyCheck_array structs; rest)
        (Ret tt) (map_to_list (clients store)).

(** [getItem] and [getItemType] are [find] under another type. *)
Definition getItem (store : StructStore) (id : ID) : Result AbstractStruct := find store id.

Definition getItemType (store : StructStore) (id : ID) : Result AbstractStruct := find store id.

(** [replaceStruct(store, struct, newStruct)] *)
Definition replaceStruct (store : StructStore) (struct newStruct : AbstractStruct)
  : Result StructStore :=
  let client := ID.client (Struct.id struct) in
  structs ← defined (clients store !! client);
  index ← findIndexSS structs (Struct.clock struct);
  Ret (setClients store (<[client := js_set structs index newStruct]> (clients store))).

(** [nextID(transaction)], for [y = transaction.doc] with the store
    [y.store] and the client id [y.clientID]. *)
Definition nextID (store : StructStore) (clientID : Z) : Result ID :=
  state ← getState store clientID;
  Ret (createID clientID state).

(** ** DeleteSet.js: looking up an id *)

(** The [while (left <= right)] loop of [findIndexDS]; [None] stands for
    [null]. *)
Fixpoint findIndexDS_loop (fuel : nat) (dis : list DeleteItem) (clock left right : Z)
  : Result (option Z) :=
  match fuel with
  | O => OutOfFuel
  | S fuel' =>
      if left <=? right then
        let midindex := (left + right) / 2 in
        mid ← defined (js_get dis midindex);
        let midclock := DeleteItem.clock mid in
        if midclock <=? clock then
          if clock <? midclock + DeleteItem.len mid then Ret (Some midindex)
          else findIndexDS_loop fuel' dis clock (midindex + 1) right
        else findIndexDS_loop fuel' dis clock left (midindex - 1)
      else Ret None
  end.

Definition findIndexDS (dis : list DeleteItem) (clock : Z) : Result (option Z) :=
  findIndexDS_loop (S (length dis)) dis clock 0 (Z.of_nat (length dis) - 1).

(** [ds.clients.get(client)] *)
Fixpoint clients_get (m : list (Z * list DeleteItem)) (client : Z)
  : option (list DeleteItem) :=
  match m with
  | [] => None
  | (k, dis) :: m' => if decide (k = client) then Some dis else clients_get m' client
  end.

Definition isDeleted (ds : DeleteSet) (id : ID) : Result bool :=
  match clients_get (DeleteSet.clients ds) (ID.client id) with
  | None => Ret false
  | Some dis =>
      index ← findIndexDS dis (ID.clock id);
      Ret (bool_decide (index <> None))
  end.

(** The ranges of the array follow each other without overlap, and none
    has a negative length: what [sortAndMergeDeleteSet] leaves of ranges
    that were recorded once each. *)
Definition ordered_ranges (dis : list DeleteItem) : Prop :=
  Forall (fun d => 0 <= DeleteItem.len d) dis /\ consecutive end_le_clock dis.

(** Clock [c] lies in one of the ranges of the array. *)
Definition covered (dis : list DeleteItem) (c : Z) : Prop :=
  exists d, d ∈ dis /\ inRange (DeleteItem.clock d) (DeleteItem.len d) c = true.

(** What [sortAndMergeDeleteSet] makes of one array. *)
Definition sorted_merged (dels : list DeleteItem) : list DeleteItem :=
  match sort_by_clock dels with
  | [] => []
  | l :: rest => merge_ranges [] l rest
  end.

(** *** The encoding of a delete set *)

(** What [writeDeleteSet] writes for the ranges of one client. *)
Definition encode_items (dsitems : list DeleteItem) : list Z :=
  flat_map (fun d => [DeleteItem.clock d; DeleteItem.len d]) dsitems.

(** What [writeDeleteSet] writes for one client. *)
Definition encode_client (entry : Z * list DeleteItem) : list Z :=
  entry.1 :: Z.of_nat (length entry.2) :: encode_items entry.2.

(** All ranges of the delete set begin at or after the state of their
    client in the store. *)
Definition beyond_state (store : StructStore) (ds : DeleteSet) : Prop :=
  forall client dsitems, (client, dsitems) ∈ DeleteSet.clients ds ->
    exists state, getState store client = Ret state /\
      Forall (fun d => state <= DeleteItem.clock d) dsitems.

(** ** YArray.js: the content of a type that is not integrated *)

(** [arr.splice(start, deleteCount, ...items)]: the array after the
    call.  [deleteCount] is clamped to what is left from [start] on. *)
Definition js_splice {A : Type} (arr : list A) (start deleteCount : Z) (items : list A)
  : list A :=
  let s := js_start arr start in
  let n := Z.to_nat (Z.min (Z.max deleteCount 0) (Z.of_nat (length arr) - Z.of_nat s)) in
  take s arr ++ items ++ drop (s + n) arr.

Module YArray.

(** The fields of a [YArray] that [insert], [push], [delete] and
    [length] use.  [doc] is [null] until the type is integrated;
    [_prelimContent] is [null] afterwards. *)
Record t (T : Type) : Type := mk {
  doc : option nat;
  _length : Z;
  _prelimContent : option (list T)
}.

Arguments mk {T} _ _ _.
Arguments doc {T} _.
Arguments _length {T} _.
Arguments _prelimContent {T} _.

Section Methods.

Context {T : Type}.

(** What [insert] and [delete] do on an integrated type: a transaction
    around [typeListInsertGenerics] or [typeListDelete], which are not
    among the sources. *)
Context (typeListInsertGenerics : t T -> Z -> list T -> Result (t T)).
Context (typeListDelete : t T -> Z -> Z -> Result (t T)).

(** [new YArray()] *)
Definition new : t T := mk None 0 (Some []).

(** [get length ()] *)
Definition length (this : t T) : Z :=
  match _prelimContent this with
  | None => _length this
  | Some content => Z.of_nat (List.length content)
  end.

Definition insert (this : t T) (index : Z) (content : list T) : Result (t T) :=
  match doc this with
  | Some _ => typeListInsertGenerics this index content
  | None =>
      prelim ← defined (_prelimContent this);
      Ret (mk (doc this) (_length this) (Some (js_splice prelim index 0 content)))
  end.

Definition push (this : t T) (content : list T) : Result (t T) :=
  insert this (length this) content.

(** [delete(index, length)]; the default of [length] is 1. *)
Definition delete (this : t T) (index : Z) (length : Z) : Result (t T) :=
  match doc this with
  | Some _ => typeListDelete this index length
  | None =>
      prelim ← defined (_prelimContent this);
      Ret (mk (doc this) (_length this) (Some (js_splice prelim index length [])))
  end.

End Methods.

End YArray.

(** ** DeleteSet.js: [createDeleteSetFromStructStore] *)

(** The inner loop
    [for (let next = structs[i + 1]; i + 1 < structs.length && next.id.clock === clock + len && next.deleted; next = structs[++i + 1])]:
    returns [i] and [len] after the loop. *)
Fixpoint createDeleteSet_next (fuel : nat) (structs : list AbstractStruct) (i clock len : Z)
  : Result (Z * Z) :=
  match fuel with
  | O => OutOfFuel
  | S fuel' =>
      if i + 1 <? Z.of_nat (length structs) then
        next ← defined (js_get structs (i + 1));
        if bool_decide (Struct.clock next = clock + len) && Struct.deleted next
        then createDeleteSet_next fuel' structs (i + 1) clock (len + Struct.length next)
        else Ret (i, len)
      else Ret (i, len)
  end.

(** The loop [for (let i = 0; i < structs.length; i++)] from [i] on. *)
Fixpoint createDeleteSet_for (fuel : nat) (structs : list AbstractStruct) (i : Z)
    (dsitems : list DeleteItem) : Result (list DeleteItem) :=
  match fuel with
  | O => OutOfFuel
  | S fuel' =>
      if i <? Z.of_nat (length structs) then
        struct ← defined (js_get structs i);
        if Struct.deleted struct then
          let clock := Struct.clock struct in
          let len := Struct.length struct in
          '(i, len) ←
            (if i + 1 <? Z.of_nat (length structs)
             then createDeleteSet_next (S (length structs)) structs i clock len
             else Ret (i, len));
          createDeleteSet_for fuel' structs (i + 1) (dsitems ++ [DeleteItem.mk clock len])
        else createDeleteSet_for fuel' structs (i + 1) dsitems
      else Ret dsitems
  end.

(** The body of the [forEach]: the [dsitems] of one array. *)
Definition createDeleteSet_dsitems (structs : list AbstractStruct) : Result (list DeleteItem) :=
  createDeleteSet_for (S (length structs)) structs 0 [].

(** [createDeleteSetFromStructStore(ss)].  The entries of the result
    follow the order in which [forEach] visits the clients of the store;
    here that is the order of [map_to_list]. *)
Definition createDeleteSetFromStructStore (ss : StructStore) : Result DeleteSet :=
  cs ← foldr (fun '(client, structs) rest =>
                dsitems ← createDeleteSet_dsitems structs;
                cs ← rest;
                Ret (if 0 <? Z.of_nat (length dsitems) then (client, dsitems) :: cs else cs))
             (Ret []) (map_to_list (clients ss));
  Ret (DeleteSet.mk cs).

(** What the two loops compute, on the structs that are left to visit:
    [cur] is the range that is being extended, if any. *)
Fixpoint deleted_runs (cur : option DeleteItem) (rest : list AbstractStruct)
  : list DeleteItem :=
  match rest with
  | [] => match cur with Some d => [d] | None => [] end
  | s :: rest' =>
      let fresh :=
        if Struct.deleted s
        then deleted_runs (Some (DeleteItem.mk (Struct.clock s) (Struct.length s))) rest'
        else deleted_runs None rest' in
      match cur with
      | Some d =>
          if bool_decide (Struct.clock s = DeleteItem.clock d + DeleteItem.len d)
             && Struct.deleted s
          then deleted_runs
                 (Some (DeleteItem.mk (DeleteItem.clock d) (DeleteItem.len d + Struct.length s)))
                 rest'
          else d :: fresh
      | None => fresh
      end
  end.

(** ** DeleteSet.js: [iterateDeletedStructs] *)

Section IterateDeletedStructs.

(** The callback [f] is modelled by what it makes of a state [S]; it
    does not change the structs it is given. *)
Context {S : Type} (f : S -> AbstractStruct -> S).

(** The [do { struct = structs[index++]; f(struct) } while (...)] loop;
    [hi] is [del.clock + del.len].  The loop is entered at an index that
    [findIndexSS] returned and goes on below [structs.length] only, so
    [structs[index]] is never [undefined] there. *)
Fixpoint iterateDeletedStructs_do (fuel : nat) (structs : list AbstractStruct) (hi : Z)
    (acc : S) (index : Z) : Result S :=
  match fuel with
  | O => OutOfFuel
  | Datatypes.S fuel' =>
      struct ← defined (js_get structs index);
      let index := index + 1 in
      let acc := f acc struct in
      if index <? Z.of_nat (length structs) then
        next ← defined (js_get structs index);
        if Struct.clock next <? hi
        then iterateDeletedStructs_do fuel' structs hi acc index
        else Ret acc
      else Ret acc
  end.

(** The body of the [for] loop: one range of the client. *)
Definition iterateDeletedStructs_range (store : StructStore) (clientid : Z) (acc : S)
    (del : DeleteItem) : Result S :=
  structs ← defined (clients store !! clientid);
  index ← findIndexSS structs (DeleteItem.clock del);
  iterateDeletedStructs_do (Datatypes.S (length structs)) structs
    (DeleteItem.clock del + DeleteItem.len del) acc index.

(** The [for (let i = 0; i < deletes.length; i++)] loop. *)
Fixpoint iterateDeletedStructs_for (store : StructStore) (clientid : Z) (acc : S)
    (deletes : list DeleteItem) : Result S :=
  match deletes with
  | [] => Ret acc
  | del :: deletes' =>
      acc ← iterateDeletedStructs_range store clientid acc del;
      iterateDeletedStructs_for store clientid acc deletes'
  end.

(** [ds.clients.forEach(...)] *)
Fixpoint iterateDeletedStructs_clients (store : StructStore) (acc : S)
    (cs : list (Z * list DeleteItem)) : Result S :=
  match cs with
  | [] => Ret acc
  | (clientid, deletes) :: cs' =>
      acc ← iterateDeletedStructs_for store clientid acc deletes;
      iterateDeletedStructs_clients store acc cs'
  end.

Definition iterateDeletedStructs (ds : DeleteSet) (store : StructStore) (acc : S) : Result S :=
  iterateDeletedStructs_clients store acc (DeleteSet.clients ds).

End IterateDeletedStructs.

(** Struct [s] has a clock in the range, or lies at a clock inside it. *)
Definition overlaps (del : DeleteItem) (s : AbstractStruct) : bool :=
  (Struct.clock s <? DeleteItem.clock del + DeleteItem.len del)
  && (DeleteItem.clock del <? Struct.clock s + Struct.length s).

(** The structs of the store that the ranges of the delete set reach, in
    the order of the ranges. *)
Definition deleted_structs (ds : DeleteSet) (store : StructStore) : list AbstractStruct :=
  flat_map (fun '(clientid, deletes) =>
              flat_map (fun del => filter (fun s => overlaps del s = true)
                                     (default [] (clients store !! clientid)))
                       deletes)
           (DeleteSet.clients ds).

(** The structs from the front of [rest] that begin before [hi]. *)
Fixpoint before (hi : Z) (rest : list AbstractStruct) : list AbstractStruct :=
  match rest with
  | [] => []
  | s :: rest' => if Struct.clock s <? hi then s :: before hi rest' else []
  end.

(** The range [del] of client [clientid] has a positive length and
    begins at a clock that the array of the client holds; the array
    follows on and has no negative length. *)
Definition range_known (store : StructStore) (clientid : Z) (del : DeleteItem) : Prop :=
  exists structs, clients store !! clientid = Some structs /\
    contiguous structs /\ nonneg_lengths structs /\
    known structs (DeleteItem.clock del) /\ 0 < DeleteItem.len del.

(** *** The ranges of a delete-set message *)

(** Clock [c] lies in one of the ranges of the array, as a test. *)
Definition coveredb (dels : list DeleteItem) (c : Z) : bool :=
  existsb (fun d => inRange (DeleteItem.clock d) (DeleteItem.len d) c) dels.

(** [inDeleteSet] as a test. *)
Definition inDeleteSetb (ds : DeleteSet) (client c : Z) : bool :=
  existsb (fun entry => bool_decide (entry.1 = client) && coveredb entry.2 c)
          (DeleteSet.clients ds).

(** The state of a client in a store whose arrays are not empty. *)
Definition state_of (store : StructStore) (client : Z) : Z :=
  match getState store client with
  | Ret state => state
  | _ => 0
  end.

(** The part of the range [(clock, len)] that lies at or beyond [state]:
    the whole range when it begins there, the rest [[state, clock + len)]
    when it begins below the state and reaches beyond it, nothing
    otherwise. *)
Definition unapplied_part (state clock len : Z) : option DeleteItem :=
  if clock <? state then
    if state <? clock + len then Some (DeleteItem.mk state (clock + len - state)) else None
  else Some (DeleteItem.mk clock len).

(** The unapplied part of range [d] of [client] is added to the delete
    set. *)
Definition park_range (client state : Z) (unappliedDS : DeleteSet) (d : DeleteItem)
  : DeleteSet :=
  match unapplied_part state (DeleteItem.clock d) (DeleteItem.len d) with
  | Some u =>
      addToDeleteSet unappliedDS (createID client (DeleteItem.clock u)) (DeleteItem.len u)
  | None => unappliedDS
  end.

(** The unapplied parts of the ranges of the clients [cs], in the order
    of the message; [state client] is the state of [client]. *)
Definition park_clients (state : Z -> Z) (unappliedDS : DeleteSet)
    (cs : list (Z * list DeleteItem)) : DeleteSet :=
  foldl (fun ua entry => foldl (park_range entry.1 (state entry.1)) ua entry.2)
        unappliedDS cs.

(** What a delete-set message leaves unapplied on a store. *)
Definition unapplied (store : StructStore) (msg : DeleteSet) : DeleteSet :=
  park_clients (state_of store) newDeleteSet (DeleteSet.clients msg).

(** The state of every client is at least what it was. *)
Definition advances (store store' : StructStore) : Prop :=
  forall k state, getState store k = Ret state ->
    exists state', getState store' k = Ret state' /\ state <= state'.

(** ** Sample data *)

(** [new StructStore()] *)
Definition newStructStore : StructStore :=
  {| clients := ∅; pendingDeleteReaders := [] |}.

(** An undeleted string item with no neighbours, child of type [0]. *)
Definition sampleString (client clock : Z) (str : string) : AbstractStruct :=
  ItemString
    {| AbstractItem.id := createID client clock;
       AbstractItem.left := None; AbstractItem.origin := None;
       AbstractItem.right := None; AbstractItem.rightOrigin := None;
       AbstractItem.parent := 0%nat; AbstractItem.parentSub := None;
       AbstractItem.deleted := false |}
    str.

(** Client 1 holds clocks [0, 6): "ab", a GC of three units, "c". *)
Definition sampleStructs : list AbstractStruct :=
  [sampleString 1 0 "ab"; GC (createID 1 2) 3; sampleString 1 5 "c"].

Definition sampleStore : StructStore :=
  {| clients := {[ 1 := sampleStructs ]}; pendingDeleteReaders := [] |}.

(** Client 1 deleted clocks 4-5, 0 and 1-2; client 2 deleted clock 3. *)
Definition sampleDeleteSet : DeleteSet :=
  DeleteSet.mk
    [(1, [DeleteItem.mk 4 2; DeleteItem.mk 0 1; DeleteItem.mk 1 2]);
     (2, [DeleteItem.mk 3 1])].

(** Two ranges of client 1 that overlap: clocks 0-4 and clock 2. *)
Definition overlappingDeleteSet : DeleteSet :=
  DeleteSet.mk [(1, [DeleteItem.mk 0 5; DeleteItem.mk 2 1])].

(** A transaction in which nothing happened yet. *)
Definition emptyTransaction : Transaction :=
  Transaction.mk newDeleteSet ∅ ∅ [] [] [].

(** Two string items of client 1 under the key "k" of type 0, "ab" at
    clock 0 and "c" at clock 2, as [splitAt] leaves the halves of "abc";
    the second one is the current entry of the map. *)
Definition mapEntryStructs : list AbstractStruct :=
  [ItemString
     {| AbstractItem.id := createID 1 0;
        AbstractItem.left := None; AbstractItem.origin := None;
        AbstractItem.right := Some (createID 1 2); AbstractItem.rightOrigin := None;
        AbstractItem.parent := 0%nat; AbstractItem.parentSub := Some "k";
        AbstractItem.deleted := false |}
     "ab";
   ItemString
     {| AbstractItem.id := createID 1 2;
        AbstractItem.left := Some (createID 1 0);
        AbstractItem.origin := Some (createID 1 1);
        AbstractItem.right := None; AbstractItem.rightOrigin := None;
        AbstractItem.parent := 0%nat; AbstractItem.parentSub := Some "k";
        AbstractItem.deleted := false |}
     "c"].

Definition mapEntryMaps : TypeMaps := {[ 0%nat := {[ "k" := createID 1 2 ]} ]}.

(** Client 1 holds the seven units of "abcdefg": its state is 7. *)
Definition sevenStructs : list AbstractStruct := [sampleString 1 0 "abcdefg"].

Definition sevenStore : StructStore :=
  {| clients := {[ 1 := sevenStructs ]}; pendingDeleteReaders := [] |}.

(** A document with two types.  The handler of type 0 inserts into type
    1; type 1 has a handler that only looks.  The changes do not touch
    the store. *)
Definition chattyEnv : Env :=
  {| _eH := fun type =>
              match type with
              | 0%nat => [[[Change 1%nat None]]]
              | 1%nat => [[]]
              | _ => []
              end;
     _dEH := fun _ => [];
     _observers := fun _ => [];
     ancestors := fun type => [type];
     applyChange := fun _ _ transaction store => Ret (transaction, store);
     cleanupStructs := fun _ store => Ret store |}.

(** The same document with handlers that only look. *)
Definition quietEnv : Env :=
  {| _eH := fun type =>
              match type with
              | 0%nat => [[]]
              | 1%nat => [[]]
              | _ => []
              end;
     _dEH := fun type => match type with 0%nat => [[]] | _ => [] end;
     _observers := fun _ => [];
     ancestors := fun type => match type with 1%nat => [1%nat; 0%nat] | _ => [type] end;
     applyChange := fun _ _ transaction store => Ret (transaction, store);
     cleanupStructs := fun _ store => Ret store |}.

(** A document without an active transaction, before any handler call. *)
Definition idleRun : Run :=
  {| doc := {| store := newStructStore; _transaction := None; _transactionCleanups := [] |};
     calls := [] |}.

(** A transaction that changes both types. *)
Definition changeBoth : Body := [Change 0%nat None; Change 1%nat None].

(** A resolution of parameters that finds no neighbours and the root
    type [0] as the parent. *)
Definition rootParams (transaction : Transaction) (store : StructStore)
    (left right parent : option ID) (parentSub parentYKey : option string)
  : option ID * option ID * option TypeRef * option string :=
  (None, None, Some 0%nat, parentSub).

(** A GC of one unit at clock 0 of [client]. *)
Definition unitGC (client : Z) : AbstractStruct := GC (createID client 0) 1.

(** An update that carries "abcdefg" of client 1 from clock 0 on and
    "xy" of client 2 from clock 3 on, and deletes the clocks [5, 10) of
    client 1.  Nothing of client 2 below clock 3 is in it. *)
Definition gapUpdate : Update :=
  {| structRefs :=
       [ItemStringRef.mk (createID 2 3) None None None (Some "text") None "xy";
        ItemStringRef.mk (createID 1 0) None None None (Some "text") None "abcdefg"];
     deleteSetSection := [1; 1; 1; 5; 5] |}.

(** * Properties *)

(** ** Arrays *)

Lemma js_get_Some {A : Type} (arr : list A) (i : Z) (x : A) :
  js_get arr i = Some x <-> 0 <= i /\ arr !! Z.to_nat i = Some x.
Proof.
  unfold js_get. destruct (Z.ltb_spec i 0); split; intros H'.
  - discriminate.
  - lia.
  - split; [lia | done].
  - by destruct H'.
Qed.

Lemma js_get_lt {A : Type} (arr : list A) (i : Z) (x : A) :
  js_get arr i = Some x -> 0 <= i < Z.of_nat (length arr).
Proof.
  intros [H0 H]%js_get_Some. apply lookup_lt_Some in H. lia.
Qed.

Lemma js_get_is_Some {A : Type} (arr : list A) (i : Z) :
  0 <= i < Z.of_nat (length arr) -> exists x, js_get arr i = Some x.
Proof.
  intros H. destruct (lookup_lt_is_Some_2 arr (Z.to_nat i)) as [x Hx]; [lia |].
  exists x. apply js_get_Some. split; [lia | done].
Qed.

Lemma js_get_of_nat {A : Type} (arr : list A) (i : nat) :
  js_get arr (Z.of_nat i) = arr !! i.
Proof.
  unfold js_get. destruct (Z.ltb_spec (Z.of_nat i) 0); [lia |].
  by rewrite Nat2Z.id.
Qed.

Lemma lastStruct_last (structs : list AbstractStruct) :
  lastStruct structs = last structs.
Proof.
  unfold lastStruct. destruct structs as [| s structs] using rev_ind.
  - reflexivity.
  - rewrite last_snoc, length_app. simpl.
    replace (Z.of_nat (length structs + 1) - 1) with (Z.of_nat (length structs)) by lia.
    rewrite js_get_of_nat. by rewrite lookup_app_r, Nat.sub_diag.
Qed.

(** ** Contiguous arrays *)

Lemma integretyCheck_from_cons l r rest :
  integretyCheck_from l (r :: rest) = Ret tt <->
  Struct.endClock l = Struct.clock r /\ integretyCheck_from r rest = Ret tt.
Proof.
  simpl. unfold Struct.endClock. case_decide; split; intros H'.
  - done.
  - by destruct H'.
  - discriminate.
  - by destruct H'.
Qed.

Lemma contiguous_cons l r rest :
  contiguous (l :: r :: rest) <->
  Struct.endClock l = Struct.clock r /\ contiguous (r :: rest).
Proof. apply integretyCheck_from_cons. Qed.

Lemma contiguous_tail s structs : contiguous (s :: structs) -> contiguous structs.
Proof.
  destruct structs as [| r rest]; [done |]. by intros [_ H]%contiguous_cons.
Qed.

Lemma contiguous_lookup structs (i : nat) l r :
  contiguous structs -> structs !! i = Some l -> structs !! S i = Some r ->
  Struct.endClock l = Struct.clock r.
Proof.
  revert i. induction structs as [| s structs IH]; intros i Hc Hl Hr; [done |].
  destruct i as [| i].
  - destruct structs as [| r' rest]; [done |]. simpl in Hl, Hr.
    injection Hl as ->. injection Hr as ->. by apply contiguous_cons in Hc as [? _].
  - apply (IH i); [by eapply contiguous_tail | done | done].
Qed.

Lemma contiguous_of_lookup structs :
  (forall (i : nat) l r, structs !! i = Some l -> structs !! S i = Some r ->
     Struct.endClock l = Struct.clock r) ->
  contiguous structs.
Proof.
  induction structs as [| s structs IH]; intros H; [done |].
  destruct structs as [| r rest]; [done |].
  apply contiguous_cons. split.
  - by apply (H 0%nat).
  - apply IH. intros i l' r' Hl Hr. by apply (H (S i)).
Qed.

Lemma nonneg_lookup structs (i : nat) s :
  nonneg_lengths structs -> structs !! i = Some s -> 0 <= Struct.length s.
Proof.
  intros Hn Hs. unfold nonneg_lengths in Hn. rewrite Forall_lookup in Hn. by apply (Hn i).
Qed.

Lemma contiguous_le structs (i j : nat) a b :
  contiguous structs -> nonneg_lengths structs -> (i < j)%nat ->
  structs !! i = Some a -> structs !! j = Some b ->
  Struct.endClock a <= Struct.clock b.
Proof.
  intros Hc Hn Hij Ha. revert b. induction Hij as [| j Hij IH]; intros b Hb.
  - rewrite (contiguous_lookup structs i a b); [lia | done ..].
  - destruct (lookup_lt_is_Some_2 structs j) as [m Hm].
    { apply lookup_lt_Some in Hb. lia. }
    specialize (IH m Hm).
    pose proof (contiguous_lookup structs j m b Hc Hm Hb) as Hmb.
    pose proof (nonneg_lookup structs j m Hn Hm) as Hlen.
    unfold Struct.endClock in *. lia.
Qed.

(** In a contiguous array at most one struct covers a given clock. *)
Lemma covers_unique structs (i j : nat) a b c :
  contiguous structs -> nonneg_lengths structs ->
  structs !! i = Some a -> structs !! j = Some b ->
  covers a c -> covers b c -> i = j.
Proof.
  intros Hc Hn Ha Hb Hca Hcb. unfold covers in *.
  destruct (Nat.lt_total i j) as [Hlt | [Heq | Hgt]]; [| done |].
  - pose proof (contiguous_le structs i j a b Hc Hn Hlt Ha Hb). lia.
  - pose proof (contiguous_le structs j i b a Hc Hn Hgt Hb Ha). lia.
Qed.

(** The structs of a contiguous array cover its whole known interval. *)
Lemma known_covered structs c :
  contiguous structs -> known structs c ->
  exists (i : nat) s, structs !! i = Some s /\ covers s c.
Proof.
  intros Hc (first & last & Hf & Hl & Hlo & Hhi).
  rewrite lastStruct_last in Hl.
  revert first Hf Hlo. induction structs as [| s structs IH]; intros first Hf Hlo; [done |].
  simpl in Hf. injection Hf as ->.
  destruct (Z.lt_ge_cases c (Struct.endClock first)) as [Hin | Hout].
  - exists 0%nat, first. by split.
  - destruct structs as [| r rest].
    { simpl in Hl. injection Hl as ->. lia. }
    apply contiguous_cons in Hc as [Heq Hc].
    destruct (IH Hc Hl r eq_refl) as (i & s & Hs & Hcov); [lia |].
    exists (S i), s. by split.
Qed.

Lemma covered_known structs (i : nat) s c :
  contiguous structs -> nonneg_lengths structs ->
  structs !! i = Some s -> covers s c -> known structs c.
Proof.
  intros Hc Hn Hs [Hlo Hhi].
  destruct structs as [| first rest] eqn:E; [done |]. rewrite <- E in *.
  assert (exists last, lastStruct structs = Some last) as [last Hl].
  { rewrite lastStruct_last, E. destruct (last (first :: rest)) eqn:El; [eauto |].
    by apply last_None in El. }
  exists first, last. split; [by rewrite E |]. split; [done |].
  assert (structs !! 0%nat = Some first) as Hf by by rewrite E.
  assert (structs !! (length structs - 1)%nat = Some last) as Hl'.
  { rewrite lastStruct_last, last_lookup in Hl. by rewrite Nat.sub_1_r. }
  pose proof (nonneg_lookup structs _ _ Hn Hf) as Hlf.
  pose proof (nonneg_lookup structs _ _ Hn Hl') as Hll.
  pose proof (lookup_lt_Some _ _ _ Hs) as Hi.
  split.
  - destruct i as [| i]; [by simplify_eq |].
    pose proof (contiguous_le structs 0 (S i) first s Hc Hn ltac:(lia) Hf Hs).
    unfold Struct.endClock in *. lia.
  - destruct (decide (i = length structs - 1)%nat) as [-> | Hne]; [by simplify_eq |].
    pose proof (contiguous_le structs i (length structs - 1) s last Hc Hn ltac:(lia) Hs Hl').
    unfold Struct.endClock in *. lia.
Qed.

(** ** Binary search: [findIndexSS] *)

Lemma findIndexSS_loop_sound fuel structs c l r i :
  findIndexSS_loop fuel structs c l r = Ret i ->
  l <= i <= r /\ exists s, js_get structs i = Some s /\ covers s c.
Proof.
  revert l r. induction fuel as [| fuel IH]; intros l r H; [done |].
  simpl in H. destruct (Z.leb_spec l r) as [Hlr |]; [| done].
  pose proof (Z.div_le_lower_bound (l + r) 2 l ltac:(lia) ltac:(lia)) as Hlo.
  pose proof (Z.div_le_upper_bound (l + r) 2 r ltac:(lia) ltac:(lia)) as Hhi.
  destruct (js_get structs ((l + r) / 2)) as [mid |] eqn:Hmid; [| done].
  simpl in H.
  destruct (Z.leb_spec (Struct.clock mid) c).
  - destruct (Z.ltb_spec c (Struct.clock mid + Struct.length mid)).
    + injection H as <-. split; [lia |]. exists mid. by split.
    + apply IH in H as [? ?]. split; [lia | done].
  - apply IH in H as [? ?]. split; [lia | done].
Qed.

Lemma findIndexSS_loop_total fuel structs c l r :
  0 <= l -> r < Z.of_nat (length structs) -> (Z.to_nat (r - l + 1) < fuel)%nat ->
  (exists i, findIndexSS_loop fuel structs c l r = Ret i) \/
  findIndexSS_loop fuel structs c l r = Throw unexpectedCase.
Proof.
  revert l r. induction fuel as [| fuel IH]; intros l r Hl Hr Hfuel; [lia |].
  simpl. destruct (Z.leb_spec l r) as [Hlr |]; [| by right].
  pose proof (Z.div_le_lower_bound (l + r) 2 l ltac:(lia) ltac:(lia)) as Hlo.
  pose proof (Z.div_le_upper_bound (l + r) 2 r ltac:(lia) ltac:(lia)) as Hhi.
  destruct (js_get_is_Some structs ((l + r) / 2)) as [mid ->]; [lia |].
  simpl.
  destruct (Z.leb_spec (Struct.clock mid) c).
  - destruct (Z.ltb_spec c (Struct.clock mid + Struct.length mid)).
    + left. eauto.
    + apply IH; lia.
  - apply IH; lia.
Qed.

Lemma findIndexSS_loop_complete fuel structs c l r (t : nat) s :
  contiguous structs -> nonneg_lengths structs ->
  structs !! t = Some s -> covers s c ->
  0 <= l <= Z.of_nat t -> Z.of_nat t <= r < Z.of_nat (length structs) ->
  (Z.to_nat (r - l + 1) < fuel)%nat ->
  findIndexSS_loop fuel structs c l r = Ret (Z.of_nat t).
Proof.
  intros Hc Hn Hs Hcov. revert l r.
  induction fuel as [| fuel IH]; intros l r Hl Hr Hfuel; [lia |].
  simpl. destruct (Z.leb_spec l r) as [Hlr |]; [| lia].
  pose proof (Z.div_le_lower_bound (l + r) 2 l ltac:(lia) ltac:(lia)) as Hlo.
  pose proof (Z.div_le_upper_bound (l + r) 2 r ltac:(lia) ltac:(lia)) as Hhi.
  destruct (js_get_is_Some structs ((l + r) / 2)) as [mid Hmid]; [lia |].
  rewrite Hmid. simpl.
  apply js_get_Some in Hmid as [_ Hmid].
  set (m := Z.to_nat ((l + r) / 2)) in *.
  assert (Z.of_nat m = (l + r) / 2) as Hm by lia.
  unfold covers, Struct.endClock in Hcov.
  destruct (Z.leb_spec (Struct.clock mid) c).
  - destruct (Z.ltb_spec c (Struct.clock mid + Struct.length mid)).
    + f_equal. rewrite <- Hm. f_equal.
      apply (covers_unique structs m t mid s c); done.
    + apply IH; [| | lia].
      * destruct (decide (m < t)%nat); [lia |].
        destruct (decide (m = t)) as [-> | Hne]; [simplify_eq; lia |].
        pose proof (contiguous_le structs t m s mid Hc Hn ltac:(lia) Hs Hmid).
        pose proof (nonneg_lookup structs m mid Hn Hmid).
        unfold Struct.endClock in *. lia.
      * lia.
  - apply IH; [lia | | lia].
    destruct (decide (t < m)%nat); [lia |].
    destruct (decide (m = t)) as [-> | Hne]; [simplify_eq; lia |].
    pose proof (contiguous_le structs m t mid s Hc Hn ltac:(lia) Hmid Hs).
    pose proof (nonneg_lookup structs m mid Hn Hmid).
    unfold Struct.endClock in *. lia.
Qed.

(** On every array the search ends: it returns an index or throws
    [unexpectedCase]. *)
Lemma findIndexSS_total structs c :
  (exists i, findIndexSS structs c = Ret i) \/ findIndexSS structs c = Throw unexpectedCase.
Proof. apply findIndexSS_loop_total; lia. Qed.

Lemma findIndexSS_sound structs c i :
  findIndexSS structs c = Ret i -> exists s, js_get structs i = Some s /\ covers s c.
Proof. intros H. by apply findIndexSS_loop_sound in H as [_ ?]. Qed.

Lemma findIndexSS_covered structs c (t : nat) s :
  contiguous structs -> nonneg_lengths structs ->
  structs !! t = Some s -> covers s c ->
  findIndexSS structs c = Ret (Z.of_nat t).
Proof.
  intros Hc Hn Hs Hcov. pose proof (lookup_lt_Some _ _ _ Hs).
  apply (findIndexSS_loop_complete _ structs c _ _ t s); try done; lia.
Qed.

(** C5. On a contiguous array (whose lengths are not negative),
    [findIndexSS] returns, for a clock inside the known interval, the
    index of the struct whose half-open interval holds the clock, and no
    other struct of the array holds it; for a clock outside the known
    interval it throws [unexpectedCase]. *)
Theorem findIndexSS_correct (structs : list AbstractStruct) (c : Z) :
  contiguous structs -> nonneg_lengths structs ->
  (known structs c ->
   exists i s, findIndexSS structs c = Ret i /\ js_get structs i = Some s /\
     Struct.clock s <= c < Struct.clock s + Struct.length s /\
     forall j s', js_get structs j = Some s' ->
       Struct.clock s' <= c < Struct.clock s' + Struct.length s' -> j = i) /\
  (~ known structs c -> findIndexSS structs c = Throw unexpectedCase).
Proof.
  intros Hc Hn. split.
  - intros Hk. destruct (known_covered structs c Hc Hk) as (t & s & Hs & Hcov).
    exists (Z.of_nat t), s. split; [by eapply findIndexSS_covered |].
    split; [by rewrite js_get_of_nat |]. split; [done |].
    intros j s' [Hj Hs']%js_get_Some Hcov'.
    rewrite <- (Z2Nat.id j Hj). f_equal.
    by apply (covers_unique structs (Z.to_nat j) t s' s c).
  - intros Hk. destruct (findIndexSS_total structs c) as [[i Hi] |]; [| done].
    destruct (findIndexSS_sound structs c i Hi) as (s & [_ Hs]%js_get_Some & Hcov).
    destruct Hk. by eapply covered_known.
Qed.

Lemma findIndexSS_correct_witness :
  (exists i s, findIndexSS sampleStructs 3 = Ret i /\ js_get sampleStructs i = Some s /\
     Struct.clock s <= 3 < Struct.clock s + Struct.length s /\
     forall j s', js_get sampleStructs j = Some s' ->
       Struct.clock s' <= 3 < Struct.clock s' + Struct.length s' -> j = i) /\
  findIndexSS sampleStructs 6 = Throw unexpectedCase.
Proof.
  assert (contiguous sampleStructs) as Hc by reflexivity.
  assert (nonneg_lengths sampleStructs) as Hn.
  { repeat constructor; vm_compute; discriminate. }
  split.
  - apply (proj1 (findIndexSS_correct sampleStructs 3 Hc Hn)).
    eexists _, _. split; [reflexivity |]. split; [reflexivity |]. vm_compute.
    split; [discriminate | reflexivity].
  - apply (proj2 (findIndexSS_correct sampleStructs 6 Hc Hn)).
    intros (first & last & Hf & Hl & _ & Hhi).
    vm_compute in Hl. injection Hl as <-. vm_compute in Hhi. discriminate.
Defined.

(** ** [getState] and [addStruct] *)

(** C10. For a client without an entry in the store, [getState] returns
    0 and does not fail. *)
Theorem getState_unknown_client (store : StructStore) (client : Z) :
  clients store !! client = None -> getState store client = Ret 0.
Proof. intros H. unfold getState. by rewrite H. Qed.

Lemma getState_unknown_client_witness :
  getState sampleStore 7 = Ret 0.
Proof. apply getState_unknown_client. reflexivity. Defined.

(** C2 as stated fails: for a client without structs the expected clock
    is 0, yet a struct at clock 5 is appended without an error. *)
Lemma addStruct_unknown_client_unchecked :
  let struct := GC (createID 7 5) 1 in
  getState sampleStore 7 = Ret 0 /\
  Struct.clock struct <> 0 /\
  addStruct sampleStore struct =
    Ret (setClients sampleStore (<[7 := [struct]]> (clients sampleStore))).
Proof. split; [reflexivity |]. split; [discriminate | reflexivity]. Qed.

(** C2, amended. [addStruct] appends the struct to the array of its
    client.  For a client that already has structs it throws exactly when
    the clock of the struct differs from [last.id.clock + last.length];
    for a client without an entry it creates the array and appends
    without any check. *)
Theorem addStruct_appends_or_throws (store : StructStore) (struct : AbstractStruct) :
  let c := ID.client (Struct.id struct) in
  (clients store !! c = None ->
   addStruct store struct = Ret (setClients store (<[c := [struct]]> (clients store)))) /\
  (forall structs last,
     clients store !! c = Some structs -> lastStruct structs = Some last ->
     (Struct.clock struct <> Struct.clock last + Struct.length last <->
      exists e, addStruct store struct = Throw e) /\
     (Struct.clock struct = Struct.clock last + Struct.length last ->
      addStruct store struct =
        Ret (setClients store (<[c := structs ++ [struct]]> (clients store))))).
Proof.
  intros c. split.
  - intros H. unfold addStruct. fold c. by rewrite H.
  - intros structs last Hs Hl. unfold addStruct. fold c. rewrite Hs, Hl. simpl.
    case_decide as Hd; split.
    + split; [lia |]. by intros [e He].
    + done.
    + split; [eauto | lia].
    + lia.
Qed.

Lemma addStruct_appends_or_throws_witness :
  addStruct newStructStore (sampleString 1 0 "ab") =
    Ret (setClients newStructStore {[ 1 := [sampleString 1 0 "ab"] ]}) /\
  (exists e, addStruct sampleStore (sampleString 1 7 "d") = Throw e) /\
  addStruct sampleStore (sampleString 1 6 "d") =
    Ret (setClients sampleStore
           (<[1 := sampleStructs ++ [sampleString 1 6 "d"]]> (clients sampleStore))).
Proof.
  split; [| split].
  - apply (proj1 (addStruct_appends_or_throws newStructStore (sampleString 1 0 "ab"))).
    reflexivity.
  - apply (proj2 (addStruct_appends_or_throws sampleStore (sampleString 1 7 "d"))
             sampleStructs (sampleString 1 5 "c")); [reflexivity | reflexivity |].
    vm_compute. discriminate.
  - apply (proj2 (addStruct_appends_or_throws sampleStore (sampleString 1 6 "d"))
             sampleStructs (sampleString 1 5 "c")); reflexivity.
Defined.

(** ** Delete sets: [sortAndMergeDeleteSet] *)

Section Consecutive.

Variable P : DeleteItem -> DeleteItem -> Prop.

Lemma consecutive_single d : consecutive P [d].
Proof. intros [| i] l r Hl Hr; done. Qed.

Lemma consecutive_snoc kept l r :
  consecutive P (kept ++ [l]) -> P l r -> consecutive P ((kept ++ [l]) ++ [r]).
Proof.
  intros Hc Hlr i a b Ha Hb.
  assert (S i < length ((kept ++ [l]) ++ [r]))%nat as Hi by by eapply lookup_lt_Some.
  rewrite !length_app in Hi. simpl in Hi.
  destruct (decide (S i = length kept + 1)%nat) as [Heq | Hne].
  - rewrite lookup_app_l in Ha by (rewrite length_app; simpl; lia).
    rewrite lookup_app_r in Ha by lia.
    rewrite lookup_app_r in Hb by (rewrite length_app; simpl; lia).
    rewrite length_app in Hb. simpl in Hb.
    replace (i - length kept)%nat with 0%nat in Ha by lia.
    replace (S i - (length kept + 1))%nat with 0%nat in Hb by lia.
    simpl in Ha, Hb. by simplify_eq.
  - rewrite lookup_app_l in Ha by (rewrite length_app; simpl; lia).
    rewrite lookup_app_l in Hb by (rewrite length_app; simpl; lia).
    by apply (Hc i).
Qed.

(** [P] looks at its right argument through its clock only. *)
Hypothesis P_right_clock : forall x l l',
  DeleteItem.clock l = DeleteItem.clock l' -> P x l -> P x l'.

Lemma consecutive_replace_last kept l l' :
  DeleteItem.clock l = DeleteItem.clock l' ->
  consecutive P (kept ++ [l]) -> consecutive P (kept ++ [l']).
Proof.
  intros Hcl Hc i a b Ha Hb.
  assert (S i < length (kept ++ [l']))%nat as Hi by by eapply lookup_lt_Some.
  rewrite length_app in Hi. simpl in Hi.
  rewrite lookup_app_l in Ha by lia.
  destruct (decide (S i = length kept)) as [Heq | Hne].
  - rewrite lookup_app_r in Hb by lia.
    replace (S i - length kept)%nat with 0%nat in Hb by lia.
    simpl in Hb. injection Hb as <-.
    apply (P_right_clock a l l' Hcl). apply (Hc i).
    + by rewrite lookup_app_l by lia.
    + rewrite lookup_app_r by lia. by rewrite Heq, Nat.sub_diag.
  - rewrite lookup_app_l in Hb by lia.
    apply (Hc i); by rewrite lookup_app_l by lia.
Qed.

(** [Q l rest] is what is known of the last kept range and the ranges
    still to come; it survives a merge and a shift, and gives [P] when
    the loop keeps [l] and moves on to [r]. *)
Variable Q : DeleteItem -> list DeleteItem -> Prop.

Hypothesis Q_merge : forall l r rest,
  DeleteItem.clock l + DeleteItem.len l = DeleteItem.clock r -> Q l (r :: rest) ->
  Q (DeleteItem.mk (DeleteItem.clock l) (DeleteItem.len l + DeleteItem.len r)) rest.
Hypothesis Q_shift : forall l r rest, Q l (r :: rest) -> Q r rest.
Hypothesis Q_keep : forall l r rest,
  DeleteItem.clock l + DeleteItem.len l <> DeleteItem.clock r -> Q l (r :: rest) -> P l r.

Lemma merge_ranges_consecutive rest : forall kept l,
  Q l rest -> consecutive P (kept ++ [l]) -> consecutive P (merge_ranges kept l rest).
Proof.
  induction rest as [| r rest IH]; intros kept l HQ Hc; [done |].
  simpl. case_decide as Hadj.
  - apply IH; [by apply Q_merge |].
    by apply (consecutive_replace_last kept l).
  - apply IH; [by eapply Q_shift |].
    apply consecutive_snoc; [done |]. by eapply Q_keep.
Qed.

End Consecutive.

(** The sort. *)

Lemma sort_insert_Forall (P : DeleteItem -> Prop) d sorted :
  Forall P (sort_insert d sorted) <-> P d /\ Forall P sorted.
Proof.
  induction sorted as [| x sorted IH]; simpl.
  - rewrite Forall_singleton. split; [by intros ? | by intros [? _]].
  - destruct (DeleteItem.clock x - DeleteItem.clock d <? 0).
    + rewrite !Forall_cons, IH. tauto.
    + rewrite !Forall_cons. tauto.
Qed.

Lemma sort_by_clock_Forall (P : DeleteItem -> Prop) dels :
  Forall P (sort_by_clock dels) <-> Forall P dels.
Proof.
  induction dels as [| d dels IH]; simpl; [done |].
  by rewrite sort_insert_Forall, Forall_cons, IH.
Qed.

Lemma sort_insert_length d sorted : length (sort_insert d sorted) = S (length sorted).
Proof.
  induction sorted as [| x sorted IH]; simpl; [done |].
  destruct (DeleteItem.clock x - DeleteItem.clock d <? 0); simpl; by rewrite ?IH.
Qed.

Lemma sort_by_clock_length dels : length (sort_by_clock dels) = length dels.
Proof.
  induction dels as [| d dels IH]; simpl; [done |]. by rewrite sort_insert_length, IH.
Qed.

Lemma sort_insert_sorted d sorted :
  StronglySorted clock_le sorted -> StronglySorted clock_le (sort_insert d sorted).
Proof.
  induction 1 as [| x sorted Hs IH Hx]; simpl.
  - repeat constructor.
  - destruct (Z.ltb_spec (DeleteItem.clock x - DeleteItem.clock d) 0) as [Hlt | Hge].
    + constructor; [done |]. apply sort_insert_Forall. split; [| done].
      unfold clock_le. lia.
    + constructor; [by constructor |]. constructor; [unfold clock_le; lia |].
      eapply Forall_impl; [exact Hx |]. unfold clock_le. intros y Hy. lia.
Qed.

Lemma sort_by_clock_sorted dels : StronglySorted clock_le (sort_by_clock dels).
Proof.
  induction dels as [| d dels IH]; simpl; [constructor | by apply sort_insert_sorted].
Qed.

Lemma disjoint_ranges_sym a b : disjoint_ranges a b -> disjoint_ranges b a.
Proof. unfold disjoint_ranges. tauto. Qed.

Lemma sort_insert_pairwise d sorted :
  Forall (disjoint_ranges d) sorted -> pairwise_disjoint sorted ->
  pairwise_disjoint (sort_insert d sorted).
Proof.
  induction sorted as [| x sorted IH]; simpl; intros Hd Hp; [done |].
  apply Forall_cons in Hd as [Hdx Hd]. destruct Hp as [Hx Hp].
  destruct (DeleteItem.clock x - DeleteItem.clock d <? 0); simpl.
  - split; [| by apply IH]. apply sort_insert_Forall.
    split; [by apply disjoint_ranges_sym | done].
  - split; [by constructor | done].
Qed.

Lemma sort_by_clock_pairwise dels :
  pairwise_disjoint dels -> pairwise_disjoint (sort_by_clock dels).
Proof.
  induction dels as [| d dels IH]; simpl; [done |]. intros [Hd Hp].
  apply sort_insert_pairwise; [by apply sort_by_clock_Forall | by apply IH].
Qed.

(** Sorted ranges of positive length that share no clock follow each
    other: each ends before the later ones start. *)
Lemma sorted_disjoint_end dels :
  StronglySorted clock_le dels -> positive_lens dels -> pairwise_disjoint dels ->
  StronglySorted end_le_clock dels.
Proof.
  induction 1 as [| x dels Hs IH Hx]; intros Hpos Hp; [constructor |].
  apply Forall_cons in Hpos as [Hposx Hpos]. destruct Hp as [Hdx Hp].
  constructor; [by apply IH |].
  unfold positive_lens in Hpos. rewrite Forall_forall in *.
  intros y Hy. specialize (Hx y Hy). specialize (Hdx y Hy). specialize (Hpos y Hy).
  unfold clock_le, end_le_clock, disjoint_ranges, DeleteItem.endClock in *. lia.
Qed.

(** The loop against [merge_ranges].  The array is [kept ++ [l]], then
    slots that are never read again, then the ranges still to visit. *)
Lemma sortAndMerge_loop_merge_ranges rest : forall kept l stale dels i j,
  dels = kept ++ l :: stale ++ rest ->
  i = Z.of_nat (length kept + 1 + length stale) ->
  j = Z.of_nat (length kept + 1) ->
  exists merged,
    sortAndMerge_loop (length rest) dels i j
    = Ret (merged, Z.of_nat (length (merge_ranges kept l rest))) /\
    take (length (merge_ranges kept l rest)) merged = merge_ranges kept l rest.
Proof.
  induction rest as [| r rest IH]; intros kept l stale dels i j -> -> ->.
  - simpl. eexists. split; [by rewrite length_app |].
    replace (kept ++ l :: stale ++ []) with ((kept ++ [l]) ++ stale ++ [])
      by (by rewrite <- app_assoc).
    apply take_app_length.
  - cbn [length sortAndMerge_loop].
    replace (Z.of_nat (length kept + 1) - 1) with (Z.of_nat (length kept)) by lia.
    rewrite !js_get_of_nat, Nat2Z.id.
    rewrite (list_lookup_middle kept (stale ++ r :: rest) l (length kept) eq_refl).
    assert ((kept ++ l :: stale ++ r :: rest) !! (length kept + 1 + length stale)%nat = Some r)
      as ->.
    { rewrite (app_comm_cons stale), (app_assoc kept).
      apply list_lookup_middle. rewrite length_app. simpl. lia. }
    cbn [defined mbind Result_bind merge_ranges]. case_decide as Hadj.
    + apply (IH kept _ (stale ++ [r])).
      * rewrite insert_app_r_alt, Nat.sub_diag by lia. simpl. by rewrite <- app_assoc.
      * rewrite length_app. simpl. lia.
      * lia.
    + destruct (Z.ltb_spec (Z.of_nat (length kept + 1))
                  (Z.of_nat (length kept + 1 + length stale))) as [Hlt | Hge].
      * destruct stale as [| x stale]; [simpl in Hlt; lia |].
        apply (IH (kept ++ [l]) r (stale ++ [r])).
        -- rewrite cons_middle, (app_assoc kept), insert_app_r_alt
             by (rewrite length_app; simpl; lia).
           rewrite Nat2Z.id, length_app. simpl.
           replace (length kept + 1 - (length kept + 1))%nat with 0%nat by lia.
           simpl. by rewrite <- !app_assoc.
        -- rewrite !length_app. simpl. lia.
        -- rewrite !length_app. simpl. lia.
      * destruct stale as [| x stale]; [| simpl in Hge; lia].
        apply (IH (kept ++ [l]) r []).
        -- simpl. by rewrite <- !app_assoc.
        -- rewrite !length_app. simpl. lia.
        -- rewrite !length_app. simpl. lia.
Qed.

Lemma sortAndMerge_array_merge_ranges dels :
  sortAndMerge_array dels =
  Ret (match sort_by_clock dels with
       | [] => []
       | l :: rest => merge_ranges [] l rest
       end).
Proof.
  unfold sortAndMerge_array. destruct (sort_by_clock dels) as [| l rest]; [done |].
  cbn [length].
  replace (Z.to_nat (Z.of_nat (S (length rest)) - 1)) with (length rest) by lia.
  destruct (sortAndMerge_loop_merge_ranges rest [] l [] (l :: rest) 1 1)
    as (merged & -> & Htake); [done .. |].
  cbn [mbind Result_bind]. by rewrite Nat2Z.id, Htake.
Qed.

(** The insert position [j] stays inside the array: the loop writes no
    slot beyond the last one, and for a non-empty array the final
    [dels.length = j] truncates. *)
Lemma sortAndMerge_loop_bounds n : forall dels i j merged j',
  sortAndMerge_loop n dels i j = Ret (merged, j') ->
  length merged = length dels /\ j <= j' <= j + Z.of_nat n.
Proof.
  induction n as [| n IH]; intros dels i j merged j'.
  - intros [= <- <-]. split; [done | lia].
  - cbn [sortAndMerge_loop].
    destruct (js_get dels (j - 1)) as [left |]; [| done].
    destruct (js_get dels i) as [right |]; [| done].
    cbn [defined mbind Result_bind]. case_decide.
    + intros [Hlen Hj]%IH. rewrite length_insert in Hlen. split; [done | lia].
    + intros [Hlen Hj]%IH. split; [| lia].
      destruct (j <? i); [by rewrite length_insert in Hlen | done].
Qed.

Lemma sortAndMerge_array_truncates dels :
  dels <> [] ->
  exists merged j,
    sortAndMerge_loop (Z.to_nat (Z.of_nat (length (sort_by_clock dels)) - 1))
      (sort_by_clock dels) 1 1 = Ret (merged, j) /\
    1 <= j <= Z.of_nat (length merged) /\
    sortAndMerge_array dels = Ret (take (Z.to_nat j) merged).
Proof.
  intros Hne. unfold sortAndMerge_array.
  pose proof (sort_by_clock_length dels) as Hlen.
  destruct (sort_by_clock dels) as [| l rest] eqn:Hsort.
  { destruct dels; [done | discriminate Hlen]. }
  cbn [length].
  replace (Z.to_nat (Z.of_nat (S (length rest)) - 1)) with (length rest) by lia.
  destruct (sortAndMerge_loop_merge_ranges rest [] l [] (l :: rest) 1 1)
    as (merged & Hrun & _); [done .. |].
  destruct (sortAndMerge_loop_bounds _ _ _ _ _ _ Hrun) as [Hm Hj].
  rewrite Hrun. cbn [mbind Result_bind]. eexists _, _. split; [done |].
  split; [| done]. rewrite Hm. cbn [length]. lia.
Qed.

Lemma merge_ranges_sorted l rest :
  StronglySorted clock_le (l :: rest) -> sorted_by_clock (merge_ranges [] l rest).
Proof.
  intros Hs.
  apply (merge_ranges_consecutive
           (fun l r => DeleteItem.clock l <= DeleteItem.clock r)
           ltac:(cbv beta; intros x a b Hab HP; lia)
           (fun l rest => StronglySorted clock_le (l :: rest))).
  - intros a r rest' _ Har. apply StronglySorted_inv in Har as [Hr Ha].
    apply Forall_cons in Ha as [_ Ha]. apply StronglySorted_inv in Hr as [Hrest _].
    constructor; [done |]. eapply Forall_impl; [exact Ha |]. by intros y Hy.
  - intros a r rest' Har. by apply StronglySorted_inv in Har as [? _].
  - intros a r rest' _ Har. apply StronglySorted_inv in Har as [_ Ha].
    by apply Forall_cons in Ha as [? _].
  - done.
  - apply consecutive_single.
Qed.

Lemma merge_ranges_not_adjacent l rest : not_adjacent (merge_ranges [] l rest).
Proof.
  apply (merge_ranges_consecutive
           (fun l r => DeleteItem.clock l + DeleteItem.len l <> DeleteItem.clock r)
           ltac:(cbv beta; intros x a b Hab HP; lia) (fun _ _ => True)); try done.
Qed.

Lemma merge_ranges_separated l rest :
  StronglySorted end_le_clock (l :: rest) -> separated (merge_ranges [] l rest).
Proof.
  intros Hs.
  apply (merge_ranges_consecutive
           (fun l r => DeleteItem.clock l + DeleteItem.len l < DeleteItem.clock r)
           ltac:(cbv beta; intros x a b Hab HP; lia)
           (fun l rest => StronglySorted end_le_clock (l :: rest))).
  - intros a r rest' Hadj Har. apply StronglySorted_inv in Har as [Hr _].
    apply StronglySorted_inv in Hr as [Hrest Hr].
    constructor; [done |]. eapply Forall_impl; [exact Hr |].
    unfold end_le_clock, DeleteItem.endClock. simpl. intros y Hy. lia.
  - intros a r rest' Har. by apply StronglySorted_inv in Har as [? _].
  - intros a r rest' Hne Har. apply StronglySorted_inv in Har as [_ Ha].
    apply Forall_cons in Ha as [Ha _].
    unfold end_le_clock, DeleteItem.endClock in Ha. lia.
  - done.
  - apply consecutive_single.
Qed.

(** What [sortAndMergeDeleteSet] guarantees for one client: [dels] is the
    array before the call, [merged] the array after it. *)
Lemma sortAndMerge_array_spec dels :
  exists merged, sortAndMerge_array dels = Ret merged /\
    sorted_by_clock merged /\ not_adjacent merged /\
    (positive_lens dels -> pairwise_disjoint dels -> separated merged).
Proof.
  rewrite sortAndMerge_array_merge_ranges. eexists. split; [reflexivity |].
  pose proof (sort_by_clock_sorted dels) as Hs.
  pose proof (proj2 (sort_by_clock_Forall (fun d => 0 < DeleteItem.len d) dels)) as Hpos.
  pose proof (sort_by_clock_pairwise dels) as Hp.
  destruct (sort_by_clock dels) as [| l rest].
  - repeat split; intros; by intros [| i] ? ? ? ?.
  - split; [by apply merge_ranges_sorted |].
    split; [apply merge_ranges_not_adjacent |].
    intros Hpos' Hp'. apply merge_ranges_separated.
    apply sorted_disjoint_end; [done | by apply Hpos | by apply Hp].
Qed.

Lemma sortAndMerge_clients_spec cs :
  exists cs', sortAndMerge_clients cs = Ret cs' /\
    Forall2 (fun before after =>
               before.1 = after.1 /\
               sorted_by_clock after.2 /\ not_adjacent after.2 /\
               (positive_lens before.2 -> pairwise_disjoint before.2 -> separated after.2))
      cs cs'.
Proof.
  induction cs as [| [client dels] cs (cs' & Hrun & IH)].
  - exists []. by split.
  - destruct (sortAndMerge_array_spec dels) as (merged & Hm & Hspec).
    exists ((client, merged) :: cs'). simpl. rewrite Hm. simpl. rewrite Hrun. simpl.
    split; [done |]. by constructor.
Qed.

(** C1 as stated fails: two overlapping ranges are not coalesced, the
    array stays as it was sorted, and the first range reaches past the
    start of the second. *)
Lemma sortAndMergeDeleteSet_keeps_overlap :
  sortAndMergeDeleteSet overlappingDeleteSet =
    Ret (DeleteSet.mk [(1, [DeleteItem.mk 0 5; DeleteItem.mk 2 1])]) /\
  ~ separated [DeleteItem.mk 0 5; DeleteItem.mk 2 1].
Proof.
  split; [reflexivity |]. intros H.
  specialize (H 0%nat _ _ eq_refl eq_refl). simpl in H. lia.
Qed.

(** C1, amended. After [sortAndMergeDeleteSet] the array of every client
    is sorted by clock and no two consecutive ranges touch
    ([left.clock + left.len] differs from [right.clock]).  When the
    ranges of the client had positive lengths and shared no clock, the
    array has neither overlap nor adjacency: [left.clock + left.len <
    right.clock] for consecutive ranges. *)
Theorem sortAndMergeDeleteSet_sorted_merged (ds : DeleteSet) :
  exists ds', sortAndMergeDeleteSet ds = Ret ds' /\
    Forall2 (fun before after =>
               before.1 = after.1 /\
               sorted_by_clock after.2 /\ not_adjacent after.2 /\
               (positive_lens before.2 -> pairwise_disjoint before.2 -> separated after.2))
      (DeleteSet.clients ds) (DeleteSet.clients ds').
Proof.
  destruct (sortAndMerge_clients_spec (DeleteSet.clients ds)) as (cs' & Hrun & Hspec).
  exists (DeleteSet.mk cs'). unfold sortAndMergeDeleteSet. rewrite Hrun. by split.
Qed.

Lemma sortAndMergeDeleteSet_sorted_merged_witness :
  exists ds', sortAndMergeDeleteSet sampleDeleteSet = Ret ds' /\
    Forall (fun after => separated after.2) (DeleteSet.clients ds').
Proof.
  destruct (sortAndMergeDeleteSet_sorted_merged sampleDeleteSet) as (ds' & Hrun & Hspec).
  exists ds'. split; [exact Hrun |].
  simpl in Hspec.
  apply Forall2_cons_inv_l in Hspec as (a1 & cs1 & (_ & _ & _ & H1) & Hspec & ->).
  apply Forall2_cons_inv_l in Hspec as (a2 & cs2 & (_ & _ & _ & H2) & Hspec & ->).
  apply Forall2_nil_inv_l in Hspec as ->.
  repeat constructor.
  - apply H1.
    + repeat constructor.
    + simpl. rewrite !Forall_cons, !Forall_nil.
      unfold disjoint_ranges, DeleteItem.endClock. simpl. lia.
  - apply H2.
    + repeat constructor.
    + simpl. repeat constructor.
Defined.

(** ** Splitting structs *)

Lemma str_take_length n s : String.length (str_take n s) = Nat.min n (String.length s).
Proof.
  revert s. induction n as [| n IH]; intros [| c s]; simpl; rewrite ?IH; done.
Qed.

Lemma str_drop_length n s : String.length (str_drop n s) = (String.length s - n)%nat.
Proof.
  revert s. induction n as [| n IH]; intros [| c s]; simpl; rewrite ?IH; done.
Qed.

Lemma str_take_drop n s : str_take n s +:+ str_drop n s = s.
Proof.
  revert s. induction n as [| n IH]; intros [| c s]; try reflexivity.
  change (String c (str_take n s +:+ str_drop n s) = String c s). by rewrite IH.
Qed.

Lemma str_index_inside s d : 0 <= d <= str_length s -> str_index s d = Z.to_nat d.
Proof.
  intros H. unfold str_index. destruct (Z.ltb_spec d 0); [lia |]. f_equal. lia.
Qed.

Lemma js_slice_to_length s d : 0 <= d <= str_length s -> str_length (js_slice_to s d) = d.
Proof.
  intros H. unfold js_slice_to. rewrite str_index_inside by done.
  unfold str_length in *. rewrite str_take_length. lia.
Qed.

Lemma js_slice_from_length s d :
  0 <= d <= str_length s -> str_length (js_slice_from s d) = str_length s - d.
Proof.
  intros H. unfold js_slice_from. rewrite str_index_inside by done.
  unfold str_length in *. rewrite str_drop_length. lia.
Qed.

Lemma js_slice_to_from s d : js_slice_to s d +:+ js_slice_from s d = s.
Proof. apply str_take_drop. Qed.

Section SplitAt.

Context (transaction : Transaction) (this : AbstractStruct) (diff : Z).

Lemma splitAt_id_l : Struct.id (splitAt transaction this diff).1 = Struct.id this.
Proof. by destruct this. Qed.

Lemma splitAt_id_r :
  Struct.id (splitAt transaction this diff).2
  = createID (ID.client (Struct.id this)) (Struct.clock this + diff).
Proof. by destruct this. Qed.

Lemma splitAt_clock_l : Struct.clock (splitAt transaction this diff).1 = Struct.clock this.
Proof. unfold Struct.clock. by rewrite splitAt_id_l. Qed.

Lemma splitAt_clock_r :
  Struct.clock (splitAt transaction this diff).2 = Struct.clock this + diff.
Proof. unfold Struct.clock at 1. by rewrite splitAt_id_r. Qed.

Lemma splitAt_constructor_l :
  Struct.constructor (splitAt transaction this diff).1 = Struct.constructor this.
Proof. by destruct this. Qed.

Lemma splitAt_constructor_r :
  Struct.constructor (splitAt transaction this diff).2 = Struct.constructor this.
Proof. by destruct this. Qed.

Lemma splitAt_deleted_l :
  Struct.deleted (splitAt transaction this diff).1 = Struct.deleted this.
Proof. by destruct this. Qed.

Lemma splitAt_deleted_r :
  Struct.deleted (splitAt transaction this diff).2 = Struct.deleted this.
Proof. by destruct this. Qed.

Hypothesis diff_inside : 0 <= diff <= Struct.length this.

Lemma splitAt_length_l : Struct.length (splitAt transaction this diff).1 = diff.
Proof. destruct this; simpl in *; [done | by apply js_slice_to_length]. Qed.

Lemma splitAt_length_r :
  Struct.length (splitAt transaction this diff).2 = Struct.length this - diff.
Proof. destruct this; simpl in *; [done | by apply js_slice_from_length]. Qed.

Lemma splitAt_end_l :
  Struct.endClock (splitAt transaction this diff).1
  = Struct.clock (splitAt transaction this diff).2.
Proof.
  unfold Struct.endClock. by rewrite splitAt_clock_l, splitAt_length_l, splitAt_clock_r.
Qed.

Lemma splitAt_end_r :
  Struct.endClock (splitAt transaction this diff).2 = Struct.endClock this.
Proof. unfold Struct.endClock. rewrite splitAt_clock_r, splitAt_length_r. lia. Qed.

End SplitAt.

(** Arrays around a split. *)

Lemma js_splice_insert_set (structs : list AbstractStruct) (i : nat) c l r :
  structs !! i = Some c ->
  js_splice_insert (js_set structs (Z.of_nat i) l) (Z.of_nat i + 1) r
  = take i structs ++ l :: r :: drop (S i) structs.
Proof.
  intros Hc. pose proof (lookup_lt_Some _ _ _ Hc) as Hi.
  unfold js_splice_insert, js_set, js_start. rewrite Nat2Z.id, length_insert.
  destruct (Z.ltb_spec (Z.of_nat i + 1) 0); [lia |].
  replace (Z.to_nat (Z.min (Z.of_nat i + 1) (Z.of_nat (length structs)))) with (S i) by lia.
  rewrite insert_take_drop by done.
  rewrite (cons_middle l), app_assoc.
  rewrite take_app_length', drop_app_length' by (rewrite length_app, length_take; simpl; lia).
  by rewrite <- app_assoc.
Qed.

Lemma contiguous_app xs y ys :
  contiguous (xs ++ y :: ys) <-> contiguous (xs ++ [y]) /\ contiguous (y :: ys).
Proof.
  induction xs as [| x xs IH]; simpl.
  - split; [by intros ? | by intros [_ ?]].
  - destruct xs as [| x' xs]; simpl in *.
    + rewrite !contiguous_cons. split; [by intros [? ?] | by intros [[? _] ?]].
    + rewrite !contiguous_cons, IH. tauto.
Qed.

Lemma contiguous_split pre c post l r :
  contiguous (pre ++ c :: post) ->
  Struct.clock l = Struct.clock c -> Struct.endClock l = Struct.clock r ->
  Struct.endClock r = Struct.endClock c ->
  contiguous (pre ++ l :: r :: post).
Proof.
  intros [Hpre Hpost]%contiguous_app Hl Hlr Hr.
  apply contiguous_app. split.
  - destruct pre as [| p pre] using rev_ind; [done |].
    rewrite <- app_assoc in *. simpl in *.
    apply contiguous_app in Hpre as [Hpre Hpc]. apply contiguous_app. split; [done |].
    apply contiguous_cons in Hpc as [Hpc _]. apply contiguous_cons. split; [lia | done].
  - apply contiguous_cons. split; [done |].
    destruct post as [| q post]; [done |].
    apply contiguous_cons in Hpost as [Hcq Hpost]. apply contiguous_cons. split; [lia | done].
Qed.

Lemma nonneg_lengths_split pre c post l r :
  nonneg_lengths (pre ++ c :: post) ->
  0 <= Struct.length l -> 0 <= Struct.length r ->
  nonneg_lengths (pre ++ l :: r :: post).
Proof.
  unfold nonneg_lengths. rewrite !Forall_app, !Forall_cons. tauto.
Qed.

(** ** [getItemCleanStart] and [getItemCleanEnd] *)

Lemma sampleStructs_nonneg : nonneg_lengths sampleStructs.
Proof. repeat constructor; vm_compute; discriminate. Qed.

Lemma sampleStructs_known c : 0 <= c < 6 -> known sampleStructs c.
Proof.
  intros H. eexists _, _. split; [reflexivity |]. split; [reflexivity |].
  unfold Struct.endClock, Struct.clock, Struct.length, str_length. simpl. lia.
Qed.

(** The array after [struct.splitAt(transaction, diff)] on [structs[i]]
    and the insertion of the right half at [i + 1]. *)
Lemma split_array_contiguous transaction structs (i : nat) c diff :
  structs !! i = Some c -> contiguous structs -> 0 <= diff <= Struct.length c ->
  contiguous (take i structs ++ (splitAt transaction c diff).1
                :: (splitAt transaction c diff).2 :: drop (S i) structs).
Proof.
  intros Hc Hcont Hd.
  rewrite <- (take_drop_middle structs i c Hc) in Hcont.
  eapply contiguous_split; [exact Hcont | ..].
  - apply splitAt_clock_l.
  - by apply splitAt_end_l.
  - by apply splitAt_end_r.
Qed.

(** C7 as stated fails: inside a GC the containing struct is returned
    unsplit, and it begins before the clock that was asked for. *)
Lemma getItemCleanStart_inside_GC :
  getItemCleanStart emptyTransaction sampleStore (createID 1 3)
    = Ret (sampleStore, GC (createID 1 2) 3) /\
  Struct.clock (GC (createID 1 2) 3) <> 3.
Proof. split; [reflexivity | discriminate]. Qed.

(** C7, amended. For a clock inside the known state of the client,
    [getItemCleanStart] looks up the struct [c] that holds the clock.
    When [c] begins before the clock and is not a GC, [c] is split at the
    clock, the right half is put at the next position of the array and
    returned: it begins exactly at the clock.  Otherwise [c] is returned
    and the store is unchanged: [c] begins exactly at the clock, or it is
    a GC, which is never split. *)
Theorem getItemCleanStart_clean
    (transaction : Transaction) (store : StructStore) (id : ID)
    (structs : list AbstractStruct) :
  clients store !! ID.client id = Some structs ->
  contiguous structs -> nonneg_lengths structs -> known structs (ID.clock id) ->
  exists (i : nat) c, structs !! i = Some c /\ covers c (ID.clock id) /\
    ((Struct.clock c < ID.clock id /\ Struct.constructor c <> CGC /\
      let l := (splitAt transaction c (ID.clock id - Struct.clock c)).1 in
      let r := (splitAt transaction c (ID.clock id - Struct.clock c)).2 in
      let structs' := take i structs ++ l :: r :: drop (S i) structs in
      getItemCleanStart transaction store id
        = Ret (setClients store (<[ID.client id := structs']> (clients store)), r) /\
      Struct.clock l = Struct.clock c /\ Struct.endClock l = ID.clock id /\
      Struct.clock r = ID.clock id /\ Struct.endClock r = Struct.endClock c /\
      contiguous structs')
     \/
     ((Struct.clock c = ID.clock id \/ Struct.constructor c = CGC) /\
      getItemCleanStart transaction store id = Ret (store, c))).
Proof.
  intros Hs Hcont Hn Hk.
  destruct (known_covered structs _ Hcont Hk) as (i & c & Hc & Hcov).
  exists i, c. split; [done |]. split; [done |].
  unfold getItemCleanStart. rewrite Hs. cbn [defined mbind Result_bind].
  rewrite (findIndexSS_covered structs _ i c Hcont Hn Hc Hcov). cbn [mbind Result_bind].
  rewrite js_get_of_nat, Hc. cbn [defined mbind Result_bind].
  destruct Hcov as [Hlo Hhi]. unfold Struct.endClock in Hhi.
  destruct (Z.ltb_spec (Struct.clock c) (ID.clock id)) as [Hlt | Hge]; cbn [andb].
  - case_bool_decide as Hgc; cbn [negb].
    + right. split; [by right | done].
    + left. split; [done |]. split; [done |].
      assert (0 <= ID.clock id - Struct.clock c <= Struct.length c) as Hd by lia.
      destruct (splitAt transaction c (ID.clock id - Struct.clock c)) as [l r] eqn:Hsplit.
      rewrite (js_splice_insert_set structs i c l r Hc). cbn [fst snd].
      split; [done |].
      pose proof (splitAt_clock_l transaction c (ID.clock id - Struct.clock c)) as H1.
      pose proof (splitAt_end_l transaction c _ Hd) as H2.
      pose proof (splitAt_clock_r transaction c (ID.clock id - Struct.clock c)) as H3.
      pose proof (splitAt_end_r transaction c _ Hd) as H4.
      pose proof (split_array_contiguous transaction structs i c _ Hc Hcont Hd) as H5.
      rewrite Hsplit in H1, H2, H3, H4, H5. cbn [fst snd] in *.
      repeat split; try done; lia.
  - right. split; [left; lia | done].
Qed.

Lemma getItemCleanStart_clean_witness :
  exists (i : nat) c, sampleStructs !! i = Some c /\ covers c 1 /\
    ((Struct.clock c < 1 /\ Struct.constructor c <> CGC /\
      let l := (splitAt emptyTransaction c (1 - Struct.clock c)).1 in
      let r := (splitAt emptyTransaction c (1 - Struct.clock c)).2 in
      let structs' := take i sampleStructs ++ l :: r :: drop (S i) sampleStructs in
      getItemCleanStart emptyTransaction sampleStore (createID 1 1)
        = Ret (setClients sampleStore (<[1 := structs']> (clients sampleStore)), r) /\
      Struct.clock l = Struct.clock c /\ Struct.endClock l = 1 /\
      Struct.clock r = 1 /\ Struct.endClock r = Struct.endClock c /\
      contiguous structs')
     \/
     ((Struct.clock c = 1 \/ Struct.constructor c = CGC) /\
      getItemCleanStart emptyTransaction sampleStore (createID 1 1) = Ret (sampleStore, c))).
Proof.
  apply (getItemCleanStart_clean emptyTransaction sampleStore (createID 1 1) sampleStructs).
  - reflexivity.
  - reflexivity.
  - apply sampleStructs_nonneg.
  - apply sampleStructs_known. simpl. lia.
Defined.

(** C6 as stated fails: inside a GC the containing struct is returned
    unsplit, and it ends after the clock that was asked for. *)
Lemma getItemCleanEnd_inside_GC :
  getItemCleanEnd emptyTransaction sampleStore (createID 1 2)
    = Ret (sampleStore, GC (createID 1 2) 3) /\
  Struct.endClock (GC (createID 1 2) 3) <> 2 + 1.
Proof. split; [reflexivity | discriminate]. Qed.

(** C6, amended. For a clock inside the known state of the client,
    [getItemCleanEnd] looks up the struct [c] that holds the clock.  When
    the clock is not the last unit of [c] and [c] is not a GC, [c] is
    split just after the clock, the right half is put at the next
    position of the array, and the left half is returned: it ends exactly
    at [id.clock + 1].  Otherwise [c] is returned and the store is
    unchanged: [c] ends exactly at [id.clock + 1], or it is a GC, which
    is not split. *)
Theorem getItemCleanEnd_clean
    (transaction : Transaction) (store : StructStore) (id : ID)
    (structs : list AbstractStruct) :
  clients store !! ID.client id = Some structs ->
  contiguous structs -> nonneg_lengths structs -> known structs (ID.clock id) ->
  exists (i : nat) c, structs !! i = Some c /\ covers c (ID.clock id) /\
    ((Struct.endClock c <> ID.clock id + 1 /\ Struct.constructor c <> CGC /\
      let l := (splitAt transaction c (ID.clock id - Struct.clock c + 1)).1 in
      let r := (splitAt transaction c (ID.clock id - Struct.clock c + 1)).2 in
      let structs' := take i structs ++ l :: r :: drop (S i) structs in
      getItemCleanEnd transaction store id
        = Ret (setClients store (<[ID.client id := structs']> (clients store)), l) /\
      Struct.clock l = Struct.clock c /\ Struct.endClock l = ID.clock id + 1 /\
      Struct.clock r = ID.clock id + 1 /\ Struct.endClock r = Struct.endClock c /\
      contiguous structs')
     \/
     ((Struct.endClock c = ID.clock id + 1 \/ Struct.constructor c = CGC) /\
      getItemCleanEnd transaction store id = Ret (store, c))).
Proof.
  intros Hs Hcont Hn Hk.
  destruct (known_covered structs _ Hcont Hk) as (i & c & Hc & Hcov).
  exists i, c. split; [done |]. split; [done |].
  unfold getItemCleanEnd. rewrite Hs. cbn [defined mbind Result_bind].
  rewrite (findIndexSS_covered structs _ i c Hcont Hn Hc Hcov). cbn [mbind Result_bind].
  rewrite js_get_of_nat, Hc. cbn [defined mbind Result_bind].
  destruct Hcov as [Hlo Hhi]. unfold Struct.endClock in *.
  case_bool_decide as Hlast; cbn [negb andb].
  - right. split; [left; lia | done].
  - case_bool_decide as Hgc; cbn [negb].
    + right. split; [by right | done].
    + left. split; [lia |]. split; [done |].
      assert (0 <= ID.clock id - Struct.clock c + 1 <= Struct.length c) as Hd by lia.
      destruct (splitAt transaction c (ID.clock id - Struct.clock c + 1)) as [l r] eqn:Hsplit.
      rewrite (js_splice_insert_set structs i c l r Hc). cbn [fst snd].
      split; [done |].
      pose proof (splitAt_clock_l transaction c (ID.clock id - Struct.clock c + 1)) as H1.
      pose proof (splitAt_end_l transaction c _ Hd) as H2.
      pose proof (splitAt_clock_r transaction c (ID.clock id - Struct.clock c + 1)) as H3.
      pose proof (splitAt_end_r transaction c _ Hd) as H4.
      pose proof (split_array_contiguous transaction structs i c _ Hc Hcont Hd) as H5.
      unfold Struct.endClock in *.
      rewrite Hsplit in H1, H2, H3, H4, H5. cbn [fst snd] in *.
      repeat split; try done; lia.
Qed.

Lemma getItemCleanEnd_clean_witness :
  exists (i : nat) c, sampleStructs !! i = Some c /\ covers c 0 /\
    ((Struct.endClock c <> 0 + 1 /\ Struct.constructor c <> CGC /\
      let l := (splitAt emptyTransaction c (0 - Struct.clock c + 1)).1 in
      let r := (splitAt emptyTransaction c (0 - Struct.clock c + 1)).2 in
      let structs' := take i sampleStructs ++ l :: r :: drop (S i) sampleStructs in
      getItemCleanEnd emptyTransaction sampleStore (createID 1 0)
        = Ret (setClients sampleStore (<[1 := structs']> (clients sampleStore)), l) /\
      Struct.clock l = Struct.clock c /\ Struct.endClock l = 0 + 1 /\
      Struct.clock r = 0 + 1 /\ Struct.endClock r = Struct.endClock c /\
      contiguous structs')
     \/
     ((Struct.endClock c = 0 + 1 \/ Struct.constructor c = CGC) /\
      getItemCleanEnd emptyTransaction sampleStore (createID 1 0) = Ret (sampleStore, c))).
Proof.
  apply (getItemCleanEnd_clean emptyTransaction sampleStore (createID 1 0) sampleStructs).
  - reflexivity.
  - reflexivity.
  - apply sampleStructs_nonneg.
  - apply sampleStructs_known. simpl. lia.
Defined.

(** ** [tryToMergeWithLeft] *)

Lemma str_length_append s1 s2 : str_length (s1 +:+ s2) = str_length s1 + str_length s2.
Proof.
  unfold str_length. induction s1 as [| c s1 IH]; [done |].
  change (String c s1 +:+ s2) with (String c (s1 +:+ s2)). simpl String.length. lia.
Qed.

(** What a successful [mergeWith] leaves in the left struct: it keeps its
    ID, and its length grows by the length of the right struct, which
    began where it ended. *)
Lemma mergeWith_Some l r l' :
  mergeWith l r = Some l' ->
  Struct.id l' = Struct.id l /\
  Struct.length l' = Struct.length l + Struct.length r /\
  Struct.endClock l = Struct.clock r /\
  Struct.deleted l' = Struct.deleted l /\
  Struct.constructor l' = Struct.constructor l.
Proof.
  destruct l as [lid llen | li ls], r as [rid rlen | ri rs]; simpl; try done.
  - case_decide as H; [| done]. intros [= <-]. destruct H as [_ H].
    unfold Struct.endClock, Struct.clock. simpl. done.
  - case_decide as H; [| done]. intros [= <-].
    destruct H as (_ & H & _). unfold Struct.endClock, Struct.clock. simpl.
    by rewrite str_length_append.
Qed.

Lemma js_splice_remove_set (structs : list AbstractStruct) (i : nat) x :
  (S i < length structs)%nat ->
  js_splice_remove (js_set structs (Z.of_nat (S i) - 1) x) (Z.of_nat (S i))
  = take i structs ++ x :: drop (S (S i)) structs.
Proof.
  intros Hi. unfold js_splice_remove, js_set, js_start. rewrite length_insert.
  replace (Z.to_nat (Z.of_nat (S i) - 1)) with i by lia.
  destruct (Z.ltb_spec (Z.of_nat (S i)) 0); [lia |].
  replace (Z.to_nat (Z.min (Z.of_nat (S i)) (Z.of_nat (length structs)))) with (S i) by lia.
  rewrite insert_take_drop by lia.
  rewrite (cons_middle x), app_assoc.
  rewrite take_app_length' by (rewrite length_app, length_take; simpl; lia).
  replace (S (S i)) with (S i + 1)%nat at 1 by lia.
  rewrite <- drop_drop.
  rewrite drop_app_length' by (rewrite length_app, length_take; simpl; lia).
  rewrite drop_drop. replace (S i + 1)%nat with (S (S i)) by lia.
  by rewrite <- app_assoc.
Qed.

(** What [type._map.get(key)] returns after [type'._map.set(key', item)]. *)
Lemma typeMap_set_lookup (maps : TypeMaps) (type type' : TypeRef) (key key' : string)
    (item : ID) :
  typeMap (typeMap_set maps type key item) type' !! key'
  = if decide (type' = type /\ key' = key) then Some item else typeMap maps type' !! key'.
Proof.
  unfold typeMap_set, typeMap. destruct (decide (type' = type)) as [-> | Htype].
  - rewrite (lookup_insert_eq maps type). cbn [default id].
    destruct (decide (key' = key)) as [-> | Hkey].
    + rewrite (lookup_insert_eq (default ∅ (maps !! type)) key).
      by rewrite decide_True.
    + rewrite (lookup_insert_ne (default ∅ (maps !! type)) key key') by done.
      rewrite decide_False by (by intros [_ ?]). done.
  - rewrite (lookup_insert_ne maps type type') by done.
    rewrite decide_False by (by intros [? _]). done.
Qed.

(** C9. At a position [pos] with [0 < pos < structs.length],
    [tryToMergeWithLeft] merges [structs[pos]] into [structs[pos - 1]]
    only when both have the same [deleted] flag and the same constructor
    and [mergeWith] succeeds.  Then [structs[pos]] is spliced out and the
    left struct, which keeps its ID, covers both intervals.  When the
    right struct was the entry of its parent's map for its [parentSub]
    key, [_map.get] returns the left struct for that key afterwards, and
    every other key of every map returns what it returned before; when
    it was not, the maps are unchanged.  In every other case the array
    and the maps are unchanged. *)
Theorem tryToMergeWithLeft_correct
    (maps : TypeMaps) (structs : list AbstractStruct) (pos : Z) :
  0 < pos < Z.of_nat (length structs) ->
  exists l r, js_get structs (pos - 1) = Some l /\ js_get structs pos = Some r /\
    ((Struct.deleted l = Struct.deleted r /\
      Struct.constructor l = Struct.constructor r /\
      exists l' maps',
        mergeWith l r = Some l' /\
        tryToMergeWithLeft maps structs pos
          = Ret (maps', take (Z.to_nat (pos - 1)) structs
                          ++ l' :: drop (Z.to_nat (pos + 1)) structs) /\
        Struct.id l' = Struct.id l /\
        Struct.length l' = Struct.length l + Struct.length r /\
        (forall ritem rstr parentSub,
           r = ItemString ritem rstr ->
           AbstractItem.parentSub ritem = Some parentSub ->
           typeMap maps (AbstractItem.parent ritem) !! parentSub = Some (Struct.id r) ->
           typeMap maps' (AbstractItem.parent ritem) !! parentSub = Some (Struct.id l') /\
           forall type key,
             ~ (type = AbstractItem.parent ritem /\ key = parentSub) ->
             typeMap maps' type !! key = typeMap maps type !! key) /\
        ((forall ritem rstr parentSub,
            r = ItemString ritem rstr ->
            AbstractItem.parentSub ritem = Some parentSub ->
            typeMap maps (AbstractItem.parent ritem) !! parentSub <> Some (Struct.id r)) ->
         maps' = maps))
     \/
     ((Struct.deleted l <> Struct.deleted r \/
       Struct.constructor l <> Struct.constructor r \/
       mergeWith l r = None) /\
      tryToMergeWithLeft maps structs pos = Ret (maps, structs))).
Proof.
  intros Hpos.
  destruct (js_get_is_Some structs (pos - 1)) as [l Hl]; [lia |].
  destruct (js_get_is_Some structs pos) as [r Hr]; [lia |].
  exists l, r. split; [done |]. split; [done |].
  unfold tryToMergeWithLeft. rewrite Hl, Hr. cbn [defined mbind Result_bind].
  case_bool_decide as Hdel; cbn [andb]; [| right; by split; [left |]].
  case_bool_decide as Hctor; [| right; by split; [right; left |]].
  destruct (mergeWith l r) as [l' |] eqn:Hmerge; [| right; by split; [right; right |]].
  left. split; [done |]. split; [done |].
  destruct (mergeWith_Some l r l' Hmerge) as (Hid & Hlen & _).
  assert (js_splice_remove (js_set structs (pos - 1) l') pos
          = take (Z.to_nat (pos - 1)) structs ++ l' :: drop (Z.to_nat (pos + 1)) structs)
    as ->.
  { replace pos with (Z.of_nat (S (Z.to_nat (pos - 1)))) at 1 2 by lia.
    rewrite js_splice_remove_set by lia. do 3 f_equal. lia. }
  exists l'.
  destruct r as [rid rlen | ritem rstr].
  - eexists. split; [done |]. split; [done |]. split; [done |]. split; [done |].
    split; [done | done].
  - destruct (AbstractItem.parentSub ritem) as [sub |] eqn:Hsub.
    + case_decide as Hentry.
      * eexists. split; [done |]. split; [done |]. split; [done |]. split; [done |].
        split.
        -- intros ritem' rstr' sub' [= <- <-] Hsub' _. rewrite Hsub in Hsub'.
           injection Hsub' as <-. split.
           ++ rewrite typeMap_set_lookup, decide_True by done. by rewrite Hid.
           ++ intros type key Hne. by rewrite typeMap_set_lookup, decide_False.
        -- intros Hno. by destruct (Hno ritem rstr sub eq_refl Hsub).
      * eexists. split; [done |]. split; [done |]. split; [done |]. split; [done |].
        split; [| done].
        intros ritem' rstr' sub' [= <- <-] Hsub' Hentry'.
        rewrite Hsub in Hsub'. by simplify_eq.
    + eexists. split; [done |]. split; [done |]. split; [done |]. split; [done |].
      split; [| done]. intros ritem' rstr' sub' [= <- <-] Hsub'. by rewrite Hsub in Hsub'.
Qed.

Example tryToMergeWithLeft_mapEntry :
  tryToMergeWithLeft mapEntryMaps mapEntryStructs 1
  = Ret (typeMap_set mapEntryMaps 0%nat "k" (createID 1 0),
         [ItemString
            {| AbstractItem.id := createID 1 0;
               AbstractItem.left := None; AbstractItem.origin := None;
               AbstractItem.right := None; AbstractItem.rightOrigin := None;
               AbstractItem.parent := 0%nat; AbstractItem.parentSub := Some "k";
               AbstractItem.deleted := false |}
            "abc"]).
Proof. reflexivity. Qed.

Lemma tryToMergeWithLeft_correct_witness :
  exists l' maps',
    tryToMergeWithLeft mapEntryMaps mapEntryStructs 1 = Ret (maps', [l']) /\
    Struct.id l' = createID 1 0 /\ Struct.length l' = 3 /\
    typeMap mapEntryMaps 0%nat !! "k" = Some (createID 1 2) /\
    typeMap maps' 0%nat !! "k" = Some (createID 1 0).
Proof.
  destruct (tryToMergeWithLeft_correct mapEntryMaps mapEntryStructs 1 ltac:(simpl; lia))
    as (l & r & Hl & Hr & [(_ & _ & l' & maps' & _ & Hrun & Hid & Hlen & Hentry & _)
                          | [[Hdel | [Hctor | Hmerge]] _]]).
  - injection Hl as <-. injection Hr as <-.
    exists l', maps'. split; [exact Hrun |]. split; [exact Hid |]. split; [exact Hlen |].
    split; [reflexivity |].
    destruct (Hentry _ _ "k" eq_refl eq_refl eq_refl) as [Hget _].
    rewrite Hid in Hget. exact Hget.
  - injection Hl as <-. injection Hr as <-. by destruct Hdel.
  - injection Hl as <-. injection Hr as <-. by destruct Hctor.
  - injection Hl as <-. injection Hr as <-. discriminate Hmerge.
Defined.

(** ** Reading a delete set *)

(** *** [delete] *)

Lemma delete_id s transaction : Struct.id (delete s transaction).1 = Struct.id s.
Proof. by destruct s. Qed.

Lemma delete_clock s transaction : Struct.clock (delete s transaction).1 = Struct.clock s.
Proof. unfold Struct.clock. by rewrite delete_id. Qed.

Lemma delete_length s transaction : Struct.length (delete s transaction).1 = Struct.length s.
Proof. by destruct s. Qed.

Lemma delete_endClock s transaction :
  Struct.endClock (delete s transaction).1 = Struct.endClock s.
Proof. unfold Struct.endClock. by rewrite delete_clock, delete_length. Qed.

Lemma delete_deleted s transaction : Struct.deleted (delete s transaction).1 = true.
Proof. by destruct s. Qed.

Lemma delete_deleteSet s transaction :
  Struct.deleted s = false ->
  Transaction.deleteSet (delete s transaction).2
  = addToDeleteSet (Transaction.deleteSet transaction) (Struct.id s) (Struct.length s).
Proof. by destruct s. Qed.

(** *** The loop against [deleteFrom] *)

Lemma js_set_middle (pre post : list AbstractStruct) s x (i : Z) :
  i = Z.of_nat (length pre) -> js_set (pre ++ s :: post) i x = pre ++ x :: post.
Proof.
  intros ->. unfold js_set. rewrite Nat2Z.id.
  rewrite insert_app_r_alt, Nat.sub_diag by lia. done.
Qed.

Lemma js_get_middle (pre post : list AbstractStruct) s (i : Z) :
  i = Z.of_nat (length pre) -> js_get (pre ++ s :: post) i = Some s.
Proof. intros ->. rewrite js_get_of_nat. by apply list_lookup_middle. Qed.

Lemma js_splice_insert_middle (pre post : list AbstractStruct) s x (i : Z) :
  i = Z.of_nat (length pre) + 1 ->
  js_splice_insert (pre ++ s :: post) i x = pre ++ s :: x :: post.
Proof.
  intros ->. unfold js_splice_insert, js_start.
  destruct (Z.ltb_spec (Z.of_nat (length pre) + 1) 0); [lia |].
  rewrite length_app. simpl.
  replace (Z.to_nat (Z.min (Z.of_nat (length pre) + 1)
             (Z.of_nat (length pre + S (length post))))) with (length (pre ++ [s]))
    by (rewrite length_app; simpl; lia).
  rewrite (cons_middle s pre post), app_assoc.
  rewrite take_app_length, drop_app_length. by rewrite <- app_assoc.
Qed.

Lemma readDeleteSet_while_deleteFrom rest : forall fuel transaction pre index clock len,
  index = Z.of_nat (length pre) -> (length rest < fuel)%nat ->
  readDeleteSet_while fuel transaction (pre ++ rest) index clock len
  = Ret ((deleteFrom transaction rest (clock + len)).1,
         pre ++ (deleteFrom transaction rest (clock + len)).2).
Proof.
  induction rest as [| s rest IH]; intros fuel transaction pre index clock len -> Hfuel.
  - destruct fuel as [| fuel]; [simpl in Hfuel; lia |]. simpl.
    rewrite app_nil_r. by destruct (Z.ltb_spec (Z.of_nat (length pre)) (Z.of_nat (length pre))); [lia |].
  - destruct fuel as [| fuel]; [simpl in Hfuel; lia |]. simpl in Hfuel.
    cbn [readDeleteSet_while deleteFrom].
    destruct (Z.ltb_spec (Z.of_nat (length pre)) (Z.of_nat (length (pre ++ s :: rest))))
      as [_ | Hge]; [| rewrite length_app in Hge; simpl in Hge; lia].
    rewrite (js_get_middle pre rest s) by done. cbn [defined mbind Result_bind].
    destruct (Struct.clock s <? clock + len) eqn:Hlt; [| done].
    destruct (Struct.deleted s) eqn:Hdel; cbn [negb].
    + specialize (IH fuel transaction (pre ++ [s]) (Z.of_nat (length pre) + 1) clock len).
      rewrite <- app_assoc in IH. simpl in IH. rewrite IH.
      * destruct (deleteFrom transaction rest (clock + len)) as [tr' rest']. simpl.
        by rewrite <- app_assoc.
      * rewrite length_app. simpl. lia.
      * lia.
    + replace (Z.of_nat (length pre) + 1 - 1) with (Z.of_nat (length pre)) by lia.
      destruct (clock + len <? Struct.clock s + Struct.length s) eqn:Hsplit.
      * pose proof (splitAt_clock_r transaction s (clock + len - Struct.clock s)) as Hr.
        destruct (splitAt transaction s (clock + len - Struct.clock s)) as [l r].
        simpl in Hr.
        destruct (delete l transaction) as [l' transaction'].
        rewrite (js_set_middle pre rest s l) by done.
        rewrite (js_splice_insert_middle pre rest l r) by done.
        rewrite (js_set_middle pre (r :: rest) l l') by done.
        destruct fuel as [| fuel]; [lia |]. cbn [readDeleteSet_while].
        destruct (Z.ltb_spec (Z.of_nat (length pre) + 1)
                    (Z.of_nat (length (pre ++ l' :: r :: rest)))) as [_ | Hge];
          [| rewrite length_app in Hge; simpl in Hge; lia].
        rewrite (cons_middle l' pre), app_assoc.
        rewrite (js_get_middle (pre ++ [l']) rest r) by (rewrite length_app; simpl; lia).
        cbn [defined mbind Result_bind].
        destruct (Z.ltb_spec (Struct.clock r) (clock + len)); [lia |].
        simpl. by rewrite <- app_assoc.
      * destruct (delete s transaction) as [s' transaction'].
        rewrite (js_set_middle pre rest s s') by done.
        specialize (IH fuel transaction' (pre ++ [s']) (Z.of_nat (length pre) + 1) clock len).
        rewrite <- app_assoc in IH. simpl in IH. rewrite IH.
        -- destruct (deleteFrom transaction' rest (clock + len)) as [tr' rest']. simpl.
           by rewrite <- app_assoc.
        -- rewrite length_app. simpl. lia.
        -- lia.
Qed.

(** *** Runs of structs and their units *)

Lemma spans_app a xs ys c :
  spans a (xs ++ ys) c <-> exists b, spans a xs b /\ spans b ys c.
Proof.
  revert a. induction xs as [| x xs IH]; intros a; simpl.
  - split; [intros H; by exists a | by intros (b & -> & H)].
  - rewrite IH. split.
    + intros (Ha & b & Hxs & Hys). exists b. by repeat split.
    + intros (b & (Ha & Hxs) & Hys). split; [done |]. by exists b.
Qed.

Lemma spans_le a structs b : nonneg_lengths structs -> spans a structs b -> a <= b.
Proof.
  revert a. induction structs as [| s structs IH]; intros a Hn; simpl.
  - lia.
  - apply Forall_cons in Hn as [Hs Hn]. intros [<- H]. apply IH in H; [| done].
    unfold Struct.endClock in H. lia.
Qed.

Lemma spans_contiguous a structs b : spans a structs b -> contiguous structs.
Proof.
  revert a. induction structs as [| s structs IH]; intros a; [done |].
  intros [_ H]. destruct structs as [| r structs]; [done |].
  apply contiguous_cons. split; [by destruct H | by eapply IH].
Qed.

Lemma contiguous_spans s structs :
  contiguous (s :: structs) ->
  exists last, lastStruct (s :: structs) = Some last /\
    spans (Struct.clock s) (s :: structs) (Struct.endClock last).
Proof.
  revert s. induction structs as [| r structs IH]; intros s Hc.
  - exists s. by split.
  - apply contiguous_cons in Hc as [Hsr Hc]. destruct (IH r Hc) as (last & Hl & Hsp).
    exists last. rewrite lastStruct_last in *. split; [done |].
    split; [done |]. by rewrite Hsr.
Qed.

Lemma spans_last a structs b last :
  spans a structs b -> lastStruct structs = Some last -> Struct.endClock last = b.
Proof.
  rewrite lastStruct_last. revert a.
  induction structs as [| s structs IH]; intros a; [done |].
  intros [_ H]. destruct structs as [| r structs].
  - simpl in *. intros [= <-]. done.
  - intros Hl. by apply (IH _ H).
Qed.

Lemma coversb_covers s c : coversb s c = true <-> covers s c.
Proof. unfold coversb, covers, Struct.endClock. lia. Qed.

Lemma structAt_app xs ys c :
  structAt (xs ++ ys) c = match structAt xs c with Some s => Some s | None => structAt ys c end.
Proof. induction xs as [| x xs IH]; simpl; [done |]. by destruct (coversb x c). Qed.

Lemma structAt_Some structs c s :
  structAt structs c = Some s -> exists i : nat, structs !! i = Some s /\ covers s c.
Proof.
  induction structs as [| x structs IH]; simpl; [done |].
  destruct (coversb x c) eqn:Hx.
  - intros [= <-]. exists 0%nat. split; [done | by apply coversb_covers].
  - intros (i & Hi & Hc)%IH. by exists (S i).
Qed.

Lemma structAt_bounds a structs b c s :
  spans a structs b -> nonneg_lengths structs -> structAt structs c = Some s -> a <= c < b.
Proof.
  revert a. induction structs as [| x structs IH]; intros a; simpl; [done |].
  intros [<- Hsp] Hn. apply Forall_cons in Hn as [Hx Hn].
  pose proof (spans_le _ _ _ Hn Hsp) as Hle.
  destruct (coversb x c) eqn:Hcov.
  - apply coversb_covers in Hcov. unfold covers in Hcov. intros _. lia.
  - intros H. apply (IH _ Hsp Hn) in H. unfold Struct.endClock in *. lia.
Qed.

Lemma structAt_None_outside a structs b c :
  spans a structs b -> a <= c < b -> is_Some (structAt structs c).
Proof.
  revert a. induction structs as [| x structs IH]; intros a; simpl; [lia |].
  intros [<- Hsp] Hc. destruct (coversb x c) eqn:Hcov; [done |].
  apply (IH _ Hsp). unfold coversb, Struct.endClock in *. lia.
Qed.

Lemma structAt_lookup structs (i : nat) s c :
  contiguous structs -> nonneg_lengths structs ->
  structs !! i = Some s -> covers s c -> structAt structs c = Some s.
Proof.
  intros Hc Hn Hs Hcov.
  destruct (structAt structs c) as [x |] eqn:Hx.
  - apply structAt_Some in Hx as (j & Hj & Hcovx).
    pose proof (covers_unique structs j i x s c Hc Hn Hj Hs Hcovx Hcov). by simplify_eq.
  - exfalso. clear Hc Hn. revert i Hs. induction structs as [| y structs IH]; intros i Hs; [done |].
    simpl in Hx. destruct (coversb y c) eqn:Hy; [done |].
    destruct i as [| i].
    + simpl in Hs. injection Hs as ->. apply coversb_covers in Hcov. congruence.
    + by apply (IH Hx i).
Qed.

(** *** What [deleteFrom] does *)

Ltac deleteFrom_cases s transaction hi :=
  cbn [deleteFrom];
  destruct (Z.ltb_spec (Struct.clock s) hi) as [Hlt | Hge];
  [ destruct (Struct.deleted s) eqn:Hdel; cbn [negb];
    [ | destruct (Z.ltb_spec hi (Struct.clock s + Struct.length s)) as [Hsplit | Hnosplit] ]
  | ].

Lemma deleteFrom_spans rest : forall transaction a b hi,
  spans a rest b -> spans a (deleteFrom transaction rest hi).2 b.
Proof.
  induction rest as [| s rest IH]; intros transaction a b hi; [done |].
  intros [Ha Hsp]. deleteFrom_cases s transaction hi.
  - specialize (IH transaction _ _ hi Hsp).
    destruct (deleteFrom transaction rest hi) as [tr' rest']. by split.
  - assert (0 <= hi - Struct.clock s <= Struct.length s) as Hd by lia.
    pose proof (splitAt_clock_l transaction s (hi - Struct.clock s)) as H1.
    pose proof (splitAt_end_l transaction s _ Hd) as H2.
    pose proof (splitAt_end_r transaction s _ Hd) as H3.
    destruct (splitAt transaction s (hi - Struct.clock s)) as [l r]. simpl in H1, H2, H3.
    pose proof (delete_clock l transaction) as H4.
    pose proof (delete_endClock l transaction) as H5.
    destruct (delete l transaction) as [l' tr']. simpl in *.
    split; [lia |]. split; [lia |]. by rewrite H3.
  - pose proof (delete_clock s transaction) as H4.
    pose proof (delete_endClock s transaction) as H5.
    destruct (delete s transaction) as [s' tr']. simpl in H4, H5.
    rewrite <- H5 in Hsp. specialize (IH tr' _ _ hi Hsp).
    destruct (deleteFrom tr' rest hi) as [tr'' rest']. simpl. split; [lia | done].
  - by split.
Qed.

Lemma deleteFrom_nonneg rest : forall transaction hi,
  nonneg_lengths rest -> nonneg_lengths (deleteFrom transaction rest hi).2.
Proof.
  induction rest as [| s rest IH]; intros transaction hi; [done |].
  intros Hn. apply Forall_cons in Hn as [Hs Hn]. deleteFrom_cases s transaction hi.
  - specialize (IH transaction hi Hn).
    destruct (deleteFrom transaction rest hi) as [tr' rest']. by constructor.
  - assert (0 <= hi - Struct.clock s <= Struct.length s) as Hd by lia.
    pose proof (splitAt_length_l transaction s _ Hd) as H1.
    pose proof (splitAt_length_r transaction s _ Hd) as H2.
    destruct (splitAt transaction s (hi - Struct.clock s)) as [l r]. simpl in H1, H2.
    pose proof (delete_length l transaction) as H3.
    destruct (delete l transaction) as [l' tr']. simpl in *.
    constructor; [lia |]. constructor; [lia | done].
  - pose proof (delete_length s transaction) as H3.
    destruct (delete s transaction) as [s' tr']. simpl in H3.
    specialize (IH tr' hi Hn).
    destruct (deleteFrom tr' rest hi) as [tr'' rest']. simpl. constructor; [lia | done].
  - by constructor.
Qed.

Lemma deleteFrom_owned client rest : forall transaction hi,
  owned_by client rest -> owned_by client (deleteFrom transaction rest hi).2.
Proof.
  induction rest as [| s rest IH]; intros transaction hi; [done |].
  intros Hn. apply Forall_cons in Hn as [Hs Hn]. deleteFrom_cases s transaction hi.
  - specialize (IH transaction hi Hn).
    destruct (deleteFrom transaction rest hi) as [tr' rest']. by constructor.
  - pose proof (splitAt_id_l transaction s (hi - Struct.clock s)) as H1.
    pose proof (splitAt_id_r transaction s (hi - Struct.clock s)) as H2.
    destruct (splitAt transaction s (hi - Struct.clock s)) as [l r]. simpl in H1, H2.
    pose proof (delete_id l transaction) as H3.
    destruct (delete l transaction) as [l' tr']. simpl in *.
    constructor; [by rewrite H3, H1 |]. constructor; [by rewrite H2 | done].
  - pose proof (delete_id s transaction) as H3.
    destruct (delete s transaction) as [s' tr']. simpl in H3.
    specialize (IH tr' hi Hn).
    destruct (deleteFrom tr' rest hi) as [tr'' rest']. simpl.
    constructor; [by rewrite H3 | done].
  - by constructor.
Qed.

(** The units of [[lo, hi)] become deleted, the others stay as they
    are, provided that no undeleted struct of the run begins before
    [lo]. *)
Lemma deleteFrom_deletedAt rest : forall transaction a b lo hi c,
  spans a rest b -> nonneg_lengths rest ->
  (forall s, s ∈ rest -> Struct.deleted s = false -> lo <= Struct.clock s) ->
  deletedAt (deleteFrom transaction rest hi).2 c
  = (fun d => d || between lo hi c) <$> deletedAt rest c.
Proof.
  unfold deletedAt.
  induction rest as [| s rest IH]; intros transaction a b lo hi c; [done |].
  intros [Ha Hsp] Hn Hlo.
  pose proof Hn as Hn'. apply Forall_cons in Hn' as [Hs Hnr].
  assert (forall s', s' ∈ rest -> Struct.deleted s' = false -> lo <= Struct.clock s') as Hlor.
  { intros s' Hin. apply Hlo. by right. }
  deleteFrom_cases s transaction hi.
  - specialize (IH transaction _ _ lo hi c Hsp Hnr Hlor).
    destruct (deleteFrom transaction rest hi) as [tr' rest']. simpl in *.
    destruct (coversb s c); [simpl; by rewrite Hdel | done].
  - assert (0 <= hi - Struct.clock s <= Struct.length s) as Hd by lia.
    pose proof (splitAt_clock_l transaction s (hi - Struct.clock s)) as H1.
    pose proof (splitAt_length_l transaction s _ Hd) as H2.
    pose proof (splitAt_clock_r transaction s (hi - Struct.clock s)) as H3.
    pose proof (splitAt_length_r transaction s _ Hd) as H4.
    pose proof (splitAt_deleted_r transaction s (hi - Struct.clock s)) as H5.
    destruct (splitAt transaction s (hi - Struct.clock s)) as [l r].
    simpl in H1, H2, H3, H4, H5.
    pose proof (delete_clock l transaction) as H6.
    pose proof (delete_length l transaction) as H7.
    pose proof (delete_deleted l transaction) as H8.
    destruct (delete l transaction) as [l' tr']. simpl in H6, H7, H8. simpl.
    specialize (Hlo s ltac:(left) Hdel).
    unfold coversb, between.
    destruct (Z.leb_spec (Struct.clock l') c), (Z.ltb_spec c (Struct.clock l' + Struct.length l'));
      destruct (Z.leb_spec (Struct.clock r) c), (Z.ltb_spec c (Struct.clock r + Struct.length r));
      destruct (Z.leb_spec (Struct.clock s) c), (Z.ltb_spec c (Struct.clock s + Struct.length s));
      destruct (Z.leb_spec lo c), (Z.ltb_spec c hi); simpl; try lia;
      rewrite ?H8, ?H5, ?Hdel; try done.
    all: destruct (structAt rest c) as [x |] eqn:Hx; simpl; [| done].
    all: pose proof (structAt_bounds _ _ _ _ _ Hsp Hnr Hx); unfold Struct.endClock in *.
    all: try lia.
    all: by rewrite orb_false_r.
  - pose proof (delete_clock s transaction) as H6.
    pose proof (delete_length s transaction) as H7.
    pose proof (delete_deleted s transaction) as H8.
    pose proof (delete_endClock s transaction) as H9.
    destruct (delete s transaction) as [s' tr']. simpl in H6, H7, H8, H9.
    specialize (IH tr' _ _ lo hi c Hsp Hnr Hlor).
    destruct (deleteFrom tr' rest hi) as [tr'' rest']. simpl in *.
    specialize (Hlo s ltac:(left) Hdel).
    unfold coversb in *. rewrite H6, H7.
    destruct (Z.leb_spec (Struct.clock s) c), (Z.ltb_spec c (Struct.clock s + Struct.length s));
      simpl; try done.
    rewrite H8, Hdel. unfold between.
    destruct (Z.leb_spec lo c), (Z.ltb_spec c hi); simpl; try done; lia.
  - simpl. destruct (coversb s c) eqn:Hcov; simpl.
    + apply coversb_covers in Hcov. unfold covers in Hcov. unfold between.
      destruct (Z.ltb_spec c hi); [lia |]. by rewrite andb_false_r, orb_false_r.
    + destruct (structAt rest c) as [x |] eqn:Hx; simpl; [| done].
      pose proof (structAt_bounds _ _ _ _ _ Hsp Hnr Hx). unfold between, Struct.endClock in *.
      destruct (Z.ltb_spec c hi); [lia |]. by rewrite andb_false_r, orb_false_r.
Qed.

(** *** The delete set of the transaction *)

Lemma setIfUndefined_push_elem {A : Type} (m : list (Z * list A)) key x k d :
  (exists arr, (k, arr) ∈ setIfUndefined_push m key x /\ d ∈ arr) <->
  (exists arr, (k, arr) ∈ m /\ d ∈ arr) \/ (k = key /\ d = x).
Proof.
  induction m as [| [k' arr'] m IH]; simpl.
  - split.
    + intros (arr & Hin & Hd). apply list_elem_of_singleton in Hin. simplify_eq.
      apply list_elem_of_singleton in Hd. by right.
    + intros [(arr & Hin & _) | [-> ->]]; [by apply not_elem_of_nil in Hin |].
      exists [x]. split; apply list_elem_of_singleton; done.
  - case_decide as Hk.
    + subst k'. split.
      * intros (arr & Hin & Hd). apply elem_of_cons in Hin as [Heq | Hin].
        -- simplify_eq. apply elem_of_app in Hd as [Hd | Hd].
           ++ left. exists arr'. split; [by left | done].
           ++ apply list_elem_of_singleton in Hd. by right.
        -- left. exists arr. split; [by right | done].
      * intros [(arr & Hin & Hd) | [-> ->]].
        -- apply elem_of_cons in Hin as [Heq | Hin].
           ++ simplify_eq. exists (arr' ++ [x]). split; [by left |].
              apply elem_of_app. by left.
           ++ exists arr. split; [by right | done].
        -- exists (arr' ++ [x]). split; [by left |]. apply elem_of_app. right. by left.
    + split.
      * intros (arr & Hin & Hd). apply elem_of_cons in Hin as [Heq | Hin].
        -- simplify_eq. left. exists arr'. split; [by left | done].
        -- assert (exists arr, (k, arr) ∈ setIfUndefined_push m key x /\ d ∈ arr) as H
             by by exists arr.
           apply IH in H as [(arr2 & Hin2 & Hd2) | ?]; [| by right].
           left. exists arr2. split; [by right | done].
      * intros [(arr & Hin & Hd) | Heq].
        -- apply elem_of_cons in Hin as [Heq | Hin].
           ++ simplify_eq. exists arr'. split; [by left | done].
           ++ assert (exists arr, (k, arr) ∈ setIfUndefined_push m key x /\ d ∈ arr)
                as (arr2 & Hin2 & Hd2) by (apply IH; left; by exists arr).
              exists arr2. split; [by right | done].
        -- assert (exists arr, (k, arr) ∈ setIfUndefined_push m key x /\ d ∈ arr)
             as (arr2 & Hin2 & Hd2) by (apply IH; by right).
           exists arr2. split; [by right | done].
Qed.

Lemma inDeleteSet_addToDeleteSet ds id n client c :
  inDeleteSet (addToDeleteSet ds id n) client c <->
  inDeleteSet ds client c \/ (ID.client id = client /\ inRange (ID.clock id) n c = true).
Proof.
  unfold inDeleteSet, addToDeleteSet. simpl. split.
  - intros (dels & d & Hin & Hd & Hr).
    assert (exists arr, (client, arr) ∈ setIfUndefined_push (DeleteSet.clients ds)
              (ID.client id) (DeleteItem.mk (ID.clock id) n) /\ d ∈ arr) as H
      by by exists dels.
    apply setIfUndefined_push_elem in H as [(arr & Hin' & Hd') | [-> ->]].
    + left. by exists arr, d.
    + by right.
  - intros [(dels & d & Hin & Hd & Hr) | [<- Hr]].
    + assert (exists arr, (client, arr) ∈ setIfUndefined_push (DeleteSet.clients ds)
                (ID.client id) (DeleteItem.mk (ID.clock id) n) /\ d ∈ arr) as (arr & ? & ?).
      { apply setIfUndefined_push_elem. left. by exists dels. }
      by exists arr, d.
    + assert (exists arr, (ID.client id, arr) ∈ setIfUndefined_push (DeleteSet.clients ds)
                (ID.client id) (DeleteItem.mk (ID.clock id) n)
                /\ DeleteItem.mk (ID.clock id) n ∈ arr) as (arr & ? & ?).
      { apply setIfUndefined_push_elem. by right. }
      by exists arr, (DeleteItem.mk (ID.clock id) n).
Qed.

(** The units that [deleteFrom] records in the delete set of the
    transaction are the units of [[lo, hi)] that were not deleted. *)
Lemma deleteFrom_deleteSet client rest : forall transaction a b lo hi c,
  spans a rest b -> nonneg_lengths rest -> owned_by client rest ->
  (forall s, s ∈ rest -> Struct.deleted s = false -> lo <= Struct.clock s) ->
  inDeleteSet (Transaction.deleteSet (deleteFrom transaction rest hi).1) client c <->
  inDeleteSet (Transaction.deleteSet transaction) client c \/
  (between lo hi c = true /\ deletedAt rest c = Some false).
Proof.
  unfold deletedAt.
  induction rest as [| s rest IH]; intros transaction a b lo hi c.
  { simpl. intros _ _ _ _. split; [by left | by intros [? | [_ ?]]]. }
  intros [Ha Hsp] Hn Hown Hlo.
  apply Forall_cons in Hn as [Hs Hnr]. apply Forall_cons in Hown as [Hcl Hownr].
  assert (forall s', s' ∈ rest -> Struct.deleted s' = false -> lo <= Struct.clock s') as Hlor.
  { intros s' Hin. apply Hlo. by right. }
  assert (forall x, structAt rest c = Some x -> Struct.clock s + Struct.length s <= c) as Hrest.
  { intros x Hx. pose proof (structAt_bounds _ _ _ _ _ Hsp Hnr Hx).
    unfold Struct.endClock in *. lia. }
  deleteFrom_cases s transaction hi.
  - specialize (IH transaction _ _ lo hi c Hsp Hnr Hownr Hlor).
    destruct (deleteFrom transaction rest hi) as [tr' rest']. simpl in *.
    rewrite IH. destruct (coversb s c) eqn:Hcov; simpl; [| done].
    rewrite Hdel. apply coversb_covers in Hcov. unfold covers, Struct.endClock in Hcov.
    split; (intros [? | [? Hx]]; [by left |]); [| done].
    destruct (structAt rest c) as [x |] eqn:Hx'; [| done]. specialize (Hrest x eq_refl). lia.
  - assert (0 <= hi - Struct.clock s <= Struct.length s) as Hd by lia.
    pose proof (splitAt_id_l transaction s (hi - Struct.clock s)) as H1.
    pose proof (splitAt_length_l transaction s _ Hd) as H2.
    pose proof (splitAt_deleted_l transaction s (hi - Struct.clock s)) as H3.
    destruct (splitAt transaction s (hi - Struct.clock s)) as [l r]. simpl in H1, H2, H3.
    pose proof (delete_deleteSet l transaction ltac:(congruence)) as H4.
    destruct (delete l transaction) as [l' tr']. simpl in H4. simpl.
    rewrite H4, inDeleteSet_addToDeleteSet, H1, H2.
    specialize (Hlo s ltac:(left) Hdel).
    unfold coversb, between, inRange. fold (Struct.clock s).
    destruct (Z.leb_spec (Struct.clock s) c), (Z.ltb_spec c (Struct.clock s + Struct.length s));
      simpl; rewrite ?Hdel.
    + split; (intros [? | [Hb ?]]; [by left | right]); split; try done; lia.
    + split; (intros [? | [Hb Hx]]; [by left |]); [lia |].
      destruct (structAt rest c) as [x |] eqn:Hx'; [| done]. lia.
    + split; (intros [? | [Hb Hx]]; [by left |]); [lia |].
      destruct (structAt rest c) as [x |] eqn:Hx'; [| done]. specialize (Hrest x eq_refl). lia.
    + split; (intros [? | [Hb Hx]]; [by left |]); [lia |].
      destruct (structAt rest c) as [x |] eqn:Hx'; [| done]. specialize (Hrest x eq_refl). lia.
  - pose proof (delete_deleteSet s transaction Hdel) as H4.
    destruct (delete s transaction) as [s' tr']. simpl in H4.
    specialize (IH tr' _ _ lo hi c Hsp Hnr Hownr Hlor).
    destruct (deleteFrom tr' rest hi) as [tr'' rest']. simpl in *.
    rewrite IH, H4, inDeleteSet_addToDeleteSet.
    specialize (Hlo s ltac:(left) Hdel).
    unfold coversb, between, inRange. fold (Struct.clock s).
    destruct (Z.leb_spec (Struct.clock s) c), (Z.ltb_spec c (Struct.clock s + Struct.length s));
      simpl; rewrite ?Hdel.
    + split.
      * intros _. right. split; [lia | done].
      * intros _. left. right. split; [done | lia].
    + split; [intros [[? | [_ ?]] | ?]; [by left | lia | by right] |].
      intros [? | ?]; [left; by left | by right].
    + split; [intros [[? | [_ ?]] | ?]; [by left | lia | by right] |].
      intros [? | ?]; [left; by left | by right].
    + split; [intros [[? | [_ ?]] | ?]; [by left | lia | by right] |].
      intros [? | ?]; [left; by left | by right].
  - simpl. split; [by left |]. intros [? | [Hb Hx]]; [done |]. exfalso.
    unfold between in Hb. destruct (coversb s c) eqn:Hcov.
    + apply coversb_covers in Hcov. unfold covers in Hcov. lia.
    + destruct (structAt rest c) as [x |] eqn:Hx'; [| done].
      specialize (Hrest x eq_refl). lia.
Qed.

(** *** One range *)

Lemma client_log_spans client structs state :
  client_log client structs state <->
  structs <> [] /\ spans 0 structs state /\ nonneg_lengths structs /\ owned_by client structs.
Proof.
  split.
  - intros (Hc & Hn & Ho & (first & Hf & Hf0) & (last & Hl & Hle)).
    destruct structs as [| s structs]; [done |]. simpl in Hf. injection Hf as ->.
    split; [done |]. split; [| done].
    destruct (contiguous_spans first structs Hc) as (last' & Hl' & Hsp).
    rewrite Hl in Hl'. injection Hl' as <-. by rewrite Hf0, Hle in Hsp.
  - intros (Hne & Hsp & Hn & Ho).
    destruct structs as [| s structs]; [done |].
    split; [by eapply spans_contiguous |]. split; [done |]. split; [done |].
    split; [exists s; split; [done | by destruct Hsp] |].
    destruct (lastStruct (s :: structs)) as [last |] eqn:Hl.
    + exists last. split; [done |]. by eapply spans_last.
    + rewrite lastStruct_last in Hl. by apply last_None in Hl.
Qed.

Lemma spans_elem_ge a structs b s :
  spans a structs b -> nonneg_lengths structs -> s ∈ structs -> a <= Struct.clock s.
Proof.
  revert a. induction structs as [| x structs IH]; intros a Hsp Hn Hin.
  - by apply not_elem_of_nil in Hin.
  - destruct Hsp as [<- Hsp]. apply Forall_cons in Hn as [Hx Hn].
    apply elem_of_cons in Hin as [-> | Hin]; [lia |].
    specialize (IH _ Hsp Hn Hin). unfold Struct.endClock in IH. lia.
Qed.

(** *** Pieces of structs *)

Lemma piece_of_refl s : piece_of s s.
Proof. unfold piece_of. by repeat split; try lia. Qed.

Lemma piece_of_trans x s t : piece_of x s -> piece_of s t -> piece_of x t.
Proof.
  intros (H1 & H2 & H3) (H4 & H5 & H6). split; [lia |]. split; [lia |].
  intros Ht. specialize (H6 Ht). subst t. by apply H3.
Qed.

Lemma refines_refl structs : refines structs structs.
Proof. intros x Hx. exists x. split; [done | apply piece_of_refl]. Qed.

Lemma refines_trans a b c : refines a b -> refines b c -> refines a c.
Proof.
  intros Hab Hbc x Hx. destruct (Hbc x Hx) as (s & Hs & Hxs).
  destruct (Hab s Hs) as (t & Ht & Hst). exists t. split; [done |]. by eapply piece_of_trans.
Qed.

Lemma refines_app pre rest rest' : refines rest rest' -> refines (pre ++ rest) (pre ++ rest').
Proof.
  intros H x [Hx | Hx]%elem_of_app.
  - exists x. split; [apply elem_of_app; by left | apply piece_of_refl].
  - destruct (H x Hx) as (s & Hs & Hp). exists s. split; [apply elem_of_app; by right | done].
Qed.

Lemma deleteFrom_refines rest : forall transaction hi,
  refines rest (deleteFrom transaction rest hi).2.
Proof.
  induction rest as [| s rest IH]; intros transaction hi; [apply refines_refl |].
  deleteFrom_cases s transaction hi.
  - specialize (IH transaction hi).
    destruct (deleteFrom transaction rest hi) as [tr' rest']. simpl in *.
    intros x [-> | Hx]%elem_of_cons.
    + exists s. split; [by left | apply piece_of_refl].
    + destruct (IH x Hx) as (t & Ht & Hp). exists t. split; [by right | done].
  - assert (0 <= hi - Struct.clock s <= Struct.length s) as Hd by lia.
    pose proof (splitAt_clock_l transaction s (hi - Struct.clock s)) as H1.
    pose proof (splitAt_end_l transaction s _ Hd) as H2.
    pose proof (splitAt_clock_r transaction s (hi - Struct.clock s)) as H3.
    pose proof (splitAt_end_r transaction s _ Hd) as H4.
    destruct (splitAt transaction s (hi - Struct.clock s)) as [l r]. cbn [fst snd] in *.
    pose proof (delete_clock l transaction) as H5.
    pose proof (delete_endClock l transaction) as H6.
    destruct (delete l transaction) as [l' tr']. cbn [fst snd] in *.
    intros x [-> | [-> | Hx]%elem_of_cons]%elem_of_cons.
    + exists s. split; [by left |]. unfold piece_of. rewrite Hdel.
      unfold Struct.endClock in *. split; [lia |]. split; [lia | done].
    + exists s. split; [by left |]. unfold piece_of. rewrite Hdel.
      unfold Struct.endClock in *. split; [lia |]. split; [lia | done].
    + exists x. split; [by right | apply piece_of_refl].
  - pose proof (delete_clock s transaction) as H5.
    pose proof (delete_endClock s transaction) as H6.
    destruct (delete s transaction) as [s' tr']. cbn [fst snd] in *.
    specialize (IH tr' hi).
    destruct (deleteFrom tr' rest hi) as [tr'' rest']. cbn [fst snd] in *.
    intros x [-> | Hx]%elem_of_cons.
    + exists s. split; [by left |]. unfold piece_of. rewrite Hdel.
      unfold Struct.endClock in *. split; [lia |]. split; [lia | done].
    + destruct (IH x Hx) as (t & Ht & Hp). exists t. split; [by right | done].
  - apply refines_refl.
Qed.

(** After the loop, the structs that begin before [hi] are deleted. *)
Lemma deleteFrom_done rest : forall transaction a b hi x,
  spans a rest b -> nonneg_lengths rest ->
  x ∈ (deleteFrom transaction rest hi).2 -> Struct.clock x < hi ->
  Struct.deleted x = true.
Proof.
  induction rest as [| s rest IH]; intros transaction a b hi x Hsp Hn.
  { simpl. by intros Hx%not_elem_of_nil. }
  destruct Hsp as [Ha Hsp]. pose proof Hn as Hn'. apply Forall_cons in Hn' as [Hs Hnr].
  deleteFrom_cases s transaction hi.
  - specialize (IH transaction _ _ hi x Hsp Hnr).
    destruct (deleteFrom transaction rest hi) as [tr' rest']. cbn [fst snd] in *.
    intros [-> | Hx]%elem_of_cons; [done | by apply IH].
  - assert (0 <= hi - Struct.clock s <= Struct.length s) as Hd by lia.
    pose proof (splitAt_clock_r transaction s (hi - Struct.clock s)) as H3.
    pose proof (splitAt_end_r transaction s _ Hd) as H4.
    destruct (splitAt transaction s (hi - Struct.clock s)) as [l r]. cbn [fst snd] in *.
    pose proof (delete_deleted l transaction) as H5.
    destruct (delete l transaction) as [l' tr']. cbn [fst snd] in *.
    intros [-> | [-> | Hx]%elem_of_cons]%elem_of_cons Hlt'; [done | lia |].
    pose proof (spans_elem_ge _ _ _ x Hsp Hnr Hx). unfold Struct.endClock in *. lia.
  - pose proof (delete_deleted s transaction) as H5.
    destruct (delete s transaction) as [s' tr']. cbn [fst snd] in *.
    specialize (IH tr' _ _ hi x Hsp Hnr).
    destruct (deleteFrom tr' rest hi) as [tr'' rest']. cbn [fst snd] in *.
    intros [-> | Hx]%elem_of_cons; [done | by apply IH].
  - cbn [snd]. intros Hx Hlt.
    pose proof (spans_elem_ge (Struct.clock s) (s :: rest) b x (conj eq_refl Hsp) Hn Hx). lia.
Qed.

(** On structs that are deleted up to [hi] the loop changes nothing. *)
Lemma deleteFrom_noop rest : forall transaction hi,
  (forall s, s ∈ rest -> Struct.clock s < hi -> Struct.deleted s = true) ->
  deleteFrom transaction rest hi = (transaction, rest).
Proof.
  induction rest as [| s rest IH]; intros transaction hi Hdone; [done |].
  cbn [deleteFrom]. destruct (Z.ltb_spec (Struct.clock s) hi) as [Hlt | Hge]; [| done].
  rewrite (Hdone s ltac:(left) Hlt). cbn [negb].
  rewrite IH; [done |]. intros x Hx. apply Hdone. by right.
Qed.

(** Pieces of a log on which a range was applied still have it applied. *)
Lemma range_done_refines clock hi structs structs' :
  range_done clock hi structs -> refines structs structs' -> nonneg_lengths structs' ->
  range_done clock hi structs'.
Proof.
  intros [Ha Hb] Href Hn. split.
  - intros x Hx [Hlo Hhi]. destruct (Href x Hx) as (s & Hs & H1 & H2 & H3).
    destruct (Ha s Hs) as [Hdel | [Heq Hle]]; [split; lia | |].
    + left. rewrite (H3 Hdel). done.
    + right. split; [lia | done].
  - intros x Hx Hlo Hhi. destruct (Href x Hx) as (s & Hs & H1 & H2 & H3).
    unfold nonneg_lengths in Hn. rewrite Forall_forall in Hn. specialize (Hn x Hx).
    destruct (Struct.deleted s) eqn:Hdel; [by rewrite (H3 eq_refl) |].
    exfalso. destruct (decide (clock < Struct.clock s)) as [Hlt | Hnlt].
    + specialize (Hb s Hs Hlt ltac:(lia)). congruence.
    + destruct (Ha s Hs) as [? | [? ?]]; [| congruence | lia].
      unfold covers, Struct.endClock in *. lia.
Qed.

(** The loop of [readDeleteSet] on the structs after a prefix that lies
    before the range. *)
Lemma prefix_deleteFrom client transaction pre rest a m b lo hi :
  spans a pre m -> nonneg_lengths pre -> m <= lo ->
  spans m rest b -> nonneg_lengths rest -> owned_by client rest ->
  (forall s, s ∈ rest -> Struct.deleted s = false -> lo <= Struct.clock s) ->
  forall c,
    deletedAt (pre ++ (deleteFrom transaction rest hi).2) c
    = (fun d => d || between lo hi c) <$> deletedAt (pre ++ rest) c /\
    (inDeleteSet (Transaction.deleteSet (deleteFrom transaction rest hi).1) client c <->
     inDeleteSet (Transaction.deleteSet transaction) client c \/
     (between lo hi c = true /\ deletedAt (pre ++ rest) c = Some false)).
Proof.
  intros Hpre Hnpre Hm Hrest Hnrest Hown Hlo c.
  pose proof (deleteFrom_deletedAt rest transaction m b lo hi c Hrest Hnrest Hlo) as Hd.
  pose proof (deleteFrom_deleteSet client rest transaction m b lo hi c Hrest Hnrest Hown Hlo)
    as Hds.
  unfold deletedAt in *. rewrite !structAt_app.
  destruct (structAt pre c) as [x |] eqn:Hx.
  - pose proof (structAt_bounds _ _ _ _ _ Hpre Hnpre Hx) as Hb. simpl.
    unfold between in *. destruct (Z.leb_spec lo c); [lia |]. simpl.
    split; [by rewrite orb_false_r |].
    rewrite Hds. split; (intros [? | [? ?]]; [by left | done]).
  - split; [done |]. by rewrite Hds.
Qed.

Lemma split_deletedAt transaction pre post s diff c :
  0 <= diff <= Struct.length s ->
  deletedAt (pre ++ (splitAt transaction s diff).1 :: (splitAt transaction s diff).2 :: post) c
  = deletedAt (pre ++ s :: post) c.
Proof.
  intros Hd. unfold deletedAt. rewrite !structAt_app.
  destruct (structAt pre c); [done |]. simpl.
  pose proof (splitAt_clock_l transaction s diff) as H1.
  pose proof (splitAt_length_l transaction s diff Hd) as H2.
  pose proof (splitAt_clock_r transaction s diff) as H3.
  pose proof (splitAt_length_r transaction s diff Hd) as H4.
  pose proof (splitAt_deleted_l transaction s diff) as H5.
  pose proof (splitAt_deleted_r transaction s diff) as H6.
  destruct (splitAt transaction s diff) as [l r]. simpl in *.
  unfold coversb. rewrite H1, H2, H3, H4.
  destruct (Z.leb_spec (Struct.clock s) c), (Z.ltb_spec c (Struct.clock s + diff)),
    (Z.leb_spec (Struct.clock s + diff) c),
    (Z.ltb_spec c (Struct.clock s + diff + (Struct.length s - diff))),
    (Z.ltb_spec c (Struct.clock s + Struct.length s)); simpl; try lia; congruence.
Qed.

(** A range that begins inside the known state: the struct that holds
    [clock] is split there when it is not deleted, and the loop runs on
    the structs from [clock] on. *)
Lemma readDeleteSet_range_shape transaction structs state unappliedDS client clock len :
  client_log client structs state -> 0 <= clock < state ->
  exists pre rest m,
    spans 0 pre m /\ nonneg_lengths pre /\ owned_by client pre /\ m <= clock /\
    spans m rest state /\ nonneg_lengths rest /\ owned_by client rest /\
    (forall s, s ∈ rest -> Struct.deleted s = false -> clock <= Struct.clock s) /\
    refines structs (pre ++ rest) /\
    (forall c, deletedAt (pre ++ rest) c = deletedAt structs c) /\
    readDeleteSet_range transaction structs state unappliedDS client clock len
    = Ret ((deleteFrom transaction rest (clock + len)).1,
           pre ++ (deleteFrom transaction rest (clock + len)).2,
           if state <? clock + len
           then addToDeleteSet unappliedDS (createID client state) (clock + len - state)
           else unappliedDS).
Proof.
  intros Hlog Hclock.
  pose proof Hlog as (Hcont & Hn & Hown & (first & Hf & Hf0) & (last & Hl & Hle)).
  apply client_log_spans in Hlog as (Hne & Hsp & _ & _).
  assert (known structs clock) as Hk.
  { exists first, last. split; [done |]. split; [done | lia]. }
  destruct (known_covered structs clock Hcont Hk) as (i & c0 & Hc0 & Hcov).
  unfold readDeleteSet_range. destruct (Z.ltb_spec clock state) as [_ |]; [| lia].
  rewrite (findIndexSS_covered structs clock i c0 Hcont Hn Hc0 Hcov).
  cbn [mbind Result_bind]. rewrite js_get_of_nat, Hc0. cbn [defined mbind Result_bind].
  pose proof (take_drop_middle structs i c0 Hc0) as Hmid.
  set (pre0 := take i structs) in *. set (post := drop (S i) structs) in *.
  rewrite <- Hmid in Hsp, Hn, Hown.
  apply spans_app in Hsp as (m & Hpre & [Hm Hpost]). subst m.
  unfold nonneg_lengths, owned_by in Hn, Hown.
  apply Forall_app in Hn as [Hnpre Hnrest]. apply Forall_app in Hown as [Hopre Horest].
  pose proof Hnrest as Hnrest'. apply Forall_cons in Hnrest' as [Hnc0 Hnpost].
  pose proof Horest as Horest'. apply Forall_cons in Horest' as [Hoc0 Hopost].
  destruct Hcov as [Hlo Hhi]. unfold Struct.endClock in Hhi.
  assert (forall s, s ∈ post -> clock <= Struct.clock s) as Hpostge.
  { intros s Hin. pose proof (spans_elem_ge _ _ _ s Hpost Hnpost Hin).
    unfold Struct.endClock in *. lia. }
  assert (length pre0 = i) as Hlenpre.
  { unfold pre0. rewrite length_take. apply lookup_lt_Some in Hc0. lia. }
  destruct (negb (Struct.deleted c0) && (Struct.clock c0 <? clock)) eqn:Hfirst.
  - apply andb_true_iff in Hfirst as [Hdel Hlt].
    apply negb_true_iff in Hdel. apply Z.ltb_lt in Hlt.
    assert (0 <= clock - Struct.clock c0 <= Struct.length c0) as Hd by lia.
    pose proof (splitAt_clock_l transaction c0 (clock - Struct.clock c0)) as H1.
    pose proof (splitAt_length_l transaction c0 _ Hd) as H2.
    pose proof (splitAt_clock_r transaction c0 (clock - Struct.clock c0)) as H3.
    pose proof (splitAt_length_r transaction c0 _ Hd) as H4.
    pose proof (splitAt_id_l transaction c0 (clock - Struct.clock c0)) as H5.
    pose proof (splitAt_id_r transaction c0 (clock - Struct.clock c0)) as H6.
    pose proof (splitAt_end_r transaction c0 _ Hd) as H7.
    pose proof (fun c => split_deletedAt transaction pre0 post c0 _ c Hd) as H8.
    destruct (splitAt transaction c0 (clock - Struct.clock c0)) as [l r].
    cbn [fst snd] in *.
    rewrite (js_splice_insert_set structs i c0 l r Hc0). fold pre0 post.
    rewrite (cons_middle l pre0 (r :: post)), app_assoc.
    rewrite (readDeleteSet_while_deleteFrom (r :: post) _ transaction (pre0 ++ [l]));
      [| rewrite length_app; simpl; lia | rewrite !length_app; simpl; lia].
    cbn [mbind Result_bind].
    exists (pre0 ++ [l]), (r :: post), clock.
    split. { apply spans_app. exists (Struct.clock c0). split; [done |].
             simpl. unfold Struct.endClock. split; [done | lia]. }
    split. { apply Forall_app. split; [done |]. constructor; [lia | done]. }
    split. { apply Forall_app. split; [done |]. constructor; [by rewrite H5 | done]. }
    split; [lia |].
    split. { simpl. split; [lia |]. by rewrite H7. }
    split. { constructor; [lia | done]. }
    split. { constructor; [by rewrite H6 | done]. }
    split. { intros s [-> | Hin]%elem_of_cons _; [lia | by apply Hpostge]. }
    split.
    { rewrite <- Hmid, <- app_assoc. apply refines_app.
      intros x [-> | [-> | Hx]%elem_of_cons]%elem_of_cons.
      - exists c0. split; [by left |]. unfold piece_of, Struct.endClock. rewrite Hdel.
        split; [lia |]. split; [lia | done].
      - exists c0. split; [by left |]. unfold piece_of, Struct.endClock. rewrite Hdel.
        split; [lia |]. split; [lia | done].
      - exists x. split; [by right | apply piece_of_refl]. }
    split; [| done].
    intros c. rewrite <- Hmid, <- H8. by rewrite <- app_assoc.
  - replace (readDeleteSet_while (S (length structs)) transaction structs (Z.of_nat i)
               clock len)
      with (readDeleteSet_while (S (length structs)) transaction (pre0 ++ c0 :: post)
              (Z.of_nat i) clock len) by (by rewrite Hmid).
    rewrite (readDeleteSet_while_deleteFrom (c0 :: post) _ transaction pre0);
      [| lia | rewrite <- Hmid, length_app; simpl; lia].
    cbn [mbind Result_bind].
    exists pre0, (c0 :: post), (Struct.clock c0).
    split; [done |]. split; [done |]. split; [done |]. split; [lia |].
    split; [by split |]. split; [done |]. split; [done |].
    split.
    { intros s [-> | Hin]%elem_of_cons Hdel; [| by apply Hpostge].
      rewrite Hdel in Hfirst. simpl in Hfirst. apply Z.ltb_ge in Hfirst. lia. }
    split; [rewrite Hmid; apply refines_refl |].
    split; [| done]. intros c. by rewrite Hmid.
Qed.

Lemma readDeleteSet_range_known transaction structs state unappliedDS client clock len :
  client_log client structs state -> 0 <= clock < state ->
  exists transaction' structs',
    readDeleteSet_range transaction structs state unappliedDS client clock len
    = Ret (transaction', structs',
           if state <? clock + len
           then addToDeleteSet unappliedDS (createID client state) (clock + len - state)
           else unappliedDS) /\
    client_log client structs' state /\
    forall c,
      deletedAt structs' c
      = (fun d => d || between clock (clock + len) c) <$> deletedAt structs c /\
      (inDeleteSet (Transaction.deleteSet transaction') client c <->
       inDeleteSet (Transaction.deleteSet transaction) client c \/
       (between clock (clock + len) c = true /\ deletedAt structs c = Some false)).
Proof.
  intros Hlog Hclock.
  destruct (readDeleteSet_range_shape transaction structs state unappliedDS client clock len
              Hlog Hclock)
    as (pre & rest & m & Hpre & Hnpre & Hopre & Hm & Hrest & Hnrest & Horest & Hge & _
        & Hunits & Hrun).
  eexists _, _. split; [exact Hrun |]. split.
  - apply client_log_spans.
    pose proof (deleteFrom_spans rest transaction _ _ (clock + len) Hrest) as Hsp'.
    split.
    { intros Hnil. apply app_eq_nil in Hnil as [-> Hnil]. rewrite Hnil in Hsp'.
      simpl in Hpre, Hsp'. lia. }
    split; [apply spans_app; by exists m |].
    split; [apply Forall_app; split; [done | by apply deleteFrom_nonneg] |].
    apply Forall_app. split; [done | by apply deleteFrom_owned].
  - intros c. rewrite <- Hunits.
    by apply (prefix_deleteFrom client transaction pre rest 0 m state clock (clock + len)).
Qed.

(** After a range was read, the array refines the one before and has the
    range applied. *)
Lemma readDeleteSet_range_done transaction structs state unappliedDS client clock len :
  client_log client structs state -> 0 <= clock < state ->
  exists transaction' structs',
    readDeleteSet_range transaction structs state unappliedDS client clock len
    = Ret (transaction', structs',
           if state <? clock + len
           then addToDeleteSet unappliedDS (createID client state) (clock + len - state)
           else unappliedDS) /\
    client_log client structs' state /\
    refines structs structs' /\
    range_done clock (clock + len) structs'.
Proof.
  intros Hlog Hclock.
  destruct (readDeleteSet_range_known transaction structs state unappliedDS client clock len
              Hlog Hclock) as (tr1 & structs1 & Hrun1 & Hlog1 & _).
  destruct (readDeleteSet_range_shape transaction structs state unappliedDS client clock len
              Hlog Hclock)
    as (pre & rest & m & Hpre & Hnpre & Hopre & Hm & Hrest & Hnrest & Horest & Hge & Href
        & _ & Hrun).
  rewrite Hrun in Hrun1. injection Hrun1 as <- <-.
  eexists _, _. split; [exact Hrun |]. split; [done |].
  pose proof (deleteFrom_refines rest transaction (clock + len)) as Href'.
  split; [eapply refines_trans; [exact Href | by apply refines_app] |].
  assert (forall x, x ∈ pre -> Struct.endClock x <= clock) as Hpre_le.
  { intros x Hx. apply list_elem_of_split in Hx as (l1 & l2 & ->).
    apply spans_app in Hpre as (b & _ & [_ Hl2]).
    apply Forall_app in Hnpre as [_ Hn2]. apply Forall_cons in Hn2 as [_ Hn2].
    pose proof (spans_le _ _ _ Hn2 Hl2). lia. }
  assert (forall x, x ∈ (deleteFrom transaction rest (clock + len)).2 ->
            Struct.deleted x = true \/ clock <= Struct.clock x) as Hrest_ge.
  { intros x Hx. destruct (Href' x Hx) as (s & Hs & H1 & H2 & H3).
    destruct (Struct.deleted s) eqn:Hdel.
    - left. by rewrite (H3 eq_refl).
    - right. specialize (Hge s Hs Hdel). lia. }
  pose proof (fun x => deleteFrom_done rest transaction m state (clock + len) x Hrest Hnrest)
    as Hdone.
  unfold nonneg_lengths in Hnpre. rewrite Forall_forall in Hnpre.
  split.
  - intros x [Hx | Hx]%elem_of_app [Hlo Hhi].
    + specialize (Hpre_le x Hx). lia.
    + destruct (Struct.deleted x) eqn:Hdel; [by left |]. right.
      destruct (Hrest_ge x Hx) as [? | Hle]; [congruence |].
      split; [lia |]. destruct (decide (Struct.clock x < clock + len)) as [Hlt |]; [| lia].
      specialize (Hdone x Hx Hlt). congruence.
  - intros x [Hx | Hx]%elem_of_app Hlo Hhi.
    + specialize (Hpre_le x Hx). specialize (Hnpre x Hx). unfold Struct.endClock in *. lia.
    + by apply Hdone.
Qed.

(** A range that was applied is read again without any change. *)
Lemma readDeleteSet_range_noop transaction structs state unappliedDS client clock len :
  client_log client structs state -> 0 <= clock < state ->
  range_done clock (clock + len) structs ->
  readDeleteSet_range transaction structs state unappliedDS client clock len
  = Ret (transaction, structs,
         if state <? clock + len
         then addToDeleteSet unappliedDS (createID client state) (clock + len - state)
         else unappliedDS).
Proof.
  intros Hlog Hclock [Ha Hb].
  pose proof Hlog as (Hcont & Hn & Hown & (first & Hf & Hf0) & (last & Hl & Hle)).
  apply client_log_spans in Hlog as (Hne & Hsp & _ & _).
  assert (known structs clock) as Hk.
  { exists first, last. split; [done |]. split; [done | lia]. }
  destruct (known_covered structs clock Hcont Hk) as (i & c0 & Hc0 & Hcov).
  unfold readDeleteSet_range. destruct (Z.ltb_spec clock state) as [_ |]; [| lia].
  rewrite (findIndexSS_covered structs clock i c0 Hcont Hn Hc0 Hcov).
  cbn [mbind Result_bind]. rewrite js_get_of_nat, Hc0. cbn [defined mbind Result_bind].
  pose proof (take_drop_middle structs i c0 Hc0) as Hmid.
  assert (c0 ∈ structs) as Hin0 by (by eapply list_elem_of_lookup_2).
  assert (length (take i structs) = i) as Hlenpre.
  { rewrite length_take. apply lookup_lt_Some in Hc0. lia. }
  assert (negb (Struct.deleted c0) && (Struct.clock c0 <? clock) = false) as ->.
  { destruct (Ha c0 Hin0 Hcov) as [-> | [-> _]]; [done |].
    rewrite Z.ltb_irrefl. by rewrite andb_false_r. }
  replace (readDeleteSet_while (S (length structs)) transaction structs (Z.of_nat i)
             clock len)
    with (readDeleteSet_while (S (length structs)) transaction
            (take i structs ++ c0 :: drop (S i) structs) (Z.of_nat i) clock len)
    by (by rewrite Hmid).
  rewrite (readDeleteSet_while_deleteFrom (c0 :: drop (S i) structs) _ transaction
             (take i structs));
    [| lia | rewrite <- Hmid at 2; rewrite length_app; simpl; lia].
  rewrite deleteFrom_noop; [cbn [fst snd mbind Result_bind]; by rewrite Hmid |].
  rewrite <- Hmid in Hsp, Hn.
  apply spans_app in Hsp as (m & Hpre & [Hm Hpost]). subst m.
  apply Forall_app in Hn as [_ Hnrest]. apply Forall_cons in Hnrest as [Hnc0 Hnpost].
  destruct Hcov as [Hlo Hhi].
  intros s [-> | Hs]%elem_of_cons Hlt.
  - destruct (Ha c0 Hin0 (conj Hlo Hhi)) as [? | [? ?]]; [done | lia].
  - pose proof (spans_elem_ge _ _ _ s Hpost Hnpost Hs).
    apply Hb; [| lia | done].
    rewrite <- Hmid. apply elem_of_app. right. by right.
Qed.

Lemma getState_client_log store client structs state :
  clients store !! client = Some structs -> client_log client structs state ->
  getState store client = Ret state.
Proof.
  intros Hs (_ & _ & _ & _ & (last & Hl & Hle)). unfold getState. rewrite Hs, Hl. simpl.
  by rewrite <- Hle.
Qed.

Lemma sevenStructs_log : client_log 1 sevenStructs 7.
Proof.
  split; [reflexivity |]. split; [repeat constructor; vm_compute; discriminate |].
  split; [repeat constructor |].
  split; eexists; (split; [reflexivity |]); reflexivity.
Qed.

(** The fifth scenario of the specification: clocks [5, 10) are deleted
    while the state is 7. *)
Example readDeleteSet_scenario :
  exists transaction' store' l r,
    readDeleteSet [1; 1; 1; 5; 5] emptyTransaction sevenStore
      = Ret ([], transaction', store') /\
    clients store' !! 1 = Some [ItemString l "abcde"; ItemString r "fg"] /\
    AbstractItem.deleted l = false /\ AbstractItem.deleted r = true /\
    Transaction.deleteSet transaction' = DeleteSet.mk [(1, [DeleteItem.mk 5 2])] /\
    pendingDeleteReaders store' = [[1; 1; 1; 7; 3]].
Proof. eexists _, _, _, _. vm_compute. repeat split. Qed.


(** ** [transact] and the handlers *)

(** *** Computations on runs *)

Lemma bind_inv {A B : Type} (m : M A) (k : A -> M B) run res run' :
  (m ≫= k) run = (res, run') ->
  exists res1 run1, m run = (res1, run1) /\
    match res1 with
    | Ret a => k a run1 = (res, run')
    | Throw e => res = Throw e /\ run' = run1
    | OutOfFuel => res = OutOfFuel /\ run' = run1
    end.
Proof.
  unfold mbind, M_bind. destruct (m run) as [[a | e |] run1]; intros H.
  - by exists (Ret a), run1.
  - injection H as <- <-. by exists (Throw e), run1.
  - injection H as <- <-. by exists OutOfFuel, run1.
Qed.

Section Sat.

Context (R : Run -> Run -> Prop) `{!PreOrder R}.

Lemma sat_mret {A : Type} (a : A) : sat R (mret a).
Proof. intros run res run' [= <- <-]. done. Qed.

Lemma sat_lift {A : Type} (r : Result A) : sat R (lift r).
Proof. intros run res run' [= <- <-]. done. Qed.

Lemma sat_getDoc : sat R getDoc.
Proof. intros run res run' [= <- <-]. done. Qed.

Lemma sat_bind {A B : Type} (m : M A) (k : A -> M B) :
  sat R m -> (forall a, sat R (k a)) -> sat R (m ≫= k).
Proof.
  intros Hm Hk run res run' (res1 & run1 & Hrun1 & Hrest)%bind_inv.
  apply Hm in Hrun1. destruct res1 as [a | e |].
  - apply Hk in Hrest. by etrans.
  - by destruct Hrest as [_ ->].
  - by destruct Hrest as [_ ->].
Qed.

Lemma sat_forEach {A : Type} (f : A -> M unit) (l : list A) :
  (forall x, x ∈ l -> sat R (f x)) -> sat R (forEach f l).
Proof.
  induction l as [| x l IH]; intros Hf; simpl.
  - apply sat_mret.
  - apply sat_bind; [apply Hf; by left |]. intros _. apply IH.
    intros y Hy. apply Hf. by right.
Qed.

Lemma sat_try_finally (body final : M unit) :
  sat R body -> sat R final -> sat R (try_finally body final).
Proof.
  intros Hb Hf run res run'. unfold try_finally.
  destruct (body run) as [[[] | e |] run1] eqn:Hrun1; apply Hb in Hrun1.
  - intros H. apply Hf in H. by etrans.
  - destruct (final run1) as [[[] | e' |] run2] eqn:Hrun2; apply Hf in Hrun2;
      intros [= <- <-]; by etrans.
  - by intros [= <- <-].
Qed.

Lemma sat_getTransaction i : sat R (getTransaction i).
Proof. apply sat_bind; [apply sat_getDoc |]. intros d. apply sat_lift. Qed.

Lemma sat_modifyDoc g :
  (forall run, R run (mkRun (g (doc run)) (calls run))) -> sat R (modifyDoc g).
Proof. intros H run res run' [= <- <-]. apply H. Qed.

End Sat.

Lemma sat_weaken {A : Type} (R R' : Run -> Run -> Prop) (m : M A) :
  (forall run run', R run run' -> R' run run') -> sat R m -> sat R' m.
Proof. intros HR Hm run res run' H. apply HR. by eapply Hm. Qed.

#[global] Instance same_queue_preorder : PreOrder same_queue.
Proof.
  split.
  - by intros run.
  - intros r1 r2 r3 (H1 & H2 & H3) (H4 & H5 & H6). unfold same_queue. by rewrite H4, H5, H6.
Qed.

#[global] Instance nest_preorder : PreOrder nest.
Proof.
  split.
  - intros run Hok _. split; [done |]. split; [done |]. split; [lia | by left].
  - intros r1 r2 r3 H12 H23 Hok Hne.
    destruct (H12 Hok Hne) as (Hc1 & Hok2 & Hlen1 & Hact1).
    assert (_transactionCleanups (doc r2) <> []) as Hne2.
    { destruct (_transactionCleanups (doc r1)); [done |].
      destruct (_transactionCleanups (doc r2)); [simpl in Hlen1; lia | done]. }
    destruct (H23 Hok2 Hne2) as (Hc2 & Hok3 & Hlen2 & Hact2).
    split; [by rewrite Hc2 |]. split; [done |]. split; [lia |].
    destruct Hact1 as [Heq | (Hnone & k & Hk & Hle)].
    + rewrite <- Heq. destruct Hact2 as [? | (Hnone & k & Hk & Hle)]; [by left |].
      right. split; [done |]. exists k. split; [done | lia].
    + destruct Hact2 as [Heq | (Hnone2 & _)]; [| congruence].
      right. split; [done |]. exists k. split; [congruence | done].
Qed.

Lemma same_queue_nest run run' : same_queue run run' -> nest run run'.
Proof.
  intros (Hc & Ha & Hl) Hok Hne. split; [done |]. split.
  - intros k Hk. rewrite Hl. apply Hok. by rewrite <- Ha.
  - split; [lia | by left].
Qed.

Lemma sat_setStore store' : sat same_queue (setStore store').
Proof. apply (sat_modifyDoc same_queue). by intros run. Qed.

Lemma sat_setTransaction i transaction : sat same_queue (setTransaction i transaction).
Proof.
  apply (sat_modifyDoc same_queue). intros run. split; [done |]. split; [done |].
  simpl. apply length_insert.
Qed.

(** *** Calls of [transact] while the queue is not empty *)

Section Nest.

Context (env : Env) (call : Body -> M unit).
Hypothesis call_nest : forall f, sat nest (call f).

Lemma runHandler_nest h : sat nest (runHandler call h).
Proof. apply (sat_forEach nest). intros f _. apply call_nest. Qed.

Lemma emit_nest name : sat nest (emit env call name).
Proof. apply (sat_forEach nest). intros h _. apply runHandler_nest. Qed.

Lemma runAction_nest i a : sat nest (runAction env call i a).
Proof.
  destruct a as [type parentSub | g]; [| apply call_nest]. simpl.
  apply (sat_bind nest); [apply (sat_getTransaction nest) |]. intros transaction.
  apply (sat_bind nest); [apply (sat_getDoc nest) |]. intros d.
  apply (sat_bind nest); [apply (sat_lift nest) |]. intros [transaction' store'].
  apply (sat_bind nest).
  - eapply sat_weaken; [apply same_queue_nest | apply sat_setStore].
  - intros _. eapply sat_weaken; [apply same_queue_nest | apply sat_setTransaction].
Qed.

Lemma runBody_nest i f : sat nest (runBody env call i f).
Proof. apply (sat_forEach nest). intros a _. apply runAction_nest. Qed.

Lemma transact_body_nest fuel f : sat nest (transact_body env call fuel f).
Proof.
  intros run res run' Hrun Hok Hne. unfold transact_body in Hrun.
  apply bind_inv in Hrun as (res0 & run0 & [= <- <-] & Hrun).
  apply bind_inv in Hrun as (res1 & run1 & Hopen & Hrun).
  assert (nest run run1 /\
          (forall u, res1 = Ret u ->
             bool_decide (_transaction (doc run) = None) = true ->
             exists k, _transaction (doc run1) = Some k /\ (0 < k)%nat)) as [Hn1 Hopened].
  { case_bool_decide as Hnone.
    - apply bind_inv in Hopen as (res2 & run2 & [= <- <-] & Hopen).
      destruct (getStateVector (store (doc run))) as [beforeState | e |];
        [| destruct Hopen as [-> ->]; by split ..].
      apply bind_inv in Hopen as (res3 & run3 & [= <- <-] & Hopen).
      set (run3 := mkRun _ _) in Hopen.
      assert (nest run run3) as Hn3.
      { intros _ _. split; [done |]. split.
        - intros k [= <-]. simpl. rewrite length_app. simpl. lia.
        - split; [simpl; rewrite length_app; lia |]. right. split; [done |].
          eexists. split; [done | done]. }
      pose proof (emit_nest beforeTransaction _ _ _ Hopen) as Hn.
      split; [by etrans |]. intros u -> _.
      destruct (Hn3 Hok Hne) as (_ & Hok3 & Hlen3 & _).
      destruct (Hn Hok3) as (_ & _ & _ & Hact).
      { subst run3. simpl. by destruct (_transactionCleanups (doc run)). }
      destruct Hact as [Heq | [Hnone' _]]; [| done].
      eexists. split; [exact Heq |].
      destruct (_transactionCleanups (doc run)); [done | simpl; lia].
    - injection Hopen as <- <-. split; [done |]. intros u _ Hfalse. done. }
  destruct res1 as [[] | e |]; [| by destruct Hrun as [_ ->]; apply Hn1 ..].
  specialize (Hopened tt eq_refl).
  enough (nest run1 run') as Hn2 by by apply (transitivity Hn1 Hn2).
  destruct (Hn1 Hok Hne) as (_ & Hok1 & Hlen1 & _).
  assert (_transactionCleanups (doc run1) <> []) as Hne1.
  { destruct (_transactionCleanups (doc run)); [done |].
    destruct (_transactionCleanups (doc run1)); [simpl in Hlen1; lia | done]. }
  assert (sat nest (d ← getDoc; i ← lift (defined (_transaction d)); runBody env call i f))
    as Hbody.
  { apply (sat_bind nest); [apply (sat_getDoc nest) |]. intros d.
    apply (sat_bind nest); [apply (sat_lift nest) |]. intros i. apply runBody_nest. }
  assert (forall run2 res2 run3,
            nest run1 run2 ->
            transact_finally env call fuel (bool_decide (_transaction (doc run) = None)) run2
            = (res2, run3) -> run3 = run2) as Hfinal.
  { intros run2 res2 run3 Hn2 Hfin. unfold transact_finally in Hfin.
    apply bind_inv in Hfin as (res4 & run4 & [= <- <-] & Hfin).
    destruct (Hn2 Hok1 Hne1) as (_ & _ & _ & Hact).
    case_bool_decide as Hnone; cbn [andb] in Hfin; [| by injection Hfin as <- <-].
    destruct (Hopened eq_refl) as (k & Hk & Hpos).
    destruct Hact as [Heq | [Hnone' _]]; [| congruence].
    rewrite Hk in Heq.
    case_bool_decide as Hzero; [rewrite Heq in Hzero; injection Hzero as ->; lia |].
    by injection Hfin as <- <-. }
  unfold try_finally in Hrun.
  destruct ((d ← getDoc; i ← lift (defined (_transaction d)); runBody env call i f) run1)
    as [[[] | e |] run2] eqn:Hrun2; apply Hbody in Hrun2.
  - by rewrite (Hfinal _ _ _ Hrun2 Hrun).
  - destruct (transact_finally env call fuel _ run2) as [res3 run3] eqn:Hfin.
    apply Hfinal in Hfin; [| done]. subst run3.
    by destruct res3 as [[] | e' |]; injection Hrun as <- <-.
  - by injection Hrun as <- <-.
Qed.

End Nest.

Lemma transact_nest fuel env f : sat nest (transact fuel env f).
Proof.
  revert f. induction fuel as [| fuel IH]; intros f.
  - simpl. apply (sat_lift nest).
  - simpl. by apply transact_body_nest.
Qed.

(** *** The delivery of a transaction *)

Section Deliver.

Context (env : Env) (call : Body -> M unit) (act : nat -> option nat -> Prop).

Hypothesis act_None : forall i, act i None.
Hypothesis act_later : forall i k, act i (Some k) -> (i < k)%nat.
Hypothesis call_nest : forall f, sat nest (call f).
Hypothesis handlers_deliv :
  forall i h, registered env h -> sat (deliv act i) (runHandler call h).

#[local] Instance added_calls_preorder : PreOrder (added_calls act).
Proof.
  split.
  - intros run. exists []. by rewrite app_nil_r.
  - intros r1 r2 r3 (new1 & H1 & HP1) (new2 & H2 & HP2).
    exists (new1 ++ new2). split; [by rewrite H2, H1, app_assoc |].
    apply Forall_app. by split.
Qed.

#[local] Instance deliv_preorder i : PreOrder (deliv act i).
Proof.
  split.
  - intros run HD. split; [done | reflexivity].
  - intros r1 r2 r3 H12 H23 HD. destruct (H12 HD) as [HD2 Ha]. destruct (H23 HD2) as [HD3 Hb].
    split; [done | by etrans].
Qed.

Lemma same_queue_deliv i run run' : same_queue run run' -> deliv act i run run'.
Proof.
  intros (Hc & Ha & Hl) (Hok & Hi & Hact). split.
  - split; [| split].
    + intros k Hk. rewrite Hl. apply Hok. by rewrite <- Ha.
    + by rewrite Hl.
    + by rewrite Ha.
  - exists []. by rewrite app_nil_r.
Qed.

Lemma emit_deliv i name : sat (deliv act i) (emit env call name).
Proof.
  apply (sat_forEach (deliv act i)). intros h Hh. apply handlers_deliv.
  right. right. by exists name.
Qed.

Lemma logCall_deliv i k type : sat (deliv act i) (logCall k type i).
Proof.
  intros run res run' [= <- <-] (Hok & Hi & Hact). split; [done |].
  eexists. split; [done |]. by constructor.
Qed.

Lemma callEventHandlerListeners_deliv i k type handlers :
  (forall h, h ∈ handlers -> registered env h) ->
  sat (deliv act i) (callEventHandlerListeners call k type i handlers).
Proof.
  intros Hreg. apply (sat_forEach (deliv act i)). intros h Hh.
  apply (sat_bind (deliv act i)); [apply logCall_deliv |].
  intros _. by apply handlers_deliv, Hreg.
Qed.

Lemma setTransaction_deliv i j transaction : sat (deliv act i) (setTransaction j transaction).
Proof. eapply sat_weaken; [apply same_queue_deliv | apply sat_setTransaction]. Qed.

Lemma setStore_deliv i store' : sat (deliv act i) (setStore store').
Proof. eapply sat_weaken; [apply same_queue_deliv | apply sat_setStore]. Qed.

Lemma _callObserver_deliv i type : sat (deliv act i) (_callObserver env call i type).
Proof.
  apply (sat_bind (deliv act i)); [apply (sat_getTransaction (deliv act i)) |].
  intros transaction.
  apply (sat_bind (deliv act i)); [apply setTransaction_deliv |]. intros _.
  apply callEventHandlerListeners_deliv. intros h Hh. left. by exists type.
Qed.

Lemma changed_forEach_deliv fuel i k : sat (deliv act i) (changed_forEach env call fuel i k).
Proof.
  revert k. induction fuel as [| fuel IH]; intros k; simpl.
  - apply (sat_lift (deliv act i)).
  - apply (sat_bind (deliv act i)); [apply (sat_getTransaction (deliv act i)) |].
    intros transaction.
    destruct (Transaction.changed transaction !! k) as [[itemtype subs] |];
      [| apply (sat_mret (deliv act i))].
    apply (sat_bind (deliv act i)); [apply _callObserver_deliv | intros _; apply IH].
Qed.

Lemma changedParentTypes_forEach_deliv fuel i k :
  sat (deliv act i) (changedParentTypes_forEach env call fuel i k).
Proof.
  revert k. induction fuel as [| fuel IH]; intros k; simpl.
  - apply (sat_lift (deliv act i)).
  - apply (sat_bind (deliv act i)); [apply (sat_getTransaction (deliv act i)) |].
    intros transaction.
    destruct (Transaction.changedParentTypes transaction !! k) as [[type events] |];
      [| apply (sat_mret (deliv act i))].
    apply (sat_bind (deliv act i)); [| intros _; apply IH].
    apply callEventHandlerListeners_deliv. intros h Hh. right. left. by exists type.
Qed.

Lemma emitUpdate_deliv i : sat (deliv act i) (emitUpdate env call i).
Proof.
  unfold emitUpdate. destruct (_observers env update); [apply (sat_mret (deliv act i)) |].
  apply (sat_bind (deliv act i)); [apply (sat_getTransaction (deliv act i)) |].
  intros transaction.
  destruct (updateMessageIsNull transaction); [apply (sat_mret (deliv act i)) |].
  apply (sat_bind (deliv act i)); [apply (sat_lift (deliv act i)) |]. intros ds.
  apply (sat_bind (deliv act i)); [apply setTransaction_deliv |]. intros _.
  apply emit_deliv.
Qed.

(** One iteration of the loop: [doc._transaction] is set to [null]
    before the first handler is called. *)
Lemma cleanup_spec fuel i transaction run res run' :
  doc_ok (doc run) -> (i < length (_transactionCleanups (doc run)))%nat ->
  cleanup env call fuel i transaction run = (res, run') ->
  added_calls act run run' /\ (forall u, res = Ret u -> delivering act i run').
Proof.
  intros Hok Hi Hrun. unfold cleanup in Hrun.
  apply bind_inv in Hrun as (res1 & run1 & [= <- <-] & Hrun).
  destruct (sortAndMergeDeleteSet (Transaction.deleteSet transaction)) as [ds | e |];
    [| destruct Hrun as [-> ->]; split; [reflexivity | done] ..].
  apply bind_inv in Hrun as (res2 & run2 & [= <- <-] & Hrun).
  apply bind_inv in Hrun as (res3 & run3 & [= <- <-] & Hrun).
  destruct (getStateVector (store (doc run))) as [afterState | e |];
    [| destruct Hrun as [-> ->]; split; [reflexivity | done] ..].
  apply bind_inv in Hrun as (res4 & run4 & [= <- <-] & Hrun).
  apply bind_inv in Hrun as (res5 & run5 & [= <- <-] & Hrun).
  set (run5 := mkRun _ _) in Hrun.
  assert (delivering act i run5) as HD5.
  { split; [done |]. split; [| apply act_None]. simpl. by rewrite length_insert. }
  assert (added_calls act run run5) as Ha5 by (exists []; by rewrite app_nil_r).
  assert (sat (deliv act i)
            (emit env call beforeObserverCalls ≫= fun _ =>
             changed_forEach env call fuel i 0 ≫= fun _ =>
             changedParentTypes_forEach env call fuel i 0 ≫= fun _ =>
             emit env call afterTransaction ≫= fun _ =>
             transaction ← getTransaction i;
             d ← getDoc;
             store' ← lift (cleanupStructs env transaction (store d));
             setStore store' ≫= fun _ =>
             emit env call afterTransactionCleanup ≫= fun _ =>
             emitUpdate env call i)) as Hrest.
  { apply (sat_bind (deliv act i)); [apply emit_deliv |]. intros _.
    apply (sat_bind (deliv act i)); [apply changed_forEach_deliv |]. intros _.
    apply (sat_bind (deliv act i)); [apply changedParentTypes_forEach_deliv |]. intros _.
    apply (sat_bind (deliv act i)); [apply emit_deliv |]. intros _.
    apply (sat_bind (deliv act i)); [apply (sat_getTransaction (deliv act i)) |]. intros tr.
    apply (sat_bind (deliv act i)); [apply (sat_getDoc (deliv act i)) |]. intros d.
    apply (sat_bind (deliv act i)); [apply (sat_lift (deliv act i)) |]. intros store'.
    apply (sat_bind (deliv act i)); [apply setStore_deliv |]. intros _.
    apply (sat_bind (deliv act i)); [apply emit_deliv |]. intros _.
    apply emitUpdate_deliv. }
  destruct (Hrest _ _ _ Hrun HD5) as [HD' Ha']. split; [by etrans | done].
Qed.

(** The loop over the queue. *)
Lemma cleanups_for_spec fuel : forall i run res run',
  doc_ok (doc run) ->
  (forall k, _transaction (doc run) = Some k -> (i <= k)%nat) ->
  cleanups_for env call fuel i run = (res, run') ->
  added_calls act run run'.
Proof.
  induction fuel as [| fuel IH]; intros i run res run' Hok Hact Hrun; simpl in Hrun.
  - injection Hrun as <- <-. reflexivity.
  - apply bind_inv in Hrun as (res1 & run1 & [= <- <-] & Hrun).
    destruct (_transactionCleanups (doc run) !! i) as [transaction |] eqn:Hi;
      [| injection Hrun as <- <-; reflexivity].
    apply lookup_lt_Some in Hi.
    apply bind_inv in Hrun as (res2 & run2 & Hc & Hrun).
    destruct (cleanup_spec _ _ _ _ _ _ Hok Hi Hc) as [Ha HD].
    destruct res2 as [[] | e |]; [| by destruct Hrun as [_ ->] ..].
    destruct (HD tt eq_refl) as (Hok2 & Hi2 & Hact2).
    etrans; [exact Ha |]. apply (IH (S i) run2 res run'); [done | | done].
    intros k Hk. rewrite Hk in Hact2. apply act_later in Hact2. lia.
Qed.

(** A call of [transact]. *)
Lemma transact_body_spec fuel f run res run' :
  doc_ok (doc run) ->
  transact_body env call fuel f run = (res, run') ->
  added_calls act run run'.
Proof.
  intros Hok Hrun.
  destruct (_transactionCleanups (doc run)) as [| t0 queue] eqn:Hqueue.
  2:{ destruct (transact_body_nest env call call_nest fuel f _ _ _ Hrun Hok) as (Hc & _).
      - by rewrite Hqueue.
      - exists []. by rewrite app_nil_r. }
  assert (_transaction (doc run) = None) as Hnone.
  { destruct (_transaction (doc run)) as [k |] eqn:Hk; [| done].
    apply Hok in Hk. rewrite Hqueue in Hk. simpl in Hk. lia. }
  unfold transact_body in Hrun.
  apply bind_inv in Hrun as (res0 & run0 & [= <- <-] & Hrun).
  rewrite Hnone in Hrun. rewrite bool_decide_eq_true_2 in Hrun by done.
  apply bind_inv in Hrun as (res1 & run1 & Hopen & Hrun).
  apply bind_inv in Hopen as (res2 & run2 & [= <- <-] & Hopen).
  destruct (getStateVector (store (doc run))) as [beforeState | e |];
    [| destruct Hopen as [-> ->]; destruct Hrun as [_ ->]; reflexivity ..].
  apply bind_inv in Hopen as (res3 & run3 & [= <- <-] & Hopen).
  rewrite Hqueue in Hopen. set (run3 := mkRun _ _) in Hopen.
  assert (doc_ok (doc run3)) as Hok3 by (intros k [= <-]; simpl; lia).
  assert (_transactionCleanups (doc run3) <> []) as Hne3 by done.
  destruct (emit_nest env call call_nest beforeTransaction _ _ _ Hopen Hok3 Hne3)
    as (Hc1 & Hok1 & Hlen1 & Hact1).
  assert (_transaction (doc run1) = Some 0%nat) as Hzero1.
  { destruct Hact1 as [? | [? _]]; done. }
  destruct res1 as [[] | e |];
    [| destruct Hrun as [_ ->]; exists []; by rewrite app_nil_r, Hc1 ..].
  assert (_transactionCleanups (doc run1) <> []) as Hne1.
  { destruct (_transactionCleanups (doc run1)); [simpl in Hlen1; lia | done]. }
  assert (sat nest (d ← getDoc; i ← lift (defined (_transaction d)); runBody env call i f))
    as Hbody.
  { apply (sat_bind nest); [apply (sat_getDoc nest) |]. intros d.
    apply (sat_bind nest); [apply (sat_lift nest) |]. intros i. by apply runBody_nest. }
  assert (forall run2 res2 run4,
            nest run1 run2 -> transact_finally env call fuel true run2 = (res2, run4) ->
            added_calls act run run4) as Hfinal.
  { intros run2 res2 run4 Hn Hfin. destruct (Hn Hok1 Hne1) as (Hc2 & Hok2 & Hlen2 & Hact2).
    assert (_transaction (doc run2) = Some 0%nat) as Hzero2.
    { destruct Hact2 as [? | [? _]]; congruence. }
    unfold transact_finally in Hfin.
    apply bind_inv in Hfin as (res4 & run5 & [= <- <-] & Hfin).
    rewrite Hzero2 in Hfin. rewrite bool_decide_eq_true_2 in Hfin by done.
    cbn [andb] in Hfin.
    apply bind_inv in Hfin as (res6 & run6 & Hloop & Hfin).
    assert (added_calls act run run6) as Ha6.
    { etrans; [| eapply (cleanups_for_spec fuel 0); [exact Hok2 | intros; lia | exact Hloop]].
      exists []. by rewrite app_nil_r, Hc2, Hc1. }
    destruct res6 as [[] | e |]; [| by destruct Hfin as [_ ->] ..].
    injection Hfin as <- <-. destruct Ha6 as (new & Hnew & HP). by exists new. }
  unfold try_finally in Hrun.
  destruct ((d ← getDoc; i ← lift (defined (_transaction d)); runBody env call i f) run1)
    as [[[] | e |] run2] eqn:Hrun2; apply Hbody in Hrun2.
  - by eapply Hfinal.
  - destruct (transact_finally env call fuel true run2) as [res4 run4] eqn:Hfin.
    apply (Hfinal _ _ _ Hrun2) in Hfin.
    by destruct res4 as [[] | e' |]; injection Hrun as <- <-.
  - injection Hrun as <- <-. destruct (Hrun2 Hok1 Hne1) as (Hc2 & _).
    exists []. by rewrite app_nil_r, Hc2, Hc1.
Qed.

End Deliver.

Lemma nest_deliv i run run' : nest run run' -> deliv null_or_later i run run'.
Proof.
  intros Hn (Hok & Hi & Hact).
  destruct (Hn Hok) as (Hc & Hok' & Hlen & Hact').
  { destruct (_transactionCleanups (doc run)); [simpl in Hi; lia | done]. }
  split.
  - split; [done |]. split; [lia |].
    destruct Hact' as [-> | (_ & k & -> & Hk)]; [done |].
    right. exists k. split; [done | lia].
  - exists []. by rewrite app_nil_r.
Qed.

(** C8 as stated fails.  The transaction changes types 0 and 1.  The
    handler of type 0 inserts into type 1, which opens the transaction
    with index 1; the handler of type 1 is then called for the first
    transaction while that second transaction is the active one. *)
Lemma transact_observer_sees_transaction :
  exists run',
    transact 20 chattyEnv changeBoth idleRun = (Ret tt, run') /\
    calls run' !! 1%nat
      = Some {| kind := Shallow; observed := 1%nat; delivered := 0%nat;
                active := Some 1%nat |}.
Proof. eexists. split; [vm_compute; reflexivity | reflexivity]. Qed.

(** C8, amended.  [transact] sets [doc._transaction] to [null] before it
    delivers a transaction, and the transaction that is delivered is
    never the active one when a handler of a type is called: at every
    call of a shallow or deep handler, [doc._transaction] is [null] or a
    transaction that a handler opened during the cleanup and that waits
    in the queue behind the delivered one.  When no handler of the
    document or of a type calls [transact], [doc._transaction] is [null]
    at every such call.  (Whatever the fuel: the handler calls of every
    unfinished run are covered.) *)
Theorem transact_observer_calls
    (env : Env) (fuel : nat) (f : Body) (run run' : Run) (res : Result unit) :
  doc_ok (doc run) ->
  transact fuel env f run = (res, run') ->
  exists new,
    calls run' = calls run ++ new /\
    Forall (fun c => active c = None \/
                     exists k, active c = Some k /\ (delivered c < k)%nat) new /\
    (quiet env -> Forall (fun c => active c = None) new).
Proof.
  intros Hok Hrun. destruct fuel as [| fuel].
  { injection Hrun as <- <-. exists []. by rewrite app_nil_r. }
  simpl in Hrun.
  assert (forall g, sat nest (transact fuel env g)) as Hnest
    by (intros g; apply transact_nest).
  assert (forall i h, registered env h ->
            sat (deliv null_or_later i) (runHandler (transact fuel env) h)) as Hhandlers.
  { intros i h _. eapply sat_weaken; [apply nest_deliv |]. by apply runHandler_nest. }
  destruct (transact_body_spec env (transact fuel env) null_or_later
              ltac:(by left)
              ltac:(intros i k [? | (k' & [= <-] & ?)]; done)
              Hnest Hhandlers fuel f run res run' Hok Hrun) as (new & Hnew & HP).
  exists new. split; [done |]. split; [done |]. intros (HeH & HdEH & Hobs).
  assert (forall i h, registered env h ->
            sat (deliv is_null i) (runHandler (transact fuel env) h)) as Hquiet.
  { intros i h Hreg.
    assert (h = []) as ->.
    { destruct Hreg as [[type Hin] | [[type Hin] | [name Hin]]].
      - specialize (HeH type). rewrite Forall_forall in HeH. by apply HeH.
      - specialize (HdEH type). rewrite Forall_forall in HdEH. by apply HdEH.
      - specialize (Hobs name). rewrite Forall_forall in Hobs. by apply Hobs. }
    intros r0 res0 r0' [= <- <-] HD. split; [done |]. exists []. by rewrite app_nil_r. }
  destruct (transact_body_spec env (transact fuel env) is_null
              ltac:(done) ltac:(done)
              Hnest Hquiet fuel f run res run' Hok Hrun) as (new' & Hnew' & HP').
  rewrite Hnew in Hnew'. by apply app_inv_head in Hnew' as <-.
Qed.

Lemma transact_observer_calls_witness :
  exists new,
    calls (transact 20 quietEnv changeBoth idleRun).2 = [] ++ new /\
    Forall (fun c => active c = None \/
                     exists k, active c = Some k /\ (delivered c < k)%nat) new /\
    Forall (fun c => active c = None) new.
Proof.
  destruct (transact_observer_calls quietEnv 20 changeBoth idleRun
              (transact 20 quietEnv changeBoth idleRun).2
              (transact 20 quietEnv changeBoth idleRun).1)
    as (new & Hnew & HP & Hquiet).
  - intros k Hk. discriminate Hk.
  - by destruct (transact 20 quietEnv changeBoth idleRun).
  - exists new. split; [exact Hnew |]. split; [exact HP |]. apply Hquiet.
    split; [| split].
    + intros [| [| type]]; repeat constructor.
    + intros [| type]; repeat constructor.
    + intros name. constructor.
Defined.

Example transact_quiet_calls :
  calls (transact 20 quietEnv changeBoth idleRun).2
  = [ {| kind := Shallow; observed := 0%nat; delivered := 0%nat; active := None |};
      {| kind := Shallow; observed := 1%nat; delivered := 0%nat; active := None |};
      {| kind := Deep; observed := 0%nat; delivered := 0%nat; active := None |} ].
Proof. vm_compute. reflexivity. Qed.

(** *** All ranges of a message *)

(** A range inside the known state that is read without an error names
    a clock that is not negative. *)
Lemma readDeleteSet_range_clock transaction structs state unappliedDS client clock len r :
  client_log client structs state \/ structs = [] -> clock < state ->
  readDeleteSet_range transaction structs state unappliedDS client clock len = Ret r ->
  client_log client structs state /\ 0 <= clock.
Proof.
  intros Hlog Hlt. unfold readDeleteSet_range.
  destruct (Z.ltb_spec clock state); [| lia].
  destruct (findIndexSS structs clock) as [i | e |] eqn:Hfind; [| done | done].
  intros _. apply findIndexSS_sound in Hfind as (s & Hs & Hlo & Hhi).
  destruct Hlog as [Hlog | ->]; [| by apply js_get_Some in Hs as [_ Hs]].
  split; [done |].
  apply js_get_Some in Hs as [_ Hs]. apply list_elem_of_lookup_2 in Hs.
  apply client_log_spans in Hlog as (_ & Hsp & Hn & _).
  pose proof (spans_elem_ge _ _ _ s Hsp Hn Hs). lia.
Qed.

(** The ranges of one client.  What was read once is read again, from
    any array that refines the result, without a change: neither the
    array nor the transaction is touched, and the same ranges are left
    unapplied. *)
Lemma readDeleteSet_ranges_twice client state n :
  forall decoder transaction structs unappliedDS decoder' transaction' structs' unappliedDS',
    client_log client structs state \/ (structs = [] /\ state = 0) ->
    readDeleteSet_ranges n decoder transaction structs state unappliedDS client
    = Ret (decoder', transaction', structs', unappliedDS') ->
    (client_log client structs state -> client_log client structs' state) /\
    (structs = [] -> structs' = []) /\
    refines structs structs' /\
    forall structs2 transaction2 unappliedDS2,
      client_log client structs2 state \/ (structs2 = [] /\ state = 0) ->
      refines structs' structs2 ->
      exists unappliedDS2',
        readDeleteSet_ranges n decoder transaction2 structs2 state unappliedDS2 client
        = Ret (decoder', transaction2, structs2, unappliedDS2') /\
        (unappliedDS2 = unappliedDS -> unappliedDS2' = unappliedDS').
Proof.
  induction n as [| n IH];
    intros decoder transaction structs unappliedDS decoder' transaction' structs' unappliedDS'
      Hlog Hrun.
  { simpl in Hrun. injection Hrun as <- <- <- <-.
    split; [done |]. split; [done |]. split; [apply refines_refl |].
    intros structs2 tr2 ds2 _ _. exists ds2. by split. }
  cbn [readDeleteSet_ranges] in *.
  destruct (readVarUint decoder) as [[clock dec1] | |]; [| done | done].
  cbn [mbind Result_bind] in *.
  destruct (readVarUint dec1) as [[len dec2] | |]; [| done | done].
  cbn [mbind Result_bind] in *.
  destruct (readDeleteSet_range transaction structs state unappliedDS client clock len)
    as [[[tr_a structs_a] ds_a] | |] eqn:Hrange; [| done | done].
  cbn [mbind Result_bind] in Hrun.
  destruct (Z.lt_ge_cases clock state) as [Hlt | Hge].
  - destruct (readDeleteSet_range_clock _ _ _ _ _ _ _ _
                ltac:(destruct Hlog as [? | [? ?]]; [by left | by right]) Hlt Hrange)
      as [Hlog0 Hclock].
    destruct (readDeleteSet_range_done transaction structs state unappliedDS client clock len
                Hlog0 ltac:(lia)) as (tr_a' & structs_a' & Hrange' & Hlog_a & Href_a & Hdone).
    rewrite Hrange in Hrange'. injection Hrange' as <- <- ->.
    destruct (IH _ _ _ _ _ _ _ _ (or_introl Hlog_a) Hrun) as (Hlog' & _ & Href' & Hagain).
    split; [by intros _; apply Hlog' |].
    split.
    { intros ->. apply client_log_spans in Hlog0 as [? _]. done. }
    split; [by eapply refines_trans |].
    intros structs2 tr2 ds2 Hlog2 Href2.
    destruct Hlog2 as [Hlog2 | [_ ->]]; [| lia].
    assert (range_done clock (clock + len) structs2) as Hdone2.
    { eapply range_done_refines; [exact Hdone | by eapply refines_trans |].
      by destruct Hlog2 as (_ & ? & _). }
    rewrite (readDeleteSet_range_noop tr2 structs2 state ds2 client clock len Hlog2
               ltac:(lia) Hdone2).
    cbn [mbind Result_bind].
    destruct (Hagain structs2 tr2
                (if state <? clock + len
                 then addToDeleteSet ds2 (createID client state) (clock + len - state)
                 else ds2) (or_introl Hlog2) Href2) as (ds2' & Hrun2 & Hsame).
    exists ds2'. split; [done |]. intros ->. by apply Hsame.
  - unfold readDeleteSet_range in Hrange.
    destruct (Z.ltb_spec clock state) as [| _]; [lia |].
    injection Hrange as <- <- <-.
    destruct (IH _ _ _ _ _ _ _ _ Hlog Hrun) as (Hlog' & Hnil & Href' & Hagain).
    split; [done |]. split; [done |]. split; [done |].
    intros structs2 tr2 ds2 Hlog2 Href2.
    unfold readDeleteSet_range. destruct (Z.ltb_spec clock state) as [| _]; [lia |].
    cbn [mbind Result_bind].
    destruct (Hagain structs2 tr2 (addToDeleteSet ds2 (createID client clock) len)
                Hlog2 Href2) as (ds2' & Hrun2 & Hsame).
    exists ds2'. split; [done |]. intros ->. by apply Hsame.
Qed.

(** *** All clients of a message *)

Lemma store_refines_refl store : store_refines store store.
Proof.
  intros client. destruct (clients store !! client); [| done].
  split; [apply refines_refl | done].
Qed.

Lemma store_refines_trans a b c :
  store_refines a b -> store_refines b c -> store_refines a c.
Proof.
  intros Hab Hbc client. specialize (Hab client). specialize (Hbc client).
  destruct (clients a !! client), (clients b !! client), (clients c !! client); try done.
  destruct Hab as [H1 H2], Hbc as [H3 H4].
  split; [by eapply refines_trans | auto].
Qed.

Lemma setClients_id store structs client :
  clients store !! client = Some structs ->
  setClients store (<[client := structs]> (clients store)) = store.
Proof. intros H. unfold setClients. rewrite (insert_id _ _ _ H). by destruct store. Qed.

Lemma readDeleteSet_clients_twice n :
  forall decoder transaction store unappliedDS decoder' transaction' store' unappliedDS',
    store_ok store ->
    readDeleteSet_clients n decoder transaction store unappliedDS
    = Ret (decoder', transaction', store', unappliedDS') ->
    store_ok store' /\ store_refines store store' /\
    pendingDeleteReaders store' = pendingDeleteReaders store /\
    forall store2 transaction2 unappliedDS2,
      store_ok store2 -> store_refines store' store2 ->
      exists unappliedDS2',
        readDeleteSet_clients n decoder transaction2 store2 unappliedDS2
        = Ret (decoder', transaction2, store2, unappliedDS2') /\
        (unappliedDS2 = unappliedDS -> unappliedDS2' = unappliedDS').
Proof.
  induction n as [| n IH];
    intros decoder transaction store unappliedDS decoder' transaction' store' unappliedDS'
      Hok Hrun.
  { simpl in Hrun. injection Hrun as <- <- <- <-.
    split; [done |]. split; [apply store_refines_refl |]. split; [done |].
    intros store2 tr2 ds2 _ _. exists ds2. by split. }
  cbn [readDeleteSet_clients] in *.
  destruct (readVarUint decoder) as [[client dec1] | |]; [| done | done].
  cbn [mbind Result_bind] in *.
  destruct (readVarUint dec1) as [[numberOfDeletes dec2] | |]; [| done | done].
  cbn [mbind Result_bind] in *.
  destruct (getState store client) as [state | |] eqn:Hstate; [| done | done].
  cbn [mbind Result_bind] in Hrun.
  destruct (readDeleteSet_ranges (Z.to_nat numberOfDeletes) dec2 transaction
              (default [] (clients store !! client)) state unappliedDS client)
    as [[[[dec_a tr_a] structs_a] ds_a] | |] eqn:Hranges; [| done | done].
  cbn [mbind Result_bind] in Hrun.
  assert (client_log client (default [] (clients store !! client)) state \/
          (default [] (clients store !! client) = [] /\ state = 0)) as Hlog.
  { destruct (clients store !! client) as [structs |] eqn:Hc.
    - left. destruct (Hok client structs Hc) as [st Hst].
      rewrite (getState_client_log store client structs st Hc Hst) in Hstate.
      by injection Hstate as <-.
    - right. unfold getState in Hstate. rewrite Hc in Hstate. by injection Hstate as <-. }
  destruct (readDeleteSet_ranges_twice client state _ _ _ _ _ _ _ _ _ Hlog Hranges)
    as (Hlog_a & Hnil_a & Href_a & Hagain_a).
  set (store_a := match clients store !! client with
                  | Some _ => setClients store (<[client := structs_a]> (clients store))
                  | None => store
                  end) in *.
  assert (store_ok store_a) as Hok_a.
  { unfold store_a. destruct (clients store !! client) as [structs |] eqn:Hc; [| done].
    simpl in Hlog, Hlog_a. intros c s. cbn [setClients clients].
    destruct (decide (c = client)) as [-> | Hne].
    - rewrite lookup_insert_eq. intros [= <-]. exists state.
      destruct Hlog as [Hlog | [-> ->]]; [by apply Hlog_a |].
      destruct (Hok client [] Hc) as [st Hst].
      apply client_log_spans in Hst as [? _]. done.
    - rewrite lookup_insert_ne by done. apply Hok. }
  assert (store_refines store store_a) as Hsr_a.
  { unfold store_a. intros c.
    destruct (clients store !! client) as [structs |] eqn:Hc; [| apply store_refines_refl].
    cbn [setClients clients].
    destruct (decide (c = client)) as [-> | Hne].
    - rewrite lookup_insert_eq, Hc. split; [done |].
      intros st Hst. destruct (Hok client structs Hc) as [st' Hst'].
      pose proof (getState_client_log store client structs st Hc Hst) as H1.
      rewrite Hstate in H1. injection H1 as <-. simpl in Hlog_a. by apply Hlog_a.
    - rewrite lookup_insert_ne by done.
      destruct (clients store !! c); [| done]. split; [apply refines_refl | done]. }
  assert (pendingDeleteReaders store_a = pendingDeleteReaders store) as Hp_a.
  { unfold store_a. by destruct (clients store !! client). }
  destruct (IH _ _ _ _ _ _ _ _ Hok_a Hrun) as (Hok' & Hsr' & Hp' & Hagain).
  split; [done |]. split; [by eapply store_refines_trans |].
  split; [by rewrite Hp', Hp_a |].
  intros store2 tr2 ds2 Hok2 Hsr2.
  pose proof (store_refines_trans _ _ _ Hsr' Hsr2 client) as Ha2.
  assert (getState store2 client = Ret state /\
          (client_log client (default [] (clients store2 !! client)) state \/
           (default [] (clients store2 !! client) = [] /\ state = 0)) /\
          refines structs_a (default [] (clients store2 !! client))) as (Hstate2 & Hlog2 & Href2).
  { unfold store_a in Ha2.
    destruct (clients store !! client) as [structs |] eqn:Hc.
    - cbn [setClients clients] in Ha2. rewrite lookup_insert_eq in Ha2.
      destruct (clients store2 !! client) as [structs2 |] eqn:Hc2; [| done].
      destruct Ha2 as [Href2 Hst2]. simpl in Hlog, Hlog_a |- *.
      assert (client_log client structs state) as Hl.
      { destruct Hlog as [? | [-> ->]]; [done |].
        destruct (Hok client [] Hc) as [st Hst].
        apply client_log_spans in Hst as [? _]. done. }
      specialize (Hst2 state (Hlog_a Hl)).
      split; [by eapply getState_client_log |]. split; [by left | done].
    - rewrite Hc in Ha2. destruct (clients store2 !! client) eqn:Hc2; [done |].
      simpl in Hlog, Hnil_a |- *. destruct Hlog as [Hl | [_ ->]].
      { apply client_log_spans in Hl as [? _]. done. }
      split; [unfold getState; by rewrite Hc2 |]. split; [by right |].
      rewrite (Hnil_a eq_refl). apply refines_refl. }
  rewrite Hstate2. cbn [mbind Result_bind].
  destruct (Hagain_a _ tr2 ds2 Hlog2 Href2) as (ds2a & -> & Hsame_a).
  cbn [mbind Result_bind].
  assert (match clients store2 !! client with
          | Some _ =>
              setClients store2
                (<[client := default [] (clients store2 !! client)]> (clients store2))
          | None => store2
          end = store2) as ->.
  { destruct (clients store2 !! client) eqn:Hc2; [| done]. by apply setClients_id. }
  destruct (Hagain store2 tr2 ds2a Hok2 Hsr2) as (ds2' & Hrun2 & Hsame).
  exists ds2'. split; [done |]. intros ->. apply Hsame. by apply Hsame_a.
Qed.

(** Reading the same delete set again, after it was read once, changes
    no struct array and records no deletion in the transaction; what was
    pushed on [pendingDeleteReaders] the first time is pushed again. *)
Lemma readDeleteSet_twice decoder transaction store decoder' transaction1 store1 :
  store_ok store ->
  readDeleteSet decoder transaction store = Ret (decoder', transaction1, store1) ->
  store_ok store1 /\ store_refines store store1 /\
  exists parked,
    pendingDeleteReaders store1 = pendingDeleteReaders store ++ parked /\
    forall transaction2,
      readDeleteSet decoder transaction2 store1
      = Ret (decoder', transaction2,
             {| clients := clients store1;
                pendingDeleteReaders := pendingDeleteReaders store1 ++ parked |}).
Proof.
  intros Hok. unfold readDeleteSet.
  destruct (readVarUint decoder) as [[numClients dec1] | |]; [| done | done].
  cbn [mbind Result_bind].
  destruct (readDeleteSet_clients (Z.to_nat numClients) dec1 transaction store newDeleteSet)
    as [[[[dec_a tr_a] store_a] ds_a] | |] eqn:Hclients; [| done | done].
  cbn [mbind Result_bind].
  destruct (readDeleteSet_clients_twice _ _ _ _ _ _ _ _ _ Hok Hclients)
    as (Hok_a & Hsr_a & Hp_a & Hagain).
  set (parked := if 0 <? Z.of_nat (length (DeleteSet.clients ds_a))
                 then [createDecoder (writeDeleteSet createEncoder ds_a)] else []).
  assert (store_ok store1 -> store_refines store_a store1 ->
          pendingDeleteReaders store1 = pendingDeleteReaders store ++ parked ->
          store_ok store1 /\ store_refines store store1 /\
          exists parked0,
            pendingDeleteReaders store1 = pendingDeleteReaders store ++ parked0 /\
            forall transaction2,
              ('(decoder0, transaction0, store0, unappliedDS) ←
                 readDeleteSet_clients (Z.to_nat numClients) dec1 transaction2 store1
                   newDeleteSet;
               if 0 <? Z.of_nat (length (DeleteSet.clients unappliedDS))
               then Ret (decoder0, transaction0,
                         {| clients := clients store0;
                            pendingDeleteReaders :=
                              pendingDeleteReaders store0
                                ++ [createDecoder (writeDeleteSet createEncoder unappliedDS)] |})
               else Ret (decoder0, transaction0, store0))
              = Ret (dec_a, transaction2,
                     {| clients := clients store1;
                        pendingDeleteReaders := pendingDeleteReaders store1 ++ parked0 |}))
    as Hfinish.
  { intros Hok1 Hsr1 Hp1. split; [done |]. split; [by eapply store_refines_trans |].
    exists parked. split; [done |]. intros tr2.
    destruct (Hagain store1 tr2 newDeleteSet Hok1 Hsr1) as (ds2 & -> & Hsame).
    rewrite (Hsame eq_refl). cbn [mbind Result_bind]. unfold parked.
    destruct (0 <? Z.of_nat (length (DeleteSet.clients ds_a))); [done |].
    rewrite app_nil_r. by destruct store1. }
  destruct (0 <? Z.of_nat (length (DeleteSet.clients ds_a))) eqn:Hpark;
    intros [= <- <- <-]; apply Hfinish.
  - intros c s. apply Hok_a.
  - intros c. cbn [clients]. apply store_refines_refl.
  - cbn [pendingDeleteReaders]. by rewrite Hp_a.
  - done.
  - apply store_refines_refl.
  - unfold parked. by rewrite Hp_a, app_nil_r.
Qed.

(** ** The states of a refined store *)

Lemma getState_store_refines store store1 client state :
  store_ok store -> store_refines store store1 ->
  getState store client = Ret state -> getState store1 client = Ret state.
Proof.
  intros Hok Hsr Hstate. specialize (Hsr client).
  destruct (clients store !! client) as [structs |] eqn:Hc,
           (clients store1 !! client) as [structs1 |] eqn:Hc1; try done.
  - destruct Hsr as [_ Hlog]. destruct (Hok client structs Hc) as [st Hst].
    rewrite (getState_client_log store client structs st Hc Hst) in Hstate.
    injection Hstate as <-. eapply getState_client_log; [done | by apply Hlog].
  - unfold getState in *. by rewrite Hc in Hstate; rewrite Hc1.
Qed.

Lemma sevenStore_ok : store_ok sevenStore.
Proof.
  intros client structs. unfold sevenStore. cbn [clients].
  intros [<- <-]%lookup_singleton_Some. exists 7. apply sevenStructs_log.
Qed.


(** * Further properties *)

(** ** The state vector *)

(** X1. [getStateVector] and [getState] agree.  On a store without an
    empty array [getStateVector] returns a map that has an entry exactly
    for the clients of the store, and [getState] returns for every client
    the entry of the map, or 0 when there is none.  On a store with an
    empty array [getStateVector] throws a [TypeError]. *)
Theorem getStateVector_getState (store : StructStore) :
  ((forall client, clients store !! client <> Some []) ->
   exists sm, getStateVector store = Ret sm /\
     forall client,
       getState store client = Ret (default 0 (sm !! client)) /\
       (sm !! client = None <-> clients store !! client = None)) /\
  ((exists client, clients store !! client = Some []) ->
   getStateVector store = Throw TypeError).
Proof.
  unfold getStateVector. split.
  - intros Hne. case_decide as Hall.
    + eexists. split; [reflexivity |]. intros client.
      rewrite lookup_omap. unfold getState.
      destruct (clients store !! client) as [structs |] eqn:Hc; simpl; [| done].
      specialize (Hall client structs Hc). simpl in Hall.
      destruct (lastStruct structs) as [last |]; [| done]. simpl. split; [done |].
      split; discriminate.
    + destruct Hall. intros client structs Hc. simpl. rewrite lastStruct_last.
      intros Hl%last_None. subst structs. by apply (Hne client).
  - intros (client & Hc). case_decide as Hall; [| done].
    specialize (Hall client [] Hc). by destruct Hall.
Qed.

Lemma getStateVector_getState_witness :
  (exists sm, getStateVector sampleStore = Ret sm /\
     forall client,
       getState sampleStore client = Ret (default 0 (sm !! client)) /\
       (sm !! client = None <-> clients sampleStore !! client = None)) /\
  getStateVector (setClients sampleStore (<[2 := []]> (clients sampleStore))) = Throw TypeError.
Proof.
  split.
  - apply (proj1 (getStateVector_getState sampleStore)).
    intros client. unfold sampleStore. cbn [clients].
    intros [_ H]%lookup_singleton_Some. discriminate H.
  - apply (proj2 (getStateVector_getState _)). exists 2. reflexivity.
Defined.

(** ** [integretyCheck] *)

Lemma integretyCheck_array_cases structs :
  integretyCheck_array structs = Ret tt \/ integretyCheck_array structs = Throw unexpectedCase.
Proof.
  destruct structs as [| l rest]; [by left |]. simpl.
  revert l. induction rest as [| r rest IH]; intros l; [by left |].
  simpl. case_decide; [apply IH | by right].
Qed.

Lemma integretyCheck_fold (l : list (Z * list AbstractStruct)) :
  (foldr (fun '(_, structs) rest => _ ← integretyCheck_array structs; rest) (Ret tt) l = Ret tt
   <-> Forall (fun kv => contiguous kv.2) l) /\
  (foldr (fun '(_, structs) rest => _ ← integretyCheck_array structs; rest) (Ret tt) l = Ret tt
   \/ foldr (fun '(_, structs) rest => _ ← integretyCheck_array structs; rest) (Ret tt) l
      = Throw unexpectedCase).
Proof.
  induction l as [| [client structs] l [IH1 IH2]]; simpl.
  - split; [split; [constructor | done] | by left].
  - unfold contiguous in *.
    destruct (integretyCheck_array_cases structs) as [Hok | Hthrow].
    + rewrite Hok. cbn [mbind Result_bind]. split; [| done]. rewrite IH1. split.
      * by constructor.
      * by intros [_ ?]%Forall_cons.
    + rewrite Hthrow. cbn [mbind Result_bind]. split; [| by right]. split; [done |].
      intros [H _]%Forall_cons. simpl in H. congruence.
Qed.

(** X2. [integretyCheck] returns exactly on the stores in which every
    struct of every array ends where the next struct of the array begins;
    on every other store it throws. *)
Theorem integretyCheck_contiguous (store : StructStore) :
  (integretyCheck store = Ret tt <->
   forall client structs (i : nat) l r,
     clients store !! client = Some structs ->
     structs !! i = Some l -> structs !! S i = Some r ->
     Struct.clock l + Struct.length l = Struct.clock r) /\
  (integretyCheck store = Ret tt \/ exists e, integretyCheck store = Throw e).
Proof.
  unfold integretyCheck.
  destruct (integretyCheck_fold (map_to_list (clients store))) as [Hiff Hcases].
  split; [| destruct Hcases as [? | ?]; [by left | right; eauto]].
  rewrite Hiff, Forall_forall. split.
  - intros Hall client structs i l r Hc Hl Hr.
    apply elem_of_map_to_list in Hc. specialize (Hall _ Hc). simpl in Hall.
    pose proof (contiguous_lookup structs i l r Hall Hl Hr) as H.
    unfold Struct.endClock in H. done.
  - intros Hall [client structs] Hc%elem_of_map_to_list. simpl.
    apply contiguous_of_lookup. intros i l r Hl Hr. unfold Struct.endClock.
    by eapply Hall.
Qed.

(** ** [addStruct], [nextID], [find] and [replaceStruct] *)

Lemma integretyCheck_map_Forall store :
  integretyCheck store = Ret tt <-> map_Forall (fun _ structs => contiguous structs) (clients store).
Proof.
  unfold integretyCheck.
  rewrite (proj1 (integretyCheck_fold (map_to_list (clients store)))).
  rewrite map_Forall_to_list.
  split; intros H; (eapply Forall_impl; [exact H |]); by intros [k structs].
Qed.

Lemma contiguous_snoc structs last struct :
  contiguous structs -> lastStruct structs = Some last ->
  Struct.endClock last = Struct.clock struct ->
  contiguous (structs ++ [struct]).
Proof.
  intros Hc Hl Hend. rewrite lastStruct_last in Hl.
  destruct structs as [| s structs] using rev_ind; [done |].
  rewrite last_snoc in Hl. injection Hl as ->.
  rewrite <- app_assoc. simpl. apply contiguous_app. split; [done |].
  by apply contiguous_cons.
Qed.

Lemma addStruct_Ret store struct store' :
  addStruct store struct = Ret store' ->
  let c := ID.client (Struct.id struct) in
  (clients store !! c = None /\
   store' = setClients store (<[c := [struct]]> (clients store))) \/
  (exists structs last,
     clients store !! c = Some structs /\ lastStruct structs = Some last /\
     Struct.endClock last = Struct.clock struct /\
     store' = setClients store (<[c := structs ++ [struct]]> (clients store))).
Proof.
  unfold addStruct. cbv zeta. intros H.
  destruct (clients store !! ID.client (Struct.id struct)) as [structs |] eqn:Hc.
  - right. destruct (lastStruct structs) as [last |] eqn:Hl; [| done].
    cbn [defined mbind Result_bind] in H. case_decide as Heq; [| done].
    injection H as <-. by exists structs, last.
  - left. injection H as <-. done.
Qed.

(** X3. [addStruct] keeps the invariant that [integretyCheck] tests: on
    a store that passes the check, the store after a successful
    [addStruct] passes it too. *)
Theorem addStruct_integretyCheck (store store' : StructStore) (struct : AbstractStruct) :
  integretyCheck store = Ret tt ->
  addStruct store struct = Ret store' ->
  integretyCheck store' = Ret tt.
Proof.
  rewrite !integretyCheck_map_Forall. intros Hall Hadd.
  destruct (addStruct_Ret _ _ _ Hadd) as [[Hc ->] | (structs & last & Hc & Hl & Hend & ->)];
    cbn [setClients clients]; apply map_Forall_insert_2; try done.
  eapply contiguous_snoc; [by apply (Hall _ _ Hc) | done | done].
Qed.

Lemma addStruct_integretyCheck_witness :
  integretyCheck
    (setClients sampleStore
       (<[1 := sampleStructs ++ [sampleString 1 6 "de"]]> (clients sampleStore)))
  = Ret tt.
Proof.
  apply (addStruct_integretyCheck sampleStore _ (sampleString 1 6 "de")); reflexivity.
Defined.

Lemma lastStruct_snoc structs struct : lastStruct (structs ++ [struct]) = Some struct.
Proof. by rewrite lastStruct_last, last_snoc. Qed.

Lemma addStruct_states (store store' : StructStore) (struct : AbstractStruct) :
  addStruct store struct = Ret store' ->
  getState store' (ID.client (Struct.id struct))
  = Ret (Struct.clock struct + Struct.length struct) /\
  forall client, client <> ID.client (Struct.id struct) ->
    getState store' client = getState store client.
Proof.
  intros Hadd.
  destruct (addStruct_Ret _ _ _ Hadd) as [[Hc ->] | (structs & last & Hc & Hl & Hend & ->)];
    unfold getState; cbn [setClients clients].
  - rewrite lookup_insert_eq. split; [done |].
    intros client Hne. by rewrite lookup_insert_ne.
  - rewrite lookup_insert_eq, lastStruct_snoc. split; [done |].
    intros client Hne. by rewrite lookup_insert_ne.
Qed.

(** X4. After a successful [addStruct] the state of the client of the
    struct is the clock just after the struct, and the state of every
    other client is what it was. *)
Theorem addStruct_getState (store store' : StructStore) (struct : AbstractStruct) :
  addStruct store struct = Ret store' ->
  getState store' (ID.client (Struct.id struct))
  = Ret (Struct.clock struct + Struct.length struct) /\
  forall client, client <> ID.client (Struct.id struct) ->
    getState store' client = getState store client.
Proof. apply addStruct_states. Qed.

Lemma addStruct_getState_witness :
  getState
    (setClients sampleStore
       (<[1 := sampleStructs ++ [sampleString 1 6 "de"]]> (clients sampleStore))) 1
  = Ret 8.
Proof.
  apply (addStruct_getState sampleStore _ (sampleString 1 6 "de")). reflexivity.
Defined.

(** X5. A struct whose id is the one [nextID] returns is always accepted
    by [addStruct], for a new client as for a known one, and the id that
    [nextID] returns afterwards begins where the struct ends. *)
Theorem nextID_addStruct (store : StructStore) (clientID : Z) (id : ID)
    (struct : AbstractStruct) :
  nextID store clientID = Ret id ->
  Struct.id struct = id ->
  exists store',
    addStruct store struct = Ret store' /\
    nextID store' clientID = Ret (createID clientID (ID.clock id + Struct.length struct)).
Proof.
  unfold nextID. intros Hnext Hid.
  destruct (getState store clientID) as [state | |] eqn:Hstate; [| done | done].
  cbn [mbind Result_bind] in Hnext. injection Hnext as <-.
  assert (ID.client (Struct.id struct) = clientID) as Hclient by (by rewrite Hid).
  assert (Struct.clock struct = state) as Hclock.
  { unfold Struct.clock. by rewrite Hid. }
  assert (exists store', addStruct store struct = Ret store') as [store' Hadd].
  { unfold addStruct. rewrite Hclient. unfold getState in Hstate.
    destruct (clients store !! clientID) as [structs |]; [| eauto].
    destruct (lastStruct structs) as [last |]; [| done].
    cbn [defined mbind Result_bind] in *. injection Hstate as Hstate.
    case_decide as Hne; [eauto | congruence]. }
  exists store'. split; [done |].
  destruct (addStruct_states _ _ _ Hadd) as [Hnew _].
  rewrite Hclient in Hnew. rewrite Hnew. cbn [mbind Result_bind].
  by rewrite Hclock.
Qed.

Lemma nextID_addStruct_witness :
  exists store',
    addStruct sampleStore (sampleString 1 6 "de") = Ret store' /\
    nextID store' 1 = Ret (createID 1 (6 + 2)).
Proof.
  apply (nextID_addStruct sampleStore 1 (createID 1 6) (sampleString 1 6 "de")); reflexivity.
Defined.

(** X6. [find] never loops.  For a client without an entry it throws a
    [TypeError].  On a contiguous array it returns, for a clock inside
    the known interval, the struct of the array that holds the clock, and
    throws [unexpectedCase] for any other clock. *)
Theorem find_covering (store : StructStore) (id : ID) :
  (clients store !! ID.client id = None -> find store id = Throw TypeError) /\
  (forall structs,
     clients store !! ID.client id = Some structs ->
     contiguous structs -> nonneg_lengths structs ->
     (known structs (ID.clock id) ->
      exists s, find store id = Ret s /\ s ∈ structs /\ covers s (ID.clock id)) /\
     (~ known structs (ID.clock id) -> find store id = Throw unexpectedCase)).
Proof.
  unfold find. split; [by intros -> |].
  intros structs -> Hc Hn. cbn [defined mbind Result_bind]. split.
  - intros Hk. destruct (known_covered structs _ Hc Hk) as (t & s & Hs & Hcov).
    rewrite (findIndexSS_covered structs _ t s Hc Hn Hs Hcov). cbn [mbind Result_bind].
    rewrite js_get_of_nat, Hs. exists s. split; [done |].
    split; [by eapply list_elem_of_lookup_2 | done].
  - intros Hk. destruct (findIndexSS_total structs (ID.clock id)) as [[i Hi] | ->]; [| done].
    destruct (findIndexSS_sound structs _ i Hi) as (s & [_ Hs]%js_get_Some & Hcov).
    destruct Hk. by eapply covered_known.
Qed.

Lemma find_covering_witness :
  find sampleStore (createID 7 0) = Throw TypeError /\
  (exists s, find sampleStore (createID 1 3) = Ret s /\ s ∈ sampleStructs /\ covers s 3) /\
  find sampleStore (createID 1 6) = Throw unexpectedCase.
Proof.
  split; [apply (proj1 (find_covering sampleStore (createID 7 0))); reflexivity |].
  destruct (proj2 (find_covering sampleStore (createID 1 3)) sampleStructs eq_refl eq_refl
              sampleStructs_nonneg) as [Hin _].
  destruct (proj2 (find_covering sampleStore (createID 1 6)) sampleStructs eq_refl eq_refl
              sampleStructs_nonneg) as [_ Hout].
  split.
  - apply Hin. apply sampleStructs_known. simpl. lia.
  - apply Hout. intros (first & last & Hf & Hl & _ & Hhi).
    vm_compute in Hl. injection Hl as <-. vm_compute in Hhi. discriminate.
Defined.

Lemma find_Ret store id s :
  find store id = Ret s ->
  exists structs (i : nat),
    clients store !! ID.client id = Some structs /\ structs !! i = Some s /\
    covers s (ID.clock id).
Proof.
  unfold find. destruct (clients store !! ID.client id) as [structs |]; [| done].
  cbn [defined mbind Result_bind].
  destruct (findIndexSS structs (ID.clock id)) as [i | |] eqn:Hi; [| done | done].
  cbn [mbind Result_bind]. intros Hs.
  destruct (findIndexSS_sound structs _ i Hi) as (s' & Hs' & Hcov).
  rewrite Hs' in Hs. injection Hs as <-.
  apply js_get_Some in Hs' as [? Hs']. by exists structs, (Z.to_nat i).
Qed.

Lemma find_lookup store id structs (i : nat) s :
  clients store !! ID.client id = Some structs ->
  contiguous structs -> nonneg_lengths structs ->
  structs !! i = Some s -> covers s (ID.clock id) ->
  find store id = Ret s.
Proof.
  intros Hc Hcont Hn Hs Hcov. unfold find. rewrite Hc. cbn [defined mbind Result_bind].
  rewrite (findIndexSS_covered structs _ i s Hcont Hn Hs Hcov). cbn [mbind Result_bind].
  by rewrite js_get_of_nat, Hs.
Qed.

(** X7. What [addStruct] appends is found.  On a store whose array for
    the client of the struct (if there is one) is contiguous, after a
    successful [addStruct] of a struct of positive length [find] returns
    the struct for its id, and every id that [find] found before is
    found as before. *)
Theorem addStruct_find (store store' : StructStore) (struct : AbstractStruct) :
  (forall structs, clients store !! ID.client (Struct.id struct) = Some structs ->
     contiguous structs /\ nonneg_lengths structs) ->
  0 < Struct.length struct ->
  addStruct store struct = Ret store' ->
  find store' (Struct.id struct) = Ret struct /\
  forall id s, find store id = Ret s -> find store' id = Ret s.
Proof.
  intros Hwf Hlen Hadd.
  assert (covers struct (ID.clock (Struct.id struct))) as Hcov.
  { unfold covers, Struct.endClock, Struct.clock. lia. }
  destruct (addStruct_Ret _ _ _ Hadd) as [[Hc ->] | (structs & last & Hc & Hl & Hend & ->)].
  - split.
    + apply (find_lookup _ _ [struct] 0 struct); try done.
      * cbn [setClients clients]. by rewrite lookup_insert_eq.
      * repeat constructor. lia.
    + intros id s Hfind. destruct (find_Ret _ _ _ Hfind) as (structs & i & Hs & _).
      unfold find in *. cbn [setClients clients].
      rewrite lookup_insert_ne; [done |]. intros Heq. rewrite Heq in Hc. congruence.
  - destruct (Hwf structs Hc) as [Hcont Hn].
    assert (contiguous (structs ++ [struct])) as Hcont' by (by eapply contiguous_snoc).
    assert (nonneg_lengths (structs ++ [struct])) as Hn'.
    { apply Forall_app. split; [done |]. repeat constructor. lia. }
    split.
    + apply (find_lookup _ _ (structs ++ [struct]) (length structs) struct); try done.
      * cbn [setClients clients]. by rewrite lookup_insert_eq.
      * by rewrite lookup_app_r, Nat.sub_diag.
    + intros id s Hfind. destruct (find_Ret _ _ _ Hfind) as (structs0 & i & Hs0 & Hi & Hcovs).
      destruct (decide (ID.client id = ID.client (Struct.id struct))) as [Heq | Hne].
      * rewrite Heq, Hc in Hs0. injection Hs0 as <-.
        apply (find_lookup _ _ (structs ++ [struct]) i s); try done.
        -- cbn [setClients clients]. by rewrite Heq, lookup_insert_eq.
        -- by apply lookup_app_l_Some.
      * unfold find in *. cbn [setClients clients]. by rewrite lookup_insert_ne.
Qed.

Lemma addStruct_find_witness :
  let store' :=
    setClients sampleStore
      (<[1 := sampleStructs ++ [sampleString 1 6 "de"]]> (clients sampleStore)) in
  find store' (createID 1 6) = Ret (sampleString 1 6 "de") /\
  find store' (createID 1 3) = Ret (GC (createID 1 2) 3).
Proof.
  intros store'.
  destruct (addStruct_find sampleStore store' (sampleString 1 6 "de")) as [Hnew Hold].
  - intros structs [= <-]. split; [reflexivity | apply sampleStructs_nonneg].
  - vm_compute. reflexivity.
  - reflexivity.
  - split; [exact Hnew |]. apply Hold. reflexivity.
Defined.

(** X8. [replaceStruct] puts the new struct in the place of the old
    one.  For a struct of positive length at index [i] of a contiguous
    array and a new struct with the same clock and length, the new struct
    is written at index [i] and nowhere else, the array stays contiguous,
    the state of the client stays, and [find] returns the new struct for
    the id of the old one.  For a client without an entry the call throws
    a [TypeError]. *)
Theorem replaceStruct_find (store : StructStore) (struct newStruct : AbstractStruct) :
  let client := ID.client (Struct.id struct) in
  (clients store !! client = None ->
   replaceStruct store struct newStruct = Throw TypeError) /\
  (forall structs (i : nat),
     clients store !! client = Some structs ->
     contiguous structs -> nonneg_lengths structs ->
     structs !! i = Some struct -> 0 < Struct.length struct ->
     Struct.clock newStruct = Struct.clock struct ->
     Struct.length newStruct = Struct.length struct ->
     let store' := setClients store (<[client := <[i := newStruct]> structs]> (clients store)) in
     replaceStruct store struct newStruct = Ret store' /\
     contiguous (<[i := newStruct]> structs) /\
     getState store' client = getState store client /\
     find store' (Struct.id struct) = Ret newStruct).
Proof.
  intros client. unfold replaceStruct. cbv zeta. fold client. split; [by intros -> |].
  intros structs i Hc Hcont Hn Hi Hlen Hclock Hlength.
  set (store' := setClients store (<[client := <[i := newStruct]> structs]> (clients store))).
  assert (covers struct (Struct.clock struct)) as Hcov.
  { unfold covers, Struct.endClock. lia. }
  rewrite Hc. cbn [defined mbind Result_bind].
  rewrite (findIndexSS_covered structs _ i struct Hcont Hn Hi Hcov).
  cbn [mbind Result_bind]. unfold js_set. rewrite Nat2Z.id.
  split; [done |].
  pose proof (lookup_lt_Some _ _ _ Hi) as Hlt.
  assert (contiguous (<[i := newStruct]> structs)) as Hcont'.
  { apply contiguous_of_lookup. intros j l r Hl Hr.
    assert (forall k x, <[i := newStruct]> structs !! k = Some x ->
              exists y, structs !! k = Some y /\ Struct.clock x = Struct.clock y /\
                        Struct.endClock x = Struct.endClock y) as Hsame.
    { intros k x Hx. destruct (decide (k = i)) as [-> | Hne].
      - rewrite list_lookup_insert_eq in Hx by done. injection Hx as <-.
        exists struct. unfold Struct.endClock. split; [done |]. split; [done | lia].
      - rewrite list_lookup_insert_ne in Hx by done. by exists x. }
    destruct (Hsame _ _ Hl) as (l0 & Hl0 & _ & ->).
    destruct (Hsame _ _ Hr) as (r0 & Hr0 & -> & _).
    by eapply contiguous_lookup. }
  split; [done |]. split.
  - unfold getState, store'. cbn [setClients clients]. rewrite lookup_insert_eq, Hc.
    rewrite !lastStruct_last, !last_lookup, length_insert.
    destruct (decide (pred (length structs) = i)) as [Hlast | Hnl].
    + rewrite Hlast, list_lookup_insert_eq, Hi by done. simpl. by rewrite Hclock, Hlength.
    + by rewrite list_lookup_insert_ne.
  - apply (find_lookup _ _ (<[i := newStruct]> structs) i newStruct).
    + unfold store'. cbn [setClients clients]. by rewrite lookup_insert_eq.
    + done.
    + unfold nonneg_lengths. apply Forall_insert; [done | lia].
    + by rewrite list_lookup_insert_eq.
    + unfold covers, Struct.endClock, Struct.clock in *. lia.
Qed.

Lemma replaceStruct_find_witness :
  replaceStruct sampleStore (unitGC 7) (GC (createID 7 0) 1) = Throw TypeError /\
  (let store' :=
     setClients sampleStore
       (<[1 := <[0%nat := GC (createID 1 0) 2]> sampleStructs]> (clients sampleStore)) in
   replaceStruct sampleStore (sampleString 1 0 "ab") (GC (createID 1 0) 2) = Ret store' /\
   find store' (createID 1 0) = Ret (GC (createID 1 0) 2)).
Proof.
  split.
  - apply (proj1 (replaceStruct_find sampleStore (unitGC 7) (GC (createID 7 0) 1))).
    reflexivity.
  - destruct (proj2 (replaceStruct_find sampleStore (sampleString 1 0 "ab")
                       (GC (createID 1 0) 2)) sampleStructs 0%nat)
      as (Hrun & _ & _ & Hfind); try reflexivity.
    + apply sampleStructs_nonneg.
    + by split.
Defined.

(** ** Looking up an id in a delete set *)

Lemma ordered_ranges_le dis (i j : nat) a b :
  ordered_ranges dis -> (i < j)%nat -> dis !! i = Some a -> dis !! j = Some b ->
  DeleteItem.endClock a <= DeleteItem.clock b.
Proof.
  intros [Hn Hord] Hij Ha. revert b. induction Hij as [| j Hij IH]; intros b Hb.
  - by apply (Hord i a b).
  - destruct (lookup_lt_is_Some_2 dis j) as [m Hm].
    { apply lookup_lt_Some in Hb. lia. }
    specialize (IH m Hm). pose proof (Hord j m b Hm Hb) as Hmb.
    rewrite Forall_lookup in Hn. specialize (Hn j m Hm). simpl in Hn.
    unfold end_le_clock, DeleteItem.endClock in *. lia.
Qed.

Lemma findIndexDS_loop_spec fuel dis c : forall l r,
  ordered_ranges dis ->
  0 <= l -> r < Z.of_nat (length dis) -> (Z.to_nat (r - l + 1) < fuel)%nat ->
  (forall (j : nat) d, dis !! j = Some d -> Z.of_nat j < l \/ r < Z.of_nat j ->
     inRange (DeleteItem.clock d) (DeleteItem.len d) c = false) ->
  exists res, findIndexDS_loop fuel dis c l r = Ret res /\
    match res with
    | Some i => exists d, js_get dis i = Some d /\
                  inRange (DeleteItem.clock d) (DeleteItem.len d) c = true
    | None => forall d, d ∈ dis -> inRange (DeleteItem.clock d) (DeleteItem.len d) c = false
    end.
Proof.
  induction fuel as [| fuel IH]; intros l r Hord Hl Hr Hfuel Hout; [lia |].
  simpl. destruct (Z.leb_spec l r) as [Hlr | Hlr].
  - pose proof (Z.div_le_lower_bound (l + r) 2 l ltac:(lia) ltac:(lia)) as Hlo.
    pose proof (Z.div_le_upper_bound (l + r) 2 r ltac:(lia) ltac:(lia)) as Hhi.
    destruct (js_get_is_Some dis ((l + r) / 2)) as [mid Hmid]; [lia |].
    rewrite Hmid. cbn [defined mbind Result_bind].
    pose proof Hmid as [_ Hmid']%js_get_Some.
    set (m := Z.to_nat ((l + r) / 2)) in *.
    assert (Z.of_nat m = (l + r) / 2) as Hm by lia.
    pose proof Hord as [Hn _]. rewrite Forall_lookup in Hn.
    destruct (Z.leb_spec (DeleteItem.clock mid) c) as [Hle | Hgt].
    + destruct (Z.ltb_spec c (DeleteItem.clock mid + DeleteItem.len mid)) as [Hin | Hnin].
      * eexists. split; [reflexivity |]. exists mid. split; [done |].
        unfold inRange. apply andb_true_iff. split; lia.
      * apply IH; try done; try lia.
        intros j d Hd [Hj | Hj]; [| apply (Hout j d Hd); lia].
        destruct (decide (Z.of_nat j < l)) as [? | Hjl]; [apply (Hout j d Hd); lia |].
        unfold inRange. apply andb_false_iff. right. apply Z.ltb_ge.
        destruct (decide (j = m)) as [-> | Hne].
        -- rewrite Hmid' in Hd. injection Hd as <-. lia.
        -- pose proof (ordered_ranges_le dis j m d mid Hord ltac:(lia) Hd Hmid') as H.
           unfold DeleteItem.endClock in H. lia.
    + apply IH; try done; try lia.
      intros j d Hd [Hj | Hj]; [apply (Hout j d Hd); lia |].
      destruct (decide (r < Z.of_nat j)) as [? | Hjr]; [apply (Hout j d Hd); lia |].
      unfold inRange. apply andb_false_iff. left. apply Z.leb_gt.
      destruct (decide (j = m)) as [-> | Hne].
      * rewrite Hmid' in Hd. injection Hd as <-. lia.
      * pose proof (ordered_ranges_le dis m j mid d Hord ltac:(lia) Hmid' Hd) as H.
        specialize (Hn m mid Hmid'). simpl in Hn.
        unfold DeleteItem.endClock in H. lia.
  - eexists. split; [reflexivity |]. intros d [j Hd]%list_elem_of_lookup_1.
    apply (Hout j d Hd). lia.
Qed.

(** X9. [findIndexDS] on an array of ranges that follow each other
    without overlap: it returns the index of a range that holds the
    clock when there is one, and [null] exactly when no range of the
    array holds the clock.  It never fails. *)
Theorem findIndexDS_correct (dis : list DeleteItem) (c : Z) :
  ordered_ranges dis ->
  exists res, findIndexDS dis c = Ret res /\
    match res with
    | Some i => exists d, js_get dis i = Some d /\
                  inRange (DeleteItem.clock d) (DeleteItem.len d) c = true
    | None => forall d, d ∈ dis -> inRange (DeleteItem.clock d) (DeleteItem.len d) c = false
    end.
Proof.
  intros Hord. apply findIndexDS_loop_spec; try done; try lia.
  intros j d Hd [Hj | Hj]; [lia |]. apply lookup_lt_Some in Hd. lia.
Qed.

Lemma findIndexDS_correct_witness :
  exists res, findIndexDS [DeleteItem.mk 0 2; DeleteItem.mk 4 3] 5 = Ret res /\
    match res with
    | Some i => exists d, js_get [DeleteItem.mk 0 2; DeleteItem.mk 4 3] i = Some d /\
                  inRange (DeleteItem.clock d) (DeleteItem.len d) 5 = true
    | None => forall d, d ∈ [DeleteItem.mk 0 2; DeleteItem.mk 4 3] ->
                inRange (DeleteItem.clock d) (DeleteItem.len d) 5 = false
    end.
Proof.
  apply findIndexDS_correct. split.
  - repeat constructor; simpl; lia.
  - intros [| [| i]] l r Hl Hr; simpl in Hl, Hr; simplify_eq.
    unfold end_le_clock, DeleteItem.endClock. simpl. lia.
Defined.

Lemma clients_get_Some m client dis :
  NoDup m.*1 -> (clients_get m client = Some dis <-> (client, dis) ∈ m).
Proof.
  induction m as [| [k v] m IH]; simpl.
  - intros _. split; [done | by intros ?%not_elem_of_nil].
  - intros [Hk Hnd]%NoDup_cons. case_decide as Heq.
    + subst k. split.
      * intros [= ->]. by left.
      * intros [[= ->] | Hin]%elem_of_cons; [done |].
        destruct Hk. apply list_elem_of_fmap. by exists (client, dis).
    + rewrite (IH Hnd). split; [by right |].
      intros [[= -> ->] | Hin]%elem_of_cons; done.
Qed.

(** [isDeleted] in terms of the array that [ds.clients.get] returns. *)
Lemma isDeleted_clients_get (ds : DeleteSet) (id : ID) :
  (forall dis, clients_get (DeleteSet.clients ds) (ID.client id) = Some dis ->
     ordered_ranges dis) ->
  exists b, isDeleted ds id = Ret b /\
    (b = true <->
     exists dis, clients_get (DeleteSet.clients ds) (ID.client id) = Some dis /\
       covered dis (ID.clock id)).
Proof.
  intros Hord. unfold isDeleted.
  destruct (clients_get (DeleteSet.clients ds) (ID.client id)) as [dis |] eqn:Hget.
  - destruct (findIndexDS_loop_spec (S (length dis)) dis (ID.clock id) 0
                (Z.of_nat (length dis) - 1) (Hord _ eq_refl)) as (res & Hres0 & Hres);
      [lia | lia | lia | |].
    { intros j d Hd [Hj | Hj]; [lia |]. apply lookup_lt_Some in Hd. lia. }
    unfold findIndexDS. rewrite Hres0.
    cbn [mbind Result_bind]. eexists. split; [reflexivity |].
    destruct res as [i |].
    + destruct Hres as (d & [_ Hd]%js_get_Some & Hin).
      split; [| by intros _; case_bool_decide].
      intros _. exists dis. split; [done |]. exists d. split; [| done].
      by eapply list_elem_of_lookup_2.
    + split; [by case_bool_decide |].
      intros (dels & [= <-] & d & Hd & Hin).
      rewrite (Hres d Hd) in Hin. discriminate.
  - exists false. split; [done |]. split; [done |]. by intros (dels & ? & _).
Qed.

(** X10. [isDeleted] on a delete set whose arrays hold ranges that follow
    each other without overlap: it never fails, and it answers [true]
    exactly for the ids whose clock lies in one of the ranges of their
    client; for a client without an entry the answer is [false]. *)
Theorem isDeleted_correct (ds : DeleteSet) (id : ID) :
  NoDup (DeleteSet.clients ds).*1 ->
  (forall client dis, (client, dis) ∈ DeleteSet.clients ds -> ordered_ranges dis) ->
  exists b, isDeleted ds id = Ret b /\
    (b = true <-> inDeleteSet ds (ID.client id) (ID.clock id)).
Proof.
  intros Hnd Hord.
  destruct (isDeleted_clients_get ds id) as (b & Hrun & Hb).
  { intros dis Hget%(clients_get_Some _ _ _ Hnd). by eapply Hord. }
  exists b. split; [done |]. rewrite Hb. unfold inDeleteSet, covered. split.
  - intros (dis & Hget%(clients_get_Some _ _ _ Hnd) & d & Hd & Hin). by exists dis, d.
  - intros (dis & d & Hget%(clients_get_Some _ _ _ Hnd) & Hd & Hin).
    exists dis. split; [done |]. by exists d.
Qed.

Lemma isDeleted_correct_witness :
  exists b,
    isDeleted (DeleteSet.mk [(1, [DeleteItem.mk 0 2; DeleteItem.mk 4 3])]) (createID 1 5)
    = Ret b /\
    (b = true <->
     inDeleteSet (DeleteSet.mk [(1, [DeleteItem.mk 0 2; DeleteItem.mk 4 3])]) 1 5).
Proof.
  apply (isDeleted_correct (DeleteSet.mk [(1, [DeleteItem.mk 0 2; DeleteItem.mk 4 3])])
           (createID 1 5)).
  - simpl. apply NoDup_singleton.
  - intros client dis [[= -> ->] | []%not_elem_of_nil]%elem_of_cons. split.
    + repeat constructor; simpl; lia.
    + intros [| [| i]] l r Hl Hr; simpl in Hl, Hr; simplify_eq.
      unfold end_le_clock, DeleteItem.endClock. simpl. lia.
Defined.

(** ** What [sortAndMergeDeleteSet] keeps *)

Lemma sortAndMerge_clients_map cs :
  sortAndMerge_clients cs = Ret (map (fun kv => (kv.1, sorted_merged kv.2)) cs).
Proof.
  induction cs as [| [client dels] cs IH]; [done |].
  cbn [sortAndMerge_clients map]. rewrite sortAndMerge_array_merge_ranges, IH. done.
Qed.

Lemma sort_insert_elem x d sorted : x ∈ sort_insert d sorted <-> x = d \/ x ∈ sorted.
Proof.
  induction sorted as [| y sorted IH]; simpl.
  - rewrite list_elem_of_singleton. split; [by left | intros [? | ?%not_elem_of_nil]; done].
  - destruct (DeleteItem.clock y - DeleteItem.clock d <? 0).
    + rewrite !elem_of_cons, IH. tauto.
    + rewrite !elem_of_cons. tauto.
Qed.

Lemma sort_by_clock_elem x dels : x ∈ sort_by_clock dels <-> x ∈ dels.
Proof.
  induction dels as [| d dels IH]; simpl; [done |].
  rewrite sort_insert_elem, elem_of_cons, IH. done.
Qed.

Lemma covered_cons d dis c :
  covered (d :: dis) c <->
  inRange (DeleteItem.clock d) (DeleteItem.len d) c = true \/ covered dis c.
Proof.
  unfold covered. split.
  - intros (x & [-> | Hx]%elem_of_cons & Hin); [by left | right; by exists x].
  - intros [Hin | (x & Hx & Hin)]; [exists d; split; [by left | done] |].
    exists x. split; [by right | done].
Qed.

Lemma covered_app xs ys c : covered (xs ++ ys) c <-> covered xs c \/ covered ys c.
Proof.
  unfold covered. split.
  - intros (x & [Hx | Hx]%elem_of_app & Hin); [left | right]; by exists x.
  - intros [(x & Hx & Hin) | (x & Hx & Hin)]; exists x; (split; [| done]);
      apply elem_of_app; [by left | by right].
Qed.

Lemma merge_ranges_covered c rest : forall kept l,
  0 <= DeleteItem.len l -> Forall (fun d => 0 <= DeleteItem.len d) rest ->
  covered (merge_ranges kept l rest) c <-> covered (kept ++ l :: rest) c.
Proof.
  induction rest as [| r rest IH]; intros kept l Hl Hrest; [done |].
  apply Forall_cons in Hrest as [Hr Hrest]. simpl in Hr. cbn [merge_ranges].
  case_decide as Hadj.
  - rewrite IH by (simpl; done || lia).
    rewrite !covered_app, !covered_cons. unfold inRange. simpl.
    destruct (Z.leb_spec (DeleteItem.clock l) c), (Z.leb_spec (DeleteItem.clock r) c),
      (Z.ltb_spec c (DeleteItem.clock l + DeleteItem.len l)),
      (Z.ltb_spec c (DeleteItem.clock r + DeleteItem.len r)),
      (Z.ltb_spec c (DeleteItem.clock l + (DeleteItem.len l + DeleteItem.len r)));
      simpl; try lia; tauto.
  - rewrite IH by done. rewrite <- app_assoc. done.
Qed.

Lemma sorted_merged_covered dels c :
  Forall (fun d => 0 <= DeleteItem.len d) dels ->
  covered (sorted_merged dels) c <-> covered dels c.
Proof.
  intros Hn. unfold sorted_merged.
  assert (covered (sort_by_clock dels) c <-> covered dels c) as <-.
  { unfold covered. by setoid_rewrite sort_by_clock_elem. }
  apply sort_by_clock_Forall in Hn.
  destruct (sort_by_clock dels) as [| l rest]; [done |].
  apply Forall_cons in Hn as [Hl Hrest]. by rewrite merge_ranges_covered.
Qed.

(** X11. [sortAndMergeDeleteSet] does not change which ids are deleted:
    when no range has a negative length, a clock of a client lies in a
    range of the result exactly when it lay in a range before. *)
Theorem sortAndMergeDeleteSet_covers (ds ds' : DeleteSet) :
  (forall client dels, (client, dels) ∈ DeleteSet.clients ds ->
     Forall (fun d => 0 <= DeleteItem.len d) dels) ->
  sortAndMergeDeleteSet ds = Ret ds' ->
  forall client c, inDeleteSet ds' client c <-> inDeleteSet ds client c.
Proof.
  intros Hn. unfold sortAndMergeDeleteSet. rewrite sortAndMerge_clients_map.
  cbn [mbind Result_bind]. intros [= <-] client c. unfold inDeleteSet. cbn [DeleteSet.clients].
  split.
  - intros (dels' & d' & ([k dels] & [= -> ->] & Hin)%list_elem_of_fmap & Hd' & Hr).
    destruct (proj1 (sorted_merged_covered dels c (Hn _ _ Hin))) as (d & Hd & Hc).
    { by exists d'. }
    by exists dels, d.
  - intros (dels & d & Hin & Hd & Hr).
    destruct (proj2 (sorted_merged_covered dels c (Hn _ _ Hin))) as (d' & Hd' & Hc).
    { by exists d. }
    exists (sorted_merged dels), d'. split; [| done].
    apply list_elem_of_fmap. by exists (client, dels).
Qed.

Lemma sortAndMergeDeleteSet_covers_witness :
  inDeleteSet (DeleteSet.mk [(1, [DeleteItem.mk 0 3; DeleteItem.mk 4 2]);
                             (2, [DeleteItem.mk 3 1])]) 1 2
  <-> inDeleteSet sampleDeleteSet 1 2.
Proof.
  apply (sortAndMergeDeleteSet_covers sampleDeleteSet
           (DeleteSet.mk [(1, [DeleteItem.mk 0 3; DeleteItem.mk 4 2]);
                          (2, [DeleteItem.mk 3 1])])); [| reflexivity].
  intros client dels Hin. unfold sampleDeleteSet in Hin. cbn [DeleteSet.clients] in Hin.
  apply elem_of_cons in Hin as [[= -> ->] | Hin];
    [| apply elem_of_cons in Hin as [[= -> ->] | Hin%not_elem_of_nil]; [| done]];
    repeat constructor; simpl; lia.
Defined.

Lemma consecutive_tail (P : DeleteItem -> DeleteItem -> Prop) d dels :
  consecutive P (d :: dels) -> consecutive P dels.
Proof. intros H i l r Hl Hr. by apply (H (S i) l r). Qed.

Lemma sort_by_clock_sorted_id dels : sorted_by_clock dels -> sort_by_clock dels = dels.
Proof.
  induction dels as [| d dels IH]; intros Hs; [done |].
  simpl. rewrite IH by (by eapply consecutive_tail).
  destruct dels as [| x dels]; [done |]. simpl.
  pose proof (Hs 0%nat d x eq_refl eq_refl) as Hle. simpl in Hle.
  by destruct (Z.ltb_spec (DeleteItem.clock x - DeleteItem.clock d) 0); [lia |].
Qed.

Lemma merge_ranges_not_adjacent_id rest : forall kept l,
  not_adjacent (l :: rest) -> merge_ranges kept l rest = kept ++ l :: rest.
Proof.
  induction rest as [| r rest IH]; intros kept l Hna; [done |].
  cbn [merge_ranges]. pose proof (Hna 0%nat l r eq_refl eq_refl) as Hne. simpl in Hne.
  case_decide; [done |].
  rewrite IH by (by eapply consecutive_tail). by rewrite <- app_assoc.
Qed.

Lemma sorted_merged_idempotent dels : sorted_merged (sorted_merged dels) = sorted_merged dels.
Proof.
  assert (sorted_by_clock (sorted_merged dels) /\ not_adjacent (sorted_merged dels))
    as [Hs Hna].
  { unfold sorted_merged. pose proof (sort_by_clock_sorted dels) as Hsorted.
    destruct (sort_by_clock dels) as [| l rest]; [split; by intros [| ?] |].
    split; [by apply merge_ranges_sorted | apply merge_ranges_not_adjacent]. }
  unfold sorted_merged at 1. rewrite (sort_by_clock_sorted_id _ Hs).
  destruct (sorted_merged dels) as [| l rest]; [done |].
  by rewrite merge_ranges_not_adjacent_id.
Qed.

(** X12. [sortAndMergeDeleteSet] always returns, and a second call on
    its result changes nothing. *)
Theorem sortAndMergeDeleteSet_idempotent (ds : DeleteSet) :
  exists ds', sortAndMergeDeleteSet ds = Ret ds' /\ sortAndMergeDeleteSet ds' = Ret ds'.
Proof.
  unfold sortAndMergeDeleteSet. rewrite sortAndMerge_clients_map.
  cbn [mbind Result_bind]. eexists. split; [reflexivity |].
  cbn [DeleteSet.clients]. rewrite sortAndMerge_clients_map. cbn [mbind Result_bind].
  do 2 f_equal. rewrite map_map. apply map_ext. intros [client dels]. simpl.
  by rewrite sorted_merged_idempotent.
Qed.

(** ** Writing a delete set and reading it back *)

Lemma writeDeleteItems_encode encoder dsitems :
  writeDeleteItems encoder dsitems = encoder ++ encode_items dsitems.
Proof.
  unfold writeDeleteItems, encode_items, writeVarUint. revert encoder.
  induction dsitems as [| d dsitems IH]; intros encoder; simpl.
  - by rewrite app_nil_r.
  - rewrite IH, <- !app_assoc. done.
Qed.

Lemma writeDeleteSet_encode encoder ds :
  writeDeleteSet encoder ds
  = encoder ++ Z.of_nat (length (DeleteSet.clients ds))
      :: flat_map encode_client (DeleteSet.clients ds).
Proof.
  unfold writeDeleteSet, writeVarUint.
  generalize (Z.of_nat (length (DeleteSet.clients ds))). intros n.
  assert (forall cs enc,
            foldl (fun enc '(client, dsitems) =>
                     writeDeleteItems ((enc ++ [client]) ++ [Z.of_nat (length dsitems)]) dsitems)
                  enc cs = enc ++ flat_map encode_client cs) as Hfold.
  { induction cs as [| [client dsitems] cs IH]; intros enc; simpl.
    - by rewrite app_nil_r.
    - rewrite IH, writeDeleteItems_encode, <- !app_assoc. done. }
  rewrite Hfold, <- app_assoc. done.
Qed.

Lemma readDeleteSet_ranges_beyond client state structs dsitems :
  forall rest transaction unappliedDS,
  Forall (fun d => state <= DeleteItem.clock d) dsitems ->
  readDeleteSet_ranges (length dsitems) (encode_items dsitems ++ rest) transaction structs
    state unappliedDS client
  = Ret (rest, transaction, structs,
         foldl (fun ua d =>
                  addToDeleteSet ua (createID client (DeleteItem.clock d)) (DeleteItem.len d))
               unappliedDS dsitems).
Proof.
  induction dsitems as [| d dsitems IH]; intros rest transaction unappliedDS Hb; [done |].
  apply Forall_cons in Hb as [Hd Hb]. simpl in Hd.
  cbn [length readDeleteSet_ranges encode_items flat_map app readVarUint mbind Result_bind].
  unfold readDeleteSet_range. destruct (Z.ltb_spec (DeleteItem.clock d) state); [lia |].
  cbn [mbind Result_bind]. by rewrite (IH _ _ _ Hb).
Qed.

Lemma setIfUndefined_push_new {A : Type} (m : list (Z * list A)) key (x : A) :
  key ∉ m.*1 -> setIfUndefined_push m key x = m ++ [(key, [x])].
Proof.
  induction m as [| [k arr] m IH]; simpl; [done |].
  intros Hk. apply not_elem_of_cons in Hk as [Hne Hk].
  case_decide; [congruence |]. by rewrite IH.
Qed.

Lemma setIfUndefined_push_last {A : Type} (m : list (Z * list A)) key arr (x : A) :
  key ∉ m.*1 -> setIfUndefined_push (m ++ [(key, arr)]) key x = m ++ [(key, arr ++ [x])].
Proof.
  induction m as [| [k arr'] m IH]; simpl.
  - intros _. by case_decide.
  - intros Hk. apply not_elem_of_cons in Hk as [Hne Hk].
    case_decide; [congruence |]. by rewrite IH.
Qed.

Lemma DeleteItem_eta d :
  {| DeleteItem.clock := DeleteItem.clock d; DeleteItem.len := DeleteItem.len d |} = d.
Proof. by destruct d. Qed.

Lemma addToDeleteSet_more client (acc : list (Z * list DeleteItem)) dsitems : forall arr,
  client ∉ acc.*1 ->
  foldl (fun ua d =>
           addToDeleteSet ua (createID client (DeleteItem.clock d)) (DeleteItem.len d))
        (DeleteSet.mk (acc ++ [(client, arr)])) dsitems
  = DeleteSet.mk (acc ++ [(client, arr ++ dsitems)]).
Proof.
  induction dsitems as [| d dsitems IH]; intros arr Hk; simpl.
  - by rewrite app_nil_r.
  - unfold addToDeleteSet at 2. cbn [DeleteSet.clients ID.client ID.clock createID].
    rewrite (setIfUndefined_push_last _ _ _ _ Hk), DeleteItem_eta, IH by done.
    by rewrite <- app_assoc.
Qed.

Lemma addToDeleteSet_items client (acc : list (Z * list DeleteItem))
    (dsitems : list DeleteItem) :
  client ∉ acc.*1 -> dsitems <> [] ->
  foldl (fun ua d =>
           addToDeleteSet ua (createID client (DeleteItem.clock d)) (DeleteItem.len d))
        (DeleteSet.mk acc) dsitems
  = DeleteSet.mk (acc ++ [(client, dsitems)]).
Proof.
  intros Hk Hne. destruct dsitems as [| d dsitems]; [done |].
  cbn [foldl]. unfold addToDeleteSet at 2. cbn [DeleteSet.clients ID.client ID.clock createID].
  rewrite (setIfUndefined_push_new _ _ _ Hk), DeleteItem_eta.
  by rewrite addToDeleteSet_more.
Qed.

Lemma readDeleteSet_clients_beyond store (cs : list (Z * list DeleteItem)) :
  forall (acc : list (Z * list DeleteItem)) rest transaction,
  NoDup (acc.*1 ++ cs.*1) ->
  (forall (client : Z) (dsitems : list DeleteItem), (client, dsitems) ∈ cs ->
     dsitems <> [] /\
     exists state, getState store client = Ret state /\
       Forall (fun d => state <= DeleteItem.clock d) dsitems) ->
  readDeleteSet_clients (length cs) (flat_map encode_client cs ++ rest) transaction store
    (DeleteSet.mk acc)
  = Ret (rest, transaction, store, DeleteSet.mk (acc ++ cs)).
Proof.
  induction cs as [| [client dsitems] cs IH]; intros acc rest transaction Hnd Hcs.
  - simpl. by rewrite app_nil_r.
  - destruct (Hcs client dsitems ltac:(left)) as (Hne & state & Hstate & Hb).
    cbn [length readDeleteSet_clients flat_map encode_client fst snd app readVarUint
         mbind Result_bind].
    rewrite Hstate. cbn [mbind Result_bind]. rewrite Nat2Z.id, <- app_assoc.
    rewrite (readDeleteSet_ranges_beyond client state _ dsitems _ _ _ Hb).
    cbn [mbind Result_bind].
    assert (client ∉ acc.*1) as Hk.
    { intros Hin. apply NoDup_app in Hnd as (_ & Hdisj & _).
      apply (Hdisj client Hin). simpl. by left. }
    rewrite (addToDeleteSet_items client acc dsitems Hk Hne).
    assert (match clients store !! client with
            | Some _ =>
                setClients store (<[client := default [] (clients store !! client)]> (clients store))
            | None => store
            end = store) as ->.
    { destruct (clients store !! client) eqn:Hc; [| done]. by apply setClients_id. }
    rewrite IH.
    + by rewrite <- app_assoc.
    + rewrite fmap_app, <- app_assoc. done.
    + intros c items Hin. apply Hcs. by right.
Qed.

(** X13. A delete set that is written and read back against a store
    that knows none of its clocks is parked as it was written.  For a
    delete set with one non-empty array per client whose ranges all begin
    at or after the state of their client, [readDeleteSet] consumes
    exactly what [writeDeleteSet] wrote, changes neither structs nor
    transaction, and pushes on [pendingDeleteReaders] a decoder with
    exactly the written content (nothing, for a delete set without
    clients). *)
Theorem readDeleteSet_writeDeleteSet
    (ds : DeleteSet) (transaction : Transaction) (store : StructStore) (rest : Decoder) :
  NoDup (DeleteSet.clients ds).*1 ->
  (forall (client : Z) (dsitems : list DeleteItem),
     (client, dsitems) ∈ DeleteSet.clients ds -> dsitems <> []) ->
  beyond_state store ds ->
  readDeleteSet (createDecoder (writeDeleteSet createEncoder ds) ++ rest) transaction store
  = Ret (rest, transaction,
         match DeleteSet.clients ds with
         | [] => store
         | _ :: _ =>
             {| clients := clients store;
                pendingDeleteReaders :=
                  pendingDeleteReaders store
                    ++ [createDecoder (writeDeleteSet createEncoder ds)] |}
         end).
Proof.
  intros Hnd Hne Hb. unfold readDeleteSet, createDecoder, createEncoder, newDeleteSet.
  rewrite writeDeleteSet_encode. cbn [app readVarUint mbind Result_bind].
  rewrite Nat2Z.id.
  rewrite (readDeleteSet_clients_beyond store (DeleteSet.clients ds) [] rest transaction).
  - cbn [mbind Result_bind app DeleteSet.clients].
    destruct ds as [cs]. cbn [DeleteSet.clients]. destruct cs as [| entry cs]; [done |].
    cbn [length]. destruct (Z.ltb_spec 0 (Z.of_nat (S (length cs)))); [| lia].
    by rewrite writeDeleteSet_encode.
  - done.
  - intros client dsitems Hin. split; [by eapply Hne | by apply Hb].
Qed.

Lemma readDeleteSet_writeDeleteSet_witness :
  readDeleteSet (createDecoder (writeDeleteSet createEncoder sampleDeleteSet) ++ [9])
    emptyTransaction newStructStore
  = Ret ([9], emptyTransaction,
         {| clients := clients newStructStore;
            pendingDeleteReaders :=
              [createDecoder (writeDeleteSet createEncoder sampleDeleteSet)] |}).
Proof.
  apply (readDeleteSet_writeDeleteSet sampleDeleteSet emptyTransaction newStructStore [9]).
  - simpl. apply NoDup_cons. split; [| apply NoDup_singleton].
    intros Hin%list_elem_of_singleton. discriminate Hin.
  - intros client dsitems Hin. unfold sampleDeleteSet in Hin. cbn [DeleteSet.clients] in Hin.
    apply elem_of_cons in Hin as [[= -> ->] | Hin]; [done |].
    apply elem_of_cons in Hin as [[= -> ->] | Hin%not_elem_of_nil]; done.
  - intros client dsitems Hin. exists 0. split; [reflexivity |].
    unfold sampleDeleteSet in Hin. cbn [DeleteSet.clients] in Hin.
    apply elem_of_cons in Hin as [[= -> ->] | Hin];
      [| apply elem_of_cons in Hin as [[= -> ->] | Hin%not_elem_of_nil]; [| done]];
      repeat constructor; simpl; lia.
Defined.

(** ** What [readDeleteSet] keeps *)

Lemma getState_store_ok store client :
  store_ok store -> exists state, getState store client = Ret state.
Proof.
  intros Hok. unfold getState.
  destruct (clients store !! client) as [structs |] eqn:Hc; [| by exists 0].
  destruct (Hok client structs Hc) as [state Hlog].
  exists state. pose proof (getState_client_log store client structs state Hc Hlog) as H.
  unfold getState in H. by rewrite Hc in H.
Qed.

(** X14. [readDeleteSet] keeps the logs of the store.  On a store whose
    arrays are contiguous logs from clock 0 on, a delete set that is read
    without an error leaves such a store, with the same clients and the
    same state for every client: structs are split and deleted, never
    added or removed. *)
Theorem readDeleteSet_keeps_states
    (decoder decoder' : Decoder) (transaction transaction' : Transaction)
    (store store' : StructStore) :
  store_ok store ->
  readDeleteSet decoder transaction store = Ret (decoder', transaction', store') ->
  store_ok store' /\
  forall client,
    getState store' client = getState store client /\
    (clients store' !! client = None <-> clients store !! client = None).
Proof.
  intros Hok Hread.
  destruct (readDeleteSet_twice _ _ _ _ _ _ Hok Hread) as (Hok' & Hsr & _).
  split; [done |]. intros client. split.
  - destruct (getState_store_ok store client Hok) as [state Hstate].
    rewrite Hstate. exact (getState_store_refines store store' client state Hok Hsr Hstate).
  - specialize (Hsr client).
    destruct (clients store !! client), (clients store' !! client); done.
Qed.

Lemma readDeleteSet_keeps_states_witness :
  exists transaction' store',
    readDeleteSet [1; 1; 1; 5; 5] emptyTransaction sevenStore = Ret ([], transaction', store') /\
    store_ok store' /\ getState store' 1 = Ret 7.
Proof.
  destruct (readDeleteSet [1; 1; 1; 5; 5] emptyTransaction sevenStore)
    as [[[decoder' transaction'] store'] | |] eqn:Hread; [| discriminate | discriminate].
  assert (decoder' = []) as ->.
  { vm_compute in Hread. by injection Hread as <- _ _. }
  destruct (readDeleteSet_keeps_states _ _ _ _ _ _ sevenStore_ok Hread) as [Hok Hstates].
  exists transaction', store'. split; [reflexivity |]. split; [exact Hok |].
  rewrite (proj1 (Hstates 1)). reflexivity.
Defined.

(** X15. Reading the same delete set a second time, right after it was
    read, succeeds and changes no struct array and nothing in the
    transaction: every range finds the structs it covers split and
    deleted. *)
Theorem readDeleteSet_again
    (decoder decoder' : Decoder) (transaction transaction1 : Transaction)
    (store store1 : StructStore) :
  store_ok store ->
  readDeleteSet decoder transaction store = Ret (decoder', transaction1, store1) ->
  forall transaction2,
    exists store2,
      readDeleteSet decoder transaction2 store1 = Ret (decoder', transaction2, store2) /\
      clients store2 = clients store1.
Proof.
  intros Hok Hread transaction2.
  destruct (readDeleteSet_twice _ _ _ _ _ _ Hok Hread) as (_ & _ & parked & _ & Hagain).
  eexists. split; [apply Hagain | done].
Qed.

Lemma readDeleteSet_again_witness :
  exists transaction1 store1 store2,
    readDeleteSet [1; 1; 1; 5; 5] emptyTransaction sevenStore = Ret ([], transaction1, store1) /\
    readDeleteSet [1; 1; 1; 5; 5] emptyTransaction store1 = Ret ([], emptyTransaction, store2) /\
    clients store2 = clients store1.
Proof.
  destruct (readDeleteSet [1; 1; 1; 5; 5] emptyTransaction sevenStore)
    as [[[decoder' transaction1] store1] | |] eqn:Hread; [| discriminate | discriminate].
  assert (decoder' = []) as ->.
  { vm_compute in Hread. by injection Hread as <- _ _. }
  destruct (readDeleteSet_again _ _ _ _ _ _ sevenStore_ok Hread emptyTransaction)
    as (store2 & Hagain & Hclients).
  exists transaction1, store1, store2. split; [reflexivity |]. split; [exact Hagain |].
  exact Hclients.
Defined.

(** ** The document after [transact] *)

Lemma cleanups_for_idle env fuel0 fuel : forall i run run',
  doc_ok (doc run) ->
  (forall k, _transaction (doc run) = Some k -> (i <= k)%nat) ->
  cleanups_for env (transact fuel0 env) fuel i run = (Ret tt, run') ->
  _transaction (doc run') = None.
Proof.
  induction fuel as [| fuel IH]; intros i run run' Hok Hact Hrun; simpl in Hrun; [done |].
  apply bind_inv in Hrun as (res1 & run1 & [= <- <-] & Hrun).
  destruct (_transactionCleanups (doc run) !! i) as [transaction |] eqn:Hi.
  - apply lookup_lt_Some in Hi.
    apply bind_inv in Hrun as (res2 & run2 & Hc & Hrun).
    destruct (cleanup_spec env (transact fuel0 env) null_or_later
                ltac:(by left)
                ltac:(intros i' h _; eapply sat_weaken;
                      [apply nest_deliv | apply runHandler_nest; intros g; apply transact_nest])
                _ _ _ _ _ _ Hok Hi Hc) as [_ HD].
    destruct res2 as [[] | e |]; [| by destruct Hrun as [? _] ..].
    destruct (HD tt eq_refl) as (Hok2 & Hi2 & Hact2).
    apply (IH (S i) run2 run'); [done | | done].
    intros k Hk. rewrite Hk in Hact2. destruct Hact2 as [? | (k' & [= <-] & ?)]; [done | lia].
  - injection Hrun as <-. apply lookup_ge_None in Hi.
    destruct (_transaction (doc run)) as [k |] eqn:Hk; [| done].
    pose proof (Hok k Hk). pose proof (Hact k eq_refl). lia.
Qed.

(** X16. [transact] leaves the document idle.  When a call of
    [transact] on a document without an active transaction and with an
    empty cleanup queue returns, [doc._transaction] is [null] and the
    cleanup queue is empty again, whatever the handlers did: the
    transactions they opened were all processed in the same call. *)
Theorem transact_leaves_idle (env : Env) (fuel : nat) (f : Body) (run run' : Run) :
  _transaction (doc run) = None -> _transactionCleanups (doc run) = [] ->
  transact fuel env f run = (Ret tt, run') ->
  _transaction (doc run') = None /\ _transactionCleanups (doc run') = [].
Proof.
  intros Hnone Hqueue Hrun. destruct fuel as [| fuel]; [done |]. simpl in Hrun.
  assert (forall g, sat nest (transact fuel env g)) as Hnest
    by (intros g; apply transact_nest).
  unfold transact_body in Hrun.
  apply bind_inv in Hrun as (res0 & run0 & [= <- <-] & Hrun).
  rewrite Hnone in Hrun. rewrite bool_decide_eq_true_2 in Hrun by done.
  apply bind_inv in Hrun as (res1 & run1 & Hopen & Hrun).
  apply bind_inv in Hopen as (res2 & run2 & [= <- <-] & Hopen).
  destruct (getStateVector (store (doc run))) as [beforeState | e |];
    [| destruct Hopen as [-> ->]; by destruct Hrun as [? _] ..].
  apply bind_inv in Hopen as (res3 & run3 & [= <- <-] & Hopen).
  rewrite Hqueue in Hopen. set (run3 := mkRun _ _) in Hopen.
  assert (doc_ok (doc run3)) as Hok3 by (intros k [= <-]; simpl; lia).
  assert (_transactionCleanups (doc run3) <> []) as Hne3 by done.
  destruct (emit_nest env _ Hnest beforeTransaction _ _ _ Hopen Hok3 Hne3)
    as (Hc1 & Hok1 & Hlen1 & Hact1).
  assert (_transaction (doc run1) = Some 0%nat) as Hzero1.
  { destruct Hact1 as [? | [? _]]; done. }
  destruct res1 as [[] | e |]; [| by destruct Hrun as [? _] ..].
  assert (_transactionCleanups (doc run1) <> []) as Hne1.
  { destruct (_transactionCleanups (doc run1)); [simpl in Hlen1; lia | done]. }
  assert (sat nest (d ← getDoc; i ← lift (defined (_transaction d));
                    runBody env (transact fuel env) i f)) as Hbody.
  { apply (sat_bind nest); [apply (sat_getDoc nest) |]. intros d.
    apply (sat_bind nest); [apply (sat_lift nest) |]. intros i. by apply runBody_nest. }
  unfold try_finally in Hrun.
  destruct ((d ← getDoc; i ← lift (defined (_transaction d));
             runBody env (transact fuel env) i f) run1)
    as [[[] | e |] run2] eqn:Hrun2; [| | done].
  2:{ by destruct (transact_finally env (transact fuel env) fuel true run2) as [[[] | ? |] ?]. }
  apply Hbody in Hrun2. destruct (Hrun2 Hok1 Hne1) as (Hc2 & Hok2 & Hlen2 & Hact2).
  assert (_transaction (doc run2) = Some 0%nat) as Hzero2.
  { destruct Hact2 as [? | [? _]]; congruence. }
  unfold transact_finally in Hrun.
  apply bind_inv in Hrun as (res4 & run5 & [= <- <-] & Hrun).
  rewrite Hzero2 in Hrun. rewrite bool_decide_eq_true_2 in Hrun by done.
  cbn [andb] in Hrun.
  apply bind_inv in Hrun as (res6 & run6 & Hloop & Hrun).
  destruct res6 as [[] | e |]; [| by destruct Hrun as [? _] ..].
  injection Hrun as <-. cbn [doc _transaction _transactionCleanups]. split; [| done].
  eapply (cleanups_for_idle env fuel fuel 0); [exact Hok2 | intros; lia | exact Hloop].
Qed.

Lemma transact_leaves_idle_witness :
  exists run',
    transact 20 chattyEnv changeBoth idleRun = (Ret tt, run') /\
    _transaction (doc run') = None /\ _transactionCleanups (doc run') = [].
Proof.
  destruct (transact 20 chattyEnv changeBoth idleRun) as [res run'] eqn:Hrun.
  assert (res = Ret tt) as ->.
  { vm_compute in Hrun. by injection Hrun as <- _. }
  exists run'. split; [reflexivity |].
  apply (transact_leaves_idle chattyEnv 20 changeBoth idleRun run'); [reflexivity .. | exact Hrun].
Defined.

(** ** The content of the halves of a string item *)

(** X17. [ItemString.splitAt] neither loses nor repeats content,
    whatever [diff] is: the strings of the two halves, in this order,
    make up the string of the item, and their lengths add up to its
    length.  For [0 <= diff <= length] the left half keeps [diff] units.
    A [diff] beyond the length leaves everything in the left half; a
    negative [diff] counts from the end of the string. *)
Theorem ItemString_splitAt_string
    (transaction : Transaction) (item : AbstractItem.t) (str : string) (diff : Z) :
  let l := (splitAt transaction (ItemString item str) diff).1 in
  let r := (splitAt transaction (ItemString item str) diff).2 in
  (exists li ri ls rs,
     l = ItemString li ls /\ r = ItemString ri rs /\ ls +:+ rs = str) /\
  Struct.length l + Struct.length r = str_length str /\
  (0 <= diff <= str_length str -> Struct.length l = diff) /\
  (str_length str <= diff -> Struct.length l = str_length str) /\
  (diff < 0 -> Struct.length l = Z.max (str_length str + diff) 0).
Proof.
  cbn [splitAt]. destruct (splitItem transaction item diff) as [li ri]. cbn [fst snd].
  split.
  { exists li, ri, (js_slice_to str diff), (js_slice_from str diff).
    split; [done |]. split; [done |]. apply js_slice_to_from. }
  cbn [Struct.length].
  assert (str_length (js_slice_to str diff) + str_length (js_slice_from str diff)
          = str_length str) as Hsum.
  { rewrite <- str_length_append. by rewrite js_slice_to_from. }
  split; [done |].
  assert (str_length (js_slice_to str diff) = Z.of_nat (str_index str diff)) as Hlen.
  { unfold js_slice_to, str_length. rewrite str_take_length.
    unfold str_index, str_length. destruct (Z.ltb_spec diff 0); lia. }
  rewrite Hlen. unfold str_index, str_length.
  repeat split; intros Hd; destruct (Z.ltb_spec diff 0); lia.
Qed.

Lemma ItemString_splitAt_string_witness :
  Struct.length (splitAt emptyTransaction (sampleString 1 0 "abcdefg") 3).1 = 3 /\
  Struct.length (splitAt emptyTransaction (sampleString 1 0 "abcdefg") 9).1 = 7 /\
  Struct.length (splitAt emptyTransaction (sampleString 1 0 "abcdefg") (-2)).1 = 5.
Proof.
  unfold sampleString.
  split; [| split].
  - apply (ItemString_splitAt_string emptyTransaction _ "abcdefg" 3). vm_compute. by split.
  - apply (ItemString_splitAt_string emptyTransaction _ "abcdefg" 9). vm_compute. discriminate.
  - apply (ItemString_splitAt_string emptyTransaction _ "abcdefg" (-2)). reflexivity.
Defined.

(** ** A [YArray] before it is integrated *)

Lemma js_splice_inside {A : Type} (arr : list A) (index : nat) (n : nat) (items : list A) :
  (index <= length arr)%nat -> (index + n <= length arr)%nat ->
  js_splice arr (Z.of_nat index) (Z.of_nat n) items
  = take index arr ++ items ++ drop (index + n) arr.
Proof.
  intros Hi Hn. unfold js_splice, js_start.
  destruct (Z.ltb_spec (Z.of_nat index) 0); [lia |].
  replace (Z.to_nat (Z.min (Z.of_nat index) (Z.of_nat (length arr)))) with index by lia.
  replace (Z.to_nat (Z.min (Z.max (Z.of_nat n) 0)
                       (Z.of_nat (length arr) - Z.of_nat index))) with n by lia.
  done.
Qed.

(** X18. On a [YArray] that is not integrated, [insert] at an index
    inside the content puts the new elements there, [push] appends them
    at the end, and [length] grows by their number; nothing else
    changes. *)
Theorem YArray_insert_push {T : Type}
    (typeListInsertGenerics : YArray.t T -> Z -> list T -> Result (YArray.t T))
    (this : YArray.t T) (prelim content : list T) :
  YArray.doc this = None -> YArray._prelimContent this = Some prelim ->
  (forall index : nat,
     (index <= length prelim)%nat ->
     YArray.insert typeListInsertGenerics this (Z.of_nat index) content
     = Ret (YArray.mk None (YArray._length this)
              (Some (take index prelim ++ content ++ drop index prelim)))) /\
  exists this',
    YArray.push typeListInsertGenerics this content = Ret this' /\
    YArray._prelimContent this' = Some (prelim ++ content) /\
    YArray.length this' = YArray.length this + Z.of_nat (length content).
Proof.
  intros Hdoc Hprelim.
  assert (forall index : nat,
            (index <= length prelim)%nat ->
            YArray.insert typeListInsertGenerics this (Z.of_nat index) content
            = Ret (YArray.mk None (YArray._length this)
                     (Some (take index prelim ++ content ++ drop index prelim)))) as Hinsert.
  { intros index Hi. unfold YArray.insert. rewrite Hdoc, Hprelim.
    cbn [defined mbind Result_bind].
    change 0 with (Z.of_nat 0). rewrite js_splice_inside by lia.
    by rewrite Nat.add_0_r. }
  split; [done |]. eexists. split.
  - unfold YArray.push, YArray.length. rewrite Hprelim. by apply Hinsert.
  - cbn [YArray._prelimContent]. rewrite firstn_all, drop_all, app_nil_r.
    split; [done |]. unfold YArray.length. cbn [YArray._prelimContent]. rewrite Hprelim.
    rewrite length_app. lia.
Qed.

Lemma YArray_insert_push_witness :
  YArray.insert (fun _ _ _ => Throw unexpectedCase) (YArray.mk None 0 (Some [1; 2; 3]))
    (Z.of_nat 1) [7; 8]
  = Ret (YArray.mk None 0 (Some [1; 7; 8; 2; 3])) /\
  exists this',
    YArray.push (fun _ _ _ => Throw unexpectedCase) (YArray.mk None 0 (Some [1; 2; 3])) [7; 8]
    = Ret this' /\
    YArray._prelimContent this' = Some [1; 2; 3; 7; 8] /\
    YArray.length this' = 3 + 2.
Proof.
  destruct (YArray_insert_push (fun _ _ _ => Throw unexpectedCase)
              (YArray.mk None 0 (Some [1; 2; 3])) [1; 2; 3] [7; 8] eq_refl eq_refl)
    as [Hinsert Hpush].
  split; [apply (Hinsert 1%nat); simpl; lia | exact Hpush].
Defined.

(** X19. On a [YArray] that is not integrated, deleting at an index as
    many elements as were just inserted there gives the content back,
    for every index inside the content; and [delete] never fails there,
    whatever the index and the length: what lies outside the content is
    not deleted. *)
Theorem YArray_insert_delete {T : Type}
    (typeListInsertGenerics : YArray.t T -> Z -> list T -> Result (YArray.t T))
    (typeListDelete : YArray.t T -> Z -> Z -> Result (YArray.t T))
    (this : YArray.t T) (prelim content : list T) :
  YArray.doc this = None -> YArray._prelimContent this = Some prelim ->
  (forall index : nat,
     (index <= length prelim)%nat ->
     (this' ← YArray.insert typeListInsertGenerics this (Z.of_nat index) content;
      YArray.delete typeListDelete this' (Z.of_nat index) (Z.of_nat (length content)))
     = Ret this) /\
  (forall index len,
     exists prelim',
       YArray.delete typeListDelete this index len
       = Ret (YArray.mk None (YArray._length this) (Some prelim')) /\
       (length prelim' <= length prelim)%nat /\
       (Z.of_nat (length prelim) <= index -> prelim' = prelim) /\
       (len <= 0 -> prelim' = prelim)).
Proof.
  intros Hdoc Hprelim. split.
  - intros index Hi. unfold YArray.insert, YArray.delete. rewrite Hdoc, Hprelim.
    cbn [defined mbind Result_bind YArray.doc YArray._prelimContent YArray._length].
    change 0 with (Z.of_nat 0). rewrite (js_splice_inside prelim index 0 content) by lia.
    rewrite Nat.add_0_r.
    assert (length (take index prelim) = index) as Hlen by (rewrite length_take; lia).
    rewrite js_splice_inside.
    + rewrite take_app_length' by done.
      rewrite (app_assoc (take index prelim) content (drop index prelim)).
      rewrite drop_app_length' by (rewrite length_app; lia).
      cbn [app]. rewrite take_drop. destruct this as [d n p]. simpl in *. by subst.
    + rewrite length_app. lia.
    + rewrite !length_app, length_drop. lia.
  - intros index len. unfold YArray.delete. rewrite Hdoc, Hprelim.
    cbn [defined mbind Result_bind]. eexists. split; [reflexivity |].
    unfold js_splice. cbn [app].
    set (s := js_start prelim index).
    set (n := Z.to_nat (Z.min (Z.max len 0) (Z.of_nat (length prelim) - Z.of_nat s))).
    assert (s <= length prelim)%nat as Hs.
    { unfold s, js_start. destruct (Z.ltb_spec index 0); lia. }
    split; [rewrite length_app, length_take, length_drop; lia |]. split.
    + intros Hge. assert (s = length prelim) as Heq.
      { unfold s, js_start. destruct (Z.ltb_spec index 0); lia. }
      rewrite Heq, firstn_all, drop_ge, app_nil_r by lia. done.
    + intros Hle. assert (n = 0%nat) as -> by (unfold n; lia).
      by rewrite Nat.add_0_r, take_drop.
Qed.

Lemma YArray_insert_delete_witness :
  (this' ← YArray.insert (fun _ _ _ => Throw unexpectedCase)
             (YArray.mk None 0 (Some [1; 2; 3])) (Z.of_nat 1) [7; 8];
   YArray.delete (fun _ _ _ => Throw unexpectedCase) this' (Z.of_nat 1)
     (Z.of_nat (length [7; 8])))
  = Ret (YArray.mk None 0 (Some [1; 2; 3])).
Proof.
  destruct (YArray_insert_delete (fun _ _ _ => Throw unexpectedCase)
              (fun _ _ _ => Throw unexpectedCase)
              (YArray.mk None 0 (Some [1; 2; 3])) [1; 2; 3] [7; 8] eq_refl eq_refl)
    as [Hround _].
  apply (Hround 1%nat). simpl. lia.
Defined.

(** ** The delete set of a store *)

Lemma createDeleteSet_loops rest :
  (forall pre dsitems fuel,
     (length rest < fuel)%nat ->
     createDeleteSet_for fuel (pre ++ rest) (Z.of_nat (length pre)) dsitems
     = Ret (dsitems ++ deleted_runs None rest)) /\
  (forall pre s0 dsitems clock len fuel fuel',
     (length rest < fuel)%nat -> (length rest < fuel')%nat ->
     ('(i, len') ← createDeleteSet_next fuel (pre ++ s0 :: rest) (Z.of_nat (length pre))
                     clock len;
      createDeleteSet_for fuel' (pre ++ s0 :: rest) (i + 1)
        (dsitems ++ [DeleteItem.mk clock len']))
     = Ret (dsitems ++ deleted_runs (Some (DeleteItem.mk clock len)) rest)).
Proof.
  induction rest as [| s rest [IH1 IH2]].
  - split.
    + intros pre dsitems [| fuel] Hfuel; [simpl in Hfuel; lia |].
      simpl. rewrite !app_nil_r.
      destruct (Z.ltb_spec (Z.of_nat (length pre)) (Z.of_nat (length pre))); [lia |].
      done.
    + intros pre s0 dsitems clock len [| fuel] [| fuel'] Hfuel Hfuel';
        try (simpl in *; lia).
      cbn [createDeleteSet_next]. rewrite length_app. cbn [length].
      destruct (Z.ltb_spec (Z.of_nat (length pre) + 1) (Z.of_nat (length pre + 1))); [lia |].
      cbn [mbind Result_bind createDeleteSet_for]. rewrite length_app. cbn [length].
      destruct (Z.ltb_spec (Z.of_nat (length pre) + 1) (Z.of_nat (length pre + 1))); [lia |].
      done.
  - assert (forall pre dsitems fuel,
              (length (s :: rest) < fuel)%nat ->
              createDeleteSet_for fuel (pre ++ s :: rest) (Z.of_nat (length pre)) dsitems
              = Ret (dsitems ++ deleted_runs None (s :: rest))) as H1.
    { intros pre dsitems [| fuel] Hfuel; [simpl in Hfuel; lia |]. simpl in Hfuel.
      cbn [createDeleteSet_for deleted_runs].
      destruct (Z.ltb_spec (Z.of_nat (length pre)) (Z.of_nat (length (pre ++ s :: rest))))
        as [_ | Hge]; [| rewrite length_app in Hge; simpl in Hge; lia].
      rewrite (js_get_middle pre rest s) by done. cbn [defined mbind Result_bind].
      destruct (Struct.deleted s) eqn:Hdel.
      - destruct rest as [| r rest].
        + rewrite length_app. cbn [length].
          destruct (Z.ltb_spec (Z.of_nat (length pre) + 1) (Z.of_nat (length pre + 1)));
            [lia |].
          cbn [mbind Result_bind].
          destruct fuel as [| fuel]; [lia |]. cbn [createDeleteSet_for].
          rewrite length_app. cbn [length].
          destruct (Z.ltb_spec (Z.of_nat (length pre) + 1) (Z.of_nat (length pre + 1)));
            [lia |].
          done.
        + destruct (Z.ltb_spec (Z.of_nat (length pre) + 1)
                      (Z.of_nat (length (pre ++ s :: r :: rest)))) as [_ | Hge];
            [| rewrite length_app in Hge; simpl in Hge; lia].
          apply IH2; [rewrite length_app; simpl; lia | lia].
      - specialize (IH1 (pre ++ [s]) dsitems fuel).
        rewrite <- app_assoc, length_app in IH1. cbn [length app] in IH1.
        replace (Z.of_nat (length pre) + 1) with (Z.of_nat (length pre + 1)) by lia.
        apply IH1. lia. }
    split; [exact H1 |].
    intros pre s0 dsitems clock len [| fuel] fuel' Hfuel Hfuel'; [simpl in Hfuel; lia |].
    simpl in Hfuel, Hfuel'.
    cbn [createDeleteSet_next deleted_runs DeleteItem.clock DeleteItem.len].
    destruct (Z.ltb_spec (Z.of_nat (length pre) + 1)
                (Z.of_nat (length (pre ++ s0 :: s :: rest)))) as [_ | Hge];
      [| rewrite length_app in Hge; simpl in Hge; lia].
    rewrite (cons_middle s0 pre (s :: rest)), app_assoc.
    rewrite (js_get_middle (pre ++ [s0]) rest s) by (rewrite length_app; simpl; lia).
    cbn [defined mbind Result_bind].
    destruct (bool_decide (Struct.clock s = clock + len) && Struct.deleted s) eqn:Hchain.
    + specialize (IH2 (pre ++ [s0]) s dsitems clock (len + Struct.length s) fuel fuel').
      rewrite length_app in IH2. cbn [length] in IH2.
      replace (Z.of_nat (length pre) + 1) with (Z.of_nat (length pre + 1)) by lia.
      apply IH2; lia.
    + cbn [mbind Result_bind].
      specialize (H1 (pre ++ [s0]) (dsitems ++ [DeleteItem.mk clock len]) fuel').
      rewrite length_app in H1. cbn [length] in H1.
      replace (Z.of_nat (length pre) + 1) with (Z.of_nat (length pre + 1)) by lia.
      rewrite H1 by (simpl; lia). cbn [deleted_runs]. by rewrite <- app_assoc.
Qed.

Lemma createDeleteSet_dsitems_runs structs :
  createDeleteSet_dsitems structs = Ret (deleted_runs None structs).
Proof.
  unfold createDeleteSet_dsitems.
  apply (proj1 (createDeleteSet_loops structs) [] []). lia.
Qed.

Lemma consecutive_cons_Forall (P : DeleteItem -> DeleteItem -> Prop) x l :
  Forall (P x) l -> consecutive P l -> consecutive P (x :: l).
Proof.
  intros Hx Hl [| i] a b Ha Hb.
  - simpl in Ha, Hb. injection Ha as <-. rewrite Forall_forall in Hx. apply Hx.
    by eapply list_elem_of_lookup_2.
  - by apply (Hl i).
Qed.

Lemma inRange_covers s c :
  inRange (Struct.clock s) (Struct.length s) c = coversb s c.
Proof. done. Qed.

Lemma inRange_true clock len c : inRange clock len c = true <-> clock <= c < clock + len.
Proof. unfold inRange. lia. Qed.

Lemma coversb_false s c :
  coversb s c = false <-> c < Struct.clock s \/ Struct.clock s + Struct.length s <= c.
Proof. unfold coversb. lia. Qed.

Ltac range_lia :=
  repeat match goal with
         | H : inRange _ _ _ = true |- _ => apply inRange_true in H
         | H : coversb _ _ = true |- _ =>
             apply coversb_covers in H; unfold covers, Struct.endClock in H
         | H : coversb _ _ = false |- _ => apply coversb_false in H
         | |- inRange _ _ _ = true => apply inRange_true
         end;
  simpl in *; lia.

(** The ranges that the loops of [createDeleteSetFromStructStore] make
    of a contiguous run of structs: they follow each other, stay inside
    the run, and hold exactly the clocks of its deleted structs. *)
Lemma deleted_runs_spec rest : forall m b cur,
  spans m rest b -> nonneg_lengths rest ->
  (forall d, cur = Some d -> DeleteItem.endClock d = m /\ 0 <= DeleteItem.len d) ->
  let lo := match cur with Some d => DeleteItem.clock d | None => m end in
  Forall (fun x => 0 <= DeleteItem.len x /\ lo <= DeleteItem.clock x /\
                   DeleteItem.endClock x <= b) (deleted_runs cur rest) /\
  consecutive end_le_clock (deleted_runs cur rest) /\
  forall c, covered (deleted_runs cur rest) c <->
    (exists d, cur = Some d /\ inRange (DeleteItem.clock d) (DeleteItem.len d) c = true) \/
    deletedAt rest c = Some true.
Proof.
  induction rest as [| s rest IH]; intros m b cur Hsp Hn Hcur lo.
  - simpl in Hsp. subst b. destruct cur as [d |]; simpl.
    + destruct (Hcur d eq_refl) as [Hend Hlen]. subst lo.
      split; [repeat constructor; lia |]. split; [apply consecutive_single |].
      intros c. unfold covered. split.
      * intros (x & ->%list_elem_of_singleton & Hin). left. by exists d.
      * intros [(x & [= <-] & Hin) | ?]; [| done]. exists d. split; [by left | done].
    + split; [constructor |]. split; [by intros [| ?] |].
      intros c. unfold covered. split.
      * by intros (x & ?%not_elem_of_nil & _).
      * by intros [(x & ? & _) | ?].
  - destruct Hsp as [Hclock Hsp]. apply Forall_cons in Hn as [Hs Hn]. simpl in Hs.
    pose proof (spans_le _ _ _ Hn Hsp) as Hle.
    (* the structs after [s] that hold [c] lie after [s] *)
    assert (forall c, coversb s c = true -> deletedAt rest c = None) as Hafter.
    { intros c Hc. unfold deletedAt. destruct (structAt rest c) as [x |] eqn:Hx; [| done].
      pose proof (structAt_bounds _ _ _ _ _ Hsp Hn Hx).
      unfold coversb, Struct.endClock in *. lia. }
    (* what is made of the structs from [s] on when no range is open *)
    assert (Forall (fun x => 0 <= DeleteItem.len x /\ m <= DeleteItem.clock x /\
                             DeleteItem.endClock x <= b)
              (if Struct.deleted s
               then deleted_runs (Some (DeleteItem.mk (Struct.clock s) (Struct.length s))) rest
               else deleted_runs None rest) /\
            consecutive end_le_clock
              (if Struct.deleted s
               then deleted_runs (Some (DeleteItem.mk (Struct.clock s) (Struct.length s))) rest
               else deleted_runs None rest) /\
            forall c, covered
                        (if Struct.deleted s
                         then deleted_runs
                                (Some (DeleteItem.mk (Struct.clock s) (Struct.length s))) rest
                         else deleted_runs None rest) c <->
                      deletedAt (s :: rest) c = Some true) as (Hf1 & Hf2 & Hf3).
    { destruct (Struct.deleted s) eqn:Hdel.
      - destruct (IH (Struct.endClock s) b
                    (Some (DeleteItem.mk (Struct.clock s) (Struct.length s))) Hsp Hn)
          as (H1 & H2 & H3).
        { intros d [= <-]. by split. }
        cbn [DeleteItem.clock] in H1. split; [| split; [done |]].
        + eapply Forall_impl; [exact H1 |]. intros x (? & ? & ?). simpl. lia.
        + intros c. rewrite H3. unfold deletedAt. cbn [structAt].
          destruct (coversb s c) eqn:Hc; simpl.
          * rewrite Hdel. split; [done |]. intros _. left. eexists. split; [done |].
            exact Hc.
          * split; [| by right]. intros [(d & [= <-] & Hin) | ?]; [| done].
            change (coversb s c = true) in Hin. congruence.
      - destruct (IH (Struct.endClock s) b None Hsp Hn) as (H1 & H2 & H3); [done |].
        split; [| split; [done |]].
        + eapply Forall_impl; [exact H1 |]. intros x (? & ? & ?).
          unfold Struct.endClock in *. lia.
        + intros c. rewrite H3. unfold deletedAt. cbn [structAt].
          destruct (coversb s c) eqn:Hc; simpl.
          * rewrite Hdel. specialize (Hafter c Hc). unfold deletedAt in Hafter.
            rewrite Hafter. split; [by intros [(d & ? & _) | ?] | done].
          * split; [by intros [(d & ? & _) | ?] | by right]. }
    destruct cur as [d |]; cbn [deleted_runs].
    + destruct (Hcur d eq_refl) as [Hend Hlen]. unfold DeleteItem.endClock in Hend.
      subst lo. rewrite bool_decide_eq_true_2 by lia. cbn [andb].
      destruct (Struct.deleted s) eqn:Hdel.
      * destruct (IH (Struct.endClock s) b
                    (Some (DeleteItem.mk (DeleteItem.clock d)
                             (DeleteItem.len d + Struct.length s))) Hsp Hn)
          as (H1 & H2 & H3).
        { intros x [= <-]. unfold DeleteItem.endClock, Struct.endClock. simpl. lia. }
        split; [done |]. split; [done |].
        intros c. rewrite H3. unfold deletedAt. cbn [structAt].
        cbn [DeleteItem.clock DeleteItem.len].
        destruct (coversb s c) eqn:Hc; simpl.
        -- rewrite Hdel. split; [by right |]. intros _. left. eexists. split; [done |].
           clear H3. range_lia.
        -- split.
           ++ intros [(x & [= <-] & Hin) | ?]; [| by right]. left. exists d. split; [done |].
              clear H3. range_lia.
           ++ intros [(x & [= <-] & Hin) | ?]; [| by right]. left. eexists. split; [done |].
              clear H3. range_lia.
      * split; [| split].
        -- constructor; [unfold DeleteItem.endClock, Struct.endClock in *; lia |].
           eapply Forall_impl; [exact Hf1 |]. intros x (? & ? & ?). simpl. lia.
        -- apply consecutive_cons_Forall; [| done].
           eapply Forall_impl; [exact Hf1 |]. intros x (? & ? & ?).
           unfold end_le_clock, DeleteItem.endClock. lia.
        -- intros c. rewrite covered_cons, Hf3. split.
           ++ intros [Hin | ?]; [left; by exists d | by right].
           ++ intros [(x & [= <-] & Hin) | ?]; [by left | by right].
    + subst lo. split; [done |]. split; [done |].
      intros c. rewrite Hf3. split; [by right |]. by intros [(d & ? & _) | ?].
Qed.

(** With structs of positive length, no range is empty and no two ranges
    touch. *)
Lemma deleted_runs_separated rest : forall m b cur,
  spans m rest b -> Forall (fun s => 0 < Struct.length s) rest ->
  (forall d, cur = Some d -> DeleteItem.endClock d = m /\ 0 < DeleteItem.len d) ->
  let lo := match cur with Some d => DeleteItem.clock d | None => m end in
  Forall (fun x => lo <= DeleteItem.clock x /\ 0 < DeleteItem.len x) (deleted_runs cur rest) /\
  separated (deleted_runs cur rest).
Proof.
  induction rest as [| s rest IH]; intros m b cur Hsp Hn Hcur lo.
  - destruct cur as [d |]; simpl.
    + destruct (Hcur d eq_refl) as [_ Hlen]. subst lo.
      split; [repeat constructor; lia | apply consecutive_single].
    + split; [constructor | by intros [| ?]].
  - destruct Hsp as [Hclock Hsp]. apply Forall_cons in Hn as [Hs Hn]. simpl in Hs.
    assert (Forall (fun x => m <= DeleteItem.clock x /\ 0 < DeleteItem.len x /\
                             (Struct.deleted s = false -> m < DeleteItem.clock x))
              (if Struct.deleted s
               then deleted_runs (Some (DeleteItem.mk (Struct.clock s) (Struct.length s))) rest
               else deleted_runs None rest) /\
            separated
              (if Struct.deleted s
               then deleted_runs (Some (DeleteItem.mk (Struct.clock s) (Struct.length s))) rest
               else deleted_runs None rest)) as [Hf1 Hf2].
    { destruct (Struct.deleted s) eqn:Hdel.
      - destruct (IH (Struct.endClock s) b
                    (Some (DeleteItem.mk (Struct.clock s) (Struct.length s))) Hsp Hn)
          as [H1 H2].
        { intros d [= <-]. by split. }
        split; [| done]. eapply Forall_impl; [exact H1 |]. simpl. intros x [? ?].
        split; [lia |]. by split.
      - destruct (IH (Struct.endClock s) b None Hsp Hn) as [H1 H2]; [done |].
        split; [| done]. eapply Forall_impl; [exact H1 |]. simpl. intros x [? ?].
        unfold Struct.endClock in *. split; [lia |]. split; [done |]. intros _. lia. }
    destruct cur as [d |]; cbn [deleted_runs].
    + destruct (Hcur d eq_refl) as [Hend Hlen]. unfold DeleteItem.endClock in Hend.
      subst lo. rewrite bool_decide_eq_true_2 by lia. cbn [andb].
      destruct (Struct.deleted s) eqn:Hdel.
      * destruct (IH (Struct.endClock s) b
                    (Some (DeleteItem.mk (DeleteItem.clock d)
                             (DeleteItem.len d + Struct.length s))) Hsp Hn)
          as [H1 H2]; [| by split].
        intros x [= <-]. unfold DeleteItem.endClock, Struct.endClock. simpl. lia.
      * split.
        -- constructor; [lia |]. eapply Forall_impl; [exact Hf1 |].
           intros x (? & ? & _). simpl. lia.
        -- apply consecutive_cons_Forall; [| done].
           eapply Forall_impl; [exact Hf1 |]. intros x (_ & _ & Hlt). specialize (Hlt eq_refl).
           simpl. lia.
    + subst lo. split; [| done]. eapply Forall_impl; [exact Hf1 |]. by intros x (? & ? & _).
Qed.

Lemma separated_sorted_merged dels : separated dels -> positive_lens dels -> sorted_merged dels = dels.
Proof.
  intros Hsep Hpos. unfold sorted_merged.
  assert (sorted_by_clock dels) as Hs.
  { intros i l r Hl Hr. pose proof (Hsep i l r Hl Hr) as Hlt. simpl in Hlt.
    unfold positive_lens in Hpos. rewrite Forall_lookup in Hpos.
    specialize (Hpos i l Hl). simpl in Hpos. lia. }
  rewrite (sort_by_clock_sorted_id _ Hs). destruct dels as [| l rest]; [done |].
  apply merge_ranges_not_adjacent_id.
  intros i a b Ha Hb. pose proof (Hsep i a b Ha Hb) as Hlt. simpl in Hlt. lia.
Qed.

Lemma contiguous_spans_all structs :
  contiguous structs -> exists m b, spans m structs b.
Proof.
  destruct structs as [| s structs]; [by exists 0, 0 |].
  intros Hc. destruct (contiguous_spans s structs Hc) as (last & _ & Hsp). eauto.
Qed.

(** The entries that [createDeleteSetFromStructStore] makes of the
    arrays [l]. *)
Lemma createDeleteSet_fold (l : list (Z * list AbstractStruct)) :
  foldr (fun '(client, structs) rest =>
           dsitems ← createDeleteSet_dsitems structs;
           cs ← rest;
           Ret (if 0 <? Z.of_nat (length dsitems) then (client, dsitems) :: cs else cs))
        (Ret []) l
  = Ret (flat_map (fun kv => match deleted_runs None kv.2 with
                             | [] => []
                             | d :: dsitems => [(kv.1, d :: dsitems)]
                             end) l).
Proof.
  induction l as [| [client structs] l IH]; [done |].
  cbn [foldr flat_map fst snd]. rewrite createDeleteSet_dsitems_runs, IH.
  cbn [mbind Result_bind]. by destruct (deleted_runs None structs).
Qed.

Lemma createDeleteSet_entries ss (client : Z) (dsitems : list DeleteItem) :
  (client, dsitems)
    ∈ flat_map (fun kv => match deleted_runs None kv.2 with
                          | [] => []
                          | d :: dsitems => [(kv.1, d :: dsitems)]
                          end) (map_to_list (clients ss))
  <-> exists structs, clients ss !! client = Some structs /\
        dsitems = deleted_runs None structs /\ dsitems <> [].
Proof.
  rewrite list_elem_of_In, in_flat_map. split.
  - intros ([k structs] & Hin%list_elem_of_In%elem_of_map_to_list & Hx). simpl in Hx.
    destruct (deleted_runs None structs) as [| d ds] eqn:Hruns; [done |].
    destruct Hx as [[= <- <-] | []]. exists structs. by rewrite Hruns.
  - intros (structs & Hc & -> & Hne). exists (client, structs). split.
    + apply list_elem_of_In, elem_of_map_to_list. done.
    + simpl. destruct (deleted_runs None structs); [done | by left].
Qed.

Lemma createDeleteSet_NoDup (l : list (Z * list AbstractStruct)) :
  NoDup l.*1 ->
  NoDup (flat_map (fun kv => match deleted_runs None kv.2 with
                             | [] => []
                             | d :: dsitems => [(kv.1, d :: dsitems)]
                             end) l).*1.
Proof.
  induction l as [| [client structs] l IH]; [done |].
  intros [Hk Hnd]%NoDup_cons. cbn [flat_map fst snd].
  destruct (deleted_runs None structs) as [| d ds]; [by apply IH |].
  cbn [app fmap list_fmap fst]. apply NoDup_cons. split; [| by apply IH].
  intros ([k x] & Heq & Hin)%list_elem_of_fmap. simpl in Heq. subst k.
  apply list_elem_of_In, in_flat_map in Hin as ([k' structs'] & Hin & Hx). simpl in Hx.
  destruct (deleted_runs None structs'); [done |]. destruct Hx as [[= -> _] | []].
  apply Hk. apply list_elem_of_fmap. exists (client, structs'). split; [done |].
  by apply list_elem_of_In.
Qed.

(** X20. [createDeleteSetFromStructStore] records exactly what is
    deleted.  On a store with contiguous arrays it returns a delete set
    with one entry for each client that has a deleted struct, none of
    them empty, and a clock of a client lies in a range of the result
    exactly when the struct of the store that holds the clock is
    deleted. *)
Theorem createDeleteSetFromStructStore_deleted (ss : StructStore) :
  (forall client structs, clients ss !! client = Some structs ->
     contiguous structs /\ nonneg_lengths structs) ->
  exists ds,
    createDeleteSetFromStructStore ss = Ret ds /\
    NoDup (DeleteSet.clients ds).*1 /\
    (forall (client : Z) (dsitems : list DeleteItem),
       (client, dsitems) ∈ DeleteSet.clients ds -> dsitems <> []) /\
    forall client c,
      inDeleteSet ds client c <->
      exists structs, clients ss !! client = Some structs /\
        deletedAt structs c = Some true.
Proof.
  intros Hwf. unfold createDeleteSetFromStructStore. rewrite createDeleteSet_fold.
  cbn [mbind Result_bind]. eexists. split; [reflexivity |]. cbn [DeleteSet.clients].
  split; [apply createDeleteSet_NoDup, NoDup_fst_map_to_list |].
  split.
  { intros client dsitems (structs & _ & _ & Hne)%createDeleteSet_entries. done. }
  intros client c. unfold inDeleteSet. cbn [DeleteSet.clients].
  assert (forall structs, clients ss !! client = Some structs ->
            covered (deleted_runs None structs) c <-> deletedAt structs c = Some true)
    as Hcov.
  { intros structs Hc. destruct (Hwf client structs Hc) as [Hcont Hn].
    destruct (contiguous_spans_all structs Hcont) as (m & b & Hsp).
    destruct (deleted_runs_spec structs m b None Hsp Hn ltac:(done)) as (_ & _ & H).
    rewrite H. split; [by intros [(d & ? & _) | ?] | by right]. }
  split.
  - intros (dels & d & (structs & Hc & -> & _)%createDeleteSet_entries & Hd & Hin).
    exists structs. split; [done |]. apply (Hcov structs Hc). by exists d.
  - intros (structs & Hc & Hdel). apply (Hcov structs Hc) in Hdel as (d & Hd & Hin).
    exists (deleted_runs None structs), d. split; [| done].
    apply createDeleteSet_entries. exists structs. split; [done |]. split; [done |].
    intros Hnil. rewrite Hnil in Hd. by apply not_elem_of_nil in Hd.
Qed.

Lemma createDeleteSetFromStructStore_deleted_witness :
  exists ds,
    createDeleteSetFromStructStore sampleStore = Ret ds /\
    NoDup (DeleteSet.clients ds).*1 /\
    (forall (client : Z) (dsitems : list DeleteItem),
       (client, dsitems) ∈ DeleteSet.clients ds -> dsitems <> []) /\
    forall client c,
      inDeleteSet ds client c <->
      exists structs, clients sampleStore !! client = Some structs /\
        deletedAt structs c = Some true.
Proof.
  apply createDeleteSetFromStructStore_deleted.
  intros client structs. unfold sampleStore. cbn [clients].
  intros [<- <-]%lookup_singleton_Some. split; [reflexivity | apply sampleStructs_nonneg].
Defined.

(** X21. What [createDeleteSetFromStructStore] returns is sorted and
    merged already: on a store with contiguous arrays of structs of
    positive length, [sortAndMergeDeleteSet] leaves the result as it
    is. *)
Theorem createDeleteSetFromStructStore_merged (ss : StructStore) :
  (forall client structs, clients ss !! client = Some structs ->
     contiguous structs /\ Forall (fun s => 0 < Struct.length s) structs) ->
  exists ds,
    createDeleteSetFromStructStore ss = Ret ds /\ sortAndMergeDeleteSet ds = Ret ds.
Proof.
  intros Hwf. unfold createDeleteSetFromStructStore. rewrite createDeleteSet_fold.
  cbn [mbind Result_bind]. eexists. split; [reflexivity |].
  unfold sortAndMergeDeleteSet. rewrite sortAndMerge_clients_map.
  cbn [mbind Result_bind DeleteSet.clients]. do 2 f_equal.
  rewrite <- (map_id (flat_map _ _)) at 2. apply map_ext_in.
  intros [client dsitems] Hin%list_elem_of_In%createDeleteSet_entries. simpl. f_equal.
  destruct Hin as (structs & Hc & -> & _). destruct (Hwf client structs Hc) as [Hcont Hpos].
  destruct (contiguous_spans_all structs Hcont) as (m & b & Hsp).
  destruct (deleted_runs_separated structs m b None Hsp Hpos ltac:(done)) as [Hb Hsep].
  apply separated_sorted_merged; [done |].
  eapply Forall_impl; [exact Hb |]. by intros x [_ ?].
Qed.

Lemma createDeleteSetFromStructStore_merged_witness :
  exists ds,
    createDeleteSetFromStructStore sampleStore = Ret ds /\ sortAndMergeDeleteSet ds = Ret ds.
Proof.
  apply createDeleteSetFromStructStore_merged.
  intros client structs. unfold sampleStore. cbn [clients].
  intros [<- <-]%lookup_singleton_Some. split; [reflexivity |].
  repeat constructor.
Defined.

(** X22. [isDeleted] on the delete set of a store answers for the
    store.  On a store with contiguous arrays, [isDeleted] on the result
    of [createDeleteSetFromStructStore] is [true] exactly for the ids
    whose clock the store holds in a deleted struct; neither call
    fails. *)
Theorem isDeleted_createDeleteSetFromStructStore (ss : StructStore) (id : ID) :
  (forall client structs, clients ss !! client = Some structs ->
     contiguous structs /\ nonneg_lengths structs) ->
  exists ds b,
    createDeleteSetFromStructStore ss = Ret ds /\
    isDeleted ds id = Ret b /\
    (b = true <->
     exists structs, clients ss !! ID.client id = Some structs /\
       deletedAt structs (ID.clock id) = Some true).
Proof.
  intros Hwf. unfold createDeleteSetFromStructStore. rewrite createDeleteSet_fold.
  cbn [mbind Result_bind]. eexists.
  set (cs := flat_map _ _).
  assert (NoDup cs.*1) as Hnd by apply createDeleteSet_NoDup, NoDup_fst_map_to_list.
  assert (forall client structs, clients ss !! client = Some structs ->
            ordered_ranges (deleted_runs None structs) /\
            forall c, covered (deleted_runs None structs) c <->
                      deletedAt structs c = Some true) as Hruns.
  { intros client structs Hc. destruct (Hwf client structs Hc) as [Hcont Hn].
    destruct (contiguous_spans_all structs Hcont) as (m & b & Hsp).
    destruct (deleted_runs_spec structs m b None Hsp Hn ltac:(done)) as (Hb & Hord & Hcov).
    split.
    - split; [| done]. eapply Forall_impl; [exact Hb |]. by intros x [? _].
    - intros c. rewrite Hcov. split; [by intros [(d & ? & _) | ?] | by right]. }
  destruct (isDeleted_clients_get (DeleteSet.mk cs) id) as (b & Hrun & Hb).
  { cbn [DeleteSet.clients]. intros dis Hget%(clients_get_Some _ _ _ Hnd).
    apply createDeleteSet_entries in Hget as (structs & Hc & -> & _).
    by apply (Hruns _ _ Hc). }
  exists b. split; [reflexivity |]. split; [done |]. rewrite Hb. cbn [DeleteSet.clients].
  split.
  - intros (dis & Hget%(clients_get_Some _ _ _ Hnd) & Hcov).
    apply createDeleteSet_entries in Hget as (structs & Hc & -> & _).
    exists structs. split; [done |]. by apply (Hruns _ _ Hc).
  - intros (structs & Hc & Hdel). apply (Hruns _ _ Hc) in Hdel.
    exists (deleted_runs None structs). split; [| done].
    apply (clients_get_Some _ _ _ Hnd), createDeleteSet_entries.
    exists structs. split; [done |]. split; [done |].
    intros Hnil. rewrite Hnil in Hdel. destruct Hdel as (d & Hd & _).
    by apply not_elem_of_nil in Hd.
Qed.

Lemma isDeleted_createDeleteSetFromStructStore_witness :
  exists ds b,
    createDeleteSetFromStructStore sampleStore = Ret ds /\
    isDeleted ds (createID 1 3) = Ret b /\
    (b = true <->
     exists structs, clients sampleStore !! 1 = Some structs /\
       deletedAt structs 3 = Some true).
Proof.
  apply (isDeleted_createDeleteSetFromStructStore sampleStore (createID 1 3)).
  intros client structs. unfold sampleStore. cbn [clients].
  intros [<- <-]%lookup_singleton_Some. split; [reflexivity | apply sampleStructs_nonneg].
Defined.

(** ** [iterateDeletedStructs] *)

Lemma iterateDeletedStructs_do_before {S : Type} (f : S -> AbstractStruct -> S) post :
  forall fuel pre s acc hi,
    (length post < fuel)%nat ->
    iterateDeletedStructs_do f fuel (pre ++ s :: post) hi acc (Z.of_nat (length pre))
    = Ret (foldl f acc (s :: before hi post)).
Proof.
  induction post as [| r post IH]; intros [| fuel] pre s acc hi Hfuel;
    try (simpl in Hfuel; lia).
  - cbn [iterateDeletedStructs_do]. rewrite (js_get_middle pre [] s _ eq_refl).
    cbn [defined mbind Result_bind]. rewrite length_app. cbn [length].
    by destruct (Z.ltb_spec (Z.of_nat (length pre) + 1) (Z.of_nat (length pre + 1))); [lia |].
  - cbn [iterateDeletedStructs_do]. rewrite (js_get_middle pre (r :: post) s _ eq_refl).
    cbn [defined mbind Result_bind].
    destruct (Z.ltb_spec (Z.of_nat (length pre) + 1)
                (Z.of_nat (length (pre ++ s :: r :: post)))) as [_ | Hge];
      [| rewrite length_app in Hge; simpl in Hge; lia].
    rewrite (cons_middle s pre (r :: post)), app_assoc.
    rewrite (js_get_middle (pre ++ [s]) post r) by (rewrite length_app; simpl; lia).
    cbn [defined mbind Result_bind before].
    destruct (Struct.clock r <? hi); [| done].
    specialize (IH fuel (pre ++ [s]) r (f acc s) hi).
    rewrite length_app in IH. cbn [length] in IH.
    replace (Z.of_nat (length pre) + 1) with (Z.of_nat (length pre + 1)) by lia.
    rewrite IH by (simpl in Hfuel; lia). done.
Qed.

Lemma filter_overlaps_before del post m b :
  spans m post b -> nonneg_lengths post -> DeleteItem.clock del < m ->
  filter (fun s => overlaps del s = true) post
  = before (DeleteItem.clock del + DeleteItem.len del) post.
Proof.
  revert m. induction post as [| s post IH]; intros m Hsp Hn Hlt; [done |].
  destruct Hsp as [Hclock Hsp]. pose proof Hn as Hn'.
  apply Forall_cons in Hn' as [Hs Hnp]. simpl in Hs. cbn [before].
  rewrite filter_cons.
  destruct (Z.ltb_spec (Struct.clock s) (DeleteItem.clock del + DeleteItem.len del)) as [Hb | Hb].
  - rewrite decide_True.
    + f_equal. apply (IH (Struct.endClock s)); [done | done | unfold Struct.endClock; lia].
    + unfold overlaps. apply andb_true_iff. split; apply Z.ltb_lt; lia.
  - rewrite decide_False.
    2: { unfold overlaps. intros [Hlo _]%andb_true_iff. apply Z.ltb_lt in Hlo. lia. }
    assert (forall x, x ∈ post -> overlaps del x = false) as Hall.
    { intros x Hx. pose proof (spans_elem_ge _ _ _ x Hsp Hnp Hx) as Hge.
      unfold Struct.endClock in Hge.
      unfold overlaps. apply andb_false_iff. left. apply Z.ltb_ge. lia. }
    clear -Hall. induction post as [| x post IHp]; [done |].
    rewrite filter_cons, decide_False.
    + apply IHp. intros y Hy. apply Hall. by right.
    + rewrite (Hall x); [done | by left].
Qed.

Lemma spans_elem_end_le a structs b s :
  spans a structs b -> nonneg_lengths structs -> s ∈ structs -> Struct.endClock s <= b.
Proof.
  intros Hsp Hn (l1 & l2 & ->)%list_elem_of_split.
  apply spans_app in Hsp as (m & _ & _ & Hsp).
  apply Forall_app in Hn as [_ [_ Hn]%Forall_cons].
  by apply spans_le in Hsp.
Qed.

Lemma filter_overlaps_middle del pre c0 post :
  contiguous (pre ++ c0 :: post) -> nonneg_lengths (pre ++ c0 :: post) ->
  covers c0 (DeleteItem.clock del) -> 0 < DeleteItem.len del ->
  filter (fun s => overlaps del s = true) (pre ++ c0 :: post)
  = c0 :: before (DeleteItem.clock del + DeleteItem.len del) post.
Proof.
  intros Hc Hn [Hlo Hhi] Hlen.
  destruct (contiguous_spans_all _ Hc) as (m & b & Hsp).
  apply spans_app in Hsp as (m' & Hpre & Hc0 & Hpost).
  apply Forall_app in Hn as [Hnpre [Hn0 Hnpost]%Forall_cons].
  rewrite filter_app, filter_cons.
  assert (filter (λ s, overlaps del s = true) pre = []) as ->.
  { clear -Hpre Hnpre Hc0 Hlo. subst m'.
    assert (forall x, x ∈ pre -> overlaps del x = false) as Hall.
    { intros x Hx. pose proof (spans_elem_end_le _ _ _ x Hpre Hnpre Hx) as Hle.
      unfold Struct.endClock in Hle. unfold overlaps. apply andb_false_iff. right.
      apply Z.ltb_ge. lia. }
    clear -Hall. induction pre as [| x pre IH]; [done |].
    rewrite filter_cons, decide_False.
    - apply IH. intros y Hy. apply Hall. by right.
    - rewrite (Hall x); [done | by left]. }
  rewrite decide_True.
  - cbn [app]. f_equal. by apply (filter_overlaps_before del post (Struct.endClock c0) b).
  - unfold overlaps. unfold Struct.endClock in Hhi.
    apply andb_true_iff. split; apply Z.ltb_lt; lia.
Qed.

Lemma iterateDeletedStructs_range_overlaps {S : Type} (f : S -> AbstractStruct -> S)
    store clientid structs acc del :
  clients store !! clientid = Some structs ->
  contiguous structs -> nonneg_lengths structs ->
  known structs (DeleteItem.clock del) -> 0 < DeleteItem.len del ->
  iterateDeletedStructs_range f store clientid acc del
  = Ret (foldl f acc (filter (fun s => overlaps del s = true) structs)).
Proof.
  intros Hst Hc Hn Hk Hlen.
  destruct (known_covered structs _ Hc Hk) as (t & c0 & Ht & Hcov).
  unfold iterateDeletedStructs_range. rewrite Hst. cbn [defined mbind Result_bind].
  rewrite (findIndexSS_covered structs _ t c0 Hc Hn Ht Hcov). cbn [mbind Result_bind].
  pose proof (take_drop_middle structs t c0 Ht) as Hsplit.
  pose proof (lookup_lt_Some _ _ _ Ht) as Hlt.
  assert (length (take t structs) = t) as Hlen_pre by (rewrite length_take; lia).
  revert Hsplit Hlen_pre. generalize (take t structs) (drop (Datatypes.S t) structs).
  intros pre post <- <-. clear Hst Ht Hlt Hk.
  rewrite iterateDeletedStructs_do_before.
  - by rewrite (filter_overlaps_middle del _ c0 _ Hc Hn Hcov Hlen).
  - rewrite length_app. simpl. lia.
Qed.

Lemma iterateDeletedStructs_for_overlaps {S : Type} (f : S -> AbstractStruct -> S)
    store clientid deletes acc :
  (forall del, del ∈ deletes -> range_known store clientid del) ->
  iterateDeletedStructs_for f store clientid acc deletes
  = Ret (foldl f acc
           (flat_map (fun del => filter (fun s => overlaps del s = true)
                                   (default [] (clients store !! clientid)))
                     deletes)).
Proof.
  revert acc. induction deletes as [| del deletes IH]; intros acc Hds; [done |].
  cbn [iterateDeletedStructs_for flat_map]. rewrite foldl_app.
  destruct (Hds del) as (structs & Hst & Hc & Hn & Hk & Hlen); [by left |].
  rewrite (iterateDeletedStructs_range_overlaps f store clientid structs acc del) by done.
  cbn [mbind Result_bind]. rewrite Hst. cbn [default].
  rewrite IH; [by rewrite Hst |]. intros d Hd. apply Hds. by right.
Qed.

Lemma iterateDeletedStructs_clients_overlaps {S : Type} (f : S -> AbstractStruct -> S)
    store cs acc :
  (forall clientid deletes del,
     (clientid, deletes) ∈ cs -> del ∈ deletes -> range_known store clientid del) ->
  iterateDeletedStructs_clients f store acc cs
  = Ret (foldl f acc (deleted_structs (DeleteSet.mk cs) store)).
Proof.
  unfold deleted_structs. cbn [DeleteSet.clients]. revert acc.
  induction cs as [| [clientid deletes] cs IH]; intros acc Hall; [done |].
  cbn [iterateDeletedStructs_clients flat_map]. rewrite foldl_app.
  rewrite iterateDeletedStructs_for_overlaps.
  - cbn [mbind Result_bind]. apply IH.
    intros c ds' del Hin Hdel. apply (Hall c ds' del); [by right | done].
  - intros del Hdel. apply (Hall clientid deletes del); [by left | done].
Qed.

(** X23. [iterateDeletedStructs] calls [f] on exactly the structs that
    the ranges reach.  When every range of the delete set has a positive
    length and begins at a clock that the array of its client holds (the
    array follows on and has no negative length), the call returns, and
    [f] has been applied, range by range in the order of the delete set,
    to the structs of the client that overlap the range, in the order of
    the array, and to no other struct. *)
Theorem iterateDeletedStructs_overlapping {S : Type} (f : S -> AbstractStruct -> S)
    (ds : DeleteSet) (store : StructStore) (acc : S) :
  (forall clientid deletes del,
     (clientid, deletes) ∈ DeleteSet.clients ds -> del ∈ deletes ->
     range_known store clientid del) ->
  iterateDeletedStructs f ds store acc = Ret (foldl f acc (deleted_structs ds store)).
Proof.
  intros Hall. unfold iterateDeletedStructs.
  by rewrite (iterateDeletedStructs_clients_overlaps f store _ acc Hall).
Qed.

Lemma iterateDeletedStructs_overlapping_witness :
  iterateDeletedStructs (fun visited s => visited ++ [s])
    (DeleteSet.mk [(1, [DeleteItem.mk 4 2; DeleteItem.mk 0 1])]) sampleStore []
  = Ret [GC (createID 1 2) 3; sampleString 1 5 "c"; sampleString 1 0 "ab"].
Proof.
  apply (iterateDeletedStructs_overlapping (fun visited s => visited ++ [s])
           (DeleteSet.mk [(1, [DeleteItem.mk 4 2; DeleteItem.mk 0 1])]) sampleStore []).
  intros clientid deletes del Hin Hdel. cbn [DeleteSet.clients] in Hin.
  apply list_elem_of_singleton in Hin. injection Hin as -> ->.
  exists sampleStructs. split; [done |]. split; [done |].
  split; [exact sampleStructs_nonneg |].
  apply elem_of_cons in Hdel as [-> | Hdel].
  - split; [apply sampleStructs_known | ]; simpl; lia.
  - apply list_elem_of_singleton in Hdel as ->.
    split; [apply sampleStructs_known | ]; simpl; lia.
Defined.

Lemma iterateDeletedStructs_range_throws {S : Type} (f : S -> AbstractStruct -> S)
    store clientid acc del :
  (clients store !! clientid = None ->
   iterateDeletedStructs_range f store clientid acc del = Throw TypeError) /\
  (forall structs, clients store !! clientid = Some structs ->
   contiguous structs -> nonneg_lengths structs ->
   ~ known structs (DeleteItem.clock del) ->
   iterateDeletedStructs_range f store clientid acc del = Throw unexpectedCase).
Proof.
  unfold iterateDeletedStructs_range. split.
  - by intros ->.
  - intros structs -> Hc Hn Hk. cbn [defined mbind Result_bind].
    destruct (findIndexSS_total structs (DeleteItem.clock del)) as [[i Hi] | ->]; [| done].
    destruct (findIndexSS_sound structs _ i Hi) as (s & [_ Hs]%js_get_Some & Hcov).
    destruct Hk. by eapply covered_known.
Qed.

Lemma iterateDeletedStructs_for_app {S : Type} (f : S -> AbstractStruct -> S)
    store clientid d1 d2 acc :
  iterateDeletedStructs_for f store clientid acc (d1 ++ d2)
  = acc' ← iterateDeletedStructs_for f store clientid acc d1;
    iterateDeletedStructs_for f store clientid acc' d2.
Proof.
  revert acc. induction d1 as [| d d1 IH]; intros acc; [done |].
  cbn [app iterateDeletedStructs_for].
  destruct (iterateDeletedStructs_range f store clientid acc d); [| done | done].
  cbn [mbind Result_bind]. apply IH.
Qed.

Lemma iterateDeletedStructs_clients_app {S : Type} (f : S -> AbstractStruct -> S)
    store cs1 cs2 acc :
  iterateDeletedStructs_clients f store acc (cs1 ++ cs2)
  = acc' ← iterateDeletedStructs_clients f store acc cs1;
    iterateDeletedStructs_clients f store acc' cs2.
Proof.
  revert acc. induction cs1 as [| [c d] cs1 IH]; intros acc; [done |].
  cbn [app iterateDeletedStructs_clients].
  destruct (iterateDeletedStructs_for f store c acc d); [| done | done].
  cbn [mbind Result_bind]. apply IH.
Qed.

(** X24. [iterateDeletedStructs] stops at the first range it cannot
    place.  When the ranges before [del] are all known, the call throws a
    [TypeError] if the store has no array for the client of [del], and
    [unexpectedCase] if the array of the client (which follows on and has
    no negative length) does not hold the clock at which [del] begins;
    the ranges and clients after [del] are not looked at. *)
Theorem iterateDeletedStructs_unknown {S : Type} (f : S -> AbstractStruct -> S)
    (ds : DeleteSet) (store : StructStore) (acc : S)
    (cs1 cs2 : list (Z * list DeleteItem)) (clientid : Z)
    (d1 d2 : list DeleteItem) (del : DeleteItem) :
  DeleteSet.clients ds = cs1 ++ (clientid, d1 ++ del :: d2) :: cs2 ->
  (forall c deletes d, (c, deletes) ∈ cs1 -> d ∈ deletes -> range_known store c d) ->
  (forall d, d ∈ d1 -> range_known store clientid d) ->
  (clients store !! clientid = None ->
   iterateDeletedStructs f ds store acc = Throw TypeError) /\
  (forall structs, clients store !! clientid = Some structs ->
   contiguous structs -> nonneg_lengths structs ->
   ~ known structs (DeleteItem.clock del) ->
   iterateDeletedStructs f ds store acc = Throw unexpectedCase).
Proof.
  intros Hds Hcs1 Hd1. unfold iterateDeletedStructs. rewrite Hds.
  rewrite iterateDeletedStructs_clients_app.
  rewrite (iterateDeletedStructs_clients_overlaps f store cs1 acc Hcs1).
  cbn [mbind Result_bind iterateDeletedStructs_clients].
  rewrite iterateDeletedStructs_for_app.
  rewrite (iterateDeletedStructs_for_overlaps f store clientid d1 _ Hd1).
  cbn [mbind Result_bind iterateDeletedStructs_for].
  split.
  - intros Hnone.
    by rewrite (proj1 (iterateDeletedStructs_range_throws f store clientid _ del) Hnone).
  - intros structs Hst Hc Hn Hk.
    by rewrite (proj2 (iterateDeletedStructs_range_throws f store clientid _ del)
                  structs Hst Hc Hn Hk).
Qed.

Lemma iterateDeletedStructs_unknown_witness :
  iterateDeletedStructs (fun visited s => visited ++ [s])
    (DeleteSet.mk [(1, [DeleteItem.mk 0 1; DeleteItem.mk 6 1; DeleteItem.mk 1 1])])
    sampleStore []
  = Throw unexpectedCase.
Proof.
  apply (proj2 (iterateDeletedStructs_unknown (fun visited s => visited ++ [s])
                  (DeleteSet.mk [(1, [DeleteItem.mk 0 1; DeleteItem.mk 6 1; DeleteItem.mk 1 1])])
                  sampleStore [] [] [] 1 [DeleteItem.mk 0 1] [DeleteItem.mk 1 1]
                  (DeleteItem.mk 6 1) eq_refl
                  ltac:(intros c deletes d Hin; by apply not_elem_of_nil in Hin)
                  ltac:(intros d ->%list_elem_of_singleton; exists sampleStructs;
                        split; [done |]; split; [done |];
                        split; [exact sampleStructs_nonneg |];
                        split; [apply sampleStructs_known |]; simpl; lia))
           sampleStructs eq_refl eq_refl sampleStructs_nonneg).
  intros (first & last & [= <-] & [= <-] & Hk). vm_compute in Hk.
  destruct Hk as [_ Hk]. discriminate Hk.
Defined.

(** ** [isDeleted] after [sortAndMergeDeleteSet] *)

Lemma merge_ranges_positive rest : forall kept l,
  positive_lens kept -> 0 < DeleteItem.len l -> positive_lens rest ->
  positive_lens (merge_ranges kept l rest).
Proof.
  unfold positive_lens.
  induction rest as [| r rest IH]; intros kept l Hkept Hl Hrest.
  - apply Forall_app. split; [done |]. by constructor.
  - apply Forall_cons in Hrest as [Hr Hrest]. simpl in Hr. cbn [merge_ranges].
    case_decide.
    + apply IH; [done | simpl; lia | done].
    + apply IH; [| done | done]. apply Forall_app. split; [done |]. by constructor.
Qed.

Lemma sorted_merged_ordered dels :
  positive_lens dels -> pairwise_disjoint dels -> ordered_ranges (sorted_merged dels).
Proof.
  intros Hpos Hp. unfold sorted_merged.
  pose proof (sort_by_clock_sorted dels) as Hs.
  apply (sort_by_clock_Forall (fun d => 0 < DeleteItem.len d)) in Hpos.
  apply sort_by_clock_pairwise in Hp.
  destruct (sort_by_clock dels) as [| l rest].
  - split; [constructor | by intros [| i] ? ? ? ?].
  - pose proof (sorted_disjoint_end _ Hs Hpos Hp) as Hend.
    pose proof (merge_ranges_separated l rest Hend) as Hsep.
    apply Forall_cons in Hpos as [Hl Hrest].
    split.
    + eapply Forall_impl; [apply (merge_ranges_positive rest [] l); by try constructor |].
      simpl. intros d Hd. lia.
    + intros i a b Ha Hb. specialize (Hsep i a b Ha Hb). simpl in Hsep.
      unfold end_le_clock, DeleteItem.endClock. lia.
Qed.

Lemma clients_get_map (g : list DeleteItem -> list DeleteItem) cs client :
  clients_get (map (fun kv => (kv.1, g kv.2)) cs) client = g <$> clients_get cs client.
Proof.
  induction cs as [| [k v] cs IH]; [done |]. simpl. by case_decide.
Qed.

(** X25. [isDeleted] can be asked once [sortAndMergeDeleteSet] has run.
    When every client of the delete set has at least one range recorded
    (as after [addToDeleteSet]), and the ranges of a client have positive
    lengths and share no clock, [sortAndMergeDeleteSet] returns a delete
    set on which [isDeleted] never fails and answers [true] exactly for
    the ids that lie in a range that was recorded.  (An empty array is
    left out: there [sortAndMergeDeleteSet] leaves an empty slot, on
    which [findIndexDS] throws.) *)
Theorem isDeleted_sortAndMergeDeleteSet (ds : DeleteSet) (id : ID) :
  NoDup (DeleteSet.clients ds).*1 ->
  (forall client dels, (client, dels) ∈ DeleteSet.clients ds ->
     dels <> [] /\ positive_lens dels /\ pairwise_disjoint dels) ->
  exists ds' b,
    sortAndMergeDeleteSet ds = Ret ds' /\ isDeleted ds' id = Ret b /\
    (b = true <-> inDeleteSet ds (ID.client id) (ID.clock id)).
Proof.
  intros Hnd Hds. unfold sortAndMergeDeleteSet. rewrite sortAndMerge_clients_map.
  cbn [mbind Result_bind]. eexists. 
  destruct (isDeleted_clients_get
              (DeleteSet.mk (map (fun kv => (kv.1, sorted_merged kv.2)) (DeleteSet.clients ds)))
              id) as (b & Hrun & Hb).
  { cbn [DeleteSet.clients]. intros dis. rewrite clients_get_map.
    destruct (clients_get (DeleteSet.clients ds) (ID.client id)) as [dels |] eqn:Hget;
      [| done].
    intros [= <-]. apply clients_get_Some in Hget; [| done].
    destruct (Hds _ _ Hget) as (_ & ? & ?). by apply sorted_merged_ordered. }
  exists b. split; [reflexivity |]. split; [done |]. rewrite Hb.
  cbn [DeleteSet.clients]. rewrite clients_get_map. unfold inDeleteSet. split.
  - intros (dis & Hget & Hcov).
    destruct (clients_get (DeleteSet.clients ds) (ID.client id)) as [dels |] eqn:Hdels;
      [| done].
    injection Hget as <-. apply clients_get_Some in Hdels; [| done].
    destruct (Hds _ _ Hdels) as (_ & Hpos & _).
    assert (Forall (fun d => 0 <= DeleteItem.len d) dels) as Hn.
    { eapply Forall_impl; [exact Hpos |]. simpl. intros x Hx. lia. }
    destruct (proj1 (sorted_merged_covered dels _ Hn) Hcov) as (d & Hd & Hin).
    by exists dels, d.
  - intros (dels & d & Hdels & Hd & Hin).
    destruct (Hds _ _ Hdels) as (_ & Hpos & _).
    apply (clients_get_Some _ _ _ Hnd) in Hdels. rewrite Hdels.
    exists (sorted_merged dels). split; [done |].
    apply sorted_merged_covered.
    + eapply Forall_impl; [exact Hpos |]. simpl. intros x Hx. lia.
    + by exists d.
Qed.

Lemma isDeleted_sortAndMergeDeleteSet_witness :
  exists ds' b,
    sortAndMergeDeleteSet sampleDeleteSet = Ret ds' /\
    isDeleted ds' (createID 1 5) = Ret b /\
    (b = true <-> inDeleteSet sampleDeleteSet 1 5).
Proof.
  apply (isDeleted_sortAndMergeDeleteSet sampleDeleteSet (createID 1 5)).
  - cbn. apply NoDup_cons. split; [| apply NoDup_singleton].
    intros Hin%list_elem_of_singleton. discriminate Hin.
  - intros client dels Hin. cbn [sampleDeleteSet DeleteSet.clients] in Hin.
    apply elem_of_cons in Hin as [[= -> ->] | Hin%list_elem_of_singleton].
    + split; [done |]. split; [repeat constructor |].
      simpl. rewrite !Forall_cons, !Forall_nil.
      unfold disjoint_ranges, DeleteItem.endClock. simpl. lia.
    + injection Hin as -> ->. split; [done |]. split; repeat constructor.
Defined.

(** ** [addToDeleteSet] *)

(** X26. [addToDeleteSet] records the range and nothing else: a clock of
    a client lies in a range of the delete set after the call exactly
    when it lay in one before, or the client is the one of [id] and the
    clock lies in [[id.clock, id.clock + length)]. *)
Theorem addToDeleteSet_inDeleteSet (ds : DeleteSet) (id : ID) (length : Z) (client c : Z) :
  inDeleteSet (addToDeleteSet ds id length) client c <->
  inDeleteSet ds client c \/
  (client = ID.client id /\ inRange (ID.clock id) length c = true).
Proof.
  unfold inDeleteSet, addToDeleteSet. cbn [DeleteSet.clients].
  pose proof (setIfUndefined_push_elem (DeleteSet.clients ds) (ID.client id)
                (DeleteItem.mk (ID.clock id) length) client) as Helem.
  split.
  - intros (dels & d & Hin & Hd & Hr).
    destruct (proj1 (Helem d)) as [(arr & Harr & Hd') | [-> ->]]; [by exists dels | |].
    + left. by exists arr, d.
    + right. by split.
  - intros [(dels & d & Hin & Hd & Hr) | [-> Hr]].
    + destruct (proj2 (Helem d)) as (arr & Harr & Hd'); [left; by exists dels |].
      by exists arr, d.
    + destruct (proj2 (Helem (DeleteItem.mk (ID.clock id) length))) as (arr & Harr & Hd');
        [by right |].
      by exists arr, (DeleteItem.mk (ID.clock id) length).
Qed.

(** ** [readDeleteSet] on every message *)

(** *** All ranges of a message, range by range *)

Lemma inDeleteSetb_spec ds client c :
  inDeleteSetb ds client c = true <-> inDeleteSet ds client c.
Proof.
  unfold inDeleteSetb, inDeleteSet, coveredb. rewrite existsb_exists. split.
  - intros ([k dels] & Hin%list_elem_of_In & [Hk Hcov]%andb_true_iff).
    apply bool_decide_eq_true in Hk. simpl in Hk. subst k.
    apply existsb_exists in Hcov as (d & Hd%list_elem_of_In & Hr).
    by exists dels, d.
  - intros (dels & d & Hin & Hd & Hr). exists (client, dels).
    split; [by apply list_elem_of_In |]. apply andb_true_iff.
    split; [by apply bool_decide_eq_true |].
    apply existsb_exists. exists d. split; [by apply list_elem_of_In | done].
Qed.

(** A deletion of structs of [client] records nothing for another
    client. *)
Lemma deleteFrom_deleteSet_other client rest : forall transaction hi k c,
  owned_by client rest -> k <> client ->
  inDeleteSet (Transaction.deleteSet (deleteFrom transaction rest hi).1) k c <->
  inDeleteSet (Transaction.deleteSet transaction) k c.
Proof.
  induction rest as [| s rest IH]; intros transaction hi k c Hown Hk; [done |].
  apply Forall_cons in Hown as [Hcl Hown].
  deleteFrom_cases s transaction hi.
  - specialize (IH transaction hi k c Hown Hk).
    by destruct (deleteFrom transaction rest hi) as [tr' rest'].
  - pose proof (splitAt_id_l transaction s (hi - Struct.clock s)) as H1.
    pose proof (splitAt_deleted_l transaction s (hi - Struct.clock s)) as H3.
    destruct (splitAt transaction s (hi - Struct.clock s)) as [l r]. simpl in H1, H3.
    pose proof (delete_deleteSet l transaction ltac:(congruence)) as H4.
    destruct (delete l transaction) as [l' tr']. simpl in H4. simpl.
    rewrite H4, inDeleteSet_addToDeleteSet, H1. split; [| by left].
    intros [? | [? _]]; [done | congruence].
  - pose proof (delete_deleteSet s transaction Hdel) as H4.
    destruct (delete s transaction) as [s' tr']. simpl in H4.
    specialize (IH tr' hi k c Hown Hk).
    destruct (deleteFrom tr' rest hi) as [tr'' rest']. simpl in *.
    rewrite IH, H4, inDeleteSet_addToDeleteSet. split; [| by left].
    intros [? | [? _]]; [done | congruence].
  - done.
Qed.

Lemma readDeleteSet_range_other transaction structs state unappliedDS client clock len
    transaction' structs' unappliedDS' k c :
  client_log client structs state -> 0 <= clock < state -> k <> client ->
  readDeleteSet_range transaction structs state unappliedDS client clock len
  = Ret (transaction', structs', unappliedDS') ->
  inDeleteSet (Transaction.deleteSet transaction') k c <->
  inDeleteSet (Transaction.deleteSet transaction) k c.
Proof.
  intros Hlog Hclock Hk.
  destruct (readDeleteSet_range_shape transaction structs state unappliedDS client clock len
              Hlog Hclock)
    as (pre & rest & m & _ & _ & _ & _ & _ & _ & Hown & _ & _ & _ & ->).
  intros [= <- _ _]. by apply (deleteFrom_deleteSet_other client).
Qed.

(** A log holds no unit at or beyond its state. *)
Lemma deletedAt_beyond client structs state c :
  client_log client structs state -> state <= c -> deletedAt structs c = None.
Proof.
  intros (_ & Hsp & Hn & _)%client_log_spans Hc. unfold deletedAt.
  destruct (structAt structs c) as [s |] eqn:Hs; [| done].
  pose proof (structAt_bounds _ _ _ _ _ Hsp Hn Hs). lia.
Qed.

Lemma park_range_beyond client state unappliedDS d :
  state <= DeleteItem.clock d ->
  park_range client state unappliedDS d
  = addToDeleteSet unappliedDS (createID client (DeleteItem.clock d)) (DeleteItem.len d).
Proof.
  intros Hd. unfold park_range, unapplied_part.
  by destruct (Z.ltb_spec (DeleteItem.clock d) state); [lia |].
Qed.

(** The ranges of one client whose log the store holds.  The decoder is
    read up to the end of the ranges, the unapplied parts are collected
    in the order of the ranges, and the units of the log that lie in a
    range are deleted and recorded in the transaction. *)
Lemma readDeleteSet_ranges_known client state dels :
  forall rest transaction structs unappliedDS,
  client_log client structs state ->
  Forall (fun d => 0 <= DeleteItem.clock d) dels ->
  exists transaction' structs',
    readDeleteSet_ranges (length dels) (encode_items dels ++ rest) transaction structs state
      unappliedDS client
    = Ret (rest, transaction', structs', foldl (park_range client state) unappliedDS dels) /\
    client_log client structs' state /\
    (Forall (fun d => state <= DeleteItem.clock d) dels ->
     transaction' = transaction /\ structs' = structs) /\
    forall c,
      deletedAt structs' c = (fun d => d || coveredb dels c) <$> deletedAt structs c /\
      forall k,
        inDeleteSet (Transaction.deleteSet transaction') k c <->
        inDeleteSet (Transaction.deleteSet transaction) k c \/
        (k = client /\ coveredb dels c = true /\ deletedAt structs c = Some false).
Proof.
  induction dels as [| d dels IH]; intros rest transaction structs unappliedDS Hlog Hclocks.
  { exists transaction, structs. split; [done |]. split; [done |]. split; [done |].
    intros c. split.
    - simpl. by destruct (deletedAt structs c) as [[] |].
    - intros k. simpl. split; [by left |]. by intros [? | (_ & ? & _)]. }
  apply Forall_cons in Hclocks as [Hclock Hclocks]. simpl in Hclock.
  cbn [length readDeleteSet_ranges encode_items flat_map app readVarUint mbind Result_bind
       foldl].
  fold (encode_items dels).
  destruct (Z.ltb_spec (DeleteItem.clock d) state) as [Hlt | Hge].
  - destruct (readDeleteSet_range_known transaction structs state unappliedDS client
                (DeleteItem.clock d) (DeleteItem.len d) Hlog ltac:(lia))
      as (tr1 & structs1 & Hrun & Hlog1 & Hunits1).
    pose proof (fun k c (Hk : k <> client) =>
                  readDeleteSet_range_other transaction structs state unappliedDS client
                    (DeleteItem.clock d) (DeleteItem.len d) tr1 structs1 _ k c
                    Hlog ltac:(lia) Hk Hrun) as Hother1.
    rewrite Hrun. cbn [mbind Result_bind].
    assert (park_range client state unappliedDS d
            = if state <? DeleteItem.clock d + DeleteItem.len d
              then addToDeleteSet unappliedDS (createID client state)
                     (DeleteItem.clock d + DeleteItem.len d - state)
              else unappliedDS) as <-.
    { unfold park_range, unapplied_part.
      destruct (Z.ltb_spec (DeleteItem.clock d) state); [| lia].
      by destruct (state <? DeleteItem.clock d + DeleteItem.len d). }
    destruct (IH rest tr1 structs1 (park_range client state unappliedDS d) Hlog1 Hclocks)
      as (tr' & structs' & -> & Hlog' & _ & Hunits).
    exists tr', structs'. split; [done |]. split; [done |].
    split; [intros [Hd _]%Forall_cons; simpl in Hd; lia |].
    intros c. destruct (Hunits c) as [Hdel Hds]. destruct (Hunits1 c) as [Hdel1 Hds1].
    change (between (DeleteItem.clock d) (DeleteItem.clock d + DeleteItem.len d) c)
      with (inRange (DeleteItem.clock d) (DeleteItem.len d) c) in Hdel1, Hds1.
    split.
    + rewrite Hdel, Hdel1. cbn [coveredb existsb]. fold (coveredb dels c).
      destruct (deletedAt structs c) as [b |]; [| done]. simpl.
      by rewrite orb_assoc.
    + intros k. rewrite Hds. cbn [coveredb existsb]. fold (coveredb dels c).
      rewrite Hdel1. destruct (decide (k = client)) as [-> | Hk].
      * rewrite Hds1.
        destruct (deletedAt structs c) as [[] |],
                 (inRange (DeleteItem.clock d) (DeleteItem.len d) c),
                 (coveredb dels c); simpl; intuition congruence.
      * rewrite (Hother1 k c Hk). intuition congruence.
  - unfold readDeleteSet_range. destruct (Z.ltb_spec (DeleteItem.clock d) state); [lia |].
    cbn [mbind Result_bind]. rewrite <- (park_range_beyond client state unappliedDS d Hge).
    destruct (IH rest transaction structs (park_range client state unappliedDS d) Hlog Hclocks)
      as (tr' & structs' & -> & Hlog' & Hsame & Hunits).
    exists tr', structs'. split; [done |]. split; [done |].
    split; [intros [_ Hb]%Forall_cons; by apply Hsame |].
    intros c. destruct (Hunits c) as [Hdel Hds].
    assert (inRange (DeleteItem.clock d) (DeleteItem.len d) c = true ->
            deletedAt structs c = None) as Hnone.
    { intros [Hlo _]%andb_true_iff. apply Z.leb_le in Hlo.
      apply (deletedAt_beyond client structs state); [done | lia]. }
    cbn [coveredb existsb]. fold (coveredb dels c). split.
    + rewrite Hdel.
      destruct (inRange (DeleteItem.clock d) (DeleteItem.len d) c); [| done].
      by rewrite (Hnone eq_refl).
    + intros k. rewrite Hds.
      destruct (inRange (DeleteItem.clock d) (DeleteItem.len d) c); [| done].
      rewrite (Hnone eq_refl). intuition congruence.
Qed.

(** *** All clients of a message, client by client *)

Lemma park_ranges_beyond client state dels : forall unappliedDS,
  Forall (fun d => state <= DeleteItem.clock d) dels ->
  foldl (park_range client state) unappliedDS dels
  = foldl (fun ua d =>
             addToDeleteSet ua (createID client (DeleteItem.clock d)) (DeleteItem.len d))
          unappliedDS dels.
Proof.
  induction dels as [| d dels IH]; intros unappliedDS Hb; [done |].
  apply Forall_cons in Hb as [Hd Hb]. simpl in Hd. cbn [foldl].
  by rewrite (park_range_beyond client state unappliedDS d Hd), IH.
Qed.

Lemma state_of_client_log store client structs state :
  clients store !! client = Some structs -> client_log client structs state ->
  state_of store client = state.
Proof.
  intros Hs Hlog. unfold state_of.
  by rewrite (getState_client_log store client structs state Hs Hlog).
Qed.

Lemma state_of_None store client :
  clients store !! client = None -> state_of store client = 0.
Proof. intros Hs. unfold state_of, getState. by rewrite Hs. Qed.

Lemma client_log_state client structs state state' :
  client_log client structs state -> client_log client structs state' -> state = state'.
Proof.
  intros (_ & _ & _ & _ & (last & Hl & <-)) (_ & _ & _ & _ & (last' & Hl' & <-)).
  rewrite Hl in Hl'. by injection Hl' as <-.
Qed.

(** One client of the message. *)
Lemma readDeleteSet_client_entry client dels rest transaction store unappliedDS :
  store_ok store ->
  Forall (fun d => 0 <= DeleteItem.clock d) dels ->
  exists transaction1 structs1,
    getState store client = Ret (state_of store client) /\
    readDeleteSet_ranges (length dels) (encode_items dels ++ rest) transaction
      (default [] (clients store !! client)) (state_of store client) unappliedDS client
    = Ret (rest, transaction1, structs1,
           foldl (park_range client (state_of store client)) unappliedDS dels) /\
    let store1 :=
      match clients store !! client with
      | Some _ => setClients store (<[client := structs1]> (clients store))
      | None => store
      end in
    store_ok store1 /\
    (forall k, clients store !! k = None -> clients store1 !! k = None) /\
    (forall k structs state,
       clients store !! k = Some structs -> client_log k structs state ->
       exists structs',
         clients store1 !! k = Some structs' /\ client_log k structs' state /\
         forall c,
           deletedAt structs' c
           = (fun d => d || (bool_decide (client = k) && coveredb dels c))
               <$> deletedAt structs c) /\
    (Forall (fun d => state_of store client <= DeleteItem.clock d) dels ->
     transaction1 = transaction /\ store1 = store) /\
    (forall k, k <> client -> clients store1 !! k = clients store !! k) /\
    forall k c,
      inDeleteSet (Transaction.deleteSet transaction1) k c <->
      inDeleteSet (Transaction.deleteSet transaction) k c \/
      (k = client /\ coveredb dels c = true /\
       deletedAt (default [] (clients store !! k)) c = Some false).
Proof.
  intros Hok Hclocks.
  destruct (clients store !! client) as [structs |] eqn:Hs.
  - destruct (Hok client structs Hs) as [state Hlog].
    rewrite (state_of_client_log store client structs state Hs Hlog).
    destruct (readDeleteSet_ranges_known client state dels rest transaction structs
                unappliedDS Hlog Hclocks)
      as (tr1 & structs1 & Hrun & Hlog1 & Hsame & Hunits).
    exists tr1, structs1. split; [by eapply getState_client_log |].
    split; [exact Hrun |]. cbv zeta. cbn [clients setClients default].
    split.
    { intros k s. cbn [clients setClients]. destruct (decide (k = client)) as [-> | Hk].
      - rewrite lookup_insert_eq. intros [= <-]. by exists state.
      - rewrite lookup_insert_ne by done. apply Hok. }
    split.
    { intros k Hnone. rewrite lookup_insert_ne; [done |]. intros <-. congruence. }
    split.
    { intros k s state' Hk Hlogk. destruct (decide (k = client)) as [-> | Hne].
      - rewrite Hs in Hk. injection Hk as <-.
        rewrite (client_log_state _ _ _ _ Hlogk Hlog).
        exists structs1. rewrite lookup_insert_eq. split; [done |]. split; [done |].
        intros c. rewrite bool_decide_eq_true_2 by done. apply Hunits.
      - exists s. rewrite lookup_insert_ne by done. split; [done |]. split; [done |].
        intros c. rewrite bool_decide_eq_false_2 by done.
        by destruct (deletedAt s c) as [[] |]. }
    split.
    { intros Hb. destruct (Hsame Hb) as [-> ->]. split; [done |].
      unfold setClients. rewrite (insert_id _ _ _ Hs). by destruct store. }
    split; [intros k Hk; by rewrite lookup_insert_ne |].
    intros k c. destruct (Hunits c) as [_ Hds]. rewrite (Hds k).
    split; (intros [? | (-> & ? & Hd)]; [by left | right]); split; try done.
    + split; [done |]. by rewrite Hs.
    + split; [done |]. by rewrite Hs in Hd.
  - rewrite (state_of_None store client Hs). cbn [default].
    exists transaction, []. split; [unfold getState; by rewrite Hs |].
    split.
    { rewrite (readDeleteSet_ranges_beyond client 0 [] dels rest transaction unappliedDS
                 Hclocks).
      by rewrite park_ranges_beyond. }
    cbv zeta. split; [done |]. split; [done |].
    split.
    { intros k s state Hk Hlogk. exists s. split; [done |]. split; [done |].
      intros c. rewrite bool_decide_eq_false_2 by congruence.
      by destruct (deletedAt s c) as [[] |]. }
    split; [done |]. split; [done |].
    intros k c. split; [by left |]. intros [? | (-> & _ & Hd)]; [done |].
    by rewrite Hs in Hd.
Qed.

Lemma state_of_preserved store store' :
  store_ok store ->
  (forall k, clients store !! k = None -> clients store' !! k = None) ->
  (forall k structs state,
     clients store !! k = Some structs -> client_log k structs state ->
     exists structs', clients store' !! k = Some structs' /\ client_log k structs' state) ->
  forall k, state_of store' k = state_of store k.
Proof.
  intros Hok Hnone Hsome k. destruct (clients store !! k) as [structs |] eqn:Hs.
  - destruct (Hok k structs Hs) as [state Hlog].
    destruct (Hsome k structs state Hs Hlog) as (structs' & Hs' & Hlog').
    by rewrite (state_of_client_log store k structs state Hs Hlog),
               (state_of_client_log store' k structs' state Hs' Hlog').
  - by rewrite (state_of_None store k Hs), (state_of_None store' k (Hnone k Hs)).
Qed.

(** All clients of the message. *)
Lemma readDeleteSet_clients_all (st : Z -> Z) cs :
  forall rest transaction store unappliedDS,
  store_ok store -> (forall k, state_of store k = st k) ->
  Forall (fun entry : Z * list DeleteItem =>
            Forall (fun d => 0 <= DeleteItem.clock d) entry.2) cs ->
  exists transaction' store',
    readDeleteSet_clients (length cs) (flat_map encode_client cs ++ rest) transaction store
      unappliedDS
    = Ret (rest, transaction', store', park_clients st unappliedDS cs) /\
    store_ok store' /\
    pendingDeleteReaders store' = pendingDeleteReaders store /\
    (forall k, clients store !! k = None -> clients store' !! k = None) /\
    (forall k structs state,
       clients store !! k = Some structs -> client_log k structs state ->
       exists structs',
         clients store' !! k = Some structs' /\ client_log k structs' state /\
         forall c,
           deletedAt structs' c
           = (fun d => d || inDeleteSetb (DeleteSet.mk cs) k c) <$> deletedAt structs c) /\
    (forall k,
       Forall (fun entry : Z * list DeleteItem =>
                 entry.1 = k -> Forall (fun d => st k <= DeleteItem.clock d) entry.2) cs ->
       clients store' !! k = clients store !! k) /\
    (Forall (fun entry : Z * list DeleteItem =>
               Forall (fun d => st entry.1 <= DeleteItem.clock d) entry.2) cs ->
     transaction' = transaction) /\
    forall k c,
      inDeleteSet (Transaction.deleteSet transaction') k c <->
      inDeleteSet (Transaction.deleteSet transaction) k c \/
      (inDeleteSetb (DeleteSet.mk cs) k c = true /\
       deletedAt (default [] (clients store !! k)) c = Some false).
Proof.
  induction cs as [| [client dels] cs IH];
    intros rest transaction store unappliedDS Hok Hst Hclocks.
  { exists transaction, store. split; [done |]. split; [done |]. split; [done |].
    split; [done |].
    split.
    { intros k structs state Hs Hlog. exists structs. split; [done |]. split; [done |].
      intros c. by destruct (deletedAt structs c) as [[] |]. }
    split; [done |]. split; [done |].
    intros k c. split; [by left |]. by intros [? | [? _]]. }
  apply Forall_cons in Hclocks as [Hclock Hclocks]. simpl in Hclock.
  cbn [length readDeleteSet_clients flat_map encode_client fst snd app readVarUint
       mbind Result_bind].
  rewrite Nat2Z.id, <- app_assoc.
  destruct (readDeleteSet_client_entry client dels (flat_map encode_client cs ++ rest)
              transaction store unappliedDS Hok Hclock)
    as (tr1 & structs1 & Hstate & Hrun & Hok1 & Hnone1 & Hsome1 & Hsame1 & Hother1 & Hds1).
  rewrite Hstate. cbn [mbind Result_bind]. rewrite Hrun. cbn [mbind Result_bind].
  set (store1 := match clients store !! client with
                 | Some _ => setClients store (<[client := structs1]> (clients store))
                 | None => store
                 end) in *.
  assert (forall k, state_of store1 k = st k) as Hst1.
  { intros k. rewrite <- Hst. apply state_of_preserved; [done | done |].
    intros k' s state Hs Hlog.
    destruct (Hsome1 k' s state Hs Hlog) as (s' & ? & ? & _). by exists s'. }
  destruct (IH rest tr1 store1
              (foldl (park_range client (state_of store client)) unappliedDS dels)
              Hok1 Hst1 Hclocks)
    as (tr' & store' & Hrun' & Hok' & Hp' & Hnone' & Hsome' & Hsame' & Htr' & Hds').
  exists tr', store'. rewrite Hrun'.
  split.
  { unfold park_clients. cbn [foldl fst snd]. by rewrite Hst. }
  split; [done |].
  split.
  { rewrite Hp'. unfold store1. by destruct (clients store !! client). }
  split; [intros k Hk; by apply Hnone', Hnone1 |].
  split.
  { intros k structs state Hs Hlog.
    destruct (Hsome1 k structs state Hs Hlog) as (s1 & Hs1 & Hlog1 & Hunits1).
    destruct (Hsome' k s1 state Hs1 Hlog1) as (s' & Hs' & Hlog' & Hunits').
    exists s'. split; [done |]. split; [done |].
    intros c. rewrite Hunits', Hunits1. unfold inDeleteSetb. cbn [DeleteSet.clients existsb fst snd].
    destruct (deletedAt structs c) as [b |]; [| done]. simpl. by rewrite orb_assoc. }
  split.
  { intros k [Hk Hrest]%Forall_cons. simpl in Hk.
    rewrite (Hsame' k Hrest). destruct (decide (k = client)) as [-> | Hne].
    - rewrite <- Hst in Hk. by destruct (Hsame1 (Hk eq_refl)) as [_ ->].
    - by apply Hother1. }
  split.
  { intros [Hk Hrest]%Forall_cons. simpl in Hk. rewrite (Htr' Hrest).
    rewrite <- Hst in Hk. by destruct (Hsame1 Hk) as [-> _]. }
  intros k c. rewrite Hds', Hds1. unfold inDeleteSetb.
  cbn [DeleteSet.clients existsb fst snd].
  fold (inDeleteSetb (DeleteSet.mk cs) k c).
  assert (deletedAt (default [] (clients store1 !! k)) c
          = (fun d => d || (bool_decide (client = k) && coveredb dels c))
              <$> deletedAt (default [] (clients store !! k)) c) as ->.
  { destruct (clients store !! k) as [structs |] eqn:Hs.
    - destruct (Hok k structs Hs) as [state Hlog].
      destruct (Hsome1 k structs state Hs Hlog) as (s1 & -> & _ & Hunits1). apply Hunits1.
    - by rewrite (Hnone1 k Hs). }
  destruct (decide (k = client)) as [-> | Hne].
  - rewrite !bool_decide_eq_true_2 by done.
    destruct (deletedAt (default [] (clients store !! client)) c) as [[] |],
             (coveredb dels c), (inDeleteSetb (DeleteSet.mk cs) client c);
      simpl; intuition congruence.
  - rewrite !bool_decide_eq_false_2 by congruence.
    destruct (deletedAt (default [] (clients store !! k)) c) as [[] |],
             (inDeleteSetb (DeleteSet.mk cs) k c);
      simpl; intuition congruence.
Qed.

(** C4. [readDeleteSet] on the encoding of any delete set [msg],
    against a store of client logs (every array contiguous from clock 0
    up to the state of its client); the clocks of the message are
    unsigned.  The call reads exactly the message and returns, and for
    every range [(client, clock, len)] of the message, with [state] the
    state of [client]:

    - the part of the range below [state] is applied: a unit (clock) of
      the log of [client] is deleted afterwards exactly when it was
      deleted before or lies in a range of the message, so the structs
      that reach over the bounds of a range are split there; the log
      stays contiguous with the same state; the delete set of the
      transaction gains exactly the units of the ranges that were not
      deleted before;
    - the part at or beyond [state] (the whole range when
      [state <= clock], the rest [(state, clock + len - state)] when
      [clock < state < clock + len]) is added to the unapplied ranges, in
      the order of the message; when there are any, they are written to
      one encoder whose decoder is pushed on [pendingDeleteReaders];
    - a client all of whose ranges begin at or beyond its state keeps
      its array as it is, and when that holds of all clients the
      transaction is unchanged too. *)
Theorem readDeleteSet_applies_or_parks
    (msg : DeleteSet) (rest : Decoder) (transaction : Transaction) (store : StructStore) :
  store_ok store ->
  (forall client dels d,
     (client, dels) ∈ DeleteSet.clients msg -> d ∈ dels -> 0 <= DeleteItem.clock d) ->
  exists transaction' store',
    readDeleteSet (createDecoder (writeDeleteSet createEncoder msg) ++ rest) transaction store
    = Ret (rest, transaction', store') /\
    pendingDeleteReaders store'
    = pendingDeleteReaders store
        ++ match DeleteSet.clients (unapplied store msg) with
           | [] => []
           | _ :: _ => [createDecoder (writeDeleteSet createEncoder (unapplied store msg))]
           end /\
    (forall client, clients store !! client = None -> clients store' !! client = None) /\
    (forall client structs state,
       clients store !! client = Some structs -> client_log client structs state ->
       exists structs',
         clients store' !! client = Some structs' /\ client_log client structs' state /\
         forall c,
           deletedAt structs' c
           = (fun d => d || inDeleteSetb msg client c) <$> deletedAt structs c) /\
    (forall client c,
       inDeleteSet (Transaction.deleteSet transaction') client c <->
       inDeleteSet (Transaction.deleteSet transaction) client c \/
       (inDeleteSetb msg client c = true /\
        deletedAt (default [] (clients store !! client)) c = Some false)) /\
    (forall client,
       (forall dels d, (client, dels) ∈ DeleteSet.clients msg -> d ∈ dels ->
          state_of store client <= DeleteItem.clock d) ->
       clients store' !! client = clients store !! client) /\
    ((forall client dels d, (client, dels) ∈ DeleteSet.clients msg -> d ∈ dels ->
        state_of store client <= DeleteItem.clock d) ->
     transaction' = transaction).
Proof.
  destruct msg as [cs]. cbn [DeleteSet.clients]. intros Hok Hclocks.
  assert (Forall (fun entry : Z * list DeleteItem =>
                    Forall (fun d => 0 <= DeleteItem.clock d) entry.2) cs) as Hcs.
  { apply Forall_forall. intros [client dels] Hin. apply Forall_forall. intros d Hd.
    by apply (Hclocks client dels d). }
  destruct (readDeleteSet_clients_all (state_of store) cs rest transaction store newDeleteSet
              Hok ltac:(done) Hcs)
    as (tr' & store1 & Hrun & _ & Hp & Hnone & Hsome & Hsame & Htr & Hds).
  unfold readDeleteSet, createDecoder. rewrite writeDeleteSet_encode.
  cbn [createEncoder app DeleteSet.clients readVarUint mbind Result_bind].
  rewrite Nat2Z.id, Hrun. cbn [mbind Result_bind].
  change (unapplied store (DeleteSet.mk cs))
    with (park_clients (state_of store) newDeleteSet cs).
  assert (forall k,
            (forall dels d, (k, dels) ∈ cs -> d ∈ dels ->
               state_of store k <= DeleteItem.clock d) ->
            clients store1 !! k = clients store !! k) as Hsame'.
  { intros k Hk. apply Hsame. apply Forall_forall. intros [k' dels] Hin. simpl.
    intros ->. apply Forall_forall. intros d Hd. by apply (Hk dels d). }
  assert ((forall k dels d, (k, dels) ∈ cs -> d ∈ dels ->
             state_of store k <= DeleteItem.clock d) -> tr' = transaction) as Htr'.
  { intros Hall. apply Htr. apply Forall_forall. intros [k dels] Hin. simpl.
    apply Forall_forall. intros d Hd. by apply (Hall k dels d). }
  destruct (DeleteSet.clients (park_clients (state_of store) newDeleteSet cs))
    as [| entry entries] eqn:Hua.
  - change (0 <? Z.of_nat (length (@nil (Z * list DeleteItem)))) with false. cbn match.
    exists tr', store1. split; [done |]. split; [by rewrite app_nil_r |]. done.
  - assert ((0 <? Z.of_nat (length (entry :: entries))) = true) as ->
      by (apply Z.ltb_lt; simpl; lia).
    eexists _, _. split; [reflexivity |]. cbn [pendingDeleteReaders clients].
    split; [by rewrite Hp |]. done.
Qed.

Lemma readDeleteSet_applies_or_parks_witness :
  let msg := DeleteSet.mk [(1, [DeleteItem.mk 5 5; DeleteItem.mk 0 1]);
                           (2, [DeleteItem.mk 3 1])] in
  exists transaction' store' structs',
    readDeleteSet ([2; 1; 2; 5; 5; 0; 1; 2; 1; 3; 1] ++ [9]) emptyTransaction sevenStore
    = Ret ([9], transaction', store') /\
    pendingDeleteReaders store' = [[2; 1; 1; 7; 3; 2; 1; 3; 1]] /\
    clients store' !! 1 = Some structs' /\ client_log 1 structs' 7 /\
    (forall c, deletedAt structs' c
               = (fun d => d || inDeleteSetb msg 1 c) <$> deletedAt sevenStructs c) /\
    clients store' !! 2 = None.
Proof.
  intros msg.
  destruct (readDeleteSet_applies_or_parks msg [9] emptyTransaction sevenStore)
    as (tr' & store' & Hrun & Hp & Hnone & Hsome & _).
  - exact sevenStore_ok.
  - intros client dels d Hin Hd. cbn [msg DeleteSet.clients] in Hin.
    apply elem_of_cons in Hin as [[= -> ->] | Hin%list_elem_of_singleton].
    + apply elem_of_cons in Hd as [-> | ->%list_elem_of_singleton]; simpl; lia.
    + injection Hin as -> ->. apply list_elem_of_singleton in Hd as ->. simpl. lia.
  - destruct (Hsome 1 sevenStructs 7 eq_refl sevenStructs_log)
      as (structs' & Hs' & Hlog' & Hunits).
    exists tr', store', structs'. split; [exact Hrun |]. split; [exact Hp |].
    split; [exact Hs' |]. split; [exact Hlog' |]. split; [exact Hunits |].
    apply Hnone. reflexivity.
Defined.

(** ** Applying an update twice *)

Lemma advances_refl store : advances store store.
Proof. intros k state H. exists state. split; [done | lia]. Qed.

Lemma advances_trans a b c : advances a b -> advances b c -> advances a c.
Proof.
  intros Hab Hbc k state H. destruct (Hab k state H) as (s1 & H1 & ?).
  destruct (Hbc k s1 H1) as (s2 & H2 & ?). exists s2. split; [done | lia].
Qed.

Lemma inStore_states store store' ids :
  (forall k, getState store' k = getState store k) -> inStore store' ids = inStore store ids.
Proof.
  intros Hst. induction ids as [| id ids IH]; [done |].
  cbn [inStore]. rewrite Hst. destruct (getState store (ID.client id)); [| done | done].
  cbn [mbind Result_bind]. by rewrite IH.
Qed.

Lemma readiness_states store store' ref :
  (forall k, getState store' k = getState store k) ->
  readiness store' ref = readiness store ref.
Proof.
  intros Hst. unfold readiness. rewrite Hst, (inStore_states store store' _ Hst). done.
Qed.

Lemma inStore_total store ids : store_ok store -> exists b, inStore store ids = Ret b.
Proof.
  intros Hok. induction ids as [| id ids [b IH]]; [by exists true |].
  cbn [inStore]. destruct (getState_store_ok store (ID.client id) Hok) as [state ->].
  cbn [mbind Result_bind]. destruct (ID.clock id <? state); [by exists b | by exists false].
Qed.

Lemma readiness_total store ref : store_ok store -> exists r, readiness store ref = Ret r.
Proof.
  intros Hok. unfold readiness.
  destruct (getState_store_ok store (ID.client (ItemStringRef.id ref)) Hok) as [state ->].
  cbn [mbind Result_bind].
  destruct (_ <=? state); [by eexists |]. destruct (state <? _); [by eexists |].
  destruct (inStore_total store (dependencies ref) Hok) as [b ->]. by eexists.
Qed.

Lemma readiness_Skipped store ref :
  readiness store ref = Ret Skipped <->
  exists state, getState store (ID.client (ItemStringRef.id ref)) = Ret state /\
    ID.clock (ItemStringRef.id ref) + ItemStringRef.length ref <= state.
Proof.
  unfold readiness. split.
  - destruct (getState store _) as [state | |]; [| done | done]. cbn [mbind Result_bind].
    destruct (Z.leb_spec (ID.clock (ItemStringRef.id ref) + ItemStringRef.length ref) state).
    + intros _. by exists state.
    + destruct (state <? _); [done |].
      destruct (inStore store (dependencies ref)) as [[] | |]; done.
  - intros (state & -> & Hle). cbn [mbind Result_bind].
    by destruct (Z.leb_spec (ID.clock (ItemStringRef.id ref) + ItemStringRef.length ref) state);
      [| lia].
Qed.

(** A reference that is skipped stays skipped while the states grow. *)
Lemma readiness_Skipped_advances store store' ref :
  advances store store' -> readiness store ref = Ret Skipped ->
  readiness store' ref = Ret Skipped.
Proof.
  intros Hadv (state & Hstate & Hle)%readiness_Skipped.
  destruct (Hadv _ _ Hstate) as (state' & Hstate' & ?).
  apply readiness_Skipped. exists state'. split; [done | lia].
Qed.

Lemma readiness_Ready store ref offset :
  readiness store ref = Ret (Ready offset) ->
  exists state, getState store (ID.client (ItemStringRef.id ref)) = Ret state /\
    offset = state - ID.clock (ItemStringRef.id ref) /\
    0 <= offset < ItemStringRef.length ref.
Proof.
  unfold readiness.
  destruct (getState store _) as [state | |]; [| done | done]. cbn [mbind Result_bind].
  destruct (Z.leb_spec (ID.clock (ItemStringRef.id ref) + ItemStringRef.length ref) state);
    [done |].
  destruct (Z.ltb_spec state (ID.clock (ItemStringRef.id ref))); [done |].
  destruct (inStore store (dependencies ref)) as [[] | |]; [| done .. ].
  cbn [mbind Result_bind]. intros [= <-]. exists state. split; [done |]. split; [done | lia].
Qed.

Section Twice.

Context (computeItemParams :
           Transaction -> StructStore -> option ID -> option ID -> option ID ->
           option string -> option string ->
           option ID * option ID * option TypeRef * option string).

(** The struct that [toStruct] makes of a reference begins [offset]
    units after the reference and ends where it ends. *)
Lemma toStruct_id ref transaction store offset :
  0 <= offset ->
  Struct.id (ItemStringRef.toStruct computeItemParams ref transaction store offset)
  = createID (ID.client (ItemStringRef.id ref)) (ID.clock (ItemStringRef.id ref) + offset).
Proof.
  intros Hoff. unfold ItemStringRef.toStruct.
  destruct (Z.ltb_spec 0 offset) as [Hpos | Hzero].
  - cbn [ItemStringRef.changeItemRefOffset ItemStringRef.id ItemStringRef.left
         ItemStringRef.right ItemStringRef.parent ItemStringRef.parentSub
         ItemStringRef.parentYKey ItemStringRef.string].
    destruct (computeItemParams _ _ _ _ _ _ _) as [[[l r] [p |]] sub]; done.
  - assert (offset = 0) as -> by lia.
    destruct (computeItemParams _ _ _ _ _ _ _) as [[[l r] [p |]] sub]; simpl;
      destruct (ItemStringRef.id ref) as [client clock]; simpl;
      by rewrite Z.add_0_r.
Qed.

Lemma toStruct_length ref transaction store offset :
  0 <= offset <= ItemStringRef.length ref ->
  Struct.length (ItemStringRef.toStruct computeItemParams ref transaction store offset)
  = ItemStringRef.length ref - offset.
Proof.
  intros Hoff. unfold ItemStringRef.toStruct.
  destruct (Z.ltb_spec 0 offset) as [Hpos | Hzero].
  - cbn [ItemStringRef.changeItemRefOffset ItemStringRef.id ItemStringRef.left
         ItemStringRef.right ItemStringRef.parent ItemStringRef.parentSub
         ItemStringRef.parentYKey ItemStringRef.string].
    destruct (computeItemParams _ _ _ _ _ _ _) as [[[l r] [p |]] sub];
      cbn [Struct.length ItemStringRef.length ItemStringRef.string];
      by apply js_slice_from_length.
  - assert (offset = 0) as -> by lia.
    destruct (computeItemParams _ _ _ _ _ _ _) as [[[l r] [p |]] sub]; simpl;
      unfold ItemStringRef.length; lia.
Qed.

(** A ready reference is accepted by [addStruct]; afterwards it lies
    below the state of its client, and the other clients are as they
    were. *)
Lemma addStruct_ready store ref transaction offset :
  store_ok store -> readiness store ref = Ret (Ready offset) ->
  exists store',
    addStruct store (ItemStringRef.toStruct computeItemParams ref transaction store offset)
    = Ret store' /\
    store_ok store' /\
    pendingDeleteReaders store' = pendingDeleteReaders store /\
    advances store store' /\
    readiness store' ref = Ret Skipped.
Proof.
  intros Hok (state & Hstate & -> & Hoff)%readiness_Ready.
  set (s := ItemStringRef.toStruct computeItemParams ref transaction store
              (state - ID.clock (ItemStringRef.id ref))).
  set (client := ID.client (ItemStringRef.id ref)) in *.
  assert (Struct.id s = createID client state) as Hid.
  { unfold s. rewrite toStruct_id by lia. unfold client. f_equal. lia. }
  assert (Struct.length s = ID.clock (ItemStringRef.id ref) + ItemStringRef.length ref - state)
    as Hlen.
  { unfold s. rewrite toStruct_length by lia. lia. }
  assert (Struct.clock s = state) as Hclock by (unfold Struct.clock; by rewrite Hid).
  assert (ID.client (Struct.id s) = client) as Hclient by (by rewrite Hid).
  assert (exists store', addStruct store s = Ret store' /\ store_ok store' /\
            pendingDeleteReaders store' = pendingDeleteReaders store) as (store' & Hadd & Hok' & Hp).
  { unfold addStruct. rewrite Hclient.
    destruct (clients store !! client) as [structs |] eqn:Hs.
    - destruct (Hok client structs Hs) as [state' Hlog].
      rewrite (getState_client_log store client structs state' Hs Hlog) in Hstate.
      injection Hstate as ->.
      pose proof Hlog as (_ & _ & _ & _ & (last & Hl & Hle)).
      rewrite Hl. cbn [defined mbind Result_bind]. unfold Struct.endClock in Hle.
      rewrite decide_True by lia.
      eexists. split; [reflexivity |]. split; [| done].
      intros k structs'. cbn [clients setClients].
      destruct (decide (k = client)) as [-> | Hk].
      + rewrite lookup_insert_eq. intros [= <-]. exists (Struct.endClock s).
        apply client_log_spans in Hlog as (Hne & Hsp & Hn & Hown).
        apply client_log_spans. split; [by destruct structs |].
        split; [apply spans_app; exists state; by split |].
        split; (apply Forall_app; split; [done |]; apply Forall_singleton); [simpl; lia | done].
      + rewrite lookup_insert_ne by done. apply Hok.
    - unfold getState in Hstate. rewrite Hs in Hstate. injection Hstate as <-.
      eexists. split; [reflexivity |]. split; [| done].
      intros k structs'. cbn [clients setClients app].
      destruct (decide (k = client)) as [-> | Hk].
      + rewrite lookup_insert_eq. intros [= <-]. exists (Struct.endClock s).
        apply client_log_spans. split; [done |]. split; [by split |].
        split; apply Forall_singleton; [simpl; lia | done].
      + rewrite lookup_insert_ne by done. apply Hok. }
  exists store'. split; [done |]. split; [done |]. split; [done |].
  destruct (addStruct_states store store' s Hadd) as [Hnew Hold].
  rewrite Hclient, Hclock, Hlen in Hnew. rewrite Hclient in Hold.
  split.
  - intros k st Hk. destruct (decide (k = client)) as [-> | Hne].
    + rewrite Hstate in Hk. injection Hk as <-. eexists. split; [exact Hnew | lia].
    + exists st. split; [by rewrite Hold | lia].
  - apply readiness_Skipped. eexists. split; [exact Hnew | lia].
Qed.

Lemma takeNext_total store queue :
  store_ok store -> exists next, takeNext store queue = Ret next.
Proof.
  intros Hok. induction queue as [| ref queue [next IH]]; [by eexists |].
  cbn [takeNext]. destruct (readiness_total store ref Hok) as [r ->].
  cbn [mbind Result_bind]. destruct r; [by eexists | by eexists |].
  rewrite IH. by eexists.
Qed.

Lemma takeNext_None store queue :
  takeNext store queue = Ret None ->
  Forall (fun ref => readiness store ref = Ret Waiting) queue.
Proof.
  induction queue as [| ref queue IH]; [by constructor |].
  cbn [takeNext]. destruct (readiness store ref) as [[| offset |] | |] eqn:Href; try done.
  cbn [mbind Result_bind].
  destruct (takeNext store queue) as [[[[x r] rest] |] | |]; try done.
  intros _. constructor; [done | by apply IH].
Qed.

Lemma takeNext_Some store queue ref r rest :
  takeNext store queue = Ret (Some (ref, r, rest)) ->
  readiness store ref = Ret r /\ r <> Waiting /\ ref ∈ queue /\
  S (length rest) = length queue /\
  (forall x, x ∈ queue -> x = ref \/ x ∈ rest) /\
  (forall x, x ∈ rest -> x ∈ queue).
Proof.
  revert rest. induction queue as [| y queue IH]; intros rest; [done |].
  cbn [takeNext]. destruct (readiness store y) as [[| offset |] | |] eqn:Hy; try done.
  - intros [= <- <- <-]. split; [done |]. split; [done |]. split; [by left |].
    split; [done |].
    split; [by intros x [-> | ?]%elem_of_cons; [left | right] | by right].
  - intros [= <- <- <-]. split; [done |]. split; [done |]. split; [by left |].
    split; [done |].
    split; [by intros x [-> | ?]%elem_of_cons; [left | right] | by right].
  - cbn [mbind Result_bind].
    destruct (takeNext store queue) as [[[[x r'] rest'] |] | |]; try done.
    intros [= -> -> <-].
    destruct (IH rest' eq_refl) as (Hr & Hne & Href & Hlen & Hin & Hout).
    split; [done |]. split; [done |]. split; [by right |]. split; [simpl; lia |].
    split.
    + intros z [-> | Hz]%elem_of_cons; [right; by left |].
      destruct (Hin z Hz); [by left | right; by right].
    + intros z [-> | Hz]%elem_of_cons; [by left | right; by apply Hout].
Qed.

(** The queue is resumed until every reference that is left waits; what
    was consumed lies below the local state. *)
Lemma tryResumePendingStructRefs_spec fuel : forall transaction store queue,
  store_ok store -> (length queue < fuel)%nat ->
  exists store' queue',
    tryResumePendingStructRefs computeItemParams fuel transaction store queue
    = Ret (transaction, store', queue') /\
    store_ok store' /\
    pendingDeleteReaders store' = pendingDeleteReaders store /\
    advances store store' /\
    Forall (fun ref => readiness store' ref = Ret Waiting) queue' /\
    (forall ref, ref ∈ queue -> ref ∈ queue' \/ readiness store' ref = Ret Skipped) /\
    (Forall (fun ref => readiness store ref = Ret Waiting \/
                        readiness store ref = Ret Skipped) queue ->
     store' = store).
Proof.
  induction fuel as [| fuel IH]; intros transaction store queue Hok Hfuel; [lia |].
  cbn [tryResumePendingStructRefs].
  destruct (takeNext_total store queue Hok) as [[[[ref r] rest] |] Hnext]; rewrite Hnext;
    cbn [mbind Result_bind].
  - destruct (takeNext_Some _ _ _ _ _ Hnext) as (Hr & Hne & Href & Hlen & Hin & Hout).
    destruct r as [| offset |]; [| | done].
    + destruct (IH transaction store rest Hok ltac:(lia))
        as (store' & queue' & -> & Hok' & Hp & Hadv & Hwait & Hdone & Hsame).
      exists store', queue'. split; [done |]. split; [done |]. split; [done |].
      split; [done |]. split; [done |].
      split.
      * intros x [-> | Hx]%Hin; [| by apply Hdone].
        right. by apply (readiness_Skipped_advances store).
      * intros Hall. apply Hsame. apply Forall_forall. intros x Hx%Hout.
        by apply (proj1 (Forall_forall _ _) Hall).
    + destruct (addStruct_ready store ref transaction offset Hok Hr)
        as (store1 & -> & Hok1 & Hp1 & Hadv1 & Hskip1).
      cbn [mbind Result_bind].
      destruct (IH transaction store1 rest Hok1 ltac:(lia))
        as (store' & queue' & -> & Hok' & Hp & Hadv & Hwait & Hdone & _).
      exists store', queue'. split; [done |]. split; [done |].
      split; [by rewrite Hp |]. split; [by eapply advances_trans |].
      split; [done |].
      split.
      * intros x [-> | Hx]%Hin; [| by apply Hdone].
        right. by apply (readiness_Skipped_advances store1).
      * intros Hall. exfalso.
        destruct (proj1 (Forall_forall _ _) Hall ref Href) as [H | H];
          rewrite Hr in H; discriminate H.
  - exists store, queue. split; [done |]. split; [done |]. split; [done |].
    split; [apply advances_refl |]. split; [by apply takeNext_None |].
    split; [by left | done].
Qed.

End Twice.

Lemma newStructStore_ok : store_ok newStructStore.
Proof. intros client structs H. cbn in H. by rewrite lookup_empty in H. Qed.

(** C3. Applying the same update message a second time leaves the store
    state as the first application left it.  After the first
    application every struct reference of the update lies below the
    local state or is parked with the pending references.  The second
    application returns; it leaves every client's struct array, and with
    them the state vector, as they were, and it records nothing in the
    transaction that runs it: a reference below the local state is
    skipped, a parked one waits as before, and every delete range finds
    the structs of its range split and deleted already.  The store is
    one whose arrays are contiguous logs from clock 0 on, which is what
    [addStruct] and [readDeleteSet] keep.  The queues of parked
    references and parked delete readers are not part of the statement:
    what the second application parks is parked already. *)
Theorem applyUpdate_twice
    (computeItemParams :
       Transaction -> StructStore -> option ID -> option ID -> option ID ->
       option string -> option string ->
       option ID * option ID * option TypeRef * option string)
    (update : Update) (transaction0 : Transaction) (store0 : StructStore)
    (pending0 : list ItemStringRef.t) (decoder1 : Decoder) (transaction1 : Transaction)
    (store1 : StructStore) (pending1 : list ItemStringRef.t) :
  store_ok store0 ->
  applyUpdate computeItemParams transaction0 store0 pending0 update
  = Ret (decoder1, transaction1, store1, pending1) ->
  (forall ref, ref ∈ structRefs update ->
     readiness store1 ref = Ret Skipped \/ ref ∈ pending1) /\
  forall transaction2, exists store2 pending2,
    applyUpdate computeItemParams transaction2 store1 pending1 update
    = Ret (decoder1, transaction2, store2, pending2) /\
    clients store2 = clients store1 /\
    getStateVector store2 = getStateVector store1.
Proof.
  intros Hok Hfirst. unfold applyUpdate, readStructs in Hfirst.
  destruct (tryResumePendingStructRefs_spec computeItemParams
              (S (length (pending0 ++ structRefs update))) transaction0 store0
              (pending0 ++ structRefs update) Hok ltac:(lia))
    as (store_s & pending_s & Hrun & Hok_s & _ & _ & Hwait & Hdone & _).
  rewrite Hrun in Hfirst. cbn [mbind Result_bind] in Hfirst.
  destruct (readDeleteSet (deleteSetSection update) transaction0 store_s)
    as [[[decoder transaction] store] | |] eqn:Hread; [| done | done].
  cbn [mbind Result_bind] in Hfirst. injection Hfirst as -> -> -> ->.
  destruct (readDeleteSet_twice _ _ _ _ _ _ Hok_s Hread)
    as (Hok1 & Href & parked & _ & Hagain).
  assert (forall k, getState store1 k = getState store_s k) as Hstates.
  { intros k. destruct (getState_store_ok store_s k Hok_s) as [state Hs]. rewrite Hs.
    by apply (getState_store_refines store_s). }
  assert (forall ref, ref ∈ structRefs update ->
            readiness store1 ref = Ret Skipped \/ ref ∈ pending1) as Hbelow.
  { intros ref Hin. rewrite (readiness_states store_s store1 ref Hstates).
    destruct (Hdone ref) as [? | ?]; [apply elem_of_app; by right | by right | by left]. }
  split; [exact Hbelow |].
  intros transaction2. unfold applyUpdate, readStructs.
  destruct (tryResumePendingStructRefs_spec computeItemParams
              (S (length (pending1 ++ structRefs update))) transaction2 store1
              (pending1 ++ structRefs update) Hok1 ltac:(lia))
    as (store' & pending2 & -> & _ & _ & _ & _ & _ & Hsame).
  rewrite Hsame.
  - cbn [mbind Result_bind]. rewrite Hagain. cbn [mbind Result_bind].
    eexists _, pending2. split; [reflexivity |]. split; [done |].
    unfold getStateVector. done.
  - assert (forall ref, ref ∈ pending1 -> readiness store1 ref = Ret Waiting) as Hw.
    { intros ref Hin. rewrite (readiness_states store_s store1 ref Hstates).
      by apply (proj1 (Forall_forall _ _) Hwait). }
    apply Forall_forall. intros ref [Hin | Hin]%elem_of_app.
    + left. by apply Hw.
    + destruct (Hbelow ref Hin) as [? | ?]; [by right | left; by apply Hw].
Qed.

Lemma applyUpdate_twice_witness :
  exists decoder1 transaction1 store1 xy,
    applyUpdate rootParams emptyTransaction newStructStore [] gapUpdate
    = Ret (decoder1, transaction1, store1, [xy]) /\
    ItemStringRef.id xy = createID 2 3 /\
    getStateVector store1 = Ret {[ 1 := 7 ]} /\
    exists store2 pending2,
      applyUpdate rootParams transaction1 store1 [xy] gapUpdate
      = Ret (decoder1, transaction1, store2, pending2) /\
      clients store2 = clients store1 /\
      getStateVector store2 = getStateVector store1.
Proof.
  destruct (applyUpdate rootParams emptyTransaction newStructStore [] gapUpdate)
    as [[[[decoder1 transaction1] store1] pending1] | |] eqn:Hfirst;
    [| vm_compute in Hfirst; discriminate Hfirst ..].
  assert (exists xy, pending1 = [xy] /\ ItemStringRef.id xy = createID 2 3 /\
            getStateVector store1 = Ret {[ 1 := 7 ]}) as (xy & -> & Hxy & Hsv).
  { vm_compute in Hfirst. injection Hfirst as <- <- <- <-.
    eexists. split; [reflexivity |]. split; [reflexivity |]. by vm_compute. }
  exists decoder1, transaction1, store1, xy. split; [reflexivity |].
  split; [exact Hxy |]. split; [exact Hsv |].
  exact (proj2 (applyUpdate_twice rootParams gapUpdate emptyTransaction newStructStore []
                  decoder1 transaction1 store1 [xy] newStructStore_ok Hfirst) transaction1).
Defined.

(** The update [gapUpdate] on an empty store: "abcdefg" is integrated,
    split at clock 5 and its tail deleted; "xy" waits for the clocks of
    client 2 below 3; the range [7, 10) is parked.  A second application
    parks "xy" and the range once more and changes nothing else. *)
Example applyUpdate_gapUpdate :
  exists transaction1 store1 xy l r,
    applyUpdate rootParams emptyTransaction newStructStore [] gapUpdate
    = Ret ([], transaction1, store1, [xy]) /\
    ItemStringRef.id xy = createID 2 3 /\
    clients store1 !! 1 = Some [ItemString l "abcde"; ItemString r "fg"] /\
    clients store1 !! 2 = None /\
    AbstractItem.deleted l = false /\ AbstractItem.deleted r = true /\
    Transaction.deleteSet transaction1 = DeleteSet.mk [(1, [DeleteItem.mk 5 2])] /\
    pendingDeleteReaders store1 = [[1; 1; 1; 7; 3]] /\
    exists store2,
      applyUpdate rootParams emptyTransaction store1 [xy] gapUpdate
      = Ret ([], emptyTransaction, store2, [xy; xy]) /\
      clients store2 = clients store1 /\
      pendingDeleteReaders store2 = [[1; 1; 1; 7; 3]; [1; 1; 1; 7; 3]].
Proof.
  destruct (applyUpdate rootParams emptyTransaction newStructStore [] gapUpdate)
    as [[[[decoder1 transaction1] store1] pending1] | |] eqn:Hfirst;
    vm_compute in Hfirst; [| discriminate Hfirst ..].
  injection Hfirst as <- <- <- <-.
  eexists _, _, _, _, _. split; [reflexivity |].
  do 7 (split; [vm_compute; reflexivity |]).
  eexists. vm_compute. repeat split.
Qed.
